(** * envmerge: the .env parser, serializer and merger, and the command

    A shallow embedding of [src/core/parser.ts] (parser and serializer), of
    the merger that follows it in the same source file, and of the backups,
    the writer and the command ([backup.ts], [writer.ts], [cli.ts]), with
    the properties the design document states about them and further
    properties of the code.

    Strings.  A JavaScript string is a sequence of 16-bit code units; a
    [string] of this development is a sequence of [ascii], each standing
    for the code unit of the same number (0..255).  All characters the
    source tests for by name are in that range. *)

From Stdlib Require Import Bool Arith Lia List Ascii String.
Import ListNotations.

Local Open Scope string_scope.
Local Open Scope list_scope.

(** ** Characters *)

Module Char.

Definition tab : ascii := "009"%char.
Definition lf : ascii := "010"%char.
Definition vt : ascii := "011"%char.
Definition ff : ascii := "012"%char.
Definition cr : ascii := "013"%char.
Definition space : ascii := " "%char.
Definition dquote : ascii := "034"%char.
Definition hash : ascii := "#"%char.
Definition squote : ascii := "'"%char.
Definition equal : ascii := "="%char.
Definition backslash : ascii := "\"%char.
Definition underscore : ascii := "_"%char.
Definition nbsp : ascii := "160"%char.

(** ECMAScript LineTerminator, the characters [.] does not match. *)
Definition isLineTerminator (c : ascii) : bool :=
  Ascii.eqb c lf || Ascii.eqb c cr.

(** ECMAScript WhiteSpace and LineTerminator: what [String.prototype.trim]
    strips and what [\s] matches. *)
Definition isSpace (c : ascii) : bool :=
  Ascii.eqb c tab || Ascii.eqb c lf || Ascii.eqb c vt || Ascii.eqb c ff
  || Ascii.eqb c cr || Ascii.eqb c space || Ascii.eqb c nbsp.

Definition between (lo hi : nat) (c : ascii) : bool :=
  Nat.leb lo (nat_of_ascii c) && Nat.leb (nat_of_ascii c) hi.

(** [[A-Za-z_]] *)
Definition isIdentStart (c : ascii) : bool :=
  between 65 90 c || between 97 122 c || Ascii.eqb c underscore.

(** [[A-Za-z0-9_]] *)
Definition isIdentChar (c : ascii) : bool :=
  isIdentStart c || between 48 57 c.

End Char.

(** ** The string operations of the source *)

Module Str.

Definition singleton (c : ascii) : string := String c EmptyString.

Definition nl : string := singleton Char.lf.
Definition dq : string := singleton Char.dquote.

Definition isEmpty (s : string) : bool :=
  match s with EmptyString => true | String _ _ => false end.

(** [s.includes(c)] for a one-character needle. *)
Fixpoint includes (c : ascii) (s : string) : bool :=
  match s with
  | EmptyString => false
  | String a t => Ascii.eqb a c || includes c t
  end.

(** [s.startsWith(c)] and [s.endsWith(c)] for a one-character needle. *)
Definition startsWith (c : ascii) (s : string) : bool :=
  match s with
  | EmptyString => false
  | String a _ => Ascii.eqb a c
  end.

Fixpoint endsWith (c : ascii) (s : string) : bool :=
  match s with
  | EmptyString => false
  | String a EmptyString => Ascii.eqb a c
  | String _ t => endsWith c t
  end.

Fixpoint dropWhile (p : ascii -> bool) (s : string) : string :=
  match s with
  | EmptyString => EmptyString
  | String a t => if p a then dropWhile p t else s
  end.

Fixpoint takeWhile (p : ascii -> bool) (s : string) : string :=
  match s with
  | EmptyString => EmptyString
  | String a t => if p a then String a (takeWhile p t) else EmptyString
  end.

Fixpoint all (p : ascii -> bool) (s : string) : bool :=
  match s with
  | EmptyString => true
  | String a t => p a && all p t
  end.

Definition trimStart (s : string) : string := dropWhile Char.isSpace s.

Fixpoint trimEnd (s : string) : string :=
  match s with
  | EmptyString => EmptyString
  | String a t =>
      match trimEnd t with
      | EmptyString => if Char.isSpace a then EmptyString else singleton a
      | r => String a r
      end
  end.

(** [s.trim()] *)
Definition trim (s : string) : string := trimEnd (trimStart s).

Fixpoint dropLast (s : string) : string :=
  match s with
  | EmptyString => EmptyString
  | String _ EmptyString => EmptyString
  | String a t => String a (dropLast t)
  end.

(** [s.slice(1, -1)]: empty when [s] has fewer than two characters. *)
Definition slice1 (s : string) : string :=
  match s with
  | EmptyString => EmptyString
  | String _ t => dropLast t
  end.

(** [s.replace(/c/g, rep)] for a one-character pattern. *)
Fixpoint replace1 (c : ascii) (rep : string) (s : string) : string :=
  match s with
  | EmptyString => EmptyString
  | String a t =>
      if Ascii.eqb a c then rep ++ replace1 c rep t
      else String a (replace1 c rep t)
  end.

(** [s.replace(/c1c2/g, rep)] for a two-character pattern: matches are
    taken leftmost first and do not overlap. *)
Fixpoint replace2 (c1 c2 : ascii) (rep : string) (s : string) : string :=
  match s with
  | EmptyString => EmptyString
  | String a t =>
      match t with
      | EmptyString => s
      | String b u =>
          if Ascii.eqb a c1 && Ascii.eqb b c2 then rep ++ replace2 c1 c2 rep u
          else String a (replace2 c1 c2 rep t)
      end
  end.

(** [s.split(/\r?\n/)]: always at least one piece. *)
Fixpoint splitLines (s : string) : list string :=
  match s with
  | EmptyString => [EmptyString]
  | String a t =>
      if Ascii.eqb a Char.lf then EmptyString :: splitLines t
      else
        match t with
        | String b u =>
            if Ascii.eqb a Char.cr && Ascii.eqb b Char.lf
            then EmptyString :: splitLines u
            else
              match splitLines t with
              | l :: ls => String a l :: ls
              | [] => [singleton a]
              end
        | EmptyString => [singleton a]
        end
  end.

(** [parts.join(sep)] *)
Fixpoint join (sep : string) (parts : list string) : string :=
  match parts with
  | [] => EmptyString
  | [p] => p
  | p :: ps => p ++ sep ++ join sep ps
  end.

End Str.

(** ** Parser ([parser.ts]) *)

(** [type Line] *)
Inductive Line : Type :=
  | LComment (content : string)
  | LEmpty
  | LVariable (key value raw : string).

(** [type Block] of [types.ts], without the [next] link: a document (a head
    reference, [null] for no node) is the list of its nodes in link order,
    [[]] standing for [null]. *)
Inductive Block : Type :=
  | BComment (lines : list string)
  | BEmpty
  | BVariable (key value raw : string) (comments : list string).

Definition Document : Type := list Block.

(** [unquoteValue] *)
Definition unquoteValue (value : string) : string :=
  let trimmed := Str.trim value in
  if Str.startsWith Char.squote trimmed && Str.endsWith Char.squote trimmed
  then Str.slice1 trimmed
  else if Str.startsWith Char.dquote trimmed && Str.endsWith Char.dquote trimmed
  then
    Str.replace2 Char.backslash Char.dquote Str.dq
      (Str.replace2 Char.backslash Char.backslash (Str.singleton Char.backslash)
        (Str.replace2 Char.backslash "t"%char (Str.singleton Char.tab)
          (Str.replace2 Char.backslash "r"%char (Str.singleton Char.cr)
            (Str.replace2 Char.backslash "n"%char (Str.singleton Char.lf)
              (Str.slice1 trimmed)))))
  else trimmed.

(** The test that opens [quoteValue]. *)
Definition needsQuotes (value : string) : bool :=
  Str.includes Char.space value || Str.includes Char.lf value
  || Str.includes Char.cr value || Str.includes Char.tab value
  || Str.includes Char.hash value || Str.includes Char.dquote value
  || Str.includes Char.squote value || Str.includes Char.backslash value.

(** The escaping chain of [quoteValue].  A Rocq string literal has no
    escape sequences: ["\t"] below is the two characters backslash and t. *)
Definition escapeValue (value : string) : string :=
  Str.replace1 Char.tab "\t"
    (Str.replace1 Char.cr "\r"
      (Str.replace1 Char.lf "\n"
        (Str.replace1 Char.dquote (String Char.backslash Str.dq)
          (Str.replace1 Char.backslash "\\" value)))).

(** [quoteValue] *)
Definition quoteValue (value : string) : string :=
  if needsQuotes value then Str.dq ++ escapeValue value ++ Str.dq
  else value.

(** The [line.match] of [parseLine], whose pattern is: start of line, a
    first group [[A-Za-z_][A-Za-z0-9_]*], blanks [\s*], [=], blanks [\s*], a
    second group of any characters but line terminators, end of line.  It
    gives the two capture groups, or [None] when the line does not match.
    Every quantifier of the pattern is greedy and is followed by a
    character it cannot match itself ([=] after the key and after the first
    blanks) or by the end of the line, so the first match the backtracking
    search finds is the one with every group as long as possible, and
    there is no other. *)
Definition matchVariable (line : string) : option (string * string) :=
  if match line with String c _ => Char.isIdentStart c | _ => false end
  then
    let key := Str.takeWhile Char.isIdentChar line in
    match Str.dropWhile Char.isSpace (Str.dropWhile Char.isIdentChar line) with
    | String c rest =>
        if Ascii.eqb c Char.equal then
          let value := Str.dropWhile Char.isSpace rest in
          if Str.all (fun a => negb (Char.isLineTerminator a)) value
          then Some (key, value)
          else None
        else None
    | EmptyString => None
    end
  else None.

(** [parseLine] *)
Definition parseLine (line : string) : Line :=
  let trimmed := Str.trim line in
  if Str.isEmpty trimmed then LEmpty
  else if Str.startsWith Char.hash trimmed then LComment line
  else
    match matchVariable line with
    | Some (key, value) => LVariable key (unquoteValue value) line
    | None => LComment line
    end.

(** The mutable locals of [parseBlocks]: the chain built so far ([head]
    to [current], to which blocks are only ever appended), and the three
    variables of the scan. *)
Record ScanState : Type := mkScan {
  emitted : list Block;
  pendingComments : list string;
  consecutiveEmptyLines : nat;
  hasEmptyLineAfterComment : bool
}.

Definition initScan : ScanState := mkScan [] [] 0 false.

(** [isNextNonEmptyComment(i)], on the lines after index [i]. *)
Fixpoint isNextNonEmptyComment (rest : list Line) : bool :=
  match rest with
  | [] => false
  | LComment _ :: _ => true
  | LVariable _ _ _ :: _ => false
  | LEmpty :: rest' => isNextNonEmptyComment rest'
  end.

(** One iteration of the [for] loop of [parseBlocks], at a line followed by
    the lines [rest]. *)
Definition scanStep (line : Line) (rest : list Line) (st : ScanState)
  : ScanState :=
  match line with
  | LVariable key value raw =>
      mkScan (emitted st ++ [BVariable key value raw (pendingComments st)])
             [] 0 false
  | LComment content =>
      if negb (Nat.eqb (List.length (pendingComments st)) 0)
         && hasEmptyLineAfterComment st
      then mkScan (emitted st ++ [BComment (pendingComments st)])
                  [content] 0 false
      else mkScan (emitted st) (pendingComments st ++ [content]) 0
                  (hasEmptyLineAfterComment st)
  | LEmpty =>
      if negb (Nat.eqb (List.length (pendingComments st)) 0) then
        if isNextNonEmptyComment rest then
          if Nat.eqb (consecutiveEmptyLines st) 0
          then mkScan (emitted st) (pendingComments st ++ [EmptyString])
                      (S (consecutiveEmptyLines st)) true
          else mkScan (emitted st) (pendingComments st)
                      (S (consecutiveEmptyLines st))
                      (hasEmptyLineAfterComment st)
        else
          if Nat.eqb (consecutiveEmptyLines st) 0
          then mkScan (emitted st ++ [BComment (pendingComments st); BEmpty])
                      [] (S (consecutiveEmptyLines st)) false
          else mkScan (emitted st) (pendingComments st)
                      (S (consecutiveEmptyLines st))
                      (hasEmptyLineAfterComment st)
      else
        if Nat.eqb (consecutiveEmptyLines st) 0
        then mkScan (emitted st ++ [BEmpty]) (pendingComments st)
                    (S (consecutiveEmptyLines st))
                    (hasEmptyLineAfterComment st)
        else mkScan (emitted st) (pendingComments st)
                    (S (consecutiveEmptyLines st))
                    (hasEmptyLineAfterComment st)
  end.

Fixpoint scan (lines : list Line) (st : ScanState) : ScanState :=
  match lines with
  | [] => st
  | line :: rest => scan rest (scanStep line rest st)
  end.

(** The trailing-comments step after the loop. *)
Definition finishScan (st : ScanState) : Document :=
  if negb (Nat.eqb (List.length (pendingComments st)) 0)
  then emitted st ++ [BComment (pendingComments st)]
  else emitted st.

(** [parseBlocks] *)
Definition parseBlocks (lines : list Line) : Document :=
  finishScan (scan lines initScan).

(** [parseEnvFile] *)
Definition parseEnvFile (content : string) : Document :=
  parseBlocks (map parseLine (Str.splitLines content)).

(** [serializeBlocks] *)
Fixpoint serializeBlocks (head : Document) : list Line :=
  match head with
  | [] => []
  | BVariable key value raw comments :: next =>
      map LComment comments ++ LVariable key value raw :: serializeBlocks next
  | BComment lines :: next => map LComment lines ++ serializeBlocks next
  | BEmpty :: next => LEmpty :: serializeBlocks next
  end.

Definition renderLine (line : Line) : string :=
  match line with
  | LComment content => content
  | LEmpty => EmptyString
  | LVariable key value _ => key ++ "=" ++ quoteValue value
  end.

(** [serializeToString] *)
Definition serializeToString (head : Document) : string :=
  Str.join Str.nl (map renderLine (serializeBlocks head)).

(** ** Merger

    The merger works on the linked chain of a base document, which it
    mutates in place, and only reads the chain of the source document.  For
    two documents that share no node (two results of [parseEnvFile], or a
    merge result and a further parse result) the chain of the base is
    modelled by the list of its nodes and a reference to one of its nodes
    by the position of that node in the list.  The merger on linked nodes
    of [Linked] returns the same documents on such chains
    ([LinkedRefinement.mergeFresh_refines]). *)

Definition isVariableBlock (block : Block) : bool :=
  match block with BVariable _ _ _ _ => true | _ => false end.

Definition isCommentBlock (block : Block) : bool :=
  match block with BComment _ => true | _ => false end.

(** [appendToTail] *)
Definition appendToTail (head : Document) (blockToAppend : Block) : Document :=
  head ++ [blockToAppend].

(** [insertBefore]: [targetBlock] is the position of the target node; a
    position past the end is a target that is not in the chain, for which
    the source appends. *)
Definition insertBefore (head : Document) (targetBlock : nat)
    (blockToInsert : Block) : Document :=
  match head with
  | [] => [blockToInsert]
  | _ => firstn targetBlock head ++ blockToInsert :: skipn targetBlock head
  end.

(** [findVariableBlock]: the position of the first variable node with the
    key. *)
Fixpoint findVariableBlock (head : Document) (key : string) : option nat :=
  match head with
  | [] => None
  | BVariable k _ _ _ :: next =>
      if String.eqb k key then Some 0
      else option_map S (findVariableBlock next key)
  | _ :: next => option_map S (findVariableBlock next key)
  end.

(** The node [findVariableBlock] returns, for reading its fields. *)
Definition findVariable (head : Document) (key : string) : option Block :=
  match findVariableBlock head key with
  | Some i => nth_error head i
  | None => None
  end.

(** [findNextVariable], on the chain [next] that follows the block. *)
Fixpoint findNextVariable (next : Document) : option Block :=
  match next with
  | [] => None
  | BVariable k v r c :: _ => Some (BVariable k v r c)
  | _ :: next' => findNextVariable next'
  end.

(** [findIntersectionPoint] *)
Fixpoint findIntersectionPoint (sourceStart base : Document) : option nat :=
  match sourceStart with
  | [] => None
  | BVariable k _ _ _ :: next =>
      match findVariableBlock base k with
      | Some baseBlock => Some baseBlock
      | None => findIntersectionPoint next base
      end
  | _ :: next => findIntersectionPoint next base
  end.

Definition eqbLines (a b : list string) : bool :=
  String.eqb (Str.trim (Str.join Str.nl a)) (Str.trim (Str.join Str.nl b)).

(** [areBlocksEqual] *)
Definition areBlocksEqual (a b : option Block) : bool :=
  match a, b with
  | Some (BComment la), Some (BComment lb) => eqbLines la lb
  | Some BEmpty, Some BEmpty => true
  | Some (BVariable ka va _ _), Some (BVariable kb vb _ _) =>
      String.eqb ka kb && String.eqb va vb
  | _, _ => false
  end.

(** The backward walk of [hasCommentBlockBefore], on the nodes before the
    point, nearest first: the nearest node that is not an empty block. *)
Fixpoint skipEmptyBlocks (before : list Block) : option Block :=
  match before with
  | [] => None
  | BEmpty :: before' => skipEmptyBlocks before'
  | b :: _ => Some b
  end.

(** [hasCommentBlockBefore] *)
Definition hasCommentBlockBefore (head : Document) (point : nat)
    (comment : Block) : bool :=
  if Nat.ltb point (List.length head)
  then areBlocksEqual (skipEmptyBlocks (rev (firstn point head))) (Some comment)
  else false.

(** [insertCommentBlock]; [next] is the chain after [comment] in the source
    document. *)
Definition insertCommentBlock (head : Document) (comment : Block)
    (next : Document) : Document :=
  let node := comment in
  let atTail :=
    if hasCommentBlockBefore head 0 comment then head
    else appendToTail head node in
  match findNextVariable next with
  | Some (BVariable key _ _ _) =>
      match findVariableBlock head key with
      | Some point =>
          if negb (hasCommentBlockBefore head point comment)
          then insertBefore head point node
          else head
      | None => atTail
      end
  | _ => atTail
  end.

(** The three assignments of the branch "Update existing variable". *)
Definition updateVariable (baseBlock : Block) (value : string)
    (comments : list string) : Block :=
  match baseBlock with
  | BVariable key _ _ _ =>
      BVariable key value (key ++ "=" ++ quoteValue value) comments
  | b => b
  end.

Fixpoint updateAt (i : nat) (f : Block -> Block) (head : Document) : Document :=
  match head, i with
  | [], _ => []
  | b :: next, 0 => f b :: next
  | b :: next, S i' => b :: updateAt i' f next
  end.

(** The first loop of [mergeTwo], from the node [current] on. *)
Fixpoint mergeVariables (head : Document) (current : Document) : Document :=
  match current with
  | [] => head
  | BVariable key value raw comments :: next =>
      match findVariableBlock head key with
      | Some baseBlock =>
          mergeVariables
            (updateAt baseBlock (fun b => updateVariable b value comments) head)
            next
      | None =>
          let newNode := BVariable key value raw comments in
          match findIntersectionPoint next head with
          | Some point => mergeVariables (insertBefore head point newNode) next
          | None => mergeVariables (appendToTail head newNode) next
          end
      end
  | _ :: next => mergeVariables head next
  end.

(** The second loop of [mergeTwo]. *)
Fixpoint mergeComments (head : Document) (current : Document) : Document :=
  match current with
  | [] => head
  | BComment lines :: next =>
      mergeComments (insertCommentBlock head (BComment lines) next) next
  | _ :: next => mergeComments head next
  end.

(** [mergeTwo] *)
Definition mergeTwo (base source : Document) : Document :=
  mergeComments (mergeVariables base source) source.

Definition isNull (d : Document) : bool :=
  match d with [] => true | _ => false end.

(** [mergeSources] *)
Definition mergeSources (sources : list Document) : Document :=
  match filter (fun s => negb (isNull s)) sources with
  | [] => []
  | first :: rest => fold_left mergeTwo rest first
  end.

(** ** Vocabulary of the properties *)

(** Every comment text a document holds: the lines of its comment blocks
    and the comments attached to its variables, in document order. *)
Fixpoint commentTexts (d : Document) : list string :=
  match d with
  | [] => []
  | BComment lines :: next => lines ++ commentTexts next
  | BVariable _ _ _ comments :: next => comments ++ commentTexts next
  | BEmpty :: next => commentTexts next
  end.

(** The language of the variable pattern, stated on its own: an identifier,
    blanks, [=], blanks, and a rest without line terminators. *)
Definition matchesVariablePattern (line : string) : Prop :=
  exists c k w1 w2 v,
    line = (String c k ++ w1 ++ "=" ++ w2 ++ v)%string
    /\ Char.isIdentStart c = true
    /\ Str.all Char.isIdentChar k = true
    /\ Str.all Char.isSpace w1 = true
    /\ Str.all Char.isSpace w2 = true
    /\ Str.all (fun a => negb (Char.isLineTerminator a)) v = true.

(** The iterations of the loop of [parseBlocks] over the lines [lines] when
    the lines [rest] follow them: a scan stopped before [rest]. *)
Fixpoint scanUpTo (lines rest : list Line) (st : ScanState) : ScanState :=
  match lines with
  | [] => st
  | line :: lines' => scanUpTo lines' rest (scanStep line (lines' ++ rest) st)
  end.

Definition isEmptyLine (line : Line) : bool :=
  match line with LEmpty => true | _ => false end.

(** A run of blank lines is maximal between [pre] and [post]. *)
Definition endsWithEmptyLine (pre : list Line) : bool :=
  match rev pre with l :: _ => isEmptyLine l | [] => false end.

Definition startsWithEmptyLine (post : list Line) : bool :=
  match post with l :: _ => isEmptyLine l | [] => false end.

Definition isEmptyBlock (block : Block) : bool :=
  match block with BEmpty => true | _ => false end.

Definition countEmptyBlocks (d : Document) : nat :=
  List.length (filter isEmptyBlock d).

(** Two scan states that differ at most in the value of a counter of blank
    lines that is not zero in either. *)
Definition sameUpToCount (st1 st2 : ScanState) : Prop :=
  emitted st1 = emitted st2
  /\ pendingComments st1 = pendingComments st2
  /\ hasEmptyLineAfterComment st1 = hasEmptyLineAfterComment st2
  /\ Nat.eqb (consecutiveEmptyLines st1) 0 = Nat.eqb (consecutiveEmptyLines st2) 0.

(** The key of a variable block. *)
Definition keyOf (block : Block) : option string :=
  match block with BVariable k _ _ _ => Some k | _ => None end.

Definition hasKey (key : string) (block : Block) : bool :=
  match block with BVariable k _ _ _ => String.eqb k key | _ => false end.

(** The keys of the variables of a document, in document order. *)
Fixpoint varKeys (d : Document) : list string :=
  match d with
  | [] => []
  | BVariable k _ _ _ :: next => k :: varKeys next
  | _ :: next => varKeys next
  end.

(** The rightmost definition of a key in a document. *)
Fixpoint lastVariable (d : Document) (key : string) : option Block :=
  match d with
  | [] => None
  | b :: next =>
      match lastVariable next key with
      | Some b' => Some b'
      | None => if hasKey key b then Some b else None
      end
  end.

Definition valueOf (block : Block) : option string :=
  match block with BVariable _ v _ _ => Some v | _ => None end.

Definition nonNull (sources : list Document) : list Document :=
  filter (fun s => negb (isNull s)) sources.

(** What holds of the raw field of a variable block: it is the
    serializable form regenerated from the key and the quoted value, or a
    line that parses to that key and value. *)
Definition rawIsFaithful (block : Block) : Prop :=
  match block with
  | BVariable k v r _ =>
      r = (k ++ "=" ++ quoteValue v)%string \/ parseLine r = LVariable k v r
  | _ => True
  end.

Definition memKey (keys : list string) (k : string) : bool :=
  existsb (String.eqb k) keys.

(** Scanning forward in the source from the node after a variable: the key
    of the first variable that the base defines too. *)
Definition firstSharedKey (next base : Document) : option string :=
  find (memKey (varKeys base)) (varKeys next).

(** The keys that come before the first occurrence of [k]. *)
Fixpoint keysBefore (k : string) (keys : list string) : list string :=
  match keys with
  | [] => []
  | h :: t => if String.eqb h k then [] else h :: keysBefore k t
  end.

(** The keys two documents share come in the same order in both. *)
Definition sharedOrder (base source : Document) : Prop :=
  filter (memKey (varKeys source)) (varKeys base)
  = filter (memKey (varKeys base)) (varKeys source).

(** No key of [source] that [base] has comes, in [base], before a key that
    precedes it in [source]. *)
Fixpoint ordered (base source : list string) : Prop :=
  match source with
  | [] => True
  | k :: rest =>
      (In k base -> forall y, In y rest -> ~ In y (keysBefore k base))
      /\ ordered base rest
  end.

(** The keys that are not among [keys]. *)
Definition notIn (keys : list string) (k : string) : bool :=
  negb (memKey keys k).

(** Every pair of neighbours of a string satisfies [p]. *)
Fixpoint allPairs (p : ascii -> ascii -> bool) (s : string) : bool :=
  match s with
  | EmptyString => true
  | String a t =>
      match t with
      | EmptyString => true
      | String b _ => p a b && allPairs p t
      end
  end.

(** No backslash of the value is followed by one of the letters [n], [r]
    and [t]: the three letters that make the unescaping read an escaped
    backslash and a letter as the escape of a control character. *)
Definition noAmbiguousEscape (value : string) : bool :=
  allPairs (fun a b =>
              negb (Ascii.eqb a Char.backslash
                    && (Ascii.eqb b "n" || Ascii.eqb b "r" || Ascii.eqb b "t")))
           value.

(** The values that survive quoting and decoding. *)
Definition roundTrips (value : string) : Prop :=
  noAmbiguousEscape value = true
  /\ (needsQuotes value = true \/ Str.trim value = value).

Fixpoint flatMap (f : ascii -> string) (s : string) : string :=
  match s with
  | EmptyString => EmptyString
  | String a t => (f a ++ flatMap f t)%string
  end.

(** What stands for one character of a value while it is escaped or
    unescaped; each flag tells whether that character is written as its
    escape sequence. *)
Definition escapeToken (bs dq lf cr tab : bool) (c : ascii) : string :=
  if Ascii.eqb c Char.backslash then
    if bs then "\\" else Str.singleton c
  else if Ascii.eqb c Char.dquote then
    if dq then String Char.backslash Str.dq else Str.singleton c
  else if Ascii.eqb c Char.lf then
    if lf then "\n" else Str.singleton c
  else if Ascii.eqb c Char.cr then
    if cr then "\r" else Str.singleton c
  else if Ascii.eqb c Char.tab then
    if tab then "\t" else Str.singleton c
  else Str.singleton c.

Definition isPattern (a b : ascii) (s : string) : bool :=
  String.eqb s (String a (String b EmptyString)).

(** The chain of replacements of [unquoteValue]. *)
Definition unescapeValue (s : string) : string :=
  Str.replace2 Char.backslash Char.dquote Str.dq
    (Str.replace2 Char.backslash Char.backslash (Str.singleton Char.backslash)
      (Str.replace2 Char.backslash "t"%char (Str.singleton Char.tab)
        (Str.replace2 Char.backslash "r"%char (Str.singleton Char.cr)
          (Str.replace2 Char.backslash "n"%char (Str.singleton Char.lf) s)))).

(** A variable block with its raw field regenerated. *)
Definition normalizeRaw (block : Block) : Block :=
  match block with
  | BVariable k v _ c => BVariable k v (k ++ "=" ++ quoteValue v) c
  | b => b
  end.

Definition normalizeLine (line : Line) : Line :=
  match line with
  | LVariable k v _ => LVariable k v (k ++ "=" ++ quoteValue v)
  | l => l
  end.

(** How a rendered line reads when it is parsed again: the empty-string
    marker of a comment block is a blank line. *)
Definition reparse (line : Line) : Line :=
  match line with
  | LComment EmptyString => LEmpty
  | LVariable k v _ => LVariable k v (k ++ "=" ++ quoteValue v)
  | l => l
  end.

(** The lines of a file with every run of blank lines cut to one;
    [afterEmpty] tells that the line before is blank. *)
Fixpoint compress (afterEmpty : bool) (lines : list Line) : list Line :=
  match lines with
  | [] => []
  | LEmpty :: rest =>
      if afterEmpty then compress true rest else LEmpty :: compress true rest
  | line :: rest => line :: compress false rest
  end.

(** The lines a scan state renders to: those of the emitted blocks and the
    pending comments. *)
Definition shown (st : ScanState) : list Line :=
  map reparse (serializeBlocks (emitted st))
  ++ map reparse (map LComment (pendingComments st)).

Definition normalizeState (st : ScanState) : ScanState :=
  mkScan (map normalizeRaw (emitted st)) (pendingComments st)
         (consecutiveEmptyLines st) (hasEmptyLineAfterComment st).

(** ** The merger on linked nodes

    The source keeps a document as a chain of nodes linked by [next] and
    the merger splices and overwrites the nodes of the base in place.
    This is the same merger on a store of nodes, for the calls where the
    base and the source share nodes.  A reference is an address in the
    store, [None] is [null]; nodes are never freed.  Every [while] loop
    takes fuel, and a run ends with a result and a store, runs out of fuel,
    or dereferences an address that is not in the store. *)

Module Linked.

Record Node : Type := mkNode { block : Block; next : option nat }.

Definition Store : Type := list Node.

Inductive Run (A : Type) : Type :=
  | Return (a : A) (h : Store)
  | OutOfFuel
  | Fault.

Arguments Return {A} a h.
Arguments OutOfFuel {A}.
Arguments Fault {A}.

Definition M (A : Type) : Type := Store -> Run A.

Definition ret {A} (a : A) : M A := fun h => Return a h.

Definition bind {A B} (m : M A) (k : A -> M B) : M B :=
  fun h =>
    match m h with
    | Return a h' => k a h'
    | OutOfFuel => OutOfFuel
    | Fault => Fault
    end.

Notation "x <- m ;; k" := (bind m (fun x => k))
  (at level 61, m at next level, right associativity).
Notation "m ;;; k" := (bind m (fun _ => k))
  (at level 61, right associativity).

Definition outOfFuel {A} : M A := fun _ => OutOfFuel.

Definition load (p : nat) : M Node :=
  fun h => match nth_error h p with Some n => Return n h | None => Fault end.

Fixpoint replaceAt (p : nat) (n : Node) (h : Store) : Store :=
  match h, p with
  | [], _ => []
  | _ :: t, 0 => n :: t
  | x :: t, S p' => x :: replaceAt p' n t
  end.

Definition store (p : nat) (n : Node) : M unit :=
  fun h => if Nat.ltb p (List.length h) then Return tt (replaceAt p n h)
           else Fault.

Definition setNext (p : nat) (nx : option nat) : M unit :=
  n <- load p ;; store p (mkNode (block n) nx).

Definition setBlock (p : nat) (b : Block) : M unit :=
  n <- load p ;; store p (mkNode b (next n)).

(** A new node [{ ...b, next: null }]. *)
Definition alloc (b : Block) : M nat :=
  fun h => Return (List.length h) (h ++ [mkNode b None]).

(** The loop of [appendToTail]: the last node of the chain. *)
Fixpoint findTail (fuel : nat) (tail : nat) : M nat :=
  match fuel with
  | 0 => outOfFuel
  | S fuel' =>
      n <- load tail ;;
      match next n with
      | Some t => findTail fuel' t
      | None => ret tail
      end
  end.

(** [appendToTail] *)
Definition appendToTail (fuel : nat) (head blockToAppend : nat) : M unit :=
  tail <- findTail fuel head ;;
  setNext tail (Some blockToAppend) ;;;
  setNext blockToAppend None.

(** The loop of [insertBefore]. *)
Fixpoint insertBeforeLoop (fuel : nat) (head current targetBlock
    blockToInsert : nat) : M nat :=
  match fuel with
  | 0 => outOfFuel
  | S fuel' =>
      n <- load current ;;
      match next n with
      | Some nx =>
          if Nat.eqb nx targetBlock then
            setNext blockToInsert (Some nx) ;;;
            setNext current (Some blockToInsert) ;;;
            ret head
          else insertBeforeLoop fuel' head nx targetBlock blockToInsert
      | None =>
          setNext current (Some blockToInsert) ;;;
          setNext blockToInsert None ;;;
          ret head
      end
  end.

(** [insertBefore] *)
Definition insertBefore (fuel : nat) (head : option nat)
    (targetBlock blockToInsert : nat) : M nat :=
  match head with
  | None => ret blockToInsert
  | Some hd =>
      if Nat.eqb hd targetBlock then
        setNext blockToInsert (Some hd) ;;; ret blockToInsert
      else insertBeforeLoop fuel hd hd targetBlock blockToInsert
  end.

(** [findVariableBlock] *)
Fixpoint findVariableBlock (fuel : nat) (current : option nat) (key : string)
  : M (option nat) :=
  match fuel with
  | 0 => outOfFuel
  | S fuel' =>
      match current with
      | None => ret None
      | Some p =>
          n <- load p ;;
          if hasKey key (block n) then ret (Some p)
          else findVariableBlock fuel' (next n) key
      end
  end.

(** The loop of [findNextVariable]. *)
Fixpoint firstVariable (fuel : nat) (current : option nat) : M (option nat) :=
  match fuel with
  | 0 => outOfFuel
  | S fuel' =>
      match current with
      | None => ret None
      | Some p =>
          n <- load p ;;
          if isVariableBlock (block n) then ret (Some p)
          else firstVariable fuel' (next n)
      end
  end.

(** [findNextVariable] *)
Definition findNextVariable (fuel : nat) (blk : nat) : M (option nat) :=
  n <- load blk ;; firstVariable fuel (next n).

(** [findIntersectionPoint] *)
Fixpoint findIntersectionPoint (fuel : nat) (current base : option nat)
  : M (option nat) :=
  match fuel with
  | 0 => outOfFuel
  | S fuel' =>
      match current with
      | None => ret None
      | Some p =>
          n <- load p ;;
          match block n with
          | BVariable key _ _ _ =>
              baseBlock <- findVariableBlock fuel' base key ;;
              match baseBlock with
              | Some b => ret (Some b)
              | None => findIntersectionPoint fuel' (next n) base
              end
          | _ => findIntersectionPoint fuel' (next n) base
          end
      end
  end.

(** The innermost loop of [hasCommentBlockBefore]: the node before
    [checkBlock] in the chain of [head]. *)
Fixpoint nodeBefore (fuel : nat) (temp beforeEmpty : option nat)
    (checkBlock : nat) : M (option nat) :=
  match fuel with
  | 0 => outOfFuel
  | S fuel' =>
      match temp with
      | None => ret beforeEmpty
      | Some t =>
          if Nat.eqb t checkBlock then ret beforeEmpty
          else n <- load t ;; nodeBefore fuel' (next n) (Some t) checkBlock
      end
  end.

(** The loop that walks backward over the empty blocks. *)
Fixpoint skipEmptyBack (fuel : nat) (head : nat) (checkBlock : option nat)
  : M (option nat) :=
  match fuel with
  | 0 => outOfFuel
  | S fuel' =>
      match checkBlock with
      | None => ret None
      | Some q =>
          n <- load q ;;
          if isEmptyBlock (block n) then
            before <- nodeBefore fuel' (Some head) None q ;;
            skipEmptyBack fuel' head before
          else ret (Some q)
      end
  end.

Definition blockAt (p : option nat) : M (option Block) :=
  match p with
  | None => ret None
  | Some q => n <- load q ;; ret (Some (block n))
  end.

(** [hasCommentBlockBefore], from the node [current] on with [prev] the
    node before it. *)
Fixpoint hasCommentBlockBefore (fuel : nat) (head : nat)
    (current prev : option nat) (point comment : nat) : M bool :=
  match fuel with
  | 0 => outOfFuel
  | S fuel' =>
      match current with
      | None => ret false
      | Some p =>
          if Nat.eqb p point then
            checkBlock <- skipEmptyBack fuel' head prev ;;
            a <- blockAt checkBlock ;;
            b <- blockAt (Some comment) ;;
            ret (areBlocksEqual a b)
          else
            n <- load p ;;
            hasCommentBlockBefore fuel' head (next n) (Some p) point comment
      end
  end.

(** [insertCommentBlock] *)
Definition insertCommentBlock (fuel : nat) (head comment : nat) : M nat :=
  c <- load comment ;;
  node <- alloc (block c) ;;
  let atTail :=
    present <- hasCommentBlockBefore fuel head (Some head) None head comment ;;
    if present then ret head
    else appendToTail fuel head node ;;; ret head in
  variable <- findNextVariable fuel comment ;;
  match variable with
  | Some v =>
      vn <- load v ;;
      match keyOf (block vn) with
      | Some key =>
          point <- findVariableBlock fuel (Some head) key ;;
          match point with
          | Some pt =>
              present <-
                hasCommentBlockBefore fuel head (Some head) None pt comment ;;
              if negb present then insertBefore fuel (Some head) pt node
              else ret head
          | None => atTail
          end
      | None => atTail
      end
  | None => atTail
  end.

(** The first loop of [mergeTwo]; [current.next] is read at the end of
    each iteration, after the splices of the iteration. *)
Fixpoint mergeVariables (fuel : nat) (head : nat) (current : option nat)
  : M nat :=
  match fuel with
  | 0 => outOfFuel
  | S fuel' =>
      match current with
      | None => ret head
      | Some p =>
          n <- load p ;;
          match block n with
          | BVariable key value raw comments =>
              baseBlock <- findVariableBlock fuel' (Some head) key ;;
              head' <-
                match baseBlock with
                | Some b =>
                    bn <- load b ;;
                    setBlock b (updateVariable (block bn) value comments) ;;;
                    ret head
                | None =>
                    newNode <- alloc (block n) ;;
                    point <- findIntersectionPoint fuel' (next n) (Some head) ;;
                    match point with
                    | Some pt => insertBefore fuel' (Some head) pt newNode
                    | None => appendToTail fuel' head newNode ;;; ret head
                    end
                end ;;
              n' <- load p ;;
              mergeVariables fuel' head' (next n')
          | _ => mergeVariables fuel' head (next n)
          end
      end
  end.

(** The second loop of [mergeTwo]. *)
Fixpoint mergeComments (fuel : nat) (head : nat) (current : option nat)
  : M nat :=
  match fuel with
  | 0 => outOfFuel
  | S fuel' =>
      match current with
      | None => ret head
      | Some p =>
          n <- load p ;;
          if isCommentBlock (block n) then
            head' <- insertCommentBlock fuel' head p ;;
            n' <- load p ;;
            mergeComments fuel' head' (next n')
          else mergeComments fuel' head (next n)
      end
  end.

(** [mergeTwo] *)
Definition mergeTwo (fuel : nat) (base source : nat) : M nat :=
  head <- mergeVariables fuel base (Some source) ;;
  mergeComments fuel head (Some source).

Fixpoint mergeAll (fuel : nat) (result : nat) (rest : list nat) : M nat :=
  match rest with
  | [] => ret result
  | s :: rest' => r <- mergeTwo fuel result s ;; mergeAll fuel r rest'
  end.

Fixpoint validSources (sources : list (option nat)) : list nat :=
  match sources with
  | [] => []
  | Some s :: rest => s :: validSources rest
  | None :: rest => validSources rest
  end.

(** [mergeSources] *)
Definition mergeSources (fuel : nat) (sources : list (option nat))
  : M (option nat) :=
  match validSources sources with
  | [] => ret None
  | first :: rest => r <- mergeAll fuel first rest ;; ret (Some r)
  end.

(** The chain a parser builds for a document, and the document a chain
    stands for. *)
Fixpoint build (d : Document) : M (option nat) :=
  match d with
  | [] => ret None
  | b :: rest =>
      p <- alloc b ;;
      r <- build rest ;;
      setNext p r ;;;
      ret (Some p)
  end.

Fixpoint read (fuel : nat) (current : option nat) : M Document :=
  match fuel with
  | 0 => outOfFuel
  | S fuel' =>
      match current with
      | None => ret []
      | Some p =>
          n <- load p ;;
          rest <- read fuel' (next n) ;;
          ret (block n :: rest)
      end
  end.

(** [serializeToString(mergeSources(mergeSources(a, b), a, b))] on the
    nodes of [a] and [b] themselves. *)
Definition mergeTwice (fuel : nat) (a b : Document) : M Document :=
  pa <- build a ;;
  pb <- build b ;;
  m <- mergeSources fuel [pa; pb] ;;
  m' <- mergeSources fuel [m; pa; pb] ;;
  read fuel m'.

(** A chain for each document of a list, in the order of the list. *)
Fixpoint buildAll (ds : list Document) : M (list (option nat)) :=
  match ds with
  | [] => ret []
  | d :: ds' => p <- build d ;; ps <- buildAll ds' ;; ret (p :: ps)
  end.

(** [mergeSources(a, b, ...)] on fresh chains for the documents. *)
Definition mergeFresh (fuel : nat) (sources : list Document) : M Document :=
  ps <- buildAll sources ;;
  m <- mergeSources fuel ps ;;
  read fuel m.

Definition result {A} (r : Run A) : option A :=
  match r with Return a _ => Some a | _ => None end.

(** The node [c] is on the chain that starts at [hd]. *)
Inductive Reach (h : Store) : nat -> nat -> Prop :=
  | reach_here (c : nat) : Reach h c c
  | reach_next (hd q c : nat) (n : Node) :
      nth_error h hd = Some n -> next n = Some q -> Reach h q c ->
      Reach h hd c.

(** The nodes at the addresses [ps] are linked one to the next from the
    reference [p] on and hold the blocks [d]; the last of them links to
    [q]. *)
Inductive Seg (h : Store)
  : option nat -> list nat -> Document -> option nat -> Prop :=
  | seg_nil (q : option nat) : Seg h q [] [] q
  | seg_cons (p : nat) (n : Node) (ps : list nat) (d : Document)
      (q : option nat) :
      nth_error h p = Some n -> Seg h (next n) ps d q ->
      Seg h (Some p) (p :: ps) (block n :: d) q.

(** The chain that starts at the reference [p] is made of the nodes at
    [ps], which hold the document [d]. *)
Definition Rep (h : Store) (p : option nat) (ps : list nat) (d : Document)
  : Prop :=
  Seg h p ps d None.

(** The address at a position of a chain. *)
Definition pick (ps : list nat) (i : option nat) : option nat :=
  match i with
  | Some i' => nth_error ps i'
  | None => None
  end.

(** The store [h'] extends [h] and differs from it at most at the
    addresses [ps]. *)
Definition Frame (h h' : Store) (ps : list nat) : Prop :=
  List.length h <= List.length h'
  /\ forall a, a < List.length h -> ~ In a ps ->
               nth_error h' a = nth_error h a.

(** The chain of [hd] ends with the comment block [c]. *)
Definition EndsWithComment (h : Store) (hd c : nat) : Prop :=
  Reach h hd c
  /\ exists lines, nth_error h c = Some (mkNode (BComment lines) None).

End Linked.

(** The merger on lists, by names that stay apart from those of the merger
    on linked nodes. *)
Module OnLists.
Abbreviation appendToTail := appendToTail (only parsing).
Abbreviation insertBefore := insertBefore (only parsing).
Abbreviation findVariableBlock := findVariableBlock (only parsing).
Abbreviation findNextVariable := findNextVariable (only parsing).
Abbreviation findIntersectionPoint := findIntersectionPoint (only parsing).
Abbreviation hasCommentBlockBefore := hasCommentBlockBefore (only parsing).
Abbreviation insertCommentBlock := insertCommentBlock (only parsing).
Abbreviation mergeVariables := mergeVariables (only parsing).
Abbreviation mergeComments := mergeComments (only parsing).
Abbreviation mergeTwo := mergeTwo (only parsing).
Abbreviation mergeSources := mergeSources (only parsing).
End OnLists.

(** The last element of a list of addresses. *)
Definition lastOf (ps : list nat) : option nat := hd_error (rev ps).

(** From the store [h] to the store [h'] a chain went from the addresses
    [ps] to the addresses [ps']: nothing changed outside [ps], and what
    joined the chain is new. *)
Definition Grows (h : Linked.Store) (ps : list nat) (h' : Linked.Store)
    (ps' : list nat) : Prop :=
  Linked.Frame h h' ps
  /\ forall a, In a ps' -> In a ps \/ List.length h <= a.

(** The addresses of [ps] are not among those of [qs]. *)
Definition apart (ps qs : list nat) : Prop :=
  forall a, In a ps -> ~ In a qs.

(** The chains [ps] hold the documents [ds], the nodes of each at addresses
    from [lo] on that come before those of the chains after it. *)
Fixpoint Chains (h : Linked.Store) (lo : nat) (ps : list (option nat))
    (ds : list Document) : Prop :=
  match ps, ds with
  | [], [] => True
  | p :: ps', d :: ds' =>
      exists S mid,
        Linked.Rep h p S d /\ (forall a, In a S -> lo <= a < mid)
        /\ lo <= mid /\ Chains h mid ps' ds'
  | _, _ => False
  end.

(** The number of blocks of a list of documents. *)
Definition sizeOf (ds : list Document) : nat :=
  list_sum (map (@List.length Block) ds).

(** Case analysis on the 256 characters. *)
Ltac each_ascii c :=
  let b0 := fresh in let b1 := fresh in let b2 := fresh in
  let b3 := fresh in let b4 := fresh in let b5 := fresh in
  let b6 := fresh in let b7 := fresh in
  destruct c as [b0 b1 b2 b3 b4 b5 b6 b7];
  destruct b0, b1, b2, b3, b4, b5, b6, b7.

(** The test [pendingComments.length > 0], negated. *)
Definition pendingIsEmpty (st : ScanState) : bool :=
  Nat.eqb (List.length (pendingComments st)) 0.

(** Something was produced: a block was emitted or comments are pending. *)
Definition produced (st : ScanState) : Prop :=
  emitted st <> [] \/ pendingComments st <> [].

(** The comment texts a scan state holds: those of the emitted blocks and
    the pending ones. *)
Definition heldTexts (st : ScanState) : list string :=
  commentTexts (emitted st) ++ pendingComments st.

Definition startsWithEmptyBlock (d : Document) : bool :=
  match d with b :: _ => isEmptyBlock b | [] => false end.

(** ** Vocabulary of the further properties *)

(** A name of the variable pattern: a letter or an underscore, then
    letters, digits and underscores. *)
Definition isIdentifier (k : string) : bool :=
  match k with
  | String c t => Char.isIdentStart c && Str.all Char.isIdentChar t
  | EmptyString => false
  end.

(** The variable lines among the lines of a file and the variables of a
    document, each with its key, value and raw text, in order. *)
Fixpoint variableLines (lines : list Line) : list (string * string * string) :=
  match lines with
  | [] => []
  | LVariable k v r :: rest => (k, v, r) :: variableLines rest
  | _ :: rest => variableLines rest
  end.

Fixpoint variablesOf (d : Document) : list (string * string * string) :=
  match d with
  | [] => []
  | BVariable k v r _ :: next => (k, v, r) :: variablesOf next
  | _ :: next => variablesOf next
  end.

(** The blocks of a document that are not empty blocks. *)
Definition solidBlocks (d : Document) : Document :=
  filter (fun b => negb (isEmptyBlock b)) d.

(** A scan state with the blocks [blocks] emitted before its own. *)
Definition withPrefix (blocks : list Block) (st : ScanState) : ScanState :=
  mkScan (blocks ++ emitted st) (pendingComments st)
         (consecutiveEmptyLines st) (hasEmptyLineAfterComment st).

(** The characters that end or break a line of a [.env] file or are
    written as an escape sequence. *)
Definition isControl (c : ascii) : bool :=
  Ascii.eqb c Char.lf || Ascii.eqb c Char.cr || Ascii.eqb c Char.tab.

(** ** The files of the host ([node:fs])

    [backup.ts], [writer.ts] and [cli.ts] read and write the files of the
    host.  The file system is the text of the regular file at each path,
    [None] where there is none; a path is the text the source passes to
    [node:fs], and two texts are two files.  A call of [node:fs] on a
    file that is there succeeds; [readFileSync], [copyFileSync] from and
    [unlinkSync] on a path with no file throw.  [writeFileSync] writes
    over a file that is there and makes a new file only in a directory
    that is there: where the directory of the path is missing it throws
    and writes nothing.  The source makes and removes no directory, so
    the directories are those of the host all along a run.  The one copy
    the source makes is the backup, beside the file it saves: in a
    directory that is there, since the file is.  What the source prints
    on the console is not part of the model. *)

Module Fs.

Definition Files : Type := string -> option string.

(** What is thrown: the two errors [cli.ts] makes, the errors of
    [node:fs] on a missing file and on a missing directory, and the two
    checks of the arguments after which the command exits. *)
Inductive Error : Type :=
  | SourceNotFound (path : string)
  | Cancelled
  | NoSuchFile (path : string)
  | NoSuchDirectory (path : string)
  | TooFewFiles
  | InvalidStrategy (name : string).

(** A run ends with a value, or with an error thrown, and with the files
    it leaves. *)
Inductive Result (A : Type) : Type :=
  | Ok (a : A) (fs : Files)
  | Throw (e : Error) (fs : Files).

Arguments Ok {A} a fs.
Arguments Throw {A} e fs.

Definition M (A : Type) : Type := Files -> Result A.

Definition ret {A} (a : A) : M A := fun fs => Ok a fs.

Definition throw {A} (e : Error) : M A := fun fs => Throw e fs.

Definition bind {A B} (m : M A) (k : A -> M B) : M B :=
  fun fs =>
    match m fs with
    | Ok a fs' => k a fs'
    | Throw e fs' => Throw e fs'
    end.

Notation "x <- m ;; k" := (bind m (fun x => k))
  (at level 61, m at next level, right associativity).
Notation "m ;;; k" := (bind m (fun _ => k))
  (at level 61, right associativity).

Definition filesOf {A} (r : Result A) : Files :=
  match r with Ok _ fs => fs | Throw _ fs => fs end.

Definition put (path : string) (content : option string) (fs : Files) : Files :=
  fun p => if String.eqb p path then content else fs p.

Definition existsSync (path : string) : M bool :=
  fun fs => Ok (match fs path with Some _ => true | None => false end) fs.

Definition readFileSync (path : string) : M string :=
  fun fs =>
    match fs path with
    | Some content => Ok content fs
    | None => Throw (NoSuchFile path) fs
    end.

(** [inDirectory path] tells whether the directory the path lies in is
    there. *)
Definition writeFileSync (inDirectory : string -> bool)
    (path content : string) : M unit :=
  fun fs =>
    match fs path with
    | Some _ => Ok tt (put path (Some content) fs)
    | None =>
        if inDirectory path then Ok tt (put path (Some content) fs)
        else Throw (NoSuchDirectory path) fs
    end.

Definition copyFileSync (src dest : string) : M unit :=
  fun fs =>
    match fs src with
    | Some content => Ok tt (put dest (Some content) fs)
    | None => Throw (NoSuchFile src) fs
    end.

Definition unlinkSync (path : string) : M unit :=
  fun fs =>
    match fs path with
    | Some _ => Ok tt (put path None fs)
    | None => Throw (NoSuchFile path) fs
    end.

End Fs.

(** ** Backups ([backup.ts]) and the writer ([writer.ts]) *)

Module Backup.
Import Fs.

(** The host: the two functions of [node:path] the source calls, and the
    directories that are there. *)
Record Host : Type := mkHost {
  dirname : string -> string;
  join : string -> string -> string;
  directoryExists : string -> bool
}.

(** The directory of a path is there. *)
Definition inDirectory (host : Host) (path : string) : bool :=
  directoryExists host (dirname host path).

(** [\d] *)
Definition isDigit (c : ascii) : bool := Char.between 48 57 c.

(** [s.replace(/[-:]/g, "")] *)
Fixpoint dropDashesAndColons (s : string) : string :=
  match s with
  | EmptyString => EmptyString
  | String a t =>
      if Ascii.eqb a "-" || Ascii.eqb a ":" then dropDashesAndColons t
      else String a (dropDashesAndColons t)
  end.

(** The text is a match of [\.\d{3}Z] that ends the string. *)
Definition isMillisTail (s : string) : bool :=
  match s with
  | String dot (String a (String b (String c (String z EmptyString)))) =>
      Ascii.eqb dot "." && isDigit a && isDigit b && isDigit c
      && Ascii.eqb z "Z"
  | _ => false
  end.

(** [s.replace(/\.\d{3}Z$/, "")] *)
Fixpoint dropMillisTail (s : string) : string :=
  match s with
  | EmptyString => EmptyString
  | String a t =>
      if isMillisTail s then EmptyString else String a (dropMillisTail t)
  end.

(** [s.replace(c, "")] for a one-character string [c]: the first
    occurrence only. *)
Fixpoint dropFirst (c : ascii) (s : string) : string :=
  match s with
  | EmptyString => EmptyString
  | String a t => if Ascii.eqb a c then t else String a (dropFirst c t)
  end.

(** The [timestamp] of [generateBackupPath], from the text [iso] that
    [new Date().toISOString()] gives. *)
Definition timestamp (iso : string) : string :=
  dropFirst "T" (dropMillisTail (dropDashesAndColons iso)).

(** [generateBackupPath] *)
Definition generateBackupPath (host : Host) (iso originalPath : string)
  : string :=
  let dir := dirname host originalPath in
  join host dir (".env-backup-envmerge-" ++ timestamp iso).

(** [createBackup]; [None] is [undefined]. *)
Definition createBackup (host : Host) (iso filePath : string)
  : M (option string) :=
  present <- existsSync filePath ;;
  if negb present then ret None
  else
    let backupPath := generateBackupPath host iso filePath in
    copyFileSync filePath backupPath ;;;
    ret (Some backupPath).

(** [areFilesIdentical] *)
Definition areFilesIdentical (filePath1 filePath2 : string) : M bool :=
  e1 <- existsSync filePath1 ;;
  e2 <- existsSync filePath2 ;;
  if negb e1 || negb e2 then ret false
  else
    content1 <- readFileSync filePath1 ;;
    content2 <- readFileSync filePath2 ;;
    ret (String.eqb content1 content2).

(** [cleanupRedundantBackup] *)
Definition cleanupRedundantBackup (originalPath backupPath : string)
  : M bool :=
  present <- existsSync backupPath ;;
  if negb present then ret false
  else
    same <- areFilesIdentical originalPath backupPath ;;
    if same then unlinkSync backupPath ;;; ret true
    else ret false.

(** [writeEnvFile] *)
Definition writeEnvFile (host : Host) (filePath : string) (head : Document)
  : M unit :=
  let content := serializeToString head in
  writeFileSync (inDirectory host) filePath content.

End Backup.

(** ** The command ([cli.ts]) *)

Module Cli.
Import Fs Backup.

(** [ConflictStrategy], [ConflictResolution] and [MergeOptions] of
    [types.ts]. *)
Inductive ConflictStrategy : Type := Interactive | Overwrite | Keep.

Inductive ConflictResolution : Type := ResolveOverwrite | ResolveKeep.

Record MergeOptions : Type := mkOptions {
  backup : bool;
  strategy : ConflictStrategy
}.

(** What the user answers to the prompts of [resolveInteractively], by
    the number of the prompt; [None] is a prompt the user cancels, after
    which [resolveInteractively] throws. *)
Definition Answers : Type := nat -> option ConflictResolution.

(** The strategy for the conflict number [nth] of the traversal. *)
Definition resolution (options : MergeOptions) (answers : Answers) (nth : nat)
  : option ConflictResolution :=
  match strategy options with
  | Interactive => answers nth
  | Overwrite => Some ResolveOverwrite
  | Keep => Some ResolveKeep
  end.

Definition andThen (b : Block) (r : option (Document * nat))
  : option (Document * nat) :=
  match r with
  | Some (d, n) => Some (b :: d, n)
  | None => None
  end.

(** The traversal of the destination in [mergeEnvFiles], from the node
    [current] on with [conflictCount] conflicts met so far: the nodes as
    the traversal leaves them and the number of conflicts, or [None] when
    a prompt is cancelled. *)
Fixpoint resolveConflicts (options : MergeOptions) (answers : Answers)
    (merged : Document) (current : Document) (conflictCount : nat)
  : option (Document * nat) :=
  match current with
  | [] => Some ([], conflictCount)
  | BVariable key value raw comments :: next =>
      let unchanged := BVariable key value raw comments in
      match findVariable merged key with
      | Some (BVariable _ mergedValue _ _) =>
          if String.eqb mergedValue value
          then andThen unchanged
                 (resolveConflicts options answers merged next conflictCount)
          else
            match resolution options answers conflictCount with
            | Some ResolveOverwrite =>
                andThen
                  (BVariable key mergedValue
                             (key ++ "=" ++ quoteValue mergedValue) comments)
                  (resolveConflicts options answers merged next
                                    (S conflictCount))
            | Some ResolveKeep =>
                andThen unchanged
                  (resolveConflicts options answers merged next
                                    (S conflictCount))
            | None => None
            end
      | _ =>
          andThen unchanged
            (resolveConflicts options answers merged next conflictCount)
      end
  | b :: next =>
      andThen b (resolveConflicts options answers merged next conflictCount)
  end.

(** The loop that checks that every source is there. *)
Fixpoint checkSources (sourcePaths : list string) : M unit :=
  match sourcePaths with
  | [] => ret tt
  | sourcePath :: rest =>
      present <- existsSync sourcePath ;;
      if negb present then throw (SourceNotFound sourcePath)
      else checkSources rest
  end.

(** [sourcePaths.map(...)]: the sources read and parsed, in order. *)
Fixpoint readSources (sourcePaths : list string) : M (list Document) :=
  match sourcePaths with
  | [] => ret []
  | path :: rest =>
      content <- readFileSync path ;;
      sources <- readSources rest ;;
      ret (parseEnvFile content :: sources)
  end.

(** A string in a condition: the empty string is false. *)
Definition truthy (s : string) : bool := negb (Str.isEmpty s).

(** [mergeEnvFiles]: the number of conflicts it reports, or the error its
    [catch] ends the process on.  [iso] is the text of the clock when the
    backup is made. *)
Definition mergeEnvFiles (host : Host) (iso : string) (answers : Answers)
    (sourcePaths : list string) (destinationPath : string)
    (options : MergeOptions) : M nat :=
  checkSources sourcePaths ;;;
  sources <- readSources sourcePaths ;;
  let merged := mergeSources sources in
  destinationExists <- existsSync destinationPath ;;
  destination <-
    (if destinationExists
     then content <- readFileSync destinationPath ;; ret (parseEnvFile content)
     else ret []) ;;
  backupPath <-
    (if backup options && destinationExists
     then createBackup host iso destinationPath
     else ret None) ;;
  match resolveConflicts options answers merged destination 0 with
  | None => throw Cancelled
  | Some (resolved, conflictCount) =>
      let final := mergeSources [merged; resolved] in
      writeEnvFile host destinationPath final ;;;
      match backupPath with
      | Some path =>
          if truthy path
          then cleanupRedundantBackup destinationPath path ;;; ret conflictCount
          else ret conflictCount
      | None => ret conflictCount
      end
  end.

(** [validStrategies.includes(options.strategy)] and the cast that
    follows it. *)
Definition validStrategy (name : string) : option ConflictStrategy :=
  if String.eqb name "interactive" then Some Interactive
  else if String.eqb name "overwrite" then Some Overwrite
  else if String.eqb name "keep" then Some Keep
  else None.

(** The action of the command of [createCLI], on the file arguments and
    the two options. *)
Definition action (host : Host) (iso : string) (answers : Answers)
    (files : list string) (backupOption : bool) (strategyOption : string)
  : M nat :=
  if Nat.ltb (List.length files) 2 then throw TooFewFiles
  else
    let destination := last files EmptyString in
    let sources := removelast files in
    match validStrategy strategyOption with
    | None => throw (InvalidStrategy strategyOption)
    | Some strategy =>
        mergeEnvFiles host iso answers sources destination
                      (mkOptions backupOption strategy)
    end.

End Cli.

(** A variable of the destination is in conflict with the merged sources:
    they define its key with another value. *)
Definition inConflict (merged : Document) (b : Block) : bool :=
  match b with
  | BVariable key value _ _ =>
      match findVariable merged key with
      | Some (BVariable _ mergedValue _ _) => negb (String.eqb mergedValue value)
      | _ => false
      end
  | _ => false
  end.

(** The conflicts of a destination, in the order of the destination. *)
Definition conflictsOf (merged destination : Document) : list Block :=
  filter (inConflict merged) destination.

(** The document of the destination file; [[]] when there is no file. *)
Definition destinationOf (fs : Fs.Files) (destinationPath : string)
  : Document :=
  match fs destinationPath with
  | Some content => parseEnvFile content
  | None => []
  end.

(** A variable without its raw text: the key and the value. *)
Definition withoutRaw (x : string * string * string) : string * string :=
  match x with (k, v, _) => (k, v) end.

(** [parseLine] reads the text as a variable line. *)
Definition isVariableLine (t : string) : bool :=
  match parseLine t with LVariable _ _ _ => true | _ => false end.

(** Where a variable block of a merge comes from: it is a block of the
    base, a block of the source, or a block overridden with the value and
    the comments of a variable of the source that has its key, the raw
    field regenerated from the key and the quoted value. *)
Definition fromMerge (base source : Document) (block : Block) : Prop :=
  match block with
  | BVariable k v r c =>
      In block base \/ In block source
      \/ (r = (k ++ "=" ++ quoteValue v)%string
          /\ exists r0, In (BVariable k v r0 c) source)
  | _ => True
  end.

(** The comment lines that stand right above each variable line of a
    file, with no blank line between, in the order of the variable lines;
    [run] is the comment lines met since the last line that is not one. *)
Fixpoint commentsAbove (lines : list Line) (run : list string)
  : list (list string) :=
  match lines with
  | [] => []
  | LComment content :: rest => commentsAbove rest (run ++ [content])
  | LEmpty :: rest => commentsAbove rest []
  | LVariable _ _ _ :: rest => run :: commentsAbove rest []
  end.

(** The comments of each variable of a document, in document order. *)
Fixpoint variableComments (d : Document) : list (list string) :=
  match d with
  | [] => []
  | BVariable _ _ _ comments :: next => comments :: variableComments next
  | _ :: next => variableComments next
  end.

(** The texts of the comment lines of a file, in order. *)
Fixpoint commentLines (lines : list Line) : list string :=
  match lines with
  | [] => []
  | LComment content :: rest => content :: commentLines rest
  | _ :: rest => commentLines rest
  end.

(** The texts that are not the empty text, which marks a run of blank
    lines inside a comment block. *)
Definition withoutMarkers (texts : list string) : list string :=
  filter (fun t => negb (Str.isEmpty t)) texts.

(** What the scan knows of the comment lines right above the next line:
    after a line that is not blank they are the pending comments; after a
    blank line there are none, and comments are still pending only when
    a comment line follows the blank lines. *)
Definition groupInv (st : ScanState) (run : list string) (lines : list Line)
  : Prop :=
  (consecutiveEmptyLines st = 0 /\ pendingComments st = run
   /\ hasEmptyLineAfterComment st = false)
  \/ (consecutiveEmptyLines st <> 0 /\ run = []
      /\ ((pendingComments st = [] /\ hasEmptyLineAfterComment st = false)
          \/ (pendingComments st <> []
              /\ hasEmptyLineAfterComment st = true
              /\ isNextNonEmptyComment lines = true))).

(** What a file defines: the key and the value of each of its variable
    lines, in order, as [parseEnvFile] reads them. *)
Definition definitionsOf (content : string) : list (string * string) :=
  map withoutRaw (variablesOf (parseEnvFile content)).

(** The value of the first definition of a key, which is the one
    [findVariableBlock] finds. *)
Definition firstValue (definitions : list (string * string)) (key : string)
  : option string :=
  option_map snd (find (fun d => String.eqb (fst d) key) definitions).

(** No comment text of the file ends with a carriage return. *)
Definition noStrayReturn (content : string) : Prop :=
  forall t, In t (commentTexts (parseEnvFile content)) ->
            Str.endsWith Char.cr t = false.

(** A definition as it is read back once written: the value quoted, then
    decoded. *)
Definition reread (d : string * string) : string * string :=
  (fst d, unquoteValue (quoteValue (snd d))).

(** * Properties *)

(** ** Characters and strings *)

Lemma ascii_eqb_refl (c : ascii) : Ascii.eqb c c = true.
Proof. apply Ascii.eqb_eq. reflexivity. Qed.

Lemma identChar_not_space (c : ascii) :
  Char.isIdentChar c = true -> Char.isSpace c = false.
Proof. each_ascii c; vm_compute; congruence. Qed.

Lemma identStart_identChar (c : ascii) :
  Char.isIdentStart c = true -> Char.isIdentChar c = true.
Proof. unfold Char.isIdentChar. intros ->. reflexivity. Qed.

Lemma identChar_not_hash (c : ascii) :
  Char.isIdentChar c = true -> Ascii.eqb c Char.hash = false.
Proof. each_ascii c; vm_compute; congruence. Qed.

Lemma space_not_identChar (c : ascii) :
  Char.isSpace c = true -> Char.isIdentChar c = false.
Proof.
  intros H. destruct (Char.isIdentChar c) eqn:E; [|reflexivity].
  apply identChar_not_space in E. congruence.
Qed.

Lemma append_nil_r (s : string) : (s ++ "")%string = s.
Proof. induction s as [|a t IH]; simpl; [reflexivity | now rewrite IH]. Qed.

Lemma append_assoc (s t u : string) :
  ((s ++ t) ++ u)%string = (s ++ t ++ u)%string.
Proof. induction s as [|a r IH]; simpl; [reflexivity | now rewrite IH]. Qed.

Lemma takeWhile_dropWhile (p : ascii -> bool) (s : string) :
  (Str.takeWhile p s ++ Str.dropWhile p s)%string = s.
Proof.
  induction s as [|a t IH]; simpl; [reflexivity|].
  destruct (p a); simpl; [now rewrite IH | reflexivity].
Qed.

Lemma all_takeWhile (p : ascii -> bool) (s : string) :
  Str.all p (Str.takeWhile p s) = true.
Proof.
  induction s as [|a t IH]; simpl; [reflexivity|].
  destruct (p a) eqn:E; simpl; [now rewrite E | reflexivity].
Qed.

Lemma dropWhile_head (p : ascii -> bool) (s : string) (a : ascii) (t : string) :
  Str.dropWhile p s = String a t -> p a = false.
Proof.
  induction s as [|b u IH]; simpl; [discriminate|].
  destruct (p b) eqn:E; [exact IH|].
  intros [= <- <-]. exact E.
Qed.

Lemma dropWhile_app_all (p : ascii -> bool) (w s : string) :
  Str.all p w = true -> Str.dropWhile p (w ++ s) = Str.dropWhile p s.
Proof.
  induction w as [|a t IH]; simpl; [reflexivity|].
  destruct (p a); simpl; [exact IH | discriminate].
Qed.

Lemma takeWhile_app_all (p : ascii -> bool) (w s : string) :
  Str.all p w = true ->
  Str.takeWhile p (w ++ s) = (w ++ Str.takeWhile p s)%string.
Proof.
  induction w as [|a t IH]; simpl; [reflexivity|].
  destruct (p a); simpl; [intros H; now rewrite IH | discriminate].
Qed.

Lemma all_dropWhile (p q : ascii -> bool) (s : string) :
  Str.all q s = true -> Str.all q (Str.dropWhile p s) = true.
Proof.
  induction s as [|a t IH]; simpl; [reflexivity|].
  intros H. apply andb_true_iff in H as [Ha Ht].
  destruct (p a); [auto | simpl; now rewrite Ha, Ht].
Qed.

Lemma all_app (p : ascii -> bool) (s t : string) :
  Str.all p (s ++ t) = Str.all p s && Str.all p t.
Proof.
  induction s as [|a u IH]; simpl; [reflexivity|].
  now rewrite IH, andb_assoc.
Qed.

Lemma all_weaken (p q : ascii -> bool) (s : string) :
  (forall c, p c = true -> q c = true) ->
  Str.all p s = true -> Str.all q s = true.
Proof.
  intros Hpq. induction s as [|a t IH]; simpl; [reflexivity|].
  intros H. apply andb_true_iff in H as [Ha Ht].
  now rewrite (Hpq _ Ha), IH.
Qed.

(** ** The variable pattern *)

(** What a match gives: the line splits as the pattern says, the key group
    is the identifier and the value group starts at the first character
    after the blanks that follow [=]. *)
Lemma matchVariable_sound (line key value : string) :
  matchVariable line = Some (key, value) ->
  exists c k w1 w2,
    key = String c k
    /\ line = (key ++ w1 ++ "=" ++ w2 ++ value)%string
    /\ Char.isIdentStart c = true
    /\ Str.all Char.isIdentChar k = true
    /\ Str.all Char.isSpace w1 = true
    /\ Str.all Char.isSpace w2 = true
    /\ Str.all (fun a => negb (Char.isLineTerminator a)) value = true
    /\ Str.trimStart value = value.
Proof.
  unfold matchVariable. destruct line as [|c t]; [discriminate|].
  destruct (Char.isIdentStart c) eqn:Hc; [|discriminate].
  set (line := String c t).
  destruct (Str.dropWhile Char.isSpace (Str.dropWhile Char.isIdentChar line))
    as [|e rest] eqn:Hrest; [discriminate|].
  destruct (Ascii.eqb e Char.equal) eqn:He; [|discriminate].
  apply Ascii.eqb_eq in He. subst e.
  destruct (Str.all _ (Str.dropWhile Char.isSpace rest)) eqn:Hv; [|discriminate].
  intros [= <- <-].
  exists c, (Str.takeWhile Char.isIdentChar t),
    (Str.takeWhile Char.isSpace (Str.dropWhile Char.isIdentChar line)),
    (Str.takeWhile Char.isSpace rest).
  assert (Hk : Str.takeWhile Char.isIdentChar line
               = String c (Str.takeWhile Char.isIdentChar t)).
  { unfold line. simpl. now rewrite (identStart_identChar _ Hc). }
  repeat split.
  - exact Hk.
  - rewrite <- (takeWhile_dropWhile Char.isIdentChar line) at 1.
    f_equal.
    rewrite <- (takeWhile_dropWhile Char.isSpace
                  (Str.dropWhile Char.isIdentChar line)) at 1.
    f_equal. rewrite Hrest. simpl. f_equal.
    now rewrite takeWhile_dropWhile.
  - exact Hc.
  - apply all_takeWhile.
  - apply all_takeWhile.
  - apply all_takeWhile.
  - exact Hv.
  - unfold Str.trimStart.
    destruct (Str.dropWhile Char.isSpace rest) as [|a u] eqn:E; [reflexivity|].
    simpl. now rewrite (dropWhile_head _ _ _ _ E).
Qed.

(** Every line of the pattern's language is matched, with the groups taken
    greedily. *)
Lemma matchVariable_complete (c : ascii) (k w1 w2 v : string) :
  Char.isIdentStart c = true ->
  Str.all Char.isIdentChar k = true ->
  Str.all Char.isSpace w1 = true ->
  Str.all Char.isSpace w2 = true ->
  Str.all (fun a => negb (Char.isLineTerminator a)) v = true ->
  matchVariable (String c k ++ w1 ++ "=" ++ w2 ++ v)
  = Some (String c k, Str.dropWhile Char.isSpace v).
Proof.
  intros Hc Hk Hw1 Hw2 Hv.
  assert (Hck : Str.all Char.isIdentChar (String c k) = true).
  { simpl. now rewrite (identStart_identChar _ Hc), Hk. }
  set (tl := (w1 ++ "=" ++ w2 ++ v)%string).
  assert (Hstop : Str.takeWhile Char.isIdentChar tl = EmptyString
                  /\ Str.dropWhile Char.isIdentChar tl = tl).
  { unfold tl. destruct w1 as [|a u]; simpl; [split; reflexivity|].
    simpl in Hw1. apply andb_true_iff in Hw1 as [Ha _].
    now rewrite (space_not_identChar _ Ha). }
  assert (Ht : Str.takeWhile Char.isIdentChar (String c k ++ tl) = String c k).
  { rewrite takeWhile_app_all by exact Hck.
    rewrite (proj1 Hstop). apply append_nil_r. }
  assert (Hd : Str.dropWhile Char.isIdentChar (String c k ++ tl) = tl).
  { pose proof (takeWhile_dropWhile Char.isIdentChar (String c k ++ tl)) as E.
    rewrite Ht in E.
    revert E. generalize (Str.dropWhile Char.isIdentChar (String c k ++ tl)).
    generalize (String c k). intros s. induction s as [|a u IH]; simpl.
    - auto.
    - intros d [= E]. auto. }
  unfold matchVariable.
  change (match (String c k ++ tl)%string with
          | String c0 _ => Char.isIdentStart c0 | _ => false end)
    with (Char.isIdentStart c).
  rewrite Hc, Ht, Hd. unfold tl.
  rewrite dropWhile_app_all by exact Hw1.
  simpl. rewrite dropWhile_app_all by exact Hw2.
  now rewrite (all_dropWhile _ _ _ Hv).
Qed.

(** The executable matcher decides the pattern's language. *)
Lemma matchVariable_None_iff (line : string) :
  matchVariable line = None <-> ~ matchesVariablePattern line.
Proof.
  split.
  - intros H (c & k & w1 & w2 & v & -> & Hc & Hk & Hw1 & Hw2 & Hv).
    rewrite matchVariable_complete in H by assumption. discriminate.
  - intros H. destruct (matchVariable line) as [[key value]|] eqn:E;
      [|reflexivity].
    exfalso. apply H.
    destruct (matchVariable_sound _ _ _ E)
      as (c & k & w1 & w2 & -> & -> & Hc & Hk & Hw1 & Hw2 & Hv & _).
    now exists c, k, w1, w2, value.
Qed.

(** ** [parseLine] *)

Lemma trim_keeps_head (c : ascii) (t : string) :
  Char.isSpace c = false -> exists r, Str.trim (String c t) = String c r.
Proof.
  intros Hc. unfold Str.trim, Str.trimStart. simpl. rewrite Hc. simpl.
  destruct (Str.trimEnd t) as [|a r].
  - rewrite Hc. now exists EmptyString.
  - now exists (String a r).
Qed.

(** A line the pattern matches is a variable line: it is not blank and
    its first character is not [#]. *)
Lemma parseLine_variable (line key value : string) :
  matchVariable line = Some (key, value) ->
  parseLine line = LVariable key (unquoteValue value) line.
Proof.
  intros H.
  destruct (matchVariable_sound _ _ _ H)
    as (c & k & w1 & w2 & -> & Hl & Hc & _).
  pose proof (identStart_identChar _ Hc) as Hi.
  assert (Ht : exists r, Str.trim line = String c r).
  { rewrite Hl. simpl. apply trim_keeps_head, identChar_not_space, Hi. }
  destruct Ht as [r Ht].
  unfold parseLine. rewrite H, Ht. simpl.
  now rewrite (identChar_not_hash _ Hi).
Qed.

(** A line that is not blank, is not a [#] comment and does not match the
    pattern is kept whole as a comment line. *)
Lemma parseLine_invalid (line : string) :
  Str.isEmpty (Str.trim line) = false ->
  Str.startsWith Char.hash (Str.trim line) = false ->
  matchVariable line = None ->
  parseLine line = LComment line.
Proof. intros H1 H2 H3. unfold parseLine. now rewrite H1, H2, H3. Qed.

(** The raw field of a variable line is the line itself, and only a line
    the pattern matches gives a variable line. *)
Lemma parseLine_LVariable_inv (line key value raw : string) :
  parseLine line = LVariable key value raw ->
  raw = line
  /\ exists captured, matchVariable line = Some (key, captured)
                      /\ value = unquoteValue captured.
Proof.
  unfold parseLine.
  destruct (Str.isEmpty (Str.trim line)); [discriminate|].
  destruct (Str.startsWith Char.hash (Str.trim line)); [discriminate|].
  destruct (matchVariable line) as [[k v]|]; [|discriminate].
  intros [= <- <- <-]. split; [reflexivity|]. now exists v.
Qed.

(** The content of a comment line is the line itself, which is not blank. *)
Lemma parseLine_LComment_inv (line content : string) :
  parseLine line = LComment content ->
  content = line /\ Str.isEmpty (Str.trim line) = false.
Proof.
  unfold parseLine.
  destruct (Str.isEmpty (Str.trim line)); [discriminate|].
  destruct (Str.startsWith Char.hash (Str.trim line)).
  - intros [= <-]. auto.
  - destruct (matchVariable line) as [[k v]|]; [discriminate|].
    intros [= <-]. auto.
Qed.

(** ** The grouping pass *)

Lemma splitLines_not_nil (s : string) : Str.splitLines s <> [].
Proof.
  induction s as [|a t IH]; simpl; [discriminate|].
  destruct (Ascii.eqb a Char.lf); [discriminate|].
  destruct t as [|b u]; [discriminate|].
  destruct (Ascii.eqb a Char.cr && Ascii.eqb b Char.lf); [discriminate|].
  destruct (Str.splitLines (String b u)); discriminate.
Qed.

Lemma pendingIsEmpty_true (st : ScanState) :
  pendingIsEmpty st = true <-> pendingComments st = [].
Proof.
  unfold pendingIsEmpty. destruct (pendingComments st); simpl; split;
    congruence.
Qed.

Lemma pendingIsEmpty_false (st : ScanState) :
  pendingIsEmpty st = false <-> pendingComments st <> [].
Proof.
  unfold pendingIsEmpty. destruct (pendingComments st); simpl; split;
    congruence.
Qed.

Lemma app_not_nil {A} (l : list A) (x : A) (l' : list A) : l ++ x :: l' <> [].
Proof. destruct l; discriminate. Qed.

Lemma scanStep_produced (line : Line) (rest : list Line) (st : ScanState) :
  (consecutiveEmptyLines st <> 0 -> produced st) ->
  produced (scanStep line rest st).
Proof.
  intros H. unfold produced, scanStep.
  destruct line as [content| |key value raw].
  - destruct (negb _ && _); simpl; right; [discriminate | apply app_not_nil].
  - fold (pendingIsEmpty st).
    destruct (pendingIsEmpty st) eqn:Hp; simpl.
    + destruct (Nat.eqb_spec (consecutiveEmptyLines st) 0) as [E|E]; simpl.
      * left. apply app_not_nil.
      * apply H, E.
    + apply pendingIsEmpty_false in Hp.
      destruct (isNextNonEmptyComment rest);
        destruct (Nat.eqb (consecutiveEmptyLines st) 0); simpl;
        try (right; first [exact Hp | apply app_not_nil]);
        left; apply app_not_nil.
  - simpl. left. apply app_not_nil.
Qed.

Lemma scan_produced (lines : list Line) (st : ScanState) :
  produced st -> produced (scan lines st).
Proof.
  revert st. induction lines as [|l rest IH]; intros st H; simpl; [exact H|].
  apply IH, scanStep_produced. intros _. exact H.
Qed.

Lemma parseBlocks_not_null (lines : list Line) :
  lines <> [] -> parseBlocks lines <> [].
Proof.
  destruct lines as [|l rest]; [congruence|]. intros _.
  unfold parseBlocks. simpl.
  assert (H : produced (scan rest (scanStep l rest initScan))).
  { apply scan_produced, scanStep_produced. simpl. congruence. }
  unfold finishScan. fold (pendingIsEmpty (scan rest (scanStep l rest initScan))).
  destruct (pendingIsEmpty _) eqn:Hp; simpl.
  - apply pendingIsEmpty_true in Hp. destruct H as [H|H]; congruence.
  - apply app_not_nil.
Qed.

Lemma commentTexts_app (d1 d2 : Document) :
  commentTexts (d1 ++ d2) = commentTexts d1 ++ commentTexts d2.
Proof.
  induction d1 as [|b d IH]; simpl; [reflexivity|].
  destruct b; simpl; rewrite IH; auto using app_assoc.
Qed.

(** A step never loses a text, and a comment line adds its content. *)
Lemma scanStep_texts (line : Line) (rest : list Line) (st : ScanState) :
  exists added,
    heldTexts (scanStep line rest st) = heldTexts st ++ added
    /\ forall content, line = LComment content -> In content added.
Proof.
  unfold heldTexts, scanStep.
  destruct line as [content| |key value raw].
  - destruct (negb _ && _); simpl; exists [content];
      rewrite ?commentTexts_app; simpl; rewrite ?app_nil_r, ?app_assoc;
      (split; [reflexivity | intros ? [= <-]; now left]).
  - destruct (negb _);
      [destruct (isNextNonEmptyComment rest)|];
      destruct (Nat.eqb (consecutiveEmptyLines st) 0); simpl;
      rewrite ?commentTexts_app; simpl; rewrite ?app_nil_r, ?app_assoc;
      first [ exists [EmptyString]; split; [reflexivity | discriminate]
            | exists []; rewrite ?app_nil_r; split; [reflexivity | discriminate] ].
  - simpl. exists []. rewrite commentTexts_app. simpl.
    rewrite !app_nil_r. split; [reflexivity | discriminate].
Qed.

Lemma scan_texts_keep (lines : list Line) (st : ScanState) (x : string) :
  In x (heldTexts st) -> In x (heldTexts (scan lines st)).
Proof.
  revert st. induction lines as [|l rest IH]; intros st H; simpl; [exact H|].
  apply IH. destruct (scanStep_texts l rest st) as (added & -> & _).
  apply in_or_app. now left.
Qed.

Lemma scan_texts_add (lines : list Line) (st : ScanState) (content : string) :
  In (LComment content) lines -> In content (heldTexts (scan lines st)).
Proof.
  revert st. induction lines as [|l rest IH]; intros st; simpl; [tauto|].
  intros [->|H]; [|now apply IH].
  apply scan_texts_keep.
  destruct (scanStep_texts (LComment content) rest st) as (added & -> & Ha).
  apply in_or_app. right. now apply Ha.
Qed.

Lemma finishScan_texts (st : ScanState) :
  commentTexts (finishScan st) = heldTexts st.
Proof.
  unfold finishScan, heldTexts. fold (pendingIsEmpty st).
  destruct (pendingIsEmpty st) eqn:Hp; simpl.
  - apply pendingIsEmpty_true in Hp. now rewrite Hp, app_nil_r.
  - rewrite commentTexts_app. simpl. now rewrite app_nil_r.
Qed.

(** No comment line is dropped by the grouping pass. *)
Lemma parseBlocks_keeps_comments (lines : list Line) (content : string) :
  In (LComment content) lines -> In content (commentTexts (parseBlocks lines)).
Proof.
  intros H. unfold parseBlocks. rewrite finishScan_texts.
  now apply scan_texts_add.
Qed.

(** ** Claims on the parser *)

(** C7. Parsing is total and drops nothing: for every input, [parseEnvFile]
    returns a document with a head node (the embedding has no failure
    result, as the source has no [throw]), and every physical line that is
    not blank, is not a [#] comment after trimming and is not in the
    language of the variable pattern is classified as a comment line with
    its text unchanged, and that text is held by the document. *)
Theorem C7_parse_total_keeps_unparseable_lines (content : string) :
  parseEnvFile content <> []
  /\ forall line,
       In line (Str.splitLines content) ->
       Str.isEmpty (Str.trim line) = false ->
       Str.startsWith Char.hash (Str.trim line) = false ->
       ~ matchesVariablePattern line ->
       parseLine line = LComment line
       /\ In line (commentTexts (parseEnvFile content)).
Proof.
  split.
  - unfold parseEnvFile. apply parseBlocks_not_null.
    pose proof (splitLines_not_nil content).
    destruct (Str.splitLines content); simpl; congruence.
  - intros line Hin H1 H2 H3.
    apply matchVariable_None_iff in H3.
    pose proof (parseLine_invalid _ H1 H2 H3) as Hp.
    split; [exact Hp|].
    unfold parseEnvFile. apply parseBlocks_keeps_comments.
    rewrite <- Hp. now apply in_map.
Qed.

(** C9. Parsing the text [# c], two blank lines, [# c2] gives exactly two
    comment blocks: the first holds [# c] and one empty-string marker for
    the blank run, the second holds [# c2]. *)
Theorem C9_scenario_comments_around_blank_run :
  parseEnvFile ("# c" ++ Str.nl ++ Str.nl ++ Str.nl ++ "# c2")
  = [BComment ["# c"; ""]; BComment ["# c2"]].
Proof. vm_compute. reflexivity. Qed.

(** C10. A variable line whose value, once trimmed, is a lone quote
    character (single or double) passes the wrapped-in-quotes test with
    that one character as both ends, the quote is stripped, and the parsed
    value is the empty string. *)
Theorem C10_lone_quote_is_empty_value (line key captured : string) :
  matchVariable line = Some (key, captured) ->
  Str.trim captured = Str.singleton Char.squote
  \/ Str.trim captured = Str.singleton Char.dquote ->
  parseLine line = LVariable key "" line.
Proof.
  intros Hm Hq. rewrite (parseLine_variable _ _ _ Hm). f_equal.
  unfold unquoteValue. destruct Hq as [-> | ->]; reflexivity.
Qed.

Lemma C10_witness :
  parseLine "KEY='" = LVariable "KEY" "" "KEY='".
Proof.
  apply (C10_lone_quote_is_empty_value "KEY='" "KEY" "'").
  - reflexivity.
  - left. reflexivity.
Defined.

Example lone_double_quote :
  parseEnvFile ("KEY=" ++ Str.dq)
  = [BVariable "KEY" "" ("KEY=" ++ Str.dq) []].
Proof. vm_compute. reflexivity. Qed.

Lemma C7_witness :
  let content := ("KEY1=value1" ++ Str.nl ++ "invalid line without equals"
                  ++ Str.nl ++ "KEY2=value2")%string in
  parseLine "invalid line without equals"
  = LComment "invalid line without equals"
  /\ In "invalid line without equals" (commentTexts (parseEnvFile content)).
Proof.
  intros content.
  apply (proj2 (C7_parse_total_keeps_unparseable_lines content)
           "invalid line without equals").
  - vm_compute. right. left. reflexivity.
  - reflexivity.
  - reflexivity.
  - apply matchVariable_None_iff. reflexivity.
Defined.

(** ** Runs of blank lines *)

Lemma scan_app (pre rest : list Line) (st : ScanState) :
  scan (pre ++ rest) st = scan rest (scanUpTo pre rest st).
Proof.
  revert st. induction pre as [|l pre IH]; intros st; simpl; [reflexivity|].
  apply IH.
Qed.

Lemma scanUpTo_app (pre mid rest : list Line) (st : ScanState) :
  scanUpTo (pre ++ mid) rest st
  = scanUpTo mid rest (scanUpTo pre (mid ++ rest) st).
Proof.
  revert st. induction pre as [|l pre IH]; intros st; simpl; [reflexivity|].
  now rewrite IH, app_assoc.
Qed.

(** The lookahead sees through blank lines. *)
Lemma isNextNonEmptyComment_blank_run (n : nat) (post : list Line) :
  isNextNonEmptyComment (repeat LEmpty n ++ post) = isNextNonEmptyComment post.
Proof. induction n as [|n IH]; simpl; auto. Qed.

Lemma isNextNonEmptyComment_through (ls : list Line) (n : nat) (post : list Line) :
  isNextNonEmptyComment (ls ++ repeat LEmpty (S n) ++ post)
  = isNextNonEmptyComment (ls ++ LEmpty :: post).
Proof.
  induction ls as [|l ls IH].
  - simpl. apply isNextNonEmptyComment_blank_run.
  - destruct l; simpl; auto.
Qed.

(** A step depends on the lines that follow only through the lookahead. *)
Lemma scanStep_lookahead (line : Line) (rest rest' : list Line) (st : ScanState) :
  isNextNonEmptyComment rest = isNextNonEmptyComment rest' ->
  scanStep line rest st = scanStep line rest' st.
Proof. intros H. destruct line; simpl; [reflexivity | now rewrite H | reflexivity]. Qed.

Lemma scanUpTo_through (pre : list Line) (n : nat) (post : list Line)
    (st : ScanState) :
  scanUpTo pre (repeat LEmpty (S n) ++ post) st
  = scanUpTo pre (LEmpty :: post) st.
Proof.
  revert st. induction pre as [|l pre IH]; intros st; [reflexivity|].
  cbn [scanUpTo]. rewrite IH. f_equal.
  apply scanStep_lookahead, isNextNonEmptyComment_through.
Qed.

(** A second blank line in a row only counts. *)
Lemma scanStep_blank_again (rest : list Line) (st : ScanState) :
  consecutiveEmptyLines st <> 0 ->
  scanStep LEmpty rest st
  = mkScan (emitted st) (pendingComments st) (S (consecutiveEmptyLines st))
           (hasEmptyLineAfterComment st).
Proof.
  intros H. unfold scanStep.
  destruct (Nat.eqb_spec (consecutiveEmptyLines st) 0) as [E|_]; [congruence|].
  destruct (negb _); [destruct (isNextNonEmptyComment rest)|]; reflexivity.
Qed.

Lemma scanUpTo_blanks_again (n : nat) (post : list Line) (st : ScanState) :
  consecutiveEmptyLines st <> 0 ->
  scanUpTo (repeat LEmpty n) post st
  = mkScan (emitted st) (pendingComments st) (n + consecutiveEmptyLines st)
           (hasEmptyLineAfterComment st).
Proof.
  revert st. induction n as [|n IH]; intros st H.
  - destruct st; reflexivity.
  - cbn [repeat scanUpTo]. rewrite scanStep_blank_again by exact H.
    rewrite IH by (simpl; congruence). simpl. f_equal. lia.
Qed.

(** The first blank line of a run, by the three cases of the source. *)
Lemma scanStep_first_blank (rest : list Line) (st : ScanState) :
  consecutiveEmptyLines st = 0 ->
  scanStep LEmpty rest st
  = if pendingIsEmpty st
    then mkScan (emitted st ++ [BEmpty]) (pendingComments st) 1
                (hasEmptyLineAfterComment st)
    else if isNextNonEmptyComment rest
    then mkScan (emitted st) (pendingComments st ++ [EmptyString]) 1 true
    else mkScan (emitted st ++ [BComment (pendingComments st); BEmpty]) [] 1
                false.
Proof.
  intros H. unfold scanStep, pendingIsEmpty. rewrite H. simpl.
  destruct (Nat.eqb _ 0); simpl; [reflexivity|].
  destruct (isNextNonEmptyComment rest); reflexivity.
Qed.

(** The state after a whole run of [S n] blank lines met with the counter
    at zero. *)
Lemma scanUpTo_blank_run (n : nat) (post : list Line) (st : ScanState) :
  consecutiveEmptyLines st = 0 ->
  scanUpTo (repeat LEmpty (S n)) post st
  = if pendingIsEmpty st
    then mkScan (emitted st ++ [BEmpty]) (pendingComments st) (S n)
                (hasEmptyLineAfterComment st)
    else if isNextNonEmptyComment post
    then mkScan (emitted st) (pendingComments st ++ [EmptyString]) (S n) true
    else mkScan (emitted st ++ [BComment (pendingComments st); BEmpty]) []
                (S n) false.
Proof.
  intros H. cbn [repeat scanUpTo].
  rewrite scanStep_first_blank by exact H.
  rewrite isNextNonEmptyComment_blank_run.
  destruct (pendingIsEmpty st); [|destruct (isNextNonEmptyComment post)];
    rewrite scanUpTo_blanks_again by (simpl; congruence); simpl;
    f_equal; lia.
Qed.

(** Blocks are only ever appended to the chain. *)
Lemma scanStep_emitted (line : Line) (rest : list Line) (st : ScanState) :
  exists more, emitted (scanStep line rest st) = emitted st ++ more.
Proof.
  destruct line as [content| |key value raw]; simpl.
  - destruct (negb _ && _); simpl; eauto. exists []. now rewrite app_nil_r.
  - destruct (negb _); [destruct (isNextNonEmptyComment rest)|];
      destruct (Nat.eqb _ 0); simpl; eauto; exists []; now rewrite app_nil_r.
  - eauto.
Qed.

Lemma scan_emitted (lines : list Line) (st : ScanState) :
  exists more, emitted (scan lines st) = emitted st ++ more.
Proof.
  revert st. induction lines as [|l rest IH]; intros st; simpl.
  - exists []. now rewrite app_nil_r.
  - destruct (IH (scanStep l rest st)) as [m1 ->].
    destruct (scanStep_emitted l rest st) as [m2 ->].
    exists (m2 ++ m1). now rewrite app_assoc.
Qed.

Lemma finishScan_emitted (st : ScanState) :
  exists more, finishScan st = emitted st ++ more.
Proof.
  unfold finishScan. destruct (negb _); eauto. exists []. now rewrite app_nil_r.
Qed.

Lemma parse_extends_emitted (lines : list Line) (st : ScanState) :
  exists more, finishScan (scan lines st) = emitted st ++ more.
Proof.
  destruct (finishScan_emitted (scan lines st)) as [m1 ->].
  destruct (scan_emitted lines st) as [m2 ->].
  exists (m2 ++ m1). now rewrite app_assoc.
Qed.

(** With comments pending, the next block to be emitted is not a blank
    one. *)
Lemma next_block_not_blank (lines : list Line) (st : ScanState) :
  pendingComments st <> [] ->
  exists more, finishScan (scan lines st) = emitted st ++ more
               /\ startsWithEmptyBlock more = false.
Proof.
  revert st. induction lines as [|l rest IH]; intros st Hp.
  - simpl. unfold finishScan. fold (pendingIsEmpty st).
    apply pendingIsEmpty_false in Hp. rewrite Hp. simpl. eauto.
  - cbn [scan]. destruct l as [content| |key value raw].
    + unfold scanStep. fold (pendingIsEmpty st).
      rewrite (proj2 (pendingIsEmpty_false st) Hp). simpl.
      destruct (hasEmptyLineAfterComment st).
      * destruct (parse_extends_emitted rest
                    (mkScan (emitted st ++ [BComment (pendingComments st)])
                            [content] 0 false)) as [m ->].
        simpl. rewrite <- app_assoc. simpl. eauto.
      * apply (IH (mkScan (emitted st) (pendingComments st ++ [content]) 0 false)).
        apply app_not_nil.
    + unfold scanStep. fold (pendingIsEmpty st).
      rewrite (proj2 (pendingIsEmpty_false st) Hp). simpl.
      destruct (isNextNonEmptyComment rest);
        destruct (Nat.eqb (consecutiveEmptyLines st) 0).
      * apply (IH (mkScan (emitted st) (pendingComments st ++ [EmptyString])
                          (S (consecutiveEmptyLines st)) true)).
        apply app_not_nil.
      * apply (IH (mkScan (emitted st) (pendingComments st)
                          (S (consecutiveEmptyLines st))
                          (hasEmptyLineAfterComment st))). exact Hp.
      * destruct (parse_extends_emitted rest
                    (mkScan (emitted st ++ [BComment (pendingComments st); BEmpty])
                            [] (S (consecutiveEmptyLines st)) false)) as [m ->].
        simpl. rewrite <- app_assoc. simpl. eauto.
      * apply (IH (mkScan (emitted st) (pendingComments st)
                          (S (consecutiveEmptyLines st))
                          (hasEmptyLineAfterComment st))). exact Hp.
    + destruct (parse_extends_emitted rest
                  (scanStep (LVariable key value raw) rest st)) as [m ->].
      simpl. rewrite <- app_assoc. simpl. eauto.
Qed.

(** After a run of blank lines that is followed by a line that is not
    blank, the next block to be emitted is not a blank one. *)
Lemma after_run_not_blank (post : list Line) (st : ScanState) :
  startsWithEmptyLine post = false ->
  (post = [] -> pendingComments st = []) ->
  exists more, finishScan (scan post st) = emitted st ++ more
               /\ startsWithEmptyBlock more = false.
Proof.
  intros Hpost Hnil. destruct post as [|l rest].
  - simpl. unfold finishScan. rewrite (Hnil eq_refl). simpl.
    exists []. now rewrite app_nil_r.
  - destruct l as [content| |key value raw]; [| discriminate |].
    + cbn [scan]. unfold scanStep.
      destruct (negb _ && _).
      * destruct (parse_extends_emitted rest
                    (mkScan (emitted st ++ [BComment (pendingComments st)])
                            [content] 0 false)) as [m ->].
        simpl. rewrite <- app_assoc. simpl. eauto.
      * apply (next_block_not_blank rest
                 (mkScan (emitted st) (pendingComments st ++ [content]) 0
                         (hasEmptyLineAfterComment st))).
        apply app_not_nil.
    + cbn [scan].
      destruct (parse_extends_emitted rest
                  (scanStep (LVariable key value raw) rest st)) as [m ->].
      simpl. rewrite <- app_assoc. simpl. eauto.
Qed.

Lemma counter_zero_before_run (pre rest : list Line) :
  endsWithEmptyLine pre = false ->
  consecutiveEmptyLines (scanUpTo pre rest initScan) = 0.
Proof.
  unfold endsWithEmptyLine.
  destruct pre as [|l pre'] using rev_ind; [reflexivity|].
  rewrite rev_app_distr. simpl. intros Hl.
  rewrite scanUpTo_app. simpl.
  destruct l as [content| |key value raw]; [|discriminate|reflexivity].
  simpl. destruct (negb _ && _); reflexivity.
Qed.

Lemma scanStep_sameUpToCount (line : Line) (rest : list Line)
    (st1 st2 : ScanState) :
  sameUpToCount st1 st2 ->
  sameUpToCount (scanStep line rest st1) (scanStep line rest st2).
Proof.
  destruct st1 as [e1 p1 c1 f1], st2 as [e2 p2 c2 f2].
  unfold sameUpToCount. simpl. intros (<- & <- & <- & Hc).
  destruct line as [content| |key value raw]; simpl.
  - destruct (negb _ && _); simpl; auto.
  - rewrite <- Hc.
    destruct (negb _); [destruct (isNextNonEmptyComment rest)|];
      destruct (Nat.eqb c1 0); simpl; auto.
  - auto.
Qed.

Lemma scan_sameUpToCount (lines : list Line) (st1 st2 : ScanState) :
  sameUpToCount st1 st2 -> sameUpToCount (scan lines st1) (scan lines st2).
Proof.
  revert st1 st2. induction lines as [|l rest IH]; intros st1 st2 H; simpl;
    [exact H|].
  apply IH, scanStep_sameUpToCount, H.
Qed.

Lemma finishScan_sameUpToCount (st1 st2 : ScanState) :
  sameUpToCount st1 st2 -> finishScan st1 = finishScan st2.
Proof.
  unfold sameUpToCount, finishScan. intros (-> & -> & _). reflexivity.
Qed.

(** A run of blank lines leaves the scan where a single blank line leaves
    it, up to the counter. *)
Lemma blank_run_as_one (n : nat) (post : list Line) (st : ScanState) :
  sameUpToCount (scanUpTo (repeat LEmpty (S n)) post st) (scanStep LEmpty post st).
Proof.
  destruct (Nat.eq_dec (consecutiveEmptyLines st) 0) as [E|E].
  - rewrite scanUpTo_blank_run, scanStep_first_blank by exact E.
    destruct (pendingIsEmpty st); [|destruct (isNextNonEmptyComment post)];
      repeat split.
  - rewrite scanUpTo_blanks_again, scanStep_blank_again by exact E.
    repeat split.
Qed.

(** The parsed document does not depend on how long a run of blank lines
    is. *)
Lemma parseBlocks_blank_run (pre post : list Line) (n : nat) :
  parseBlocks (pre ++ repeat LEmpty (S n) ++ post)
  = parseBlocks (pre ++ LEmpty :: post).
Proof.
  unfold parseBlocks. rewrite !scan_app, scanUpTo_through.
  apply finishScan_sameUpToCount.
  cbn [scan]. apply scan_sameUpToCount, blank_run_as_one.
Qed.

(** C6, as the code has it.  A maximal run of [S n] blank lines collapses
    to exactly one blank block whatever [n] is, except when comment lines
    are pending before it and the next line that is not blank is a comment:
    then no blank block is made and the run becomes one empty-string marker
    at the end of the pending comment lines.  In the other cases the blank
    block comes right after the blocks made before the run (and after the
    comment block that flushes the pending comments, if any), and the block
    that follows it in the document is not a blank one. *)
Theorem C6_blank_run_compression (pre post : list Line) (n : nat) :
  endsWithEmptyLine pre = false ->
  startsWithEmptyLine post = false ->
  let run := repeat LEmpty (S n) in
  let before := scanUpTo pre (run ++ post) initScan in
  let after := scanUpTo run post before in
  (if negb (pendingIsEmpty before) && isNextNonEmptyComment post
   then emitted after = emitted before
        /\ pendingComments after = pendingComments before ++ [EmptyString]
   else emitted after
        = emitted before
          ++ (if pendingIsEmpty before then []
              else [BComment (pendingComments before)])
          ++ [BEmpty]
        /\ pendingComments after = [])
  /\ (exists more, parseBlocks (pre ++ run ++ post) = emitted after ++ more
                   /\ startsWithEmptyBlock more = false)
  /\ parseBlocks (pre ++ run ++ post) = parseBlocks (pre ++ LEmpty :: post).
Proof.
  intros Hpre Hpost run before after.
  pose proof (counter_zero_before_run pre (run ++ post) Hpre) as Hzero.
  fold before in Hzero.
  pose proof (scanUpTo_blank_run n post before Hzero) as Hafter.
  fold run in Hafter. fold after in Hafter.
  split; [|split].
  - rewrite Hafter.
    destruct (pendingIsEmpty before) eqn:Hp; simpl.
    + apply pendingIsEmpty_true in Hp. auto.
    + destruct (isNextNonEmptyComment post); simpl; auto.
  - unfold parseBlocks. rewrite !scan_app.
    fold run. fold before. fold after.
    apply after_run_not_blank; [exact Hpost|].
    intros ->. rewrite Hafter.
    destruct (pendingIsEmpty before) eqn:Hp; simpl; [|reflexivity].
    now apply pendingIsEmpty_true.
  - apply parseBlocks_blank_run.
Qed.

Lemma C6_witness :
  parseBlocks ([LVariable "A" "1" "A=1"] ++ repeat LEmpty 3
               ++ [LVariable "B" "2" "B=2"])
  = parseBlocks ([LVariable "A" "1" "A=1"] ++ LEmpty :: [LVariable "B" "2" "B=2"]).
Proof.
  apply (C6_blank_run_compression
           [LVariable "A" "1" "A=1"] [LVariable "B" "2" "B=2"] 2);
    reflexivity.
Defined.

(** The claim as the design document words it fails between comments: the
    run of two blank lines of this input makes no blank block at all. *)
Lemma C6_counterexample :
  let content := ("# c" ++ Str.nl ++ Str.nl ++ Str.nl ++ "# c2")%string in
  map parseLine (Str.splitLines content)
  = [LComment "# c"; LEmpty; LEmpty; LComment "# c2"]
  /\ countEmptyBlocks (parseEnvFile content) = 0.
Proof. vm_compute. split; reflexivity. Qed.

(** ** Looking variables up *)

Lemma findVariableBlock_cons (b : Block) (next : Document) (key : string) :
  findVariableBlock (b :: next) key
  = if hasKey key b then Some 0 else option_map S (findVariableBlock next key).
Proof. destruct b; reflexivity. Qed.

Lemma findVariable_cons (b : Block) (next : Document) (key : string) :
  findVariable (b :: next) key
  = if hasKey key b then Some b else findVariable next key.
Proof.
  unfold findVariable. rewrite findVariableBlock_cons.
  destruct (hasKey key b); [reflexivity|].
  destruct (findVariableBlock next key); reflexivity.
Qed.

Lemma findVariable_nil (key : string) : findVariable [] key = None.
Proof. reflexivity. Qed.

Lemma findVariable_app (l1 l2 : Document) (key : string) :
  findVariable (l1 ++ l2) key
  = match findVariable l1 key with
    | Some b => Some b
    | None => findVariable l2 key
    end.
Proof.
  induction l1 as [|b l IH]; [reflexivity|].
  simpl app. rewrite !findVariable_cons.
  destruct (hasKey key b); [reflexivity | exact IH].
Qed.

Lemma findVariableBlock_app (l1 l2 : Document) (key : string) :
  findVariableBlock (l1 ++ l2) key
  = match findVariableBlock l1 key with
    | Some i => Some i
    | None => option_map (Nat.add (List.length l1)) (findVariableBlock l2 key)
    end.
Proof.
  induction l1 as [|b l IH].
  - simpl. destruct (findVariableBlock l2 key); reflexivity.
  - simpl app. rewrite !findVariableBlock_cons, IH.
    destruct (hasKey key b); [reflexivity|].
    destruct (findVariableBlock l key); [reflexivity|].
    destruct (findVariableBlock l2 key); reflexivity.
Qed.

Lemma findVariable_None_iff (head : Document) (key : string) :
  findVariable head key = None <-> findVariableBlock head key = None.
Proof.
  induction head as [|b next IH]; [simpl; tauto|].
  rewrite findVariable_cons, findVariableBlock_cons.
  destruct (hasKey key b); [split; discriminate|].
  rewrite IH. destruct (findVariableBlock next key); simpl; split; congruence.
Qed.

Lemma findVariable_hasKey (head : Document) (key : string) (b : Block) :
  findVariable head key = Some b -> hasKey key b = true.
Proof.
  induction head as [|x next IH]; [discriminate|].
  rewrite findVariable_cons. destruct (hasKey key x) eqn:E; [|exact IH].
  now intros [= <-].
Qed.

Lemma hasKey_true (key : string) (b : Block) :
  hasKey key b = true <-> exists v r c, b = BVariable key v r c.
Proof.
  destruct b as [l| |k v r c]; simpl.
  - split; [discriminate | intros (? & ? & ? & [=])].
  - split; [discriminate | intros (? & ? & ? & [=])].
  - rewrite String.eqb_eq. split.
    + intros ->. eauto.
    + intros (? & ? & ? & [= -> _ _ _]). reflexivity.
Qed.

(** The split of a document at the node [findVariableBlock] returns. *)
Lemma findVariableBlock_split (head : Document) (key : string) (i : nat) :
  findVariableBlock head key = Some i ->
  exists pre b post,
    head = pre ++ b :: post /\ List.length pre = i
    /\ hasKey key b = true /\ findVariableBlock pre key = None.
Proof.
  revert i. induction head as [|x next IH]; intros i; [discriminate|].
  rewrite findVariableBlock_cons. destruct (hasKey key x) eqn:E.
  - intros [= <-]. now exists [], x, next.
  - destruct (findVariableBlock next key) as [j|] eqn:F; [|discriminate].
    intros [= <-]. destruct (IH j eq_refl) as (pre & b & post & -> & <- & Hb & Hn).
    exists (x :: pre), b, post. repeat split; auto.
    rewrite findVariableBlock_cons, E, Hn. reflexivity.
Qed.

Lemma findVariableBlock_at (pre : Document) (b : Block) (post : Document)
    (key : string) :
  hasKey key b = true -> findVariableBlock pre key = None ->
  findVariableBlock (pre ++ b :: post) key = Some (List.length pre).
Proof.
  intros Hb Hn. rewrite findVariableBlock_app, Hn, findVariableBlock_cons, Hb.
  simpl. now rewrite Nat.add_0_r.
Qed.

Lemma insertBefore_eq (head : Document) (target : nat) (b : Block) :
  insertBefore head target b = firstn target head ++ b :: skipn target head.
Proof.
  destruct head; [|reflexivity]. simpl. now rewrite firstn_nil, skipn_nil.
Qed.

Lemma updateAt_split (pre : Document) (b : Block) (post : Document)
    (f : Block -> Block) :
  updateAt (List.length pre) f (pre ++ b :: post) = pre ++ f b :: post.
Proof. induction pre as [|x pre IH]; simpl; [reflexivity | now rewrite IH]. Qed.

Lemma hasKey_updateVariable (key : string) (b : Block) (v : string)
    (c : list string) :
  hasKey key (updateVariable b v c) = hasKey key b.
Proof. destruct b; reflexivity. Qed.

(** Inserting a block that does not define the key does not change what
    the lookup of the key returns. *)
Lemma findVariable_insert (head : Document) (target : nat) (b : Block)
    (key : string) :
  hasKey key b = false ->
  findVariable (insertBefore head target b) key = findVariable head key.
Proof.
  intros Hb. rewrite insertBefore_eq.
  rewrite <- (firstn_skipn target head) at 3.
  rewrite !findVariable_app, findVariable_cons, Hb. reflexivity.
Qed.

Lemma findVariable_append (head : Document) (b : Block) (key : string) :
  hasKey key b = false ->
  findVariable (appendToTail head b) key = findVariable head key.
Proof.
  intros Hb. unfold appendToTail.
  rewrite findVariable_app, findVariable_cons, Hb.
  now destruct (findVariable head key).
Qed.

(** Overriding the first definition of [k]: the lookup of [k] returns the
    overridden node, the lookup of another key is unchanged. *)
Lemma findVariable_update_same (head : Document) (k : string) (i : nat)
    (v : string) (c : list string) :
  findVariableBlock head k = Some i ->
  findVariable (updateAt i (fun b => updateVariable b v c) head) k
  = Some (BVariable k v (k ++ "=" ++ quoteValue v) c).
Proof.
  intros H. destruct (findVariableBlock_split _ _ _ H)
    as (pre & b & post & -> & <- & Hb & Hn).
  rewrite updateAt_split, findVariable_app.
  rewrite (proj2 (findVariable_None_iff pre k) Hn).
  rewrite findVariable_cons, hasKey_updateVariable, Hb.
  apply hasKey_true in Hb as (v0 & r0 & c0 & ->). reflexivity.
Qed.

Lemma findVariable_update_other (head : Document) (k key : string) (i : nat)
    (v : string) (c : list string) :
  findVariableBlock head k = Some i -> k <> key ->
  findVariable (updateAt i (fun b => updateVariable b v c) head) key
  = findVariable head key.
Proof.
  intros H Hne. destruct (findVariableBlock_split _ _ _ H)
    as (pre & b & post & -> & <- & Hb & Hn).
  rewrite updateAt_split, !findVariable_app, !findVariable_cons.
  rewrite hasKey_updateVariable.
  apply hasKey_true in Hb as (v0 & r0 & c0 & ->). simpl.
  now rewrite (proj2 (String.eqb_neq k key) Hne).
Qed.

(** ** Override precedence *)

Lemma lastVariable_hasKey (d : Document) (key : string) (b : Block) :
  lastVariable d key = Some b -> hasKey key b = true.
Proof.
  induction d as [|x next IH]; simpl; [discriminate|].
  destruct (lastVariable next key); [exact IH|].
  destruct (hasKey key x) eqn:E; [|discriminate]. now intros [= <-].
Qed.

Lemma lastVariable_None_iff (d : Document) (key : string) :
  lastVariable d key = None <-> findVariable d key = None.
Proof.
  induction d as [|x next IH]; [simpl; tauto|].
  simpl. rewrite findVariable_cons.
  destruct (lastVariable next key) as [b|].
  - destruct (hasKey key x); [split; discriminate|].
    rewrite <- IH. split; discriminate.
  - destruct (hasKey key x); [split; discriminate|].
    rewrite <- IH. tauto.
Qed.

(** A key defined once has one definition, the first and the last. *)
Lemma lastVariable_unique (pre post : Document) (b : Block) (key : string) :
  findVariable pre key = None -> findVariable post key = None ->
  hasKey key b = true ->
  lastVariable (pre ++ b :: post) key = Some b
  /\ findVariable (pre ++ b :: post) key = Some b.
Proof.
  intros Hpre Hpost Hb. split.
  - clear Hpre. induction pre as [|x pre IH]; simpl.
    + now rewrite (proj2 (lastVariable_None_iff post key) Hpost), Hb.
    + now rewrite IH.
  - now rewrite findVariable_app, Hpre, findVariable_cons, Hb.
Qed.

(** The first loop on a key the base defines: its first definition in the
    base ends as the override by the last definition of the source, or is
    left alone when the source has none. *)
Lemma mergeVariables_defined (source head : Document) (key : string)
    (b0 : Block) :
  findVariable head key = Some b0 ->
  findVariable (mergeVariables head source) key
  = match lastVariable source key with
    | Some (BVariable _ v _ c) =>
        Some (BVariable key v (key ++ "=" ++ quoteValue v) c)
    | _ => Some b0
    end.
Proof.
  revert head b0. induction source as [|x next IH]; intros head b0 H0.
  - exact H0.
  - destruct x as [l| |k v r c]; simpl.
    + rewrite (IH _ _ H0). now destruct (lastVariable next key).
    + rewrite (IH _ _ H0). now destruct (lastVariable next key).
    + destruct (String.eqb_spec k key) as [->|Hne].
      * destruct (findVariableBlock head key) as [i|] eqn:Hi.
        2:{ apply findVariable_None_iff in Hi. congruence. }
        pose proof (findVariable_update_same _ _ _ v c Hi) as Hu.
        rewrite (IH _ _ Hu).
        destruct (lastVariable next key) as [b'|] eqn:El; [|reflexivity].
        apply lastVariable_hasKey, hasKey_true in El as (v' & r' & c' & ->).
        reflexivity.
      * assert (Hk : hasKey key (BVariable k v r c) = false)
          by (simpl; now apply String.eqb_neq).
        assert (Hl : match lastVariable next key with
                     | Some b' => Some b'
                     | None => None
                     end = lastVariable next key)
          by now destruct (lastVariable next key).
        rewrite Hl.
        destruct (findVariableBlock head k) as [i|] eqn:Hi.
        -- apply IH. now rewrite (findVariable_update_other _ _ _ _ v c Hi Hne).
        -- destruct (findIntersectionPoint next head) as [p|]; apply IH.
           ++ now rewrite findVariable_insert.
           ++ now rewrite findVariable_append.
Qed.

(** The first loop on a key the source does not define. *)
Lemma mergeVariables_untouched (source head : Document) (key : string) :
  findVariable source key = None ->
  findVariable (mergeVariables head source) key = findVariable head key.
Proof.
  revert head. induction source as [|x next IH]; intros head; [reflexivity|].
  rewrite findVariable_cons. destruct (hasKey key x) eqn:Hx; [discriminate|].
  intros Hn. destruct x as [l| |k v r c]; simpl; try now apply IH.
  assert (Hne : k <> key) by (simpl in Hx; now apply String.eqb_neq).
  destruct (findVariableBlock head k) as [i|] eqn:Hi.
  - rewrite IH by exact Hn. now apply (findVariable_update_other _ k).
  - destruct (findIntersectionPoint next head) as [p|]; rewrite IH by exact Hn.
    + now apply findVariable_insert.
    + now apply findVariable_append.
Qed.

(** The first loop on a key the source defines, whatever the base: the
    value and the comments of the last definition of the source win. *)
Lemma mergeVariables_last_wins (source head : Document) (key v r : string)
    (c : list string) :
  lastVariable source key = Some (BVariable key v r c) ->
  exists r', findVariable (mergeVariables head source) key
             = Some (BVariable key v r' c).
Proof.
  intros Hlast.
  destruct (findVariable head key) as [b0|] eqn:H0.
  - rewrite (mergeVariables_defined _ _ _ _ H0), Hlast. eauto.
  - revert head H0 Hlast.
    induction source as [|x next IH]; intros head H0; [discriminate|].
    destruct x as [l| |k v1 r1 c1]; simpl.
    + destruct (lastVariable next key) eqn:E; [|discriminate].
      intros [= ->]. now apply IH.
    + destruct (lastVariable next key) eqn:E; [|discriminate].
      intros [= ->]. now apply IH.
    + destruct (String.eqb_spec k key) as [->|Hne].
      * rewrite (proj1 (findVariable_None_iff head key) H0).
        assert (Hnew : forall head', findVariable head key = None ->
                  (exists p, head' = insertBefore head p (BVariable key v1 r1 c1))
                  \/ head' = appendToTail head (BVariable key v1 r1 c1) ->
                  findVariable head' key = Some (BVariable key v1 r1 c1)).
        { intros head' Hn [[p ->]| ->].
          - rewrite insertBefore_eq, findVariable_app.
            assert (Hf : findVariable (firstn p head) key = None).
            { rewrite <- (firstn_skipn p head), findVariable_app in Hn.
              now destruct (findVariable (firstn p head) key). }
            rewrite Hf, findVariable_cons. simpl. now rewrite String.eqb_refl.
          - unfold appendToTail. rewrite findVariable_app, Hn, findVariable_cons.
            simpl. now rewrite String.eqb_refl. }
        intros Hl.
        destruct (findIntersectionPoint next head) as [p|].
        -- rewrite (mergeVariables_defined next _ key _
                      (Hnew _ H0 (or_introl (ex_intro _ p eq_refl)))).
           destruct (lastVariable next key) as [b'|].
           ++ injection Hl as ->. eauto.
           ++ injection Hl as -> -> ->. eauto.
        -- rewrite (mergeVariables_defined next _ key _
                      (Hnew _ H0 (or_intror eq_refl))).
           destruct (lastVariable next key) as [b'|].
           ++ injection Hl as ->. eauto.
           ++ injection Hl as -> -> ->. eauto.
      * assert (Hk : hasKey key (BVariable k v1 r1 c1) = false)
          by (simpl; now apply String.eqb_neq).
        destruct (lastVariable next key) eqn:E; [|discriminate].
        intros [= ->].
        destruct (findVariableBlock head k) as [i|] eqn:Hi.
        -- apply IH; [|reflexivity].
           now rewrite (findVariable_update_other _ _ _ _ v1 c1 Hi Hne).
        -- destruct (findIntersectionPoint next head) as [p|];
             (apply IH; [|reflexivity]).
           ++ now rewrite findVariable_insert.
           ++ now rewrite findVariable_append.
Qed.

(** The second loop inserts comment blocks only. *)
Lemma findVariable_insertCommentBlock (head : Document) (lines : list string)
    (next : Document) (key : string) :
  findVariable (insertCommentBlock head (BComment lines) next) key
  = findVariable head key.
Proof.
  unfold insertCommentBlock.
  assert (Ht : findVariable
                 (if hasCommentBlockBefore head 0 (BComment lines) then head
                  else appendToTail head (BComment lines)) key
               = findVariable head key).
  { destruct (hasCommentBlockBefore head 0 _); [reflexivity|].
    now apply findVariable_append. }
  destruct (findNextVariable next) as [[| |k v r c]|]; try exact Ht.
  destruct (findVariableBlock head k) as [p|]; [|exact Ht].
  destruct (negb _); [|reflexivity]. now apply findVariable_insert.
Qed.

Lemma findVariable_mergeComments (source head : Document) (key : string) :
  findVariable (mergeComments head source) key = findVariable head key.
Proof.
  revert head. induction source as [|x next IH]; intros head; [reflexivity|].
  destruct x; simpl; rewrite IH; auto using findVariable_insertCommentBlock.
Qed.

Lemma mergeTwo_untouched (base source : Document) (key : string) :
  findVariable source key = None ->
  findVariable (mergeTwo base source) key = findVariable base key.
Proof.
  intros H. unfold mergeTwo.
  now rewrite findVariable_mergeComments, mergeVariables_untouched.
Qed.

Lemma fold_mergeTwo_untouched (post : list Document) (base : Document)
    (key : string) :
  (forall p, In p post -> findVariable p key = None) ->
  findVariable (fold_left mergeTwo post base) key = findVariable base key.
Proof.
  revert base. induction post as [|p post IH]; intros base H; [reflexivity|].
  simpl. rewrite IH by (intros q Hq; apply H; now right).
  apply mergeTwo_untouched, H. now left.
Qed.

(** C2. Override precedence.  When two documents [a] and [b] both define
    the key [K], looking [K] up in their merge gives the node of the base
    overwritten by the definition of [b] (the rightmost definition of [K]
    in [b], which is its only one when [b] defines [K] once): the value of
    [b], the raw form regenerated from the key and the quoted new value,
    and the comments of the source.  For any number of documents, the
    rightmost document that defines [K] wins whatever the documents before
    it define, provided it is not the first non-null document. *)
Theorem C2_override_precedence :
  (forall (a b : Document) (K v r : string) (c : list string),
      findVariable a K <> None ->
      lastVariable b K = Some (BVariable K v r c) ->
      findVariable (mergeSources [a; b]) K
      = Some (BVariable K v (K ++ "=" ++ quoteValue v) c))
  /\ (forall (pre post : list Document) (d : Document) (K v r : string)
             (c : list string),
      nonNull pre <> [] ->
      lastVariable d K = Some (BVariable K v r c) ->
      (forall p, In p post -> findVariable p K = None) ->
      exists b, findVariable (mergeSources (pre ++ d :: post)) K = Some b
                /\ keyOf b = Some K /\ valueOf b = Some v).
Proof.
  split.
  - intros a b K v r c Ha Hb.
    assert (Hna : isNull a = false) by (destruct a; [now elim Ha | reflexivity]).
    assert (Hnb : isNull b = false) by (destruct b; [discriminate | reflexivity]).
    unfold mergeSources. simpl. rewrite Hna, Hnb. simpl.
    unfold mergeTwo. rewrite findVariable_mergeComments.
    destruct (findVariable a K) as [b0|] eqn:E; [|congruence].
    now rewrite (mergeVariables_defined _ _ _ _ E), Hb.
  - intros pre post d K v r c Hpre Hd Hpost.
    assert (Hnd : isNull d = false) by (destruct d; [discriminate | reflexivity]).
    unfold mergeSources. fold (nonNull (pre ++ d :: post)).
    unfold nonNull in *. rewrite filter_app. simpl. rewrite Hnd. simpl.
    destruct (filter _ pre) as [|first rest]; [congruence|].
    simpl. rewrite fold_left_app. simpl.
    rewrite fold_mergeTwo_untouched.
    2:{ intros p Hp. apply filter_In in Hp as [Hp _]. now apply Hpost. }
    unfold mergeTwo. rewrite findVariable_mergeComments.
    match goal with
    | |- context [mergeVariables ?h d] =>
        destruct (mergeVariables_last_wins d h K v r c Hd) as [r' ->]
    end.
    eauto.
Qed.

Lemma C2_witness :
  let a := parseEnvFile ("KEY1=value1" ++ Str.nl ++ "KEY2=value2") in
  let b := parseEnvFile ("KEY2=overridden" ++ Str.nl ++ "KEY3=value3") in
  let d1 := parseEnvFile ("A=1" ++ Str.nl ++ "B=1" ++ Str.nl ++ "C=1") in
  let d2 := parseEnvFile ("B=2" ++ Str.nl ++ "C=2" ++ Str.nl ++ "D=2") in
  let d3 := parseEnvFile ("C=3" ++ Str.nl ++ "D=3" ++ Str.nl ++ "E=3") in
  findVariable (mergeSources [a; b]) "KEY2"
  = Some (BVariable "KEY2" "overridden" "KEY2=overridden" [])
  /\ exists n, findVariable (mergeSources ([d1; d2] ++ d3 :: [])) "C" = Some n
               /\ keyOf n = Some "C" /\ valueOf n = Some "3".
Proof.
  intros a b d1 d2 d3. split.
  - apply (proj1 C2_override_precedence a b "KEY2" "overridden"
             "KEY2=overridden" []).
    + vm_compute. discriminate.
    + reflexivity.
  - apply (proj2 C2_override_precedence [d1; d2] [] d3 "C" "3" "C=3" []).
    + vm_compute. discriminate.
    + reflexivity.
    + simpl. tauto.
Defined.

(** When the source defines the key more than once, the definition that
    wins is its last one, not the one [findVariable] returns for it. *)
Example override_by_last_duplicate :
  let a := parseEnvFile "K=0" in
  let b := parseEnvFile ("K=1" ++ Str.nl ++ "K=2") in
  findVariable b "K" = Some (BVariable "K" "1" "K=1" [])
  /\ findVariable (mergeSources [a; b]) "K" = Some (BVariable "K" "2" "K=2" []).
Proof. vm_compute. split; reflexivity. Qed.

(** ** The raw field *)

Lemma scanStep_variables (line : Line) (rest : list Line) (st : ScanState)
    (k v r : string) (c : list string) :
  In (BVariable k v r c) (emitted (scanStep line rest st)) ->
  In (BVariable k v r c) (emitted st) \/ line = LVariable k v r.
Proof.
  destruct line as [content| |key value raw]; simpl.
  - destruct (negb _ && _); simpl; [|tauto].
    rewrite in_app_iff. simpl. intros [H|[H|[]]]; [tauto | discriminate].
  - destruct (negb _); [destruct (isNextNonEmptyComment rest)|];
      destruct (Nat.eqb _ 0); simpl; try tauto;
      rewrite in_app_iff; simpl; intuition discriminate.
  - rewrite in_app_iff. simpl. intros [H|[[= -> -> -> _]|[]]]; tauto.
Qed.

Lemma scan_variables (lines : list Line) (st : ScanState)
    (k v r : string) (c : list string) :
  In (BVariable k v r c) (finishScan (scan lines st)) ->
  In (BVariable k v r c) (emitted st) \/ In (LVariable k v r) lines.
Proof.
  revert st. induction lines as [|l rest IH]; intros st; simpl.
  - unfold finishScan. destruct (negb _); [|tauto].
    rewrite in_app_iff. simpl. intuition discriminate.
  - intros H. destruct (IH _ H) as [H1|H1]; [|tauto].
    destruct (scanStep_variables _ _ _ _ _ _ _ H1) as [H2| ->]; tauto.
Qed.

(** The raw field of a parsed variable is the physical line it comes from,
    verbatim. *)
Lemma parseEnvFile_raw (content k v r : string) (c : list string) :
  In (BVariable k v r c) (parseEnvFile content) ->
  In r (Str.splitLines content) /\ parseLine r = LVariable k v r.
Proof.
  unfold parseEnvFile, parseBlocks. intros H.
  apply scan_variables in H as [[]|H].
  apply in_map_iff in H as (line & Hl & Hin).
  destruct (parseLine_LVariable_inv _ _ _ _ Hl) as [-> _]. auto.
Qed.

Lemma parseEnvFile_faithful (content : string) :
  Forall rawIsFaithful (parseEnvFile content).
Proof.
  apply Forall_forall. intros [l| |k v r c] H; simpl; auto.
  right. now apply (parseEnvFile_raw content k v r c).
Qed.

Lemma Forall_updateAt (P : Block -> Prop) (f : Block -> Block) (i : nat)
    (head : Document) :
  (forall b, P b -> P (f b)) -> Forall P head -> Forall P (updateAt i f head).
Proof.
  intros Hf. revert i. induction head as [|x next IH]; intros i H;
    [destruct i; constructor|].
  inversion_clear H. destruct i; simpl; constructor; auto.
Qed.

Lemma Forall_insertBefore (P : Block -> Prop) (head : Document) (p : nat)
    (b : Block) :
  P b -> Forall P head -> Forall P (insertBefore head p b).
Proof.
  intros Hb H. rewrite insertBefore_eq.
  rewrite <- (firstn_skipn p head) in H. apply Forall_app in H as [H1 H2].
  apply Forall_app. split; [exact H1 | now constructor].
Qed.

Lemma Forall_appendToTail (P : Block -> Prop) (head : Document) (b : Block) :
  P b -> Forall P head -> Forall P (appendToTail head b).
Proof. intros Hb H. apply Forall_app. split; [exact H | now constructor]. Qed.

Lemma rawIsFaithful_updateVariable (b : Block) (v : string) (c : list string) :
  rawIsFaithful (updateVariable b v c).
Proof. destruct b; simpl; auto. Qed.

Lemma mergeVariables_raw (source head : Document) :
  Forall rawIsFaithful source -> Forall rawIsFaithful head ->
  Forall rawIsFaithful (mergeVariables head source).
Proof.
  revert head. induction source as [|x next IH]; intros head Hs Hh;
    [exact Hh|].
  inversion_clear Hs as [|? ? Hx Hnext].
  destruct x as [l| |k v r c]; simpl; auto.
  destruct (findVariableBlock head k) as [i|].
  - apply IH; [exact Hnext|]. apply Forall_updateAt; [|exact Hh].
    intros b _. apply rawIsFaithful_updateVariable.
  - destruct (findIntersectionPoint next head) as [p|]; apply IH; auto.
    + now apply Forall_insertBefore.
    + now apply Forall_appendToTail.
Qed.

Lemma insertCommentBlock_raw (head : Document) (lines : list string)
    (next : Document) :
  Forall rawIsFaithful head ->
  Forall rawIsFaithful (insertCommentBlock head (BComment lines) next).
Proof.
  intros Hh. unfold insertCommentBlock.
  assert (Ht : Forall rawIsFaithful
                 (if hasCommentBlockBefore head 0 (BComment lines) then head
                  else appendToTail head (BComment lines))).
  { destruct (hasCommentBlockBefore head 0 _); [exact Hh|].
    apply Forall_appendToTail; simpl; auto. }
  destruct (findNextVariable next) as [[| |k v r c]|]; try exact Ht.
  destruct (findVariableBlock head k) as [p|]; [|exact Ht].
  destruct (negb _); [|exact Hh]. apply Forall_insertBefore; simpl; auto.
Qed.

Lemma mergeComments_raw (source head : Document) :
  Forall rawIsFaithful head -> Forall rawIsFaithful (mergeComments head source).
Proof.
  revert head. induction source as [|x next IH]; intros head Hh; [exact Hh|].
  destruct x; simpl; auto using insertCommentBlock_raw.
Qed.

Lemma mergeTwo_raw (base source : Document) :
  Forall rawIsFaithful base -> Forall rawIsFaithful source ->
  Forall rawIsFaithful (mergeTwo base source).
Proof.
  intros Hb Hs. unfold mergeTwo.
  now apply mergeComments_raw, mergeVariables_raw.
Qed.

(** The first loop on a key the base does not define, from the first
    definition of the key in the source on: the node is copied into the
    base as it is, and overridden by the last definition that follows it
    in the source, when there is one. *)
Lemma mergeVariables_inserted (pre next : Document) (key v1 r1 : string)
    (c1 : list string) :
  forall head : Document,
  findVariable head key = None -> findVariable pre key = None ->
  findVariable
    (mergeVariables head (pre ++ BVariable key v1 r1 c1 :: next)) key
  = match lastVariable next key with
    | Some (BVariable _ v _ c) =>
        Some (BVariable key v (key ++ "=" ++ quoteValue v) c)
    | _ => Some (BVariable key v1 r1 c1)
    end.
Proof.
  induction pre as [|x pre IH]; intros head H0 Hpre.
  - cbn [app mergeVariables].
    rewrite (proj1 (findVariable_None_iff head key) H0).
    assert (Hhere : hasKey key (BVariable key v1 r1 c1) = true)
      by (simpl; apply String.eqb_refl).
    destruct (findIntersectionPoint next head) as [p|];
      apply mergeVariables_defined.
    + rewrite insertBefore_eq, findVariable_app.
      assert (Hf : findVariable (firstn p head) key = None).
      { rewrite <- (firstn_skipn p head), findVariable_app in H0.
        now destruct (findVariable (firstn p head) key). }
      now rewrite Hf, findVariable_cons, Hhere.
    + unfold appendToTail.
      now rewrite findVariable_app, H0, findVariable_cons, Hhere.
  - rewrite findVariable_cons in Hpre.
    destruct (hasKey key x) eqn:Hx; [discriminate|].
    destruct x as [l| |k v r c]; cbn [app mergeVariables];
      try now apply IH.
    assert (Hne : k <> key) by (simpl in Hx; now apply String.eqb_neq).
    destruct (findVariableBlock head k) as [i|] eqn:Hi.
    + apply IH; [|exact Hpre].
      now rewrite (findVariable_update_other _ _ _ _ v c Hi Hne).
    + destruct (findIntersectionPoint _ head) as [p|];
        (apply IH; [|exact Hpre]).
      * now rewrite findVariable_insert.
      * now rewrite findVariable_append.
Qed.

Lemma mergeVariables_Forall (P : Block -> Prop) (source head : Document) :
  Forall P head ->
  (forall k v r c,
      In (BVariable k v r c) source ->
      P (BVariable k v r c)
      /\ P (BVariable k v (k ++ "=" ++ quoteValue v) c)) ->
  Forall P (mergeVariables head source).
Proof.
  revert head. induction source as [|x next IH]; intros head Hh Hs;
    [exact Hh|].
  assert (Hnext : forall k v r c,
             In (BVariable k v r c) next ->
             P (BVariable k v r c)
             /\ P (BVariable k v (k ++ "=" ++ quoteValue v) c))
    by (intros k v r c H; apply Hs; now right).
  destruct x as [l| |k v r c]; cbn [mergeVariables]; auto.
  destruct (Hs k v r c (or_introl eq_refl)) as [Hcopy Hnew].
  destruct (findVariableBlock head k) as [i|] eqn:Hi.
  - apply IH; [|exact Hnext].
    destruct (findVariableBlock_split _ _ _ Hi)
      as (pre & b & post & -> & <- & Hb & _).
    rewrite updateAt_split.
    apply Forall_app in Hh as [Hpre Hpost].
    inversion_clear Hpost as [|? ? _ Hpost'].
    apply Forall_app. split; [exact Hpre|]. constructor; [|exact Hpost'].
    apply hasKey_true in Hb as (v0 & r0 & c0 & ->). exact Hnew.
  - destruct (findIntersectionPoint next head) as [p|]; apply IH; auto.
    + now apply Forall_insertBefore.
    + now apply Forall_appendToTail.
Qed.

Lemma insertCommentBlock_Forall (P : Block -> Prop) (head : Document)
    (lines : list string) (next : Document) :
  P (BComment lines) -> Forall P head ->
  Forall P (insertCommentBlock head (BComment lines) next).
Proof.
  intros Hc Hh. unfold insertCommentBlock.
  assert (Ht : Forall P
                 (if hasCommentBlockBefore head 0 (BComment lines) then head
                  else appendToTail head (BComment lines))).
  { destruct (hasCommentBlockBefore head 0 _); [exact Hh|].
    now apply Forall_appendToTail. }
  destruct (findNextVariable next) as [[| |k v r c]|]; try exact Ht.
  destruct (findVariableBlock head k) as [p|]; [|exact Ht].
  destruct (negb _); [|exact Hh]. now apply Forall_insertBefore.
Qed.

Lemma mergeComments_Forall (P : Block -> Prop) (source head : Document) :
  (forall lines, P (BComment lines)) ->
  Forall P head -> Forall P (mergeComments head source).
Proof.
  intros Hc. revert head.
  induction source as [|x next IH]; intros head Hh; [exact Hh|].
  destruct x; simpl; auto using insertCommentBlock_Forall.
Qed.

Lemma mergeTwo_fromMerge (base source : Document) :
  Forall (fromMerge base source) (mergeTwo base source).
Proof.
  unfold mergeTwo. apply mergeComments_Forall; [intros; exact I|].
  apply mergeVariables_Forall.
  - apply Forall_forall. intros [l| |k v r c] H; simpl; auto.
  - intros k v r c H. simpl. split; [now (right; left)|].
    right. right. split; [reflexivity | eauto].
Qed.

(** The last step of [mergeSources]: the merge of the documents before
    the last one is the base, the last one is the source. *)
Lemma mergeSources_snoc (docs : list Document) (source : Document) :
  mergeSources (docs ++ [source])
  = match nonNull docs, source with
    | [], _ => source
    | _ :: _, [] => mergeSources docs
    | _ :: _, _ :: _ => mergeTwo (mergeSources docs) source
    end.
Proof.
  unfold mergeSources, nonNull. rewrite filter_app. cbn [filter].
  destruct (filter (fun s => negb (isNull s)) docs) as [|first rest];
    destruct source as [|b s]; cbn [isNull negb app]; try reflexivity.
  - now rewrite app_nil_r.
  - now rewrite fold_left_app.
Qed.

Lemma mergeSources_null (docs : list Document) :
  nonNull docs = [] -> mergeSources docs = [].
Proof. unfold mergeSources, nonNull. now intros ->. Qed.

(** C8, as the code has it.  The raw field of a variable of a parsed
    document is the physical line the variable comes from, verbatim: it
    parses to the key and the value of the node but need not be the
    serializable form.  In a step of [mergeSources], which merges a
    further document, the source, into the merge of the documents before
    it, the base: a key that the base and the source define is found with
    the raw field regenerated from the key and the quoted value of its
    last definition in the source; a key that the base does not define is
    found as the node of its first definition in the source, copied with
    its raw field unchanged, when the source defines it once, and with the
    raw field regenerated from its last definition when the source defines
    it again and the base is not null; a key that the source does not
    define is found as in the base.  Every variable of the result is a
    block of the base, a block of the source, or such an overridden
    block.  Hence in every document made by [parseEnvFile] and
    [mergeSources] each raw field is either the regenerated serializable
    form or a line that parses to the key and the value of its node. *)
Theorem C8_raw_field :
  (forall (content k v r : string) (c : list string),
      In (BVariable k v r c) (parseEnvFile content) ->
      In r (Str.splitLines content) /\ parseLine r = LVariable k v r)
  /\ (forall (docs : list Document) (source : Document) (K v r : string)
             (c : list string),
      findVariable (mergeSources docs) K <> None ->
      lastVariable source K = Some (BVariable K v r c) ->
      findVariable (mergeSources (docs ++ [source])) K
      = Some (BVariable K v (K ++ "=" ++ quoteValue v) c))
  /\ (forall (docs : list Document) (pre next : Document) (K v r : string)
             (c : list string),
      findVariable (mergeSources docs) K = None ->
      findVariable pre K = None ->
      let source := pre ++ BVariable K v r c :: next in
      (findVariable next K = None ->
       findVariable (mergeSources (docs ++ [source])) K
       = Some (BVariable K v r c))
      /\ (forall v' r' c',
            nonNull docs <> [] ->
            lastVariable next K = Some (BVariable K v' r' c') ->
            findVariable (mergeSources (docs ++ [source])) K
            = Some (BVariable K v' (K ++ "=" ++ quoteValue v') c')))
  /\ (forall (docs : list Document) (source : Document) (K : string),
      findVariable source K = None ->
      findVariable (mergeSources (docs ++ [source])) K
      = findVariable (mergeSources docs) K)
  /\ (forall (docs : list Document) (source : Document),
      Forall (fromMerge (mergeSources docs) source)
             (mergeSources (docs ++ [source])))
  /\ (forall sources : list Document,
      (forall d, In d sources -> Forall rawIsFaithful d) ->
      Forall rawIsFaithful (mergeSources sources))
  /\ (forall contents : list string,
      Forall rawIsFaithful (mergeSources (map parseEnvFile contents))).
Proof.
  assert (Hkept : forall sources : list Document,
             (forall d, In d sources -> Forall rawIsFaithful d) ->
             Forall rawIsFaithful (mergeSources sources)).
  { intros sources H. unfold mergeSources.
    assert (Hf : Forall (Forall rawIsFaithful)
                   (filter (fun s => negb (isNull s)) sources)).
    { apply Forall_forall. intros d Hd. apply filter_In in Hd as [Hd _]. auto. }
    destruct (filter _ sources) as [|first rest]; [constructor|].
    inversion_clear Hf as [|? ? Hfirst Hrest].
    revert first Hfirst. induction rest as [|d rest IH]; intros first Hfirst;
      [exact Hfirst|].
    inversion_clear Hrest. simpl. apply IH; auto using mergeTwo_raw. }
  split; [|split; [|split; [|split; [|split; [|split]]]]].
  - apply parseEnvFile_raw.
  - intros docs source K v r c Hbase Hlast. rewrite mergeSources_snoc.
    destruct (nonNull docs) as [|d0 ds] eqn:En.
    { rewrite (mergeSources_null _ En) in Hbase. now elim Hbase. }
    destruct source as [|b s]; [discriminate|].
    unfold mergeTwo. rewrite findVariable_mergeComments.
    destruct (findVariable (mergeSources docs) K) as [b0|] eqn:E;
      [|congruence].
    now rewrite (mergeVariables_defined _ _ _ _ E), Hlast.
  - intros docs pre next K v r c Hbase Hpre source.
    assert (Hsource : source <> []) by (unfold source; now destruct pre).
    assert (Hhere : hasKey K (BVariable K v r c) = true)
      by (simpl; apply String.eqb_refl).
    split.
    + intros Hnext. rewrite mergeSources_snoc.
      destruct (nonNull docs) as [|d0 ds].
      * unfold source.
        now rewrite findVariable_app, Hpre, findVariable_cons, Hhere.
      * destruct source as [|b s] eqn:Es; [congruence|]. rewrite <- Es.
        unfold mergeTwo, source. rewrite findVariable_mergeComments.
        rewrite (mergeVariables_inserted pre next K v r c _ Hbase Hpre).
        now rewrite (proj2 (lastVariable_None_iff next K) Hnext).
    + intros v' r' c' Hnn Hlast. rewrite mergeSources_snoc.
      destruct (nonNull docs) as [|d0 ds]; [congruence|].
      destruct source as [|b s] eqn:Es; [congruence|]. rewrite <- Es.
      unfold mergeTwo, source. rewrite findVariable_mergeComments.
      rewrite (mergeVariables_inserted pre next K v r c _ Hbase Hpre).
      now rewrite Hlast.
  - intros docs source K Hs. rewrite mergeSources_snoc.
    destruct (nonNull docs) as [|d0 ds] eqn:En.
    + now rewrite (mergeSources_null _ En), Hs.
    + destruct source as [|b s]; [reflexivity|].
      now apply mergeTwo_untouched.
  - intros docs source. rewrite mergeSources_snoc.
    destruct (nonNull docs) as [|d0 ds] eqn:En.
    + apply Forall_forall. intros [l| |k v r c] H; simpl; auto.
    + destruct source as [|b s].
      * apply Forall_forall. intros [l| |k v r c] H; simpl; auto.
      * apply mergeTwo_fromMerge.
  - exact Hkept.
  - intros contents. apply Hkept. intros d Hd.
    apply in_map_iff in Hd as (content & <- & _).
    apply parseEnvFile_faithful.
Qed.

Lemma C8_witness :
  let a := parseEnvFile ("K = 1" ++ Str.nl ++ "L=x") in
  let b := parseEnvFile ("L = y" ++ Str.nl ++ "M = 2") in
  (In "K = 1" (Str.splitLines ("K = 1" ++ Str.nl ++ "L=x"))
   /\ parseLine "K = 1" = LVariable "K" "1" "K = 1")
  /\ findVariable (mergeSources [a; b]) "L"
     = Some (BVariable "L" "y" "L=y" [])
  /\ findVariable (mergeSources [a; b]) "M"
     = Some (BVariable "M" "2" "M = 2" [])
  /\ findVariable (mergeSources [a; b]) "K"
     = Some (BVariable "K" "1" "K = 1" [])
  /\ Forall rawIsFaithful (mergeSources [a; b]).
Proof.
  intros a b.
  destruct C8_raw_field as (H1 & H2 & H3 & H4 & _ & H6 & _).
  split; [|split; [|split; [|split]]].
  - apply (H1 ("K = 1" ++ Str.nl ++ "L=x")%string "K" "1" "K = 1" []).
    vm_compute. left. reflexivity.
  - apply (H2 [a] b "L" "y" "L = y" []).
    + vm_compute. discriminate.
    + vm_compute. reflexivity.
  - apply (H3 [a] [BVariable "L" "y" "L = y" []] [] "M" "2" "M = 2" []).
    + vm_compute. reflexivity.
    + vm_compute. reflexivity.
    + reflexivity.
  - transitivity (findVariable (mergeSources [a]) "K").
    + apply (H4 [a] b "K"). vm_compute. reflexivity.
    + vm_compute. reflexivity.
  - apply (H6 [a; b]).
    intros d [<-|[<-|[]]]; vm_compute;
      repeat (apply Forall_cons; [right; reflexivity|]); apply Forall_nil.
Defined.

(** The raw field of a parsed variable is not the serializable form when
    the line has blanks around [=] or quotes that are not needed. *)
Lemma C8_counterexample :
  parseEnvFile "K = 1" = [BVariable "K" "1" "K = 1" []]
  /\ ("K" ++ "=" ++ quoteValue "1")%string = "K=1"
  /\ "K = 1" <> "K=1".
Proof. vm_compute. repeat split. discriminate. Qed.

(** ** Where new variables go *)

Lemma memKey_true (keys : list string) (k : string) :
  memKey keys k = true <-> In k keys.
Proof.
  unfold memKey. rewrite existsb_exists. split.
  - intros (x & Hx & E). apply String.eqb_eq in E. now subst.
  - intros H. exists k. split; [exact H | apply String.eqb_refl].
Qed.

Lemma memKey_false (keys : list string) (k : string) :
  memKey keys k = false <-> ~ In k keys.
Proof.
  rewrite <- memKey_true. destruct (memKey keys k); split; congruence.
Qed.

Lemma varKeys_app (d1 d2 : Document) :
  varKeys (d1 ++ d2) = varKeys d1 ++ varKeys d2.
Proof.
  induction d1 as [|b d IH]; [reflexivity|].
  destruct b; simpl; now rewrite IH.
Qed.

Lemma option_map_None {A B} (f : A -> B) (o : option A) :
  option_map f o = None <-> o = None.
Proof. destruct o; simpl; split; congruence. Qed.

Lemma findVariableBlock_None_iff (head : Document) (k : string) :
  findVariableBlock head k = None <-> ~ In k (varKeys head).
Proof.
  induction head as [|b next IH]; [simpl; tauto|].
  rewrite findVariableBlock_cons.
  destruct b as [l| |k0 v r c]; simpl.
  - now rewrite option_map_None.
  - now rewrite option_map_None.
  - destruct (String.eqb_spec k0 k) as [->|Hne].
    + split; [discriminate | intros H; elim H; now left].
    + rewrite option_map_None, IH. tauto.
Qed.

Lemma findVariableBlock_Some_In (head : Document) (k : string) (i : nat) :
  findVariableBlock head k = Some i -> In k (varKeys head).
Proof.
  intros H. destruct (in_dec string_dec k (varKeys head)) as [Hin|Hn];
    [exact Hin|].
  apply findVariableBlock_None_iff in Hn. congruence.
Qed.

(** [findIntersectionPoint] returns the first definition in the base of
    the first key of the rest of the source that the base defines. *)
Lemma findIntersectionPoint_spec (next base : Document) :
  findIntersectionPoint next base
  = match firstSharedKey next base with
    | Some k => findVariableBlock base k
    | None => None
    end.
Proof.
  unfold firstSharedKey.
  induction next as [|b next IH]; [reflexivity|].
  destruct b as [l| |k v r c]; simpl; try exact IH.
  destruct (findVariableBlock base k) as [i|] eqn:E.
  - pose proof (findVariableBlock_Some_In _ _ _ E) as Hm.
    apply memKey_true in Hm. now rewrite Hm, E.
  - pose proof (proj1 (findVariableBlock_None_iff _ _) E) as Hm.
    apply memKey_false in Hm. now rewrite Hm.
Qed.

Lemma firstSharedKey_Some (next base : Document) (k : string) :
  firstSharedKey next base = Some k ->
  exists i, findVariableBlock base k = Some i
            /\ exists r1 r2, varKeys next = r1 ++ k :: r2
                             /\ forall y, In y r1 -> ~ In y (varKeys base).
Proof.
  unfold firstSharedKey. generalize (varKeys next) as ks.
  induction ks as [|h t IH]; simpl; [discriminate|].
  destruct (memKey (varKeys base) h) eqn:Hm.
  - intros [= ->]. apply memKey_true in Hm.
    destruct (findVariableBlock base k) as [i|] eqn:E.
    + exists i. split; [reflexivity|]. exists [], t. simpl. tauto.
    + apply findVariableBlock_None_iff in E. tauto.
  - intros H. destruct (IH H) as (i & Hi & r1 & r2 & -> & Hr).
    exists i. split; [exact Hi|]. exists (h :: r1), r2. split; [reflexivity|].
    intros y [<-|Hy]; [now apply memKey_false | auto].
Qed.

Lemma firstSharedKey_None (next base : Document) :
  firstSharedKey next base = None ->
  forall y, In y (varKeys next) -> ~ In y (varKeys base).
Proof.
  unfold firstSharedKey. intros H y Hy.
  apply memKey_false. exact (find_none _ _ H y Hy).
Qed.

Lemma varKeys_updateAt (head : Document) (i : nat) (v : string)
    (c : list string) :
  varKeys (updateAt i (fun b => updateVariable b v c) head) = varKeys head.
Proof.
  revert i. induction head as [|b next IH]; intros i; [now destruct i|].
  destruct i; simpl.
  - destruct b; reflexivity.
  - destruct b; simpl; now rewrite IH.
Qed.

Lemma varKeys_insertBefore (head : Document) (p : nat) (k v r : string)
    (c : list string) :
  varKeys (insertBefore head p (BVariable k v r c))
  = varKeys (firstn p head) ++ k :: varKeys (skipn p head).
Proof. now rewrite insertBefore_eq, varKeys_app. Qed.

Lemma varKeys_firstn_skipn (head : Document) (p : nat) :
  varKeys head = varKeys (firstn p head) ++ varKeys (skipn p head).
Proof. now rewrite <- varKeys_app, firstn_skipn. Qed.

Lemma varKeys_insertCommentBlock (head : Document) (lines : list string)
    (next : Document) :
  varKeys (insertCommentBlock head (BComment lines) next) = varKeys head.
Proof.
  unfold insertCommentBlock.
  assert (Ht : varKeys (if hasCommentBlockBefore head 0 (BComment lines)
                        then head else appendToTail head (BComment lines))
               = varKeys head).
  { destruct (hasCommentBlockBefore head 0 _); [reflexivity|].
    unfold appendToTail. rewrite varKeys_app. simpl. apply app_nil_r. }
  destruct (findNextVariable next) as [[| |k v r c]|]; try exact Ht.
  destruct (findVariableBlock head k) as [p|]; [|exact Ht].
  destruct (negb _); [|reflexivity].
  rewrite insertBefore_eq, varKeys_app. simpl.
  symmetry. apply varKeys_firstn_skipn.
Qed.

Lemma varKeys_mergeComments (source head : Document) :
  varKeys (mergeComments head source) = varKeys head.
Proof.
  revert head. induction source as [|x next IH]; intros head; [reflexivity|].
  destruct x; simpl; rewrite IH; auto using varKeys_insertCommentBlock.
Qed.

(** The variables of the base never move: restricted to the keys of the
    base, the keys of the merge are the keys of the base. *)
Lemma mergeVariables_base_order (keys : list string) (source head : Document) :
  (forall k, In k keys -> In k (varKeys head)) ->
  filter (memKey keys) (varKeys (mergeVariables head source))
  = filter (memKey keys) (varKeys head).
Proof.
  revert head. induction source as [|x next IH]; intros head Hsub;
    [reflexivity|].
  destruct x as [l| |k v r c]; simpl; auto.
  destruct (findVariableBlock head k) as [i|] eqn:Hi.
  - rewrite IH; rewrite varKeys_updateAt; auto.
  - assert (Hk : memKey keys k = false).
    { apply memKey_false. intros H. apply Hsub in H.
      now apply findVariableBlock_None_iff in Hi. }
    destruct (findIntersectionPoint next head) as [p|].
    + rewrite IH.
      * rewrite varKeys_insertBefore, (varKeys_firstn_skipn head p).
        rewrite !filter_app. simpl. now rewrite Hk.
      * intros k' Hk'. rewrite varKeys_insertBefore.
        apply Hsub in Hk'. rewrite (varKeys_firstn_skipn head p) in Hk'.
        rewrite in_app_iff in *. simpl. tauto.
    + rewrite IH.
      * unfold appendToTail. rewrite varKeys_app, filter_app. simpl.
        rewrite Hk. apply app_nil_r.
      * intros k' Hk'. unfold appendToTail. rewrite varKeys_app.
        apply in_or_app. left. auto.
Qed.

(** *** A prefix of the base that the source does not mention is a frame *)

Lemma findVariableBlock_frame (Q T : Document) (k : string) :
  ~ In k (varKeys Q) ->
  findVariableBlock (Q ++ T) k
  = option_map (Nat.add (List.length Q)) (findVariableBlock T k).
Proof.
  intros H. apply findVariableBlock_None_iff in H.
  now rewrite findVariableBlock_app, H.
Qed.

Lemma updateAt_frame (Q T : Document) (i : nat) (f : Block -> Block) :
  updateAt (List.length Q + i) f (Q ++ T) = Q ++ updateAt i f T.
Proof. induction Q as [|x Q IH]; simpl; [reflexivity | now rewrite IH]. Qed.

Lemma insertBefore_frame (Q T : Document) (p : nat) (x : Block) :
  insertBefore (Q ++ T) (List.length Q + p) x = Q ++ insertBefore T p x.
Proof.
  rewrite !insertBefore_eq, firstn_app_2, skipn_app.
  rewrite skipn_all2 by lia.
  replace (List.length Q + p - List.length Q) with p by lia.
  now rewrite <- app_assoc.
Qed.

Lemma insertBefore_split (pre : Document) (a : Block) (post : Document)
    (x : Block) :
  insertBefore (pre ++ a :: post) (List.length pre) x = pre ++ x :: a :: post.
Proof.
  rewrite <- (Nat.add_0_r (List.length pre)), insertBefore_frame.
  reflexivity.
Qed.

Lemma findIntersectionPoint_frame (next Q T : Document) :
  (forall k, In k (varKeys next) -> ~ In k (varKeys Q)) ->
  findIntersectionPoint next (Q ++ T)
  = option_map (Nat.add (List.length Q)) (findIntersectionPoint next T).
Proof.
  induction next as [|b next IH]; intros H; [reflexivity|].
  destruct b as [l| |k v r c]; simpl; try (apply IH; exact H).
  rewrite findVariableBlock_frame by (apply H; now left).
  destruct (findVariableBlock T k); [reflexivity|].
  apply IH. intros y Hy. apply H. now right.
Qed.

Lemma mergeVariables_frame (source Q T : Document) :
  (forall k, In k (varKeys source) -> ~ In k (varKeys Q)) ->
  mergeVariables (Q ++ T) source = Q ++ mergeVariables T source.
Proof.
  revert T. induction source as [|x next IH]; intros T H; [reflexivity|].
  destruct x as [l| |k v r c]; simpl; try (apply IH; exact H).
  assert (Hnext : forall y, In y (varKeys next) -> ~ In y (varKeys Q))
    by (intros y Hy; apply H; now right).
  rewrite findVariableBlock_frame by (apply H; now left).
  destruct (findVariableBlock T k) as [i|]; simpl.
  - rewrite updateAt_frame. now apply IH.
  - rewrite findIntersectionPoint_frame by exact Hnext.
    destruct (findIntersectionPoint next T) as [p|]; simpl.
    + rewrite insertBefore_frame. now apply IH.
    + unfold appendToTail. rewrite <- app_assoc. now apply IH.
Qed.

(** *** Order of the new variables *)

Lemma mergeVariables_keys (source head : Document) (k : string) :
  In k (varKeys (mergeVariables head source)) ->
  In k (varKeys head) \/ In k (varKeys source).
Proof.
  revert head. induction source as [|x next IH]; intros head; [simpl; tauto|].
  destruct x as [l| |k0 v r c]; simpl; try apply IH.
  destruct (findVariableBlock head k0) as [i|].
  - intros H. apply IH in H. rewrite varKeys_updateAt in H. tauto.
  - destruct (findIntersectionPoint next head) as [p|]; intros H; apply IH in H.
    + rewrite varKeys_insertBefore, in_app_iff in H. simpl in H.
      rewrite (varKeys_firstn_skipn head p), in_app_iff. tauto.
    + unfold appendToTail in H. rewrite varKeys_app, in_app_iff in H.
      simpl in H. tauto.
Qed.

Lemma keysBefore_app (k : string) (l1 l2 : list string) :
  ~ In k l1 -> keysBefore k (l1 ++ l2) = l1 ++ keysBefore k l2.
Proof.
  induction l1 as [|h t IH]; simpl; [reflexivity|].
  intros H. destruct (String.eqb_spec h k) as [->|_]; [tauto|].
  rewrite IH; tauto.
Qed.

Lemma keysBefore_first (k : string) (l1 l2 : list string) :
  ~ In k l1 -> keysBefore k (l1 ++ k :: l2) = l1.
Proof.
  intros H. rewrite keysBefore_app by exact H. simpl.
  now rewrite String.eqb_refl, app_nil_r.
Qed.

Lemma ordered_nil (ks : list string) : ordered [] ks.
Proof. induction ks; simpl; tauto. Qed.

Lemma ordered_app_r (base l1 l2 : list string) :
  ordered base (l1 ++ l2) -> ordered base l2.
Proof. induction l1; simpl; tauto. Qed.

Lemma ordered_suffix (Q T ks : list string) :
  (forall y, In y ks -> ~ In y Q) -> ordered (Q ++ T) ks -> ordered T ks.
Proof.
  induction ks as [|k rest IH]; simpl; [tauto|].
  intros Hd [Hk Hrest]. split; [|apply IH; auto].
  intros HkT y Hy Hb. apply (Hk (in_or_app _ _ _ (or_intror HkT)) y Hy).
  rewrite keysBefore_app by auto. apply in_or_app. now right.
Qed.

Lemma filter_none {A} (f : A -> bool) (l : list A) :
  (forall x, In x l -> f x = false) -> filter f l = [].
Proof.
  induction l as [|a l IH]; simpl; [reflexivity|].
  intros H. rewrite (H a) by now left. apply IH. auto.
Qed.

Lemma memKey_frame (Qk Tk : list string) (x : string) :
  In x Tk \/ ~ In x Qk -> memKey (Qk ++ Tk) x = memKey Tk x.
Proof.
  intros H. destruct (memKey Tk x) eqn:E.
  - apply memKey_true. apply memKey_true in E. apply in_or_app. now right.
  - apply memKey_false. apply memKey_false in E. rewrite in_app_iff. tauto.
Qed.

(** What the induction hypothesis on the rest of the base gives for the
    whole base. *)
Lemma source_order_frame (next T : Document) (Qk : list string) :
  (forall y, In y (varKeys next) -> ~ In y Qk) ->
  filter (notIn (varKeys T)) (varKeys (mergeVariables T next))
  = filter (notIn (varKeys T)) (varKeys next) ->
  filter (notIn (Qk ++ varKeys T)) (varKeys (mergeVariables T next))
  = filter (notIn (Qk ++ varKeys T)) (varKeys next).
Proof.
  intros Hd IH.
  rewrite (filter_ext_in (notIn (Qk ++ varKeys T)) (notIn (varKeys T))
             (varKeys (mergeVariables T next))).
  - rewrite IH. apply filter_ext_in. intros x Hx. unfold notIn.
    rewrite memKey_frame; auto.
  - intros x Hx. unfold notIn. rewrite memKey_frame; [reflexivity|].
    apply mergeVariables_keys in Hx as [Hx|Hx]; auto.
Qed.

Lemma notIn_self (keys l : list string) :
  (forall x, In x l -> In x keys) -> filter (notIn keys) l = [].
Proof.
  intros H. apply filter_none. intros x Hx. unfold notIn.
  now rewrite (proj2 (memKey_true keys x) (H x Hx)).
Qed.

(** The first loop keeps the variables that only the source has in the
    order of the source, when the source defines no key twice and the keys
    it shares with the base are in the same order in both. *)
Lemma mergeVariables_source_order (source head : Document) :
  NoDup (varKeys source) ->
  ordered (varKeys head) (varKeys source) ->
  filter (notIn (varKeys head)) (varKeys (mergeVariables head source))
  = filter (notIn (varKeys head)) (varKeys source).
Proof.
  revert head. induction source as [|x next IH]; intros head Hnd Hord.
  - simpl. apply notIn_self. auto.
  - destruct x as [l| |k v r c]; try (simpl; apply IH; assumption).
    simpl varKeys in *. inversion_clear Hnd as [|? ? Hk Hnd'].
    destruct Hord as [Hord1 Hord].
    cbn [mergeVariables].
    destruct (findVariableBlock head k) as [i|] eqn:Hi.
    + (* the base defines [k] *)
      destruct (findVariableBlock_split _ _ _ Hi)
        as (pre & b & post & -> & <- & Hb & Hpre).
      apply hasKey_true in Hb as (v0 & r0 & c0 & ->).
      rewrite updateAt_split. cbn [updateVariable].
      set (b' := BVariable k v (k ++ "=" ++ quoteValue v) c).
      rewrite varKeys_app in *. cbn [varKeys] in *.
      apply findVariableBlock_None_iff in Hpre.
      assert (Hfree : forall y, In y (varKeys next) ->
                ~ In y (varKeys pre ++ [k])).
      { intros y Hy. rewrite in_app_iff. simpl. intros [H|[<-|[]]]; [|tauto].
        assert (Hin : In k (varKeys pre ++ k :: varKeys post))
          by (apply in_or_app; right; now left).
        apply (Hord1 Hin y Hy). now rewrite keysBefore_first. }
      replace (pre ++ b' :: post) with ((pre ++ [b']) ++ post)
        by now rewrite <- app_assoc.
      rewrite mergeVariables_frame
        by (rewrite varKeys_app; exact Hfree).
      replace (varKeys pre ++ k :: varKeys post)
        with ((varKeys pre ++ [k]) ++ varKeys post) in *
        by now rewrite <- app_assoc.
      rewrite varKeys_app, filter_app.
      rewrite (notIn_self _ (varKeys (pre ++ [b']))).
      2:{ intros y Hy. rewrite varKeys_app in Hy. apply in_or_app. now left. }
      cbn [filter]. unfold notIn at 2.
      rewrite (proj2 (memKey_true _ k)) by (rewrite !in_app_iff; simpl; tauto).
      cbn [negb app].
      apply source_order_frame; [exact Hfree|].
      apply IH; [exact Hnd'|]. now apply (ordered_suffix (varKeys pre ++ [k])).
    + (* [k] is new *)
      pose proof (proj1 (findVariableBlock_None_iff _ _) Hi) as Hnew.
      set (x := BVariable k v r c).
      assert (Hgoal : forall Q T,
                varKeys Q ++ varKeys T = varKeys head ->
                (forall y, In y (varKeys next) -> ~ In y (varKeys Q)) ->
                filter (notIn (varKeys head))
                  (varKeys (mergeVariables ((Q ++ [x]) ++ T) next))
                = filter (notIn (varKeys head)) (k :: varKeys next)).
      { intros Q T HQT Hfree.
        rewrite mergeVariables_frame.
        2:{ intros y Hy. rewrite varKeys_app, in_app_iff. simpl.
            intros [H|[<-|[]]]; [now apply (Hfree y) | tauto]. }
        assert (Hnk : notIn (varKeys head) k = true)
          by (unfold notIn; now rewrite (proj2 (memKey_false _ k) Hnew)).
        unfold x. rewrite !varKeys_app, !filter_app. cbn [varKeys filter].
        rewrite Hnk.
        rewrite (notIn_self _ (varKeys Q)).
        2:{ intros y Hy. rewrite <- HQT. apply in_or_app. now left. }
        cbn [app]. f_equal. rewrite <- HQT.
        apply source_order_frame; [exact Hfree|].
        apply IH; [exact Hnd'|].
        apply (ordered_suffix (varKeys Q)); [exact Hfree|].
        now rewrite HQT. }
      rewrite findIntersectionPoint_spec.
      destruct (firstSharedKey next head) as [t|] eqn:Ht.
      * destruct (firstSharedKey_Some _ _ _ Ht)
          as (p & Hp & r1 & r2 & Hks & Hr1).
        rewrite Hp.
        destruct (findVariableBlock_split _ _ _ Hp)
          as (pre & a & post & -> & <- & Ha & Hpre).
        rewrite insertBefore_split.
        replace (pre ++ x :: a :: post) with ((pre ++ [x]) ++ a :: post)
          by now rewrite <- app_assoc.
        apply Hgoal; [now rewrite varKeys_app|].
        apply findVariableBlock_None_iff in Hpre.
        apply hasKey_true in Ha as (v0 & r0 & c0 & ->).
        intros y Hy Hyp. rewrite Hks, in_app_iff in Hy.
        destruct Hy as [Hy|[<-|Hy]].
        -- apply (Hr1 y Hy). rewrite varKeys_app. apply in_or_app. now left.
        -- tauto.
        -- rewrite Hks in Hord. apply ordered_app_r in Hord.
           destruct Hord as [Hord _].
           rewrite varKeys_app in Hord. cbn [varKeys] in Hord.
           assert (Hin : In t (varKeys pre ++ t :: varKeys post))
             by (apply in_or_app; right; now left).
           apply (Hord Hin y Hy). now rewrite keysBefore_first.
      * unfold appendToTail.
        replace (head ++ [x]) with ((head ++ [x]) ++ []) by apply app_nil_r.
        apply Hgoal; [apply app_nil_r|].
        now apply firstSharedKey_None.
Qed.

Lemma memKey_cons (k : string) (keys : list string) (x : string) :
  memKey (k :: keys) x = String.eqb x k || memKey keys x.
Proof. reflexivity. Qed.

Lemma filter_memKey_drop (k : string) (keys l : list string) :
  ~ In k l -> filter (memKey (k :: keys)) l = filter (memKey keys) l.
Proof.
  intros H. apply filter_ext_in. intros x Hx. rewrite memKey_cons.
  destruct (String.eqb_spec x k) as [->|_]; [tauto | reflexivity].
Qed.

(** Shared keys in the same order, read as a condition on each key of the
    source. *)
Lemma sharedOrder_ordered (base source : list string) :
  NoDup base -> NoDup source ->
  filter (memKey source) base = filter (memKey base) source ->
  ordered base source.
Proof.
  intros Hb. induction source as [|k rest IH]; intros Hs E; simpl; [exact I|].
  inversion_clear Hs as [|? ? Hk Hrest].
  destruct (in_dec string_dec k base) as [Hin|Hn].
  - destruct (in_split _ _ Hin) as (P & T & ->).
    apply NoDup_remove_2 in Hb as HkPT.
    assert (HkP : ~ In k P) by (intros H; apply HkPT, in_or_app; now left).
    assert (HkT : ~ In k T) by (intros H; apply HkPT, in_or_app; now right).
    simpl in E. rewrite (proj2 (memKey_true _ k) Hin) in E.
    rewrite filter_app in E. simpl in E.
    rewrite String.eqb_refl in E. simpl in E.
    assert (HP : filter (memKey (k :: rest)) P = []).
    { destruct (filter (memKey (k :: rest)) P) as [|y l] eqn:F; [reflexivity|].
      injection E as -> _.
      assert (Hy : In k (filter (memKey (k :: rest)) P))
        by (rewrite F; now left).
      apply filter_In in Hy as [Hy _]. tauto. }
    rewrite HP in E. injection E as E.
    assert (Hdisj : forall y, In y rest -> ~ In y P).
    { intros y Hy HyP.
      assert (Hf : In y (filter (memKey (k :: rest)) P)).
      { apply filter_In. split; [exact HyP|]. apply memKey_true. now right. }
      now rewrite HP in Hf. }
    split.
    + intros _ y Hy. rewrite keysBefore_first by exact HkP. now apply Hdisj.
    + apply IH; [exact Hrest|].
      rewrite filter_app. simpl.
      rewrite (proj2 (memKey_false rest k) Hk).
      rewrite <- E, (filter_memKey_drop k rest T HkT).
      rewrite (filter_none (memKey rest) P); [reflexivity|].
      intros y Hy. apply memKey_false. intros Hyr. exact (Hdisj y Hyr Hy).
  - split; [tauto|]. apply IH; [exact Hrest|].
    simpl in E. rewrite (proj2 (memKey_false _ k) Hn) in E.
    now rewrite <- E, filter_memKey_drop.
Qed.

Lemma filter_memKey_self (keys : list string) :
  filter (memKey keys) keys = keys.
Proof.
  apply forallb_filter_id. apply forallb_forall. intros x Hx.
  now apply memKey_true.
Qed.

(** C4, as the code has it.  A variable of the source whose key the base
    does not define is spliced right before the first definition in the
    base of the first key that a later variable of the source shares with
    the base, and appended at the tail when there is no such key.  The
    variables of the base never move.  The variables that only the source
    has keep the order of the source when neither document defines a key
    twice and the keys the two share come in the same order in both. *)
Theorem C4_new_key_insertion :
  (forall (head next : Document) (k v r : string) (c : list string),
      findVariable head k = None ->
      let x := BVariable k v r c in
      match firstSharedKey next head with
      | Some t =>
          exists pre anchor post,
            head = pre ++ anchor :: post
            /\ findVariable head t = Some anchor
            /\ findVariable pre t = None
            /\ mergeVariables head (x :: next)
               = mergeVariables (pre ++ x :: anchor :: post) next
      | None =>
          mergeVariables head (x :: next) = mergeVariables (head ++ [x]) next
      end)
  /\ (forall base source : Document,
      filter (memKey (varKeys base)) (varKeys (mergeTwo base source))
      = varKeys base)
  /\ (forall base source : Document,
      NoDup (varKeys base) -> NoDup (varKeys source) ->
      sharedOrder base source ->
      filter (notIn (varKeys base)) (varKeys (mergeTwo base source))
      = filter (notIn (varKeys base)) (varKeys source)).
Proof.
  split; [|split].
  - intros head next k v r c Hnew x.
    apply findVariable_None_iff in Hnew.
    cbn [mergeVariables]. unfold x. rewrite Hnew, findIntersectionPoint_spec.
    destruct (firstSharedKey next head) as [t|] eqn:Ht; [|reflexivity].
    destruct (firstSharedKey_Some _ _ _ Ht) as (p & Hp & _).
    rewrite Hp.
    destruct (findVariableBlock_split _ _ _ Hp)
      as (pre & a & post & -> & <- & Ha & Hpre).
    exists pre, a, post. repeat split.
    + now rewrite findVariable_app, (proj2 (findVariable_None_iff pre t) Hpre),
        findVariable_cons, Ha.
    + now apply findVariable_None_iff.
    + now rewrite insertBefore_split.
  - intros base source. unfold mergeTwo.
    rewrite varKeys_mergeComments, mergeVariables_base_order by auto.
    apply filter_memKey_self.
  - intros base source Hb Hs Hord. unfold mergeTwo.
    rewrite varKeys_mergeComments.
    apply mergeVariables_source_order; [exact Hs|].
    now apply sharedOrder_ordered.
Qed.

Lemma C4_witness :
  let base := parseEnvFile ("KEY1=value1" ++ Str.nl ++ "KEY2=value2") in
  let source :=
    parseEnvFile ("NEW=0" ++ Str.nl ++ "KEY2=overridden" ++ Str.nl
                  ++ "KEY3=value3") in
  (exists pre anchor post,
      base = pre ++ anchor :: post
      /\ findVariable base "KEY2" = Some anchor
      /\ findVariable pre "KEY2" = None
      /\ mergeVariables base source
         = mergeVariables (pre ++ BVariable "NEW" "0" "NEW=0" [] :: anchor :: post)
             (tl source))
  /\ filter (notIn (varKeys base)) (varKeys (mergeTwo base source))
     = ["NEW"; "KEY3"].
Proof.
  intros base source. split.
  - apply (proj1 C4_new_key_insertion base (tl source) "NEW" "0" "NEW=0" []).
    reflexivity.
  - apply (proj2 (proj2 C4_new_key_insertion) base source).
    + vm_compute. repeat constructor; simpl; intuition discriminate.
    + vm_compute. repeat constructor; simpl; intuition discriminate.
    + reflexivity.
Defined.

(** Variables that only the source has change order when the keys the two
    documents share are in different orders: [A] comes before [B] in the
    source and after it in the merge. *)
Lemma C4_counterexample :
  let base := parseEnvFile ("X=1" ++ Str.nl ++ "Y=2") in
  let source :=
    parseEnvFile ("A=1" ++ Str.nl ++ "Y=2" ++ Str.nl ++ "B=3" ++ Str.nl
                  ++ "X=4") in
  varKeys (mergeSources [base; source]) = ["B"; "X"; "A"; "Y"]
  /\ filter (notIn (varKeys base)) (varKeys source) = ["A"; "B"]
  /\ filter (notIn (varKeys base)) (varKeys (mergeSources [base; source]))
     = ["B"; "A"].
Proof. vm_compute. repeat split. Qed.

(** ** Where comment blocks go *)

(** Nothing comes before the head: the test the source makes before it
    appends a comment block at the tail never holds. *)
Lemma hasCommentBlockBefore_head (head : Document) (comment : Block) :
  hasCommentBlockBefore head 0 comment = false.
Proof.
  unfold hasCommentBlockBefore. destruct (Nat.ltb 0 (List.length head));
    reflexivity.
Qed.

(** The test before an anchor: the nearest block before it that is not an
    empty block is a comment block with the same lines, compared joined
    and trimmed. *)
Lemma hasCommentBlockBefore_anchor (pre : Document) (anchor : Block)
    (post : Document) (lines : list string) :
  hasCommentBlockBefore (pre ++ anchor :: post) (List.length pre)
    (BComment lines)
  = match skipEmptyBlocks (rev pre) with
    | Some (BComment lines') => eqbLines lines' lines
    | _ => false
    end.
Proof.
  unfold hasCommentBlockBefore.
  assert (Hlt : Nat.ltb (List.length pre) (List.length (pre ++ anchor :: post))
                = true).
  { apply Nat.ltb_lt. rewrite length_app. simpl. lia. }
  rewrite Hlt, firstn_app, Nat.sub_diag, firstn_all. simpl.
  rewrite app_nil_r.
  destruct (skipEmptyBlocks (rev pre)) as [[| |]|]; reflexivity.
Qed.

(** A comment block whose anchor the base defines: spliced right before
    the anchor, unless an equal comment block is already there. *)
Lemma insertCommentBlock_anchored (pre : Document) (anchor : Block)
    (post : Document) (lines : list string) (next : Document)
    (key v r : string) (c : list string) :
  findNextVariable next = Some (BVariable key v r c) ->
  findVariableBlock (pre ++ anchor :: post) key = Some (List.length pre) ->
  insertCommentBlock (pre ++ anchor :: post) (BComment lines) next
  = match skipEmptyBlocks (rev pre) with
    | Some (BComment lines') =>
        if eqbLines lines' lines then pre ++ anchor :: post
        else pre ++ BComment lines :: anchor :: post
    | _ => pre ++ BComment lines :: anchor :: post
    end.
Proof.
  intros Hnext Hpoint. unfold insertCommentBlock.
  rewrite Hnext, Hpoint, hasCommentBlockBefore_anchor, insertBefore_split.
  destruct (skipEmptyBlocks (rev pre)) as [[l'| |]|]; try reflexivity.
  destruct (eqbLines l' lines); reflexivity.
Qed.

(** A comment block with no anchor, or whose anchor the base does not
    define: always appended at the tail, whatever the head of the base. *)
Lemma insertCommentBlock_unanchored (head : Document) (lines : list string)
    (next : Document) :
  match findNextVariable next with
  | Some (BVariable key _ _ _) => findVariableBlock head key = None
  | _ => True
  end ->
  insertCommentBlock head (BComment lines) next
  = appendToTail head (BComment lines).
Proof.
  unfold insertCommentBlock. rewrite hasCommentBlockBefore_head.
  destruct (findNextVariable next) as [[| |k v r c]|]; try reflexivity.
  now intros ->.
Qed.

(** C5, at the input where the code leaves it.  The source document is the
    single comment block [# c], which has no anchor, and the base starts
    with an equal comment block: the design document says nothing is
    inserted, the code appends the block at the tail. *)
Theorem C5_unanchored_comment_appended_despite_equal_head :
  let base := parseEnvFile "# c" in
  let source := parseEnvFile "# c" in
  base = [BComment ["# c"]]
  /\ source = [BComment ["# c"]]
  /\ areBlocksEqual (hd_error base) (hd_error source) = true
  /\ mergeSources [base; source] = [BComment ["# c"]; BComment ["# c"]].
Proof. vm_compute. repeat split. Qed.

(** ** Merging again *)

(** The same happens before an anchor when the source has two comment
    blocks for it: only the nearest block before the anchor is compared. *)
Example remerge_duplicates_anchored_comments :
  let a := parseEnvFile "K=0" in
  let b := parseEnvFile ("# c1" ++ Str.nl ++ Str.nl ++ "# c2" ++ Str.nl
                         ++ Str.nl ++ "K=1") in
  mergeSources [a; b]
  = [BComment ["# c1"; ""]; BComment ["# c2"]; BVariable "K" "1" "K=1" []]
  /\ mergeSources [mergeSources [a; b]; b]
     = [BComment ["# c1"; ""]; BComment ["# c2"];
        BComment ["# c1"; ""]; BComment ["# c2"];
        BVariable "K" "1" "K=1" []].
Proof. vm_compute. split; reflexivity. Qed.

(** ** Quoting and decoding a value *)

Lemma string_pair_ind (P : string -> Prop) :
  P EmptyString ->
  (forall a, P (String a EmptyString)) ->
  (forall a b t, P t -> P (String b t) -> P (String a (String b t))) ->
  forall s, P s.
Proof.
  intros H0 H1 H2 s.
  assert (H : P s /\ forall a, P (String a s)).
  { induction s as [|b t [IH1 IH2]]; split; auto. }
  exact (proj1 H).
Qed.

Lemma endsWith_cons (a c b : ascii) (t : string) :
  Str.endsWith a (String c (String b t)) = Str.endsWith a (String b t).
Proof. reflexivity. Qed.

Lemma replace2_cons2 (a b : ascii) (rep : string) (x y : ascii) (u : string) :
  Str.replace2 a b rep (String x (String y u))
  = if Ascii.eqb x a && Ascii.eqb y b
    then (rep ++ Str.replace2 a b rep u)%string
    else String x (Str.replace2 a b rep (String y u)).
Proof. reflexivity. Qed.

(** A replacement of a two-character pattern goes through a concatenation
    when no match can straddle the seam. *)
Lemma replace2_app (a b : ascii) (rep s t : string) :
  Str.endsWith a s = false \/ Str.startsWith b t = false ->
  Str.replace2 a b rep (s ++ t)
  = (Str.replace2 a b rep s ++ Str.replace2 a b rep t)%string.
Proof.
  induction s as [|x|x y s' IH1 IH2] using string_pair_ind; intros H.
  - reflexivity.
  - destruct t as [|z u]; [reflexivity|].
    cbn [append Str.replace2].
    destruct (Ascii.eqb x a && Ascii.eqb z b) eqn:E; [|reflexivity].
    apply andb_true_iff in E as [Ex Ez]. simpl in H.
    rewrite Ex, Ez in H. destruct H; discriminate.
  - change (String x (String y s') ++ t)%string
      with (String x (String y (s' ++ t))).
    change (String y s' ++ t)%string with (String y (s' ++ t)) in IH2.
    rewrite !replace2_cons2.
    destruct (Ascii.eqb x a && Ascii.eqb y b).
    + rewrite IH1, append_assoc; [reflexivity|].
      destruct H as [H|H]; [|now right]. left.
      destruct s' as [|z u]; [reflexivity|].
      now rewrite !endsWith_cons in H.
    + rewrite IH2; [reflexivity|].
      destruct H as [H|H]; [left | now right].
      now rewrite endsWith_cons in H.
Qed.

Lemma startsWith_app (b : ascii) (s t : string) :
  s <> EmptyString -> Str.startsWith b (s ++ t) = Str.startsWith b s.
Proof. destruct s; [congruence | reflexivity]. Qed.

Lemma allPairs_cons2 (p : ascii -> ascii -> bool) (a b : ascii) (u : string) :
  allPairs p (String a (String b u)) = p a b && allPairs p (String b u).
Proof. reflexivity. Qed.

(** One pass of the unescaping over a value written token by token. *)
Lemma replace2_tokens (a b : ascii) (rep : string) (f g : ascii -> string)
    (v : string) :
  (forall c, f c <> EmptyString) ->
  (forall c, Str.replace2 a b rep (f c) = g c) ->
  allPairs (fun c d => isPattern a b (f c) || negb (Str.endsWith a (f c))
                       || negb (Str.startsWith b (f d))) v = true ->
  Str.replace2 a b rep (flatMap f v) = flatMap g v.
Proof.
  intros Hne Hfg. induction v as [|c t IH]; intros Hp; [reflexivity|].
  cbn [flatMap].
  assert (Ht : allPairs (fun c d => isPattern a b (f c)
                                    || negb (Str.endsWith a (f c))
                                    || negb (Str.startsWith b (f d))) t = true).
  { destruct t as [|d t']; [reflexivity|].
    rewrite allPairs_cons2 in Hp. now apply andb_true_iff in Hp as [_ Hp]. }
  destruct (isPattern a b (f c)) eqn:Hpat.
  - apply String.eqb_eq in Hpat. rewrite <- Hfg, Hpat.
    cbn [append Str.replace2]. rewrite !ascii_eqb_refl. cbn [andb].
    now rewrite IH, append_nil_r.
  - rewrite replace2_app, Hfg, IH; [reflexivity | exact Ht |].
    destruct t as [|d t']; [now right|].
    rewrite allPairs_cons2 in Hp. apply andb_true_iff in Hp as [Hp _].
    rewrite Hpat in Hp. cbn [orb] in Hp.
    apply orb_true_iff in Hp as [Hp|Hp]; apply negb_true_iff in Hp.
    + now left.
    + right. cbn [flatMap]. now rewrite startsWith_app.
Qed.

Lemma allPairs_weaken (p q : ascii -> ascii -> bool) (s : string) :
  (forall a b, p a b = true -> q a b = true) ->
  allPairs p s = true -> allPairs q s = true.
Proof.
  intros Hpq. induction s as [|a t IH]; [reflexivity|].
  destruct t as [|b u]; [reflexivity|]. rewrite !allPairs_cons2. intros H.
  apply andb_true_iff in H as [H1 H2].
  now rewrite (Hpq _ _ H1), IH.
Qed.

Lemma flatMap_app (f : ascii -> string) (s t : string) :
  flatMap f (s ++ t) = (flatMap f s ++ flatMap f t)%string.
Proof.
  induction s as [|a u IH]; [reflexivity|].
  simpl. now rewrite IH, append_assoc.
Qed.

Lemma flatMap_flatMap (f g : ascii -> string) (s : string) :
  flatMap g (flatMap f s) = flatMap (fun a => flatMap g (f a)) s.
Proof.
  induction s as [|a t IH]; [reflexivity|].
  simpl. now rewrite flatMap_app, IH.
Qed.

Lemma flatMap_ext (f g : ascii -> string) (s : string) :
  (forall a, f a = g a) -> flatMap f s = flatMap g s.
Proof.
  intros H. induction s as [|a t IH]; [reflexivity|].
  simpl. now rewrite H, IH.
Qed.

Lemma flatMap_singleton (s : string) : flatMap Str.singleton s = s.
Proof. induction s as [|a t IH]; [reflexivity | simpl; now rewrite IH]. Qed.

Lemma replace1_flatMap (c : ascii) (rep s : string) :
  Str.replace1 c rep s
  = flatMap (fun a => if Ascii.eqb a c then rep else Str.singleton a) s.
Proof.
  induction s as [|a t IH]; [reflexivity|].
  simpl. rewrite IH. destruct (Ascii.eqb a c); reflexivity.
Qed.

(** The escaping chain of [quoteValue] writes each character of the value
    as its token. *)
Lemma escapeValue_tokens (value : string) :
  escapeValue value = flatMap (escapeToken true true true true true) value.
Proof.
  unfold escapeValue. rewrite !replace1_flatMap, !flatMap_flatMap.
  apply flatMap_ext. intros a. each_ascii a; reflexivity.
Qed.

Lemma escapeToken_not_empty (bs dq lf cr tab : bool) (c : ascii) :
  escapeToken bs dq lf cr tab c <> EmptyString.
Proof.
  unfold escapeToken.
  destruct (Ascii.eqb c Char.backslash); [destruct bs; discriminate|].
  destruct (Ascii.eqb c Char.dquote); [destruct dq; discriminate|].
  destruct (Ascii.eqb c Char.lf); [destruct lf; discriminate|].
  destruct (Ascii.eqb c Char.cr); [destruct cr; discriminate|].
  destruct (Ascii.eqb c Char.tab); [destruct tab; discriminate|].
  discriminate.
Qed.

(** The five passes of the unescaping, each on the tokens the passes
    before it leave. *)
Lemma unescape_pass_n (v : string) :
  noAmbiguousEscape v = true ->
  Str.replace2 Char.backslash "n" (Str.singleton Char.lf)
    (flatMap (escapeToken true true true true true) v)
  = flatMap (escapeToken true true false true true) v.
Proof.
  intros H. apply replace2_tokens.
  - intros c. apply escapeToken_not_empty.
  - intros c. each_ascii c; reflexivity.
  - revert H. apply allPairs_weaken. intros a b.
    each_ascii a; try reflexivity. each_ascii b; try reflexivity;
      discriminate.
Qed.

Lemma unescape_pass_r (v : string) :
  noAmbiguousEscape v = true ->
  Str.replace2 Char.backslash "r" (Str.singleton Char.cr)
    (flatMap (escapeToken true true false true true) v)
  = flatMap (escapeToken true true false false true) v.
Proof.
  intros H. apply replace2_tokens.
  - intros c. apply escapeToken_not_empty.
  - intros c. each_ascii c; reflexivity.
  - revert H. apply allPairs_weaken. intros a b.
    each_ascii a; try reflexivity. each_ascii b; try reflexivity;
      discriminate.
Qed.

Lemma unescape_pass_t (v : string) :
  noAmbiguousEscape v = true ->
  Str.replace2 Char.backslash "t" (Str.singleton Char.tab)
    (flatMap (escapeToken true true false false true) v)
  = flatMap (escapeToken true true false false false) v.
Proof.
  intros H. apply replace2_tokens.
  - intros c. apply escapeToken_not_empty.
  - intros c. each_ascii c; reflexivity.
  - revert H. apply allPairs_weaken. intros a b.
    each_ascii a; try reflexivity. each_ascii b; try reflexivity;
      discriminate.
Qed.

Lemma allPairs_true (p : ascii -> ascii -> bool) (s : string) :
  (forall a b, p a b = true) -> allPairs p s = true.
Proof.
  intros H. induction s as [|a t IH]; [reflexivity|].
  destruct t as [|b u]; [reflexivity|]. now rewrite allPairs_cons2, H, IH.
Qed.

Lemma unescape_pass_backslash (v : string) :
  Str.replace2 Char.backslash Char.backslash (Str.singleton Char.backslash)
    (flatMap (escapeToken true true false false false) v)
  = flatMap (escapeToken false true false false false) v.
Proof.
  apply replace2_tokens.
  - intros c. apply escapeToken_not_empty.
  - intros c. each_ascii c; reflexivity.
  - apply allPairs_true. intros a b. each_ascii a; reflexivity.
Qed.

Lemma unescape_pass_dquote (v : string) :
  Str.replace2 Char.backslash Char.dquote Str.dq
    (flatMap (escapeToken false true false false false) v)
  = flatMap (escapeToken false false false false false) v.
Proof.
  apply replace2_tokens.
  - intros c. apply escapeToken_not_empty.
  - intros c. each_ascii c; reflexivity.
  - apply allPairs_true. intros a b.
    each_ascii a; try reflexivity. each_ascii b; reflexivity.
Qed.

(** Unescaping undoes escaping on the values without an ambiguous escape. *)
Lemma unescape_escape (v : string) :
  noAmbiguousEscape v = true -> unescapeValue (escapeValue v) = v.
Proof.
  intros H. unfold unescapeValue.
  rewrite escapeValue_tokens, unescape_pass_n, unescape_pass_r,
    unescape_pass_t, unescape_pass_backslash, unescape_pass_dquote by exact H.
  rewrite <- (flatMap_singleton v) at 2.
  apply flatMap_ext. intros a. each_ascii a; reflexivity.
Qed.

Lemma trimEnd_snoc (s : string) (c : ascii) :
  Char.isSpace c = false ->
  Str.trimEnd (s ++ Str.singleton c) = (s ++ Str.singleton c)%string.
Proof.
  intros Hc. induction s as [|a t IH]; simpl.
  - now rewrite Hc.
  - rewrite IH. destruct t; reflexivity.
Qed.

Lemma endsWith_snoc (s : string) (c : ascii) :
  Str.endsWith c (s ++ Str.singleton c) = true.
Proof.
  induction s as [|a t IH]; simpl; [apply ascii_eqb_refl|].
  destruct t; simpl in *; exact IH.
Qed.

Lemma dropLast_snoc (s : string) (c : ascii) :
  Str.dropLast (s ++ Str.singleton c) = s.
Proof.
  induction s as [|a t IH]; [reflexivity|].
  simpl. rewrite IH. destruct t; reflexivity.
Qed.

Lemma includes_startsWith (c : ascii) (s : string) :
  Str.includes c s = false -> Str.startsWith c s = false.
Proof. destruct s; simpl; [reflexivity|]. now intros H%orb_false_iff. Qed.

Lemma trim_wrapped (a c : ascii) (e : string) :
  Char.isSpace a = false -> Char.isSpace c = false ->
  Str.trim (String a e ++ Str.singleton c)
  = (String a e ++ Str.singleton c)%string.
Proof.
  intros Ha Hc. unfold Str.trim, Str.trimStart.
  replace (Str.dropWhile Char.isSpace (String a e ++ Str.singleton c))
    with (String a e ++ Str.singleton c)%string
    by (simpl; now rewrite Ha).
  now apply trimEnd_snoc.
Qed.

(** What [unquoteValue] reads in a value that [quoteValue] wrapped. *)
Lemma unquoteValue_wrapped (e : string) :
  unquoteValue (Str.dq ++ e ++ Str.dq) = unescapeValue e.
Proof.
  replace (Str.dq ++ e ++ Str.dq)%string
    with (String Char.dquote e ++ Str.singleton Char.dquote)%string
    by reflexivity.
  unfold unquoteValue. rewrite trim_wrapped by reflexivity.
  rewrite endsWith_snoc.
  replace (Str.slice1 (String Char.dquote e ++ Str.singleton Char.dquote))
    with (Str.dropLast (e ++ Str.singleton Char.dquote)) by reflexivity.
  rewrite dropLast_snoc. reflexivity.
Qed.

(** The law of the round trip on values: decoding the quoted form of a
    value gives the value back when no backslash of the value is followed
    by [n], [r] or [t] and the value, if it is written without quotes, has
    no blank at either end. *)
Lemma unquote_quote (v : string) :
  roundTrips v -> unquoteValue (quoteValue v) = v.
Proof.
  intros [Hamb Hq]. unfold quoteValue.
  destruct (needsQuotes v) eqn:Hn.
  - rewrite unquoteValue_wrapped. now apply unescape_escape.
  - destruct Hq as [Hq|Htrim]; [discriminate|].
    unfold needsQuotes in Hn. repeat apply orb_false_iff in Hn as [Hn ?].
    unfold unquoteValue. rewrite Htrim.
    rewrite (includes_startsWith Char.squote), (includes_startsWith Char.dquote)
      by assumption.
    reflexivity.
Qed.

(** Both conditions are needed. *)
Example ambiguous_escape_is_misread :
  unquoteValue (quoteValue "\n") = String Char.backslash Str.nl.
Proof. vm_compute. reflexivity. Qed.

Example bare_blank_is_trimmed :
  quoteValue (Str.singleton Char.vt) = Str.singleton Char.vt
  /\ unquoteValue (quoteValue (Str.singleton Char.vt)) = "".
Proof. vm_compute. split; reflexivity. Qed.

(** ** Splitting what was joined *)

Lemma includes_app (c : ascii) (s t : string) :
  Str.includes c (s ++ t) = Str.includes c s || Str.includes c t.
Proof.
  induction s as [|a u IH]; [reflexivity|].
  simpl. now rewrite IH, orb_assoc.
Qed.

Lemma endsWith_includes (c : ascii) (s : string) :
  Str.includes c s = false -> Str.endsWith c s = false.
Proof.
  induction s as [|a t IH]; [reflexivity|].
  simpl. intros H. apply orb_false_iff in H as [Ha Ht].
  destruct t; [exact Ha | now apply IH].
Qed.

Lemma splitLines_cons (s : string) :
  exists l ls, Str.splitLines s = l :: ls.
Proof.
  pose proof (splitLines_not_nil s). destruct (Str.splitLines s); eauto.
  congruence.
Qed.

Lemma splitLines_single (l : string) :
  Str.includes Char.lf l = false -> Str.splitLines l = [l].
Proof.
  induction l as [|a t IH]; [reflexivity|].
  simpl. intros H. apply orb_false_iff in H as [Ha Ht]. rewrite Ha.
  destruct t as [|b u]; [reflexivity|].
  rewrite (IH Ht).
  simpl in Ht. apply orb_false_iff in Ht as [Hb _]. rewrite Hb.
  now rewrite andb_false_r.
Qed.

Lemma splitLines_line (l rest : string) :
  Str.includes Char.lf l = false -> Str.endsWith Char.cr l = false ->
  Str.splitLines (l ++ String Char.lf rest) = l :: Str.splitLines rest.
Proof.
  induction l as [|a t IH]; intros Hlf Hcr.
  - reflexivity.
  - simpl in Hlf. apply orb_false_iff in Hlf as [Ha Ht].
    cbn [append Str.splitLines]. rewrite Ha.
    destruct t as [|b u].
    + simpl in Hcr. cbn [append]. rewrite Hcr. cbn [andb].
      cbn [Str.splitLines]. rewrite ascii_eqb_refl. reflexivity.
    + cbn [append]. cbn [append] in IH.
      rewrite IH; [|exact Ht | exact Hcr].
      simpl in Ht. apply orb_false_iff in Ht as [Hb _]. rewrite Hb.
      now rewrite andb_false_r.
Qed.

Lemma splitLines_join (ls : list string) :
  ls <> [] ->
  Forall (fun l => Str.includes Char.lf l = false
                   /\ Str.endsWith Char.cr l = false) ls ->
  Str.splitLines (Str.join Str.nl ls) = ls.
Proof.
  induction ls as [|l ls IH]; [congruence|]. intros _ H.
  inversion_clear H as [|? ? [Hlf Hcr] Hls].
  destruct ls as [|l' ls'].
  - simpl. now apply splitLines_single.
  - change (Str.join Str.nl (l :: l' :: ls'))
      with (l ++ String Char.lf (Str.join Str.nl (l' :: ls')))%string.
    rewrite splitLines_line by assumption.
    f_equal. apply IH; [discriminate | exact Hls].
Qed.

(** No piece of a split holds a line feed. *)
Lemma splitLines_no_lf (s l : string) :
  In l (Str.splitLines s) -> Str.includes Char.lf l = false.
Proof.
  revert l. induction s as [|a|a b t IHt IHbt] using string_pair_ind; intros l.
  - simpl. intros [<-|[]]. reflexivity.
  - simpl. destruct (Ascii.eqb a Char.lf) eqn:E.
    + intros [<-|[<-|[]]]; reflexivity.
    + intros [<-|[]]. simpl. now rewrite E.
  - assert (Hstep : Str.splitLines (String a (String b t))
              = if Ascii.eqb a Char.lf
                then EmptyString :: Str.splitLines (String b t)
                else if Ascii.eqb a Char.cr && Ascii.eqb b Char.lf
                     then EmptyString :: Str.splitLines t
                     else match Str.splitLines (String b t) with
                          | x :: xs => String a x :: xs
                          | [] => [Str.singleton a]
                          end) by reflexivity.
    rewrite Hstep. clear Hstep.
    destruct (Ascii.eqb a Char.lf) eqn:E.
    + intros [<-|H]; [reflexivity | now apply IHbt].
    + destruct (Ascii.eqb a Char.cr && Ascii.eqb b Char.lf).
      * intros [<-|H]; [reflexivity | now apply IHt].
      * destruct (splitLines_cons (String b t)) as (x & xs & Hx).
        rewrite Hx in *. intros [<-|H].
        -- simpl. rewrite E. apply IHbt. now left.
        -- apply IHbt. now right.
Qed.

(** ** Parsing what was serialized *)

Lemma serializeBlocks_app (d1 d2 : Document) :
  serializeBlocks (d1 ++ d2) = serializeBlocks d1 ++ serializeBlocks d2.
Proof.
  induction d1 as [|b d IH]; [reflexivity|].
  destruct b; simpl; rewrite IH; now rewrite <- ?app_assoc.
Qed.

Lemma reparse_comment (content : string) :
  content <> EmptyString -> reparse (LComment content) = LComment content.
Proof. destruct content; [congruence | reflexivity]. Qed.

(** What a step adds to the lines a state renders to, and whether it
    leaves the counter of blank lines at zero. *)
Lemma scanStep_shown (line : Line) (rest : list Line) (st : ScanState) :
  (forall content, line = LComment content -> content <> EmptyString) ->
  shown (scanStep line rest st)
  = shown st
    ++ compress (negb (Nat.eqb (consecutiveEmptyLines st) 0))
         [normalizeLine line]
  /\ Nat.eqb (consecutiveEmptyLines (scanStep line rest st)) 0
     = negb (isEmptyLine line).
Proof.
  intros Hc. unfold shown.
  destruct line as [content| |key value raw]; cbn [scanStep].
  - specialize (Hc content eq_refl).
    destruct (negb _ && _); cbn [emitted pendingComments consecutiveEmptyLines];
      (split; [|reflexivity]);
      rewrite ?serializeBlocks_app, !map_app;
      cbn [serializeBlocks map app normalizeLine];
      rewrite ?app_nil_r, reparse_comment, <- ?app_assoc by exact Hc;
      destruct (negb _); reflexivity.
  - fold (pendingIsEmpty st).
    destruct (pendingIsEmpty st) eqn:Hp; cbn [negb].
    + apply pendingIsEmpty_true in Hp.
      destruct (Nat.eqb (consecutiveEmptyLines st) 0);
        cbn [emitted pendingComments consecutiveEmptyLines negb compress
             normalizeLine]; (split; [|reflexivity]);
        rewrite ?serializeBlocks_app, ?map_app, Hp;
        cbn [serializeBlocks map app]; now rewrite ?app_nil_r.
    + destruct (isNextNonEmptyComment rest);
        destruct (Nat.eqb (consecutiveEmptyLines st) 0);
        cbn [emitted pendingComments consecutiveEmptyLines negb compress
             normalizeLine]; (split; [|reflexivity]);
        rewrite ?serializeBlocks_app, ?map_app;
        cbn [serializeBlocks map app];
        rewrite ?map_app; cbn [map reparse];
        rewrite ?app_nil_r, <- ?app_assoc; reflexivity.
  - cbn [emitted pendingComments consecutiveEmptyLines]. split; [|reflexivity].
    rewrite serializeBlocks_app, !map_app.
    cbn [serializeBlocks map app normalizeLine].
    rewrite !app_nil_r, map_app, <- app_assoc.
    destruct (negb _); reflexivity.
Qed.

Lemma compress_cons (b : bool) (line : Line) (rest : list Line) :
  compress b (line :: rest)
  = compress b [line] ++ compress (isEmptyLine line) rest.
Proof. destruct line; simpl; [reflexivity | now destruct b | reflexivity]. Qed.

Lemma compress_normalize (b : bool) (lines : list Line) :
  map normalizeLine (compress b lines) = compress b (map normalizeLine lines).
Proof.
  revert b. induction lines as [|l rest IH]; intros b; [reflexivity|].
  destruct l; simpl; rewrite ?IH; try reflexivity.
  destruct b; simpl; now rewrite IH.
Qed.

(** The lines a parsed document renders to are the lines of the file
    with the runs of blank lines cut to one. *)
Lemma scan_shown (lines : list Line) (st : ScanState) :
  (forall content, In (LComment content) lines -> content <> EmptyString) ->
  shown (scan lines st)
  = shown st
    ++ compress (negb (Nat.eqb (consecutiveEmptyLines st) 0))
         (map normalizeLine lines).
Proof.
  revert st. induction lines as [|l rest IH]; intros st Hc.
  - simpl. now rewrite app_nil_r.
  - cbn [scan map]. rewrite IH by (intros c Hin; apply Hc; now right).
    destruct (scanStep_shown l rest st) as [-> ->].
    { intros c ->. apply Hc. now left. }
    rewrite negb_involutive, <- app_assoc. f_equal.
    rewrite (compress_cons _ (normalizeLine l) (map normalizeLine rest)).
    now destruct l.
Qed.

Lemma finishScan_shown (st : ScanState) :
  map reparse (serializeBlocks (finishScan st)) = shown st.
Proof.
  unfold finishScan, shown. fold (pendingIsEmpty st).
  destruct (pendingIsEmpty st) eqn:Hp; simpl.
  - apply pendingIsEmpty_true in Hp. rewrite Hp. simpl. now rewrite app_nil_r.
  - rewrite serializeBlocks_app, map_app. simpl. now rewrite app_nil_r.
Qed.

Lemma parseBlocks_shown (lines : list Line) :
  (forall content, In (LComment content) lines -> content <> EmptyString) ->
  map reparse (serializeBlocks (parseBlocks lines))
  = map normalizeLine (compress false lines).
Proof.
  intros Hc. unfold parseBlocks.
  rewrite finishScan_shown, scan_shown by exact Hc.
  simpl. symmetry. apply compress_normalize.
Qed.

(** Cutting the runs of blank lines does not change the parsed document. *)
Lemma isNextNonEmptyComment_compress (b : bool) (lines : list Line) :
  isNextNonEmptyComment (compress b lines) = isNextNonEmptyComment lines.
Proof.
  revert b. induction lines as [|l rest IH]; intros b; [reflexivity|].
  destruct l; simpl; auto. destruct b; simpl; auto.
Qed.

Lemma sameUpToCount_refl (st : ScanState) : sameUpToCount st st.
Proof. repeat split. Qed.

Lemma sameUpToCount_trans (st1 st2 st3 : ScanState) :
  sameUpToCount st1 st2 -> sameUpToCount st2 st3 -> sameUpToCount st1 st3.
Proof.
  unfold sameUpToCount. intros (-> & -> & -> & ->) (-> & -> & -> & ->).
  repeat split.
Qed.

Lemma scanStep_counter (line : Line) (rest : list Line) (st : ScanState) :
  Nat.eqb (consecutiveEmptyLines (scanStep line rest st)) 0
  = negb (isEmptyLine line).
Proof.
  destruct line as [c| |k v r]; simpl.
  - now destruct (negb _ && _).
  - destruct (negb _); [destruct (isNextNonEmptyComment rest)|];
      destruct (Nat.eqb (consecutiveEmptyLines st) 0); reflexivity.
  - reflexivity.
Qed.

Lemma scan_compress (lines : list Line) (st : ScanState) :
  sameUpToCount
    (scan (compress (negb (Nat.eqb (consecutiveEmptyLines st) 0)) lines) st)
    (scan lines st).
Proof.
  revert st. induction lines as [|l rest IH]; intros st.
  - apply sameUpToCount_refl.
  - assert (Hstep : sameUpToCount
                      (scan (l :: compress (isEmptyLine l) rest) st)
                      (scan (l :: rest) st)).
    { cbn [scan].
      rewrite (scanStep_lookahead l (compress (isEmptyLine l) rest) rest)
        by apply isNextNonEmptyComment_compress.
      specialize (IH (scanStep l rest st)).
      now rewrite scanStep_counter, negb_involutive in IH. }
    destruct l as [c| |k v r]; [exact Hstep | | exact Hstep].
    destruct (Nat.eqb_spec (consecutiveEmptyLines st) 0) as [E|E];
      [exact Hstep|].
    cbn [negb compress scan].
    specialize (IH (scanStep LEmpty rest st)).
    rewrite scanStep_counter in IH. cbn [isEmptyLine negb] in IH.
    eapply sameUpToCount_trans; [|exact IH].
    apply scan_sameUpToCount.
    rewrite (scanStep_blank_again rest st E). repeat split.
    cbn [consecutiveEmptyLines].
    now destruct (Nat.eqb_spec (consecutiveEmptyLines st) 0).
Qed.

Lemma parseBlocks_compress (lines : list Line) :
  parseBlocks (compress false lines) = parseBlocks lines.
Proof.
  unfold parseBlocks. apply finishScan_sameUpToCount.
  apply (scan_compress lines initScan).
Qed.

(** The grouping pass does not read the raw field. *)
Lemma isNextNonEmptyComment_normalize (lines : list Line) :
  isNextNonEmptyComment (map normalizeLine lines)
  = isNextNonEmptyComment lines.
Proof.
  induction lines as [|l rest IH]; [reflexivity|]. destruct l; simpl; auto.
Qed.

Lemma scanStep_normalize (line : Line) (rest : list Line) (st : ScanState) :
  scanStep (normalizeLine line) (map normalizeLine rest) (normalizeState st)
  = normalizeState (scanStep line rest st).
Proof.
  unfold normalizeState.
  destruct line as [c| |k v r]; cbn [normalizeLine scanStep emitted
    pendingComments consecutiveEmptyLines hasEmptyLineAfterComment].
  - destruct (negb _ && _); cbn [emitted pendingComments consecutiveEmptyLines
      hasEmptyLineAfterComment]; rewrite ?map_app; reflexivity.
  - rewrite isNextNonEmptyComment_normalize.
    destruct (negb _); [destruct (isNextNonEmptyComment rest)|];
      destruct (Nat.eqb _ 0); cbn [emitted pendingComments
        consecutiveEmptyLines hasEmptyLineAfterComment];
      rewrite ?map_app; reflexivity.
  - rewrite map_app. reflexivity.
Qed.

Lemma scan_normalize (lines : list Line) (st : ScanState) :
  scan (map normalizeLine lines) (normalizeState st)
  = normalizeState (scan lines st).
Proof.
  revert st. induction lines as [|l rest IH]; intros st; [reflexivity|].
  cbn [map scan]. now rewrite scanStep_normalize, IH.
Qed.

Lemma parseBlocks_normalize (lines : list Line) :
  parseBlocks (map normalizeLine lines)
  = map normalizeRaw (parseBlocks lines).
Proof.
  unfold parseBlocks.
  change initScan with (normalizeState initScan).
  rewrite scan_normalize. unfold finishScan, normalizeState. simpl.
  destruct (negb _); [|reflexivity]. now rewrite map_app.
Qed.

(** Parsing the lines a parsed document renders to gives the document
    back, with the raw fields regenerated. *)
Lemma parseBlocks_rendered (lines : list Line) :
  (forall content, In (LComment content) lines -> content <> EmptyString) ->
  parseBlocks (map reparse (serializeBlocks (parseBlocks lines)))
  = map normalizeRaw (parseBlocks lines).
Proof.
  intros Hc.
  now rewrite parseBlocks_shown, parseBlocks_normalize, parseBlocks_compress.
Qed.

(** ** The round trip of a parsed document *)

Lemma scanStep_texts_origin (line : Line) (rest : list Line) (st : ScanState)
    (t : string) :
  In t (heldTexts (scanStep line rest st)) ->
  In t (heldTexts st) \/ t = EmptyString \/ line = LComment t.
Proof.
  unfold heldTexts.
  destruct line as [content| |key value raw]; cbn [scanStep].
  - destruct (negb _ && _); cbn [emitted pendingComments];
      rewrite ?commentTexts_app; cbn [commentTexts];
      rewrite ?app_nil_r, ?in_app_iff; simpl; intuition (subst; auto).
  - destruct (negb _); [destruct (isNextNonEmptyComment rest)|];
      destruct (Nat.eqb _ 0); cbn [emitted pendingComments];
      rewrite ?commentTexts_app; cbn [commentTexts];
      rewrite ?app_nil_r, ?in_app_iff; simpl; intuition (subst; auto).
  - cbn [emitted pendingComments]. rewrite commentTexts_app.
    cbn [commentTexts]. rewrite ?app_nil_r, ?in_app_iff. tauto.
Qed.

(** Every comment text of a parsed document is the content of a comment
    line, or the marker of a blank run. *)
Lemma parseBlocks_texts_origin (lines : list Line) (t : string) :
  In t (commentTexts (parseBlocks lines)) ->
  t = EmptyString \/ In (LComment t) lines.
Proof.
  unfold parseBlocks. rewrite finishScan_texts.
  assert (H : forall st, In t (heldTexts (scan lines st)) ->
                In t (heldTexts st) \/ t = EmptyString
                \/ In (LComment t) lines).
  { induction lines as [|l rest IH]; intros st; simpl; [tauto|].
    intros Hin. destruct (IH _ Hin) as [H|[H|H]]; auto.
    destruct (scanStep_texts_origin _ _ _ _ H) as [H'|[H'|H']]; auto. }
  intros Hin. destruct (H initScan Hin) as [[]|H']. exact H'.
Qed.

Lemma serializeBlocks_In (d : Document) (l : Line) :
  In l (serializeBlocks d) ->
  l = LEmpty
  \/ (exists t, l = LComment t /\ In t (commentTexts d))
  \/ (exists k v r c, l = LVariable k v r /\ In (BVariable k v r c) d).
Proof.
  induction d as [|b next IH]; [intros []|].
  assert (Hnext : In l (serializeBlocks next) ->
            l = LEmpty
            \/ (exists t, l = LComment t /\ In t (commentTexts (b :: next)))
            \/ (exists k v r c, l = LVariable k v r
                                /\ In (BVariable k v r c) (b :: next))).
  { intros H.
    destruct (IH H) as [E|[(t & E & Ht)|(k & v & r & c & E & Hb)]].
    - now left.
    - right. left. exists t. split; [exact E|].
      destruct b; cbn [commentTexts]; rewrite ?in_app_iff; auto.
    - right. right. exists k, v, r, c. split; [exact E | now right]. }
  destruct b as [lines| |k v r c]; cbn [serializeBlocks].
  - rewrite in_app_iff, in_map_iff. intros [(t & <- & Ht)|H]; [|auto].
    right. left. exists t. split; [reflexivity|].
    cbn [commentTexts]. apply in_or_app. now left.
  - intros [<-|H]; [now left | auto].
  - rewrite in_app_iff, in_map_iff. intros [(t & <- & Ht)|[<-|H]]; [| |auto].
    + right. left. exists t. split; [reflexivity|].
      cbn [commentTexts]. apply in_or_app. now left.
    + right. right. exists k, v, r, c. split; [reflexivity | now left].
Qed.

Lemma all_includes (c : ascii) (p : ascii -> bool) (s : string) :
  p c = false -> Str.all p s = true -> Str.includes c s = false.
Proof.
  intros Hc. induction s as [|a t IH]; [reflexivity|].
  simpl. intros H. apply andb_true_iff in H as [Ha Ht].
  rewrite (IH Ht), orb_false_r.
  destruct (Ascii.eqb_spec a c) as [->|_]; [congruence | reflexivity].
Qed.

Lemma includes_all (s : string) :
  Str.includes Char.lf s = false -> Str.includes Char.cr s = false ->
  Str.all (fun a => negb (Char.isLineTerminator a)) s = true.
Proof.
  induction s as [|a t IH]; [reflexivity|].
  simpl. intros H1 H2.
  apply orb_false_iff in H1 as [H1 H1']. apply orb_false_iff in H2 as [H2 H2'].
  rewrite IH by assumption. unfold Char.isLineTerminator.
  now rewrite H1, H2.
Qed.

Lemma all_flatMap (p : ascii -> bool) (f : ascii -> string) (s : string) :
  (forall a, Str.all p (f a) = true) -> Str.all p (flatMap f s) = true.
Proof.
  intros H. induction s as [|a t IH]; [reflexivity|].
  simpl. now rewrite all_app, H, IH.
Qed.

(** A quoted value holds no line terminator. *)
Lemma quoteValue_one_line (v : string) :
  Str.all (fun a => negb (Char.isLineTerminator a)) (quoteValue v) = true.
Proof.
  unfold quoteValue. destruct (needsQuotes v) eqn:Hn.
  - rewrite !all_app, escapeValue_tokens, all_flatMap; [reflexivity|].
    intros a. each_ascii a; reflexivity.
  - unfold needsQuotes in Hn. repeat apply orb_false_iff in Hn as [Hn ?].
    now apply includes_all.
Qed.

Lemma dropWhile_idem (p : ascii -> bool) (s : string) :
  Str.dropWhile p (Str.dropWhile p s) = Str.dropWhile p s.
Proof.
  induction s as [|a t IH]; [reflexivity|].
  simpl. destruct (p a) eqn:E; [exact IH|]. simpl. now rewrite E.
Qed.

Lemma unquoteValue_trimStart (s : string) :
  unquoteValue (Str.dropWhile Char.isSpace s) = unquoteValue s.
Proof.
  unfold unquoteValue, Str.trim, Str.trimStart. now rewrite dropWhile_idem.
Qed.

(** The line the serializer writes for a variable parses to the key and
    value of the variable, when the value survives quoting. *)
Lemma parseLine_rendered (c : ascii) (k v : string) :
  Char.isIdentStart c = true -> Str.all Char.isIdentChar k = true ->
  roundTrips v ->
  parseLine (String c k ++ "=" ++ quoteValue v)
  = LVariable (String c k) v (String c k ++ "=" ++ quoteValue v).
Proof.
  intros Hc Hk Hv.
  pose proof (matchVariable_complete c k "" "" (quoteValue v) Hc Hk
                eq_refl eq_refl (quoteValue_one_line v)) as Hm.
  change (String c k ++ "" ++ "=" ++ "" ++ quoteValue v)%string
    with (String c k ++ "=" ++ quoteValue v)%string in Hm.
  rewrite (parseLine_variable _ _ _ Hm).
  now rewrite unquoteValue_trimStart, unquote_quote.
Qed.

Lemma rendered_variable_one_line (c : ascii) (k v : string) :
  Char.isIdentStart c = true -> Str.all Char.isIdentChar k = true ->
  Str.includes Char.lf (String c k ++ "=" ++ quoteValue v) = false
  /\ Str.endsWith Char.cr (String c k ++ "=" ++ quoteValue v) = false.
Proof.
  intros Hc Hk.
  assert (Hck : Str.all Char.isIdentChar (String c k) = true)
    by (simpl; now rewrite (identStart_identChar _ Hc), Hk).
  pose proof (quoteValue_one_line v) as Hq.
  assert (H : forall x, Char.isSpace x = true ->
              Char.isLineTerminator x = true -> Ascii.eqb "=" x = false ->
              Str.includes x (String c k ++ "=" ++ quoteValue v) = false).
  { intros x Hx Hlt Heq. rewrite !includes_app.
    rewrite (all_includes x Char.isIdentChar (String c k))
      by (auto using space_not_identChar).
    rewrite (all_includes x (fun a => negb (Char.isLineTerminator a))
               (quoteValue v)) by (try rewrite Hlt; auto).
    cbn [Str.includes]. now rewrite Heq. }
  split.
  - now apply H.
  - apply endsWith_includes. now apply H.
Qed.

Lemma isEmpty_false (s : string) : Str.isEmpty s = false -> s <> EmptyString.
Proof. destruct s; [discriminate | discriminate]. Qed.

Lemma trim_nil : Str.trim EmptyString = EmptyString.
Proof. reflexivity. Qed.

(** The lines of a parsed file, as the properties of the round trip need
    them. *)
Lemma parsed_comment_line (content c : string) :
  In (LComment c) (map parseLine (Str.splitLines content)) ->
  c <> EmptyString /\ parseLine c = LComment c
  /\ Str.includes Char.lf c = false.
Proof.
  intros H. apply in_map_iff in H as (line & Hl & Hin).
  destruct (parseLine_LComment_inv _ _ Hl) as [-> Hne].
  repeat split.
  - intros ->. discriminate.
  - exact Hl.
  - now apply (splitLines_no_lf content).
Qed.

Lemma parsed_variable_line (content k v r : string) :
  In (LVariable k v r) (map parseLine (Str.splitLines content)) ->
  exists c0 k0, k = String c0 k0 /\ Char.isIdentStart c0 = true
                /\ Str.all Char.isIdentChar k0 = true.
Proof.
  intros H. apply in_map_iff in H as (line & Hl & _).
  destruct (parseLine_LVariable_inv _ _ _ _ Hl) as (_ & captured & Hm & _).
  destruct (matchVariable_sound _ _ _ Hm)
    as (c0 & k0 & _ & _ & -> & _ & Hc & Hk & _).
  eauto.
Qed.

Lemma compress_not_nil (lines : list Line) :
  lines <> [] -> compress false lines <> [].
Proof. destruct lines as [|[| |] rest]; simpl; congruence. Qed.

(** C3, as the code has it.  Decoding the quoted form of a value gives the
    value back when no backslash of the value is followed by [n], [r] or
    [t] and the value, if it needs no quotes, has no blank at either end.
    Parsing the serialized form of a parsed document gives the document
    back, with the same blocks, keys, values and comments and the raw
    fields regenerated, when every value of the document is such a value
    and no comment line of it ends with a carriage return. *)
Theorem C3_round_trip :
  (forall v : string, roundTrips v -> unquoteValue (quoteValue v) = v)
  /\ (forall content : string,
        let d := parseEnvFile content in
        (forall k v r c, In (BVariable k v r c) d -> roundTrips v) ->
        (forall t, In t (commentTexts d) -> Str.endsWith Char.cr t = false) ->
        parseEnvFile (serializeToString d) = map normalizeRaw d).
Proof.
  split; [exact unquote_quote|].
  intros content d Hvalues Hcr.
  set (L0 := map parseLine (Str.splitLines content)).
  assert (Hd : d = parseBlocks L0) by reflexivity.
  assert (Hmark : forall c, In (LComment c) L0 -> c <> EmptyString)
    by (intros c Hc; now apply (parsed_comment_line content c)).
  assert (Hfacts : forall l, In l (serializeBlocks d) ->
            (Str.includes Char.lf (renderLine l) = false
             /\ Str.endsWith Char.cr (renderLine l) = false)
            /\ parseLine (renderLine l) = reparse l).
  { intros l Hl.
    destruct (serializeBlocks_In _ _ Hl)
      as [->|[(t & -> & Ht)|(k & v & r & c & -> & Hb)]].
    - repeat split.
    - pose proof (Hcr t Ht) as Hcrt. rewrite Hd in Ht.
      destruct (parseBlocks_texts_origin _ _ Ht) as [->|Hin];
        [repeat split|].
      destruct (parsed_comment_line content t Hin) as (Hne & Hp & Hlf).
      cbn [renderLine]. rewrite reparse_comment by exact Hne. auto.
    - pose proof (Hvalues k v r c Hb) as Hv. rewrite Hd in Hb.
      unfold parseBlocks in Hb. apply scan_variables in Hb as [[]|Hin].
      destruct (parsed_variable_line content k v r Hin)
        as (c0 & k0 & -> & Hc0 & Hk0).
      cbn [renderLine reparse]. split.
      + now apply rendered_variable_one_line.
      + now apply parseLine_rendered. }
  assert (Hne : map renderLine (serializeBlocks d) <> []).
  { pose proof (parseBlocks_shown L0 Hmark) as Hs. rewrite <- Hd in Hs.
    assert (HL0 : L0 <> []).
    { unfold L0. pose proof (splitLines_not_nil content).
      destruct (Str.splitLines content); simpl; congruence. }
    apply compress_not_nil in HL0.
    destruct (serializeBlocks d); [|discriminate].
    simpl in Hs. destruct (compress false L0); [congruence | discriminate]. }
  unfold parseEnvFile at 1. unfold serializeToString.
  rewrite splitLines_join; [|exact Hne|].
  2:{ apply Forall_forall. intros s Hs.
      apply in_map_iff in Hs as (l & <- & Hl). now apply Hfacts. }
  rewrite map_map.
  rewrite (map_ext_in _ reparse) by (intros l Hl; now apply Hfacts).
  rewrite Hd. now apply parseBlocks_rendered.
Qed.

Lemma C3_witness :
  let content :=
    ("# Comment" ++ Str.nl ++ "KEY1=value1" ++ Str.nl
     ++ "KEY2=" ++ Str.dq ++ "quoted value" ++ Str.dq ++ Str.nl ++ Str.nl
     ++ "KEY3=another")%string in
  unquoteValue (quoteValue "quoted value") = "quoted value"
  /\ parseEnvFile (serializeToString (parseEnvFile content))
     = map normalizeRaw (parseEnvFile content).
Proof.
  intros content. split.
  - apply (proj1 C3_round_trip "quoted value").
    split; [reflexivity | left; reflexivity].
  - apply (proj2 C3_round_trip content).
    + intros k v r c H. vm_compute in H.
      destruct H as [H|[H|[H|[H|[]]]]]; try discriminate;
        injection H as <- <- <- <-;
        (split; [reflexivity | first [left; reflexivity | right; reflexivity]]).
    + intros t H. vm_compute in H. destruct H as [<-|[]]. reflexivity.
Defined.

(** The round trip of values fails for a backslash followed by [n] (the
    value of [K='\n']), and for a bare vertical tab; the round trip of
    documents fails with them. *)
Lemma C3_counterexample :
  let d := parseEnvFile "K='\n'" in
  d = [BVariable "K" "\n" "K='\n'" []]
  /\ unquoteValue (quoteValue "\n") = String Char.backslash Str.nl
  /\ parseEnvFile (serializeToString d)
     = [BVariable "K" (String Char.backslash Str.nl)
          ("K=" ++ Str.dq ++ "\\n" ++ Str.dq) []]
  /\ "\n"%string <> String Char.backslash Str.nl
  /\ unquoteValue (quoteValue (Str.singleton Char.vt)) = "".
Proof. vm_compute. repeat split. discriminate. Qed.

(** ** Merging again in place *)

Module LinkedFacts.
Import Linked.

Lemma bind_Return {A B} (m : M A) (k : A -> M B) (h h' : Store) (a : A) :
  m h = Return a h' -> bind m k h = k a h'.
Proof. unfold bind. now intros ->. Qed.

Lemma bind_OutOfFuel {A B} (m : M A) (k : A -> M B) (h : Store) :
  m h = OutOfFuel -> bind m k h = OutOfFuel.
Proof. unfold bind. now intros ->. Qed.

Lemma load_at (h : Store) (p : nat) (n : Node) :
  nth_error h p = Some n -> load p h = Return n h.
Proof. unfold load. now intros ->. Qed.

Lemma nth_error_replaceAt_same (h : Store) (p : nat) (n : Node) :
  p < List.length h -> nth_error (replaceAt p n h) p = Some n.
Proof.
  revert p. induction h as [|x t IH]; intros p Hp; [simpl in Hp; lia|].
  destruct p; simpl; [reflexivity|]. apply IH. simpl in Hp. lia.
Qed.

Lemma nth_error_replaceAt_other (h : Store) (p q : nat) (n : Node) :
  p <> q -> nth_error (replaceAt p n h) q = nth_error h q.
Proof.
  revert p q. induction h as [|x t IH]; intros p q Hpq.
  - now destruct p.
  - destruct p, q; simpl; try reflexivity; [congruence|]. apply IH. congruence.
Qed.

Lemma length_replaceAt (h : Store) (p : nat) (n : Node) :
  List.length (replaceAt p n h) = List.length h.
Proof.
  revert p. induction h as [|x t IH]; intros p; [now destruct p|].
  destruct p; simpl; [reflexivity | now rewrite IH].
Qed.

Lemma setNext_at (h : Store) (p : nat) (n : Node) (nx : option nat) :
  nth_error h p = Some n ->
  setNext p nx h = Return tt (replaceAt p (mkNode (block n) nx) h).
Proof.
  intros H. unfold setNext. rewrite (bind_Return _ _ _ _ _ (load_at _ _ _ H)).
  unfold store.
  assert (Hlt : p < List.length h) by (apply nth_error_Some; congruence).
  now rewrite (proj2 (Nat.ltb_lt _ _) Hlt).
Qed.

(** The walk to the tail ends at the node of the chain that has no next
    node, when the fuel lasts. *)
Lemma findTail_reach (h : Store) (hd c : nat) (n : Node) :
  Reach h hd c -> nth_error h c = Some n -> next n = None ->
  forall fuel, findTail fuel hd h = OutOfFuel \/ findTail fuel hd h = Return c h.
Proof.
  intros Hr Hc Hn. induction Hr as [c|hd q c m Hm Hq Hr IH]; intros fuel.
  - destruct fuel; [now left|]. right. simpl.
    rewrite (bind_Return _ _ _ _ _ (load_at _ _ _ Hc)), Hn. reflexivity.
  - destruct fuel; [now left|]. simpl.
    rewrite (bind_Return _ _ _ _ _ (load_at _ _ _ Hm)), Hq. now apply IH.
Qed.

Lemma Reach_valid (h : Store) (hd c : nat) (n : Node) :
  Reach h hd c -> nth_error h c = Some n -> hd < List.length h.
Proof.
  intros Hr Hc. destruct Hr as [c|hd q c m Hm _ _];
    apply nth_error_Some; congruence.
Qed.

Lemma appendToTail_reach (h : Store) (hd c n : nat) (nc nn : Node)
    (fuel : nat) :
  Reach h hd c -> nth_error h c = Some nc -> next nc = None ->
  nth_error h n = Some nn -> c <> n ->
  appendToTail fuel hd n h = OutOfFuel
  \/ appendToTail fuel hd n h
     = Return tt (replaceAt n (mkNode (block nn) None)
                    (replaceAt c (mkNode (block nc) (Some n)) h)).
Proof.
  intros Hr Hc Hnc Hn Hcn. unfold appendToTail.
  destruct (findTail_reach h hd c nc Hr Hc Hnc fuel) as [E|E].
  - left. now apply bind_OutOfFuel.
  - right. rewrite (bind_Return _ _ _ _ _ E).
    rewrite (bind_Return _ _ _ _ _ (setNext_at _ _ _ _ Hc)).
    apply setNext_at. now rewrite nth_error_replaceAt_other.
Qed.

(** Appending the new node [n] after the tail [c] keeps the chain and
    makes [n] its tail. *)
Lemma Reach_append (h : Store) (hd c : nat) (b : Block) (nc : Node) :
  Reach h hd c -> nth_error h c = Some nc -> next nc = None ->
  let n := List.length h in
  let h' := replaceAt n (mkNode b None)
              (replaceAt c (mkNode (block nc) (Some n))
                 (h ++ [mkNode b None])) in
  Reach h' hd n /\ nth_error h' n = Some (mkNode b None)
  /\ nth_error h' c = Some (mkNode (block nc) (Some n)).
Proof.
  intros Hr Hc Hn n h'.
  assert (Hcl : c < List.length h) by (apply nth_error_Some; congruence).
  assert (Hnew : nth_error h' n = Some (mkNode b None)).
  { unfold h'. apply nth_error_replaceAt_same.
    rewrite length_replaceAt, length_app. simpl. unfold n. lia. }
  assert (Hc' : nth_error h' c = Some (mkNode (block nc) (Some n))).
  { unfold h'. rewrite nth_error_replaceAt_other by (unfold n; lia).
    apply nth_error_replaceAt_same. rewrite length_app. lia. }
  split; [|split; assumption].
  induction Hr as [c|hd q c m Hm Hq Hr IH].
  - eapply reach_next; [exact Hc' | reflexivity | apply reach_here].
  - assert (Hne : hd <> c) by (intros ->; congruence).
    assert (Hhd : hd < List.length h) by (apply nth_error_Some; congruence).
    eapply reach_next; [|exact Hq | now apply IH].
    unfold h'. rewrite !nth_error_replaceAt_other by (unfold n; lia).
    now rewrite nth_error_app1.
Qed.

(** The second loop never leaves a comment block that ends the chain of
    the base it is merging into: each iteration appends a copy of the
    block after it and moves on to the copy. *)
Lemma mergeComments_tail_comment (fuel : nat) (h : Store) (hd c : nat) :
  EndsWithComment h hd c -> mergeComments fuel hd (Some c) h = OutOfFuel.
Proof.
  revert h c. induction fuel as [|f IH]; intros h c [Hr (lines & Hc)];
    [reflexivity|].
  cbn [mergeComments].
  rewrite (bind_Return _ _ _ _ _ (load_at _ _ _ Hc)).
  cbn [block isCommentBlock].
  set (n := List.length h).
  set (h1 := h ++ [mkNode (BComment lines) None]).
  assert (Hc1 : nth_error h1 c = Some (mkNode (BComment lines) None)).
  { unfold h1. rewrite nth_error_app1; [exact Hc|].
    apply nth_error_Some. congruence. }
  destruct (Reach_append h hd c (BComment lines) _ Hr Hc eq_refl)
    as (Hr2 & Hn2 & Hc2).
  fold n in Hr2, Hn2, Hc2. fold h1 in Hr2, Hn2, Hc2. cbn [block] in *.
  set (h2 := replaceAt n (mkNode (BComment lines) None)
               (replaceAt c (mkNode (BComment lines) (Some n)) h1)) in *.
  assert (Hins : insertCommentBlock f hd c h = OutOfFuel
                 \/ insertCommentBlock f hd c h = Return hd h2).
  { unfold insertCommentBlock, findNextVariable, blockAt, bind, alloc, load, ret.
    rewrite Hc. cbn [block next]. fold n. fold h1. rewrite Hc1. cbn [next].
    destruct f as [|f1]; [now left|]. cbn [firstVariable]. unfold ret.
    cbn [hasCommentBlockBefore]. rewrite Nat.eqb_refl.
    unfold bind, blockAt, ret, load, bind.
    destruct f1 as [|f2]; [now left|]. cbn [skipEmptyBack]. unfold ret.
    rewrite Hc1. cbn [block areBlocksEqual].
    assert (Hr1 : Reach h1 hd c).
    { clear - Hr Hc. unfold h1.
      induction Hr as [c|hd q c m Hm Hq Hr IH]; [apply reach_here|].
      eapply reach_next; [|exact Hq | now apply IH].
      rewrite nth_error_app1; [exact Hm|]. apply nth_error_Some. congruence. }
    assert (Hn1 : nth_error h1 n = Some (mkNode (BComment lines) None)).
    { unfold h1, n. now rewrite nth_error_app2, Nat.sub_diag by lia. }
    assert (Hcn : c <> n).
    { assert (c < n) by (apply nth_error_Some; congruence). lia. }
    destruct (appendToTail_reach h1 hd c n _ _ (S (S f2)) Hr1 Hc1 eq_refl
                Hn1 Hcn) as [E|E]; rewrite E; auto. }
  destruct Hins as [E|E].
  - now rewrite (bind_OutOfFuel _ _ _ E).
  - rewrite (bind_Return _ _ _ _ _ E).
    rewrite (bind_Return _ _ _ _ _ (load_at _ _ _ Hc2)). cbn [next].
    apply IH. split; [exact Hr2|]. now exists lines.
Qed.

Lemma mergeComments_skip (fuel : nat) (h : Store) (hd p : nat) (n : Node) :
  nth_error h p = Some n -> isCommentBlock (block n) = false ->
  mergeComments (S fuel) hd (Some p) h = mergeComments fuel hd (next n) h.
Proof.
  intros Hp Hn. cbn [mergeComments].
  now rewrite (bind_Return _ _ _ _ _ (load_at _ _ _ Hp)), Hn.
Qed.

(** The documents of claim C1 merged on their own nodes: the first merge
    appends a copy of the comment block of [b] to the chain of [a]; the
    second merge has that chain as its base and as its source, and its
    second loop follows the copies it appends for ever. *)
Lemma mergeTwice_never_returns (fuel : nat) :
  mergeTwice fuel (parseEnvFile "K=1")
    (parseEnvFile ("K=2" ++ Str.nl ++ Str.nl ++ "# c")) []
  = OutOfFuel.
Proof.
  destruct fuel as [|[|[|[|[|f]]]]]; try (vm_compute; reflexivity).
  unfold mergeTwice.
  erewrite bind_Return by (vm_compute; reflexivity).
  erewrite bind_Return by (vm_compute; reflexivity).
  erewrite bind_Return by (vm_compute; reflexivity).
  apply bind_OutOfFuel. unfold mergeSources. cbn [validSources mergeAll].
  apply bind_OutOfFuel, bind_OutOfFuel. unfold mergeTwo.
  erewrite bind_Return by (vm_compute; reflexivity).
  erewrite mergeComments_skip by reflexivity. cbn [next].
  apply mergeComments_tail_comment. split.
  - eapply reach_next; [reflexivity | reflexivity | apply reach_here].
  - eexists. reflexivity.
Qed.

End LinkedFacts.

(** ** The size of a merged document *)

Lemma length_updateAt (i : nat) (f : Block -> Block) (head : Document) :
  List.length (updateAt i f head) = List.length head.
Proof.
  revert i. induction head as [|b next IH]; intros i; [now destruct i|].
  destruct i; simpl; [reflexivity | now rewrite IH].
Qed.

Lemma length_insertBefore (head : Document) (i : nat) (b : Block) :
  List.length (insertBefore head i b) = S (List.length head).
Proof.
  rewrite insertBefore_eq, length_app. simpl.
  rewrite <- (firstn_skipn i head) at 3. rewrite length_app. lia.
Qed.

Lemma length_mergeVariables (source head : Document) :
  List.length (mergeVariables head source)
  <= List.length head + List.length source.
Proof.
  revert head. induction source as [|x next IH]; intros head; [simpl; lia|].
  destruct x as [l| |k v r c]; cbn [mergeVariables List.length];
    try (specialize (IH head); lia).
  destruct (findVariableBlock head k) as [i|].
  - eapply Nat.le_trans; [apply IH|]. rewrite length_updateAt. lia.
  - destruct (findIntersectionPoint next head) as [pt|].
    + eapply Nat.le_trans; [apply IH|]. rewrite length_insertBefore. lia.
    + eapply Nat.le_trans; [apply IH|]. unfold appendToTail.
      rewrite length_app. simpl. lia.
Qed.

Lemma length_insertCommentBlock (head : Document) (comment : Block)
    (next : Document) :
  List.length (insertCommentBlock head comment next) <= S (List.length head).
Proof.
  assert (Ht : List.length (if hasCommentBlockBefore head 0 comment then head
                            else appendToTail head comment)
               <= S (List.length head)).
  { destruct (hasCommentBlockBefore head 0 comment); [lia|].
    unfold appendToTail. rewrite length_app. simpl. lia. }
  unfold insertCommentBlock.
  destruct (findNextVariable next) as [[l| |k v r c]|]; try exact Ht.
  destruct (findVariableBlock head k) as [i|]; [|exact Ht].
  destruct (negb (hasCommentBlockBefore head i comment)); [|lia].
  rewrite length_insertBefore. lia.
Qed.

Lemma length_mergeComments (source head : Document) :
  List.length (mergeComments head source)
  <= List.length head + List.length source.
Proof.
  revert head. induction source as [|x next IH]; intros head; [simpl; lia|].
  destruct x as [l| |k v r c]; cbn [mergeComments List.length];
    try (specialize (IH head); lia).
  eapply Nat.le_trans; [apply IH|].
  pose proof (length_insertCommentBlock head (BComment l) next). lia.
Qed.

Lemma length_mergeTwo (base source : Document) :
  List.length (mergeTwo base source)
  <= List.length base + 2 * List.length source.
Proof.
  unfold mergeTwo.
  pose proof (length_mergeComments source (mergeVariables base source)).
  pose proof (length_mergeVariables source base). lia.
Qed.

Lemma findIntersectionPoint_bound (next base : Document) (i : nat) :
  findIntersectionPoint next base = Some i -> i < List.length base.
Proof.
  rewrite findIntersectionPoint_spec.
  destruct (firstSharedKey next base) as [k|]; [|discriminate].
  intros E. destruct (findVariableBlock_split _ _ _ E)
    as (pre & b & post & -> & <- & _).
  rewrite length_app. simpl. lia.
Qed.

Lemma length_fold_mergeTwo (ds : list Document) (d : Document) :
  List.length (fold_left mergeTwo ds d) <= List.length d + 2 * sizeOf ds.
Proof.
  revert d. induction ds as [|x ds IH]; intros d; [simpl; lia|].
  cbn [fold_left]. eapply Nat.le_trans; [apply IH|].
  pose proof (length_mergeTwo d x). unfold sizeOf in *. simpl. lia.
Qed.

Lemma sizeOf_cons (d : Document) (ds : list Document) :
  sizeOf (d :: ds) = List.length d + sizeOf ds.
Proof. reflexivity. Qed.

Lemma sizeOf_nonNull (ds : list Document) : sizeOf (nonNull ds) <= sizeOf ds.
Proof.
  induction ds as [|d ds IH]; [simpl; lia|].
  unfold nonNull in *. cbn [filter].
  destruct (negb (isNull d)); rewrite ?sizeOf_cons; lia.
Qed.

Lemma length_mergeSources (ds : list Document) :
  List.length (mergeSources ds) <= 2 * sizeOf ds.
Proof.
  unfold mergeSources. fold (nonNull ds).
  pose proof (sizeOf_nonNull ds) as H.
  destruct (nonNull ds) as [|first rest]; [simpl; lia|].
  pose proof (length_fold_mergeTwo rest first). rewrite sizeOf_cons in H. lia.
Qed.

(** ** The two mergers agree on chains that share no node *)

Module LinkedRefinement.
Import Linked LinkedFacts.

Lemma Seg_valid (h : Store) (p q : option nat) (ps : list nat) (d : Document) :
  Seg h p ps d q -> forall a, In a ps -> a < List.length h.
Proof.
  induction 1 as [|p n ps d q Hn _ IH]; intros a; [intros []|].
  intros [<-|Ha]; [|now apply IH]. apply nth_error_Some. congruence.
Qed.

Lemma Seg_length (h : Store) (p q : option nat) (ps : list nat) (d : Document) :
  Seg h p ps d q -> List.length d = List.length ps.
Proof. induction 1; simpl; congruence. Qed.

Lemma Rep_functional (h : Store) (p : option nat) (ps ps' : list nat)
    (d d' : Document) :
  Rep h p ps d -> Rep h p ps' d' -> ps = ps' /\ d = d'.
Proof.
  unfold Rep. intros H. revert ps' d'. remember None as q eqn:Eq.
  induction H as [q|p n ps d q Hn _ IH]; intros ps' d' H'; subst q;
    inversion H' as [|p0 n0 ps0 d0 q0 Hn0 Hr0]; subst.
  - auto.
  - assert (n0 = n) by congruence. subst n0.
    destruct (IH eq_refl _ _ Hr0) as [-> ->]. auto.
Qed.

Lemma Seg_app (h : Store) (p m q : option nat) (l1 l2 : list nat)
    (d1 d2 : Document) :
  Seg h p l1 d1 m -> Seg h m l2 d2 q -> Seg h p (l1 ++ l2) (d1 ++ d2) q.
Proof.
  induction 1 as [|p n ps d m Hn _ IH]; intros H2; [exact H2|].
  simpl. econstructor; [eassumption | now apply IH].
Qed.

Lemma Seg_split (h : Store) (p q : option nat) (l1 l2 : list nat)
    (d : Document) :
  Seg h p (l1 ++ l2) d q ->
  exists m, Seg h p l1 (firstn (List.length l1) d) m
            /\ Seg h m l2 (skipn (List.length l1) d) q.
Proof.
  revert p d. induction l1 as [|a l1 IH]; intros p d H.
  - exists p. split; [constructor | exact H].
  - inversion H as [|p0 n0 ps0 d0 q0 Hn0 Hr0]; subst.
    destruct (IH _ _ Hr0) as (m & H1 & H2).
    exists m. split; [|exact H2]. simpl. econstructor; eassumption.
Qed.

Lemma Seg_head (h : Store) (p q : option nat) (a : nat) (ps : list nat)
    (d : Document) :
  Seg h p (a :: ps) d q -> p = Some a.
Proof. inversion 1. reflexivity. Qed.

(** A chain does not come back to one of its nodes. *)
Lemma Rep_NoDup (h : Store) (p : option nat) (ps : list nat) (d : Document) :
  Rep h p ps d -> NoDup ps.
Proof.
  unfold Rep. remember None as q eqn:Eq.
  induction 1 as [|p n ps d q Hn Hr IH]; constructor; [|now apply IH].
  subst q. intros Hin. destruct (in_split _ _ Hin) as (l1 & l2 & E). subst ps.
  assert (Hfull : Rep h (Some p) (p :: l1 ++ p :: l2) (block n :: d))
    by (econstructor; eassumption).
  destruct (Seg_split h _ _ (p :: l1) (p :: l2) _ Hfull) as (m & _ & Hq).
  pose proof (Seg_head _ _ _ _ _ _ Hq) as ->.
  destruct (Rep_functional _ _ _ _ _ _ Hfull Hq) as [E _].
  apply (f_equal (@List.length nat)) in E. simpl in E.
  rewrite length_app in E. simpl in E. lia.
Qed.

(** A chain is not affected by what happens at other addresses. *)
Lemma Seg_same (h h' : Store) (p q : option nat) (ps : list nat)
    (d : Document) :
  Seg h p ps d q ->
  (forall a, In a ps -> nth_error h' a = nth_error h a) ->
  Seg h' p ps d q.
Proof.
  induction 1 as [|p n ps d q Hn _ IH]; intros Hsame; constructor.
  - rewrite Hsame by now left. exact Hn.
  - apply IH. intros a Ha. apply Hsame. now right.
Qed.

Lemma Frame_refl (h : Store) (ps : list nat) : Frame h h ps.
Proof. split; auto. Qed.

Lemma Frame_trans (h1 h2 h3 : Store) (ps qs : list nat) :
  Frame h1 h2 ps -> Frame h2 h3 qs ->
  (forall a, In a qs -> In a ps \/ List.length h1 <= a) ->
  Frame h1 h3 ps.
Proof.
  intros [L1 F1] [L2 F2] Hq. split; [lia|]. intros a Ha Hn.
  rewrite F2, F1; auto; [lia|].
  intros Hin. destruct (Hq a Hin); [tauto | lia].
Qed.

Lemma Frame_weaken (h h' : Store) (ps qs : list nat) :
  Frame h h' ps -> (forall a, In a ps -> In a qs) -> Frame h h' qs.
Proof. intros [L F] Hq. split; [exact L|]. intros a Ha Hn. apply F; auto. Qed.

Lemma Seg_Frame (h h' : Store) (p q : option nat) (ps qs : list nat)
    (d : Document) :
  Seg h p ps d q -> Frame h h' qs -> (forall a, In a ps -> ~ In a qs) ->
  Seg h' p ps d q.
Proof.
  intros Hr [_ F] Hdis. apply (Seg_same h); [exact Hr|].
  intros a Ha. apply F; [|now apply Hdis].
  eapply Seg_valid; eassumption.
Qed.

Lemma Frame_replaceAt (h : Store) (a : nat) (n : Node) :
  Frame h (replaceAt a n h) [a].
Proof.
  split; [now rewrite length_replaceAt|]. intros b _ Hb.
  apply nth_error_replaceAt_other. simpl in Hb. tauto.
Qed.

(** Changing the link of the last node of a segment. *)
Lemma Seg_relink (h : Store) (p q q' : option nat) (l : list nat) (t : nat)
    (d : Document) :
  Seg h p (l ++ [t]) d q -> NoDup (l ++ [t]) ->
  exists nt, nth_error h t = Some nt /\ next nt = q
             /\ Seg (replaceAt t (mkNode (block nt) q') h) p (l ++ [t]) d q'.
Proof.
  revert p d. induction l as [|a l IH]; intros p d H Hnd.
  - inversion H as [|p0 n0 ps0 d0 q0 Hn0 Hr0]; subst.
    inversion Hr0; subst. exists n0. repeat split; [exact Hn0|].
    apply (seg_cons _ t (mkNode (block n0) q') [] [] q').
    + apply nth_error_replaceAt_same. apply nth_error_Some. congruence.
    + constructor.
  - inversion H as [|p0 n0 ps0 d0 q0 Hn0 Hr0]; subst.
    inversion_clear Hnd as [|? ? Ha Hnd'].
    destruct (IH _ _ Hr0 Hnd') as (nt & Ht & Hq & Hseg).
    exists nt. repeat split; [exact Ht | exact Hq |].
    simpl. econstructor; [|exact Hseg].
    rewrite nth_error_replaceAt_other; [exact Hn0|].
    intros ->. apply Ha. apply in_or_app. right. now left.
Qed.

(** [findVariableBlock] returns the node at the position the merger on
    lists finds. *)
Lemma findVariableBlock_Rep (h : Store) (p : option nat) (ps : list nat)
    (d : Document) (key : string) (fuel : nat) :
  Rep h p ps d -> List.length ps < fuel ->
  findVariableBlock fuel p key h
  = Return (pick ps (OnLists.findVariableBlock d key)) h.
Proof.
  unfold Rep. remember None as q eqn:Eq. intros H. revert fuel.
  induction H as [q|p n ps d q Hn _ IH]; intros fuel Hf; subst q.
  - destruct fuel; [simpl in Hf; lia | reflexivity].
  - destruct fuel; [simpl in Hf; lia|]. cbn [findVariableBlock].
    rewrite (bind_Return _ _ _ _ _ (load_at _ _ _ Hn)).
    rewrite findVariableBlock_cons.
    destruct (hasKey key (block n)); [reflexivity|].
    rewrite IH by (simpl in Hf; lia || reflexivity).
    now destruct (OnLists.findVariableBlock d key).
Qed.

Lemma firstVariable_Rep (h : Store) (p : option nat) (ps : list nat)
    (d : Document) (fuel : nat) :
  Rep h p ps d -> List.length ps < fuel ->
  exists r, firstVariable fuel p h = Return r h
            /\ match r with
               | Some a => exists n, nth_error h a = Some n
                                     /\ OnLists.findNextVariable d = Some (block n)
                                     /\ isVariableBlock (block n) = true
               | None => OnLists.findNextVariable d = None
               end.
Proof.
  unfold Rep. remember None as q eqn:Eq. intros H. revert fuel.
  induction H as [q|p n ps d q Hn _ IH]; intros fuel Hf; subst q.
  - destruct fuel; [simpl in Hf; lia|]. exists None. split; reflexivity.
  - destruct fuel; [simpl in Hf; lia|]. cbn [firstVariable].
    rewrite (bind_Return _ _ _ _ _ (load_at _ _ _ Hn)).
    destruct (isVariableBlock (block n)) eqn:Hv.
    + exists (Some p). split; [reflexivity|]. exists n.
      repeat split; try assumption. destruct (block n); try discriminate.
      reflexivity.
    + destruct (IH eq_refl fuel) as (r & Hr & Hspec); [simpl in Hf; lia|].
      exists r. split; [exact Hr|].
      destruct (block n); try discriminate; exact Hspec.
Qed.

Lemma findIntersectionPoint_Rep (h : Store) (cur base : option nat)
    (S B : list nat) (dS d : Document) (fuel : nat) :
  Rep h cur S dS -> Rep h base B d ->
  List.length S + List.length B + 1 < fuel ->
  findIntersectionPoint fuel cur base h
  = Return (pick B (OnLists.findIntersectionPoint dS d)) h.
Proof.
  unfold Rep at 1. remember None as q eqn:Eq. intros H. revert fuel.
  induction H as [q|p n ps dS' q Hn _ IH]; intros fuel HB Hf; subst q.
  - destruct fuel; [lia | reflexivity].
  - destruct fuel; [lia|]. cbn [findIntersectionPoint].
    rewrite (bind_Return _ _ _ _ _ (load_at _ _ _ Hn)).
    simpl in Hf.
    destruct (block n) as [l| |k v r c]; cbn [OnLists.findIntersectionPoint];
      try (apply IH; [reflexivity | assumption | lia]).
    rewrite (bind_Return _ _ _ _ _
               (findVariableBlock_Rep h base B d k fuel HB ltac:(lia))).
    destruct (OnLists.findVariableBlock d k) as [i|] eqn:Ei.
    + cbn [pick].
      destruct (nth_error B i) as [b|] eqn:Eb; [reflexivity|].
      exfalso. apply nth_error_None in Eb.
      destruct (findVariableBlock_split _ _ _ Ei) as (pre & x & post & -> & <- & _).
      apply Seg_length in HB. rewrite length_app in HB. simpl in HB. lia.
    + cbn [pick]. apply IH; [reflexivity | assumption | lia].
Qed.

Lemma Seg_None (h : Store) (q : option nat) (ps : list nat) (d : Document) :
  Seg h None ps d q -> ps = [] /\ d = [] /\ q = None.
Proof. inversion 1. auto. Qed.

Lemma Rep_Some_cons (h : Store) (hd : nat) (ps : list nat) (d : Document) :
  Rep h (Some hd) ps d ->
  exists n ps' d', ps = hd :: ps' /\ d = block n :: d'
                   /\ nth_error h hd = Some n /\ Rep h (next n) ps' d'.
Proof.
  unfold Rep. inversion 1 as [|p0 n0 ps0 d0 q0 Hn0 Hr0]; subst.
  exists n0, ps0, d0. auto.
Qed.

Lemma findTail_Rep (h : Store) (ps : list nat) :
  forall (hd : nat) (d : Document) (fuel : nat),
  Rep h (Some hd) ps d -> List.length ps <= fuel ->
  exists l t, ps = l ++ [t] /\ findTail fuel hd h = Return t h.
Proof.
  induction ps as [|a ps IH]; intros hd d fuel H Hf.
  - destruct (Rep_Some_cons _ _ _ _ H) as (? & ? & ? & [=] & _).
  - destruct (Rep_Some_cons _ _ _ _ H) as (n & ps' & d' & [= <- <-] & -> & Hn & Hr).
    destruct fuel as [|f]; [simpl in Hf; lia|]. cbn [findTail].
    rewrite (bind_Return _ _ _ _ _ (load_at _ _ _ Hn)).
    destruct (next n) as [q|] eqn:Hq.
    + destruct (IH q d' f Hr) as (l & t & -> & Ht); [simpl in Hf; lia|].
      exists (a :: l), t. auto.
    + apply Seg_None in Hr as (-> & _). exists [], a. auto.
Qed.

(** [appendToTail] on a chain and a node that is not on it. *)
Lemma appendToTail_Rep (h : Store) (hd a : nat) (na : Node) (ps : list nat)
    (d : Document) (fuel : nat) :
  Rep h (Some hd) ps d -> nth_error h a = Some na -> ~ In a ps ->
  List.length ps <= fuel ->
  exists h', appendToTail fuel hd a h = Return tt h'
             /\ Rep h' (Some hd) (ps ++ [a]) (d ++ [block na])
             /\ Frame h h' (a :: ps) /\ List.length h' = List.length h.
Proof.
  intros H Ha Hin Hf.
  destruct (findTail_Rep h ps hd d fuel H Hf) as (l & t & -> & Ht).
  destruct (Seg_relink h _ _ (Some a) l t d H (Rep_NoDup _ _ _ _ H))
    as (nt & Hnt & _ & Hseg).
  set (h1 := replaceAt t (mkNode (block nt) (Some a)) h) in *.
  assert (Hat : a <> t).
  { intros ->. apply Hin. apply in_or_app. right. now left. }
  assert (Ha1 : nth_error h1 a = Some na).
  { unfold h1. now rewrite nth_error_replaceAt_other by congruence. }
  set (h2 := replaceAt a (mkNode (block na) None) h1).
  exists h2. repeat split.
  - unfold appendToTail.
    rewrite (bind_Return _ _ _ _ _ Ht).
    rewrite (bind_Return _ _ _ _ _ (setNext_at _ _ _ _ Hnt)).
    now apply setNext_at.
  - apply (Seg_app h2 _ (Some a)).
    + apply (Seg_same h1); [exact Hseg|]. intros b Hb. unfold h2.
      apply nth_error_replaceAt_other. intros ->. tauto.
    + apply (seg_cons _ a (mkNode (block na) None) [] [] None); [|constructor].
      unfold h2. apply nth_error_replaceAt_same.
      apply nth_error_Some. congruence.
  - unfold h2, h1. rewrite !length_replaceAt. lia.
  - intros b Hb Hnb. unfold h2, h1.
    rewrite !nth_error_replaceAt_other; [reflexivity | |];
      intros ->; apply Hnb; simpl; rewrite ?in_app_iff; simpl; tauto.
  - unfold h2, h1. now rewrite !length_replaceAt.
Qed.

Lemma NoDup_app_disjoint {A} (l1 l2 : list A) :
  NoDup (l1 ++ l2) -> forall x, In x l1 -> In x l2 -> False.
Proof.
  induction l1 as [|a l1 IH]; simpl; intros H x; [tauto|].
  inversion_clear H as [|? ? Ha Hnd]. intros [<-|H1] H2.
  - apply Ha. apply in_or_app. now right.
  - exact (IH Hnd x H1 H2).
Qed.

Lemma Seg_nil_inv (h : Store) (p q : option nat) (d : Document) :
  Seg h p [] d q -> p = q /\ d = [].
Proof. inversion 1. auto. Qed.

Lemma insertBeforeLoop_Seg (h : Store) (head t a : nat) (k : M nat)
    (lc : list nat) :
  forall (cur c : nat) (dc : Document) (fuel : nat),
  Seg h (Some cur) (lc ++ [c]) dc (Some t) -> ~ In t (lc ++ [c]) ->
  List.length lc < fuel ->
  insertBeforeLoop fuel head cur t a h
  = (setNext a (Some t) ;;; setNext c (Some a) ;;; ret head) h.
Proof.
  induction lc as [|x lc IH]; intros cur c dc fuel H Ht Hf.
  - inversion H as [|p0 n0 ps0 d0 q0 Hn0 Hr0]; subst.
    apply Seg_nil_inv in Hr0 as [Enext _].
    destruct fuel as [|f]; [simpl in Hf; lia|]. cbn [insertBeforeLoop].
    rewrite (bind_Return _ _ _ _ _ (load_at _ _ _ Hn0)).
    now rewrite Enext, Nat.eqb_refl.
  - inversion H as [|p0 n0 ps0 d0 q0 Hn0 Hr0]; subst.
    destruct fuel as [|f]; [simpl in Hf; lia|]. cbn [insertBeforeLoop].
    rewrite (bind_Return _ _ _ _ _ (load_at _ _ _ Hn0)).
    assert (Hy : exists y, next n0 = Some y /\ In y (lc ++ [c])).
    { destruct lc as [|y lc']; simpl in Hr0;
        pose proof (Seg_head _ _ _ _ _ _ Hr0) as E; rewrite E;
        eexists; split; try reflexivity; now left. }
    destruct Hy as (y & Ey & Hy). rewrite Ey in *.
    assert (Hne : Nat.eqb y t = false).
    { apply Nat.eqb_neq. intros ->. apply Ht. now right. }
    rewrite Hne. apply (IH y c d0 f Hr0).
    + intros Hin. apply Ht. now right.
    + simpl in Hf. lia.
Qed.

(** [insertBefore] on a chain, a node of it and a node that is not on it. *)
Lemma insertBefore_Rep (h : Store) (hd t a : nat) (na : Node)
    (l1 l2 : list nat) (d : Document) (fuel : nat) :
  Rep h (Some hd) (l1 ++ t :: l2) d -> nth_error h a = Some na ->
  ~ In a (l1 ++ t :: l2) -> List.length l1 < fuel ->
  exists hd' h',
    insertBefore fuel (Some hd) t a h = Return hd' h'
    /\ Rep h' (Some hd') (l1 ++ a :: t :: l2)
         (OnLists.insertBefore d (List.length l1) (block na))
    /\ Frame h h' (a :: l1 ++ t :: l2) /\ List.length h' = List.length h.
Proof.
  intros H Ha Hin Hf.
  pose proof (Rep_NoDup _ _ _ _ H) as Hnd.
  destruct (Seg_split _ _ _ _ _ _ H) as (m & H1 & H2).
  pose proof (Seg_head _ _ _ _ _ _ H2) as ->.
  rewrite insertBefore_eq.
  set (h1 := replaceAt a (mkNode (block na) (Some t)) h).
  assert (Hframe1 : forall b, b <> a -> nth_error h1 b = nth_error h b).
  { intros b Hb. unfold h1. apply nth_error_replaceAt_other. congruence. }
  assert (Ha1 : nth_error h1 a = Some (mkNode (block na) (Some t))).
  { unfold h1. apply nth_error_replaceAt_same. apply nth_error_Some.
    congruence. }
  assert (Hnotin : forall b, In b (l1 ++ t :: l2) -> b <> a)
    by (intros b Hb ->; tauto).
  destruct l1 as [|x l1'] using rev_ind.
  - (* the target is the head *)
    simpl in *. inversion H1; subst.
    exists a, h1. repeat split.
    + unfold insertBefore. rewrite Nat.eqb_refl.
      now rewrite (bind_Return _ _ _ _ _ (setNext_at _ _ _ _ Ha)).
    + apply (seg_cons _ a (mkNode (block na) (Some t)) (t :: l2) d None);
        [exact Ha1|].
      apply (Seg_same h); [exact H|]. intros b Hb. apply Hframe1. auto.
    + unfold h1. rewrite length_replaceAt. lia.
    + intros b _ Hb. apply Hframe1. intros ->. apply Hb. now left.
    + unfold h1. now rewrite length_replaceAt.
  - try clear IHl1'.
    assert (Hhd : exists y, hd = y /\ In y (l1' ++ [x])).
    { rewrite <- app_assoc in H.
      destruct l1' as [|y l]; simpl in H;
        pose proof (Seg_head _ _ _ _ _ _ H) as [= ->];
        eexists; split; try reflexivity; now left. }
    destruct Hhd as (y & -> & Hy).
    pose proof (NoDup_app_disjoint _ _ Hnd) as Hdisj.
    assert (Htl : ~ In t (l1' ++ [x])).
    { intros Hint. apply (Hdisj t Hint). now left. }
    assert (Hne : Nat.eqb y t = false).
    { apply Nat.eqb_neq. intros ->. tauto. }
    assert (H1' : Seg h1 (Some y) (l1' ++ [x])
                    (firstn (List.length (l1' ++ [x])) d) (Some t)).
    { apply (Seg_same h); [exact H1|]. intros b Hb. apply Hframe1.
      apply Hnotin. apply in_or_app. now left. }
    assert (Hnd1 : NoDup (l1' ++ [x])).
    { apply NoDup_app_remove_r in Hnd. exact Hnd. }
    destruct (Seg_relink h1 _ _ (Some a) l1' x _ H1' Hnd1)
      as (nx & Hnx & _ & Hseg).
    set (h2 := replaceAt x (mkNode (block nx) (Some a)) h1) in *.
    assert (Hx : In x (l1' ++ [x])) by (apply in_or_app; right; now left).
    assert (Hxa : x <> a).
    { apply Hnotin. apply in_or_app. now left. }
    exists y, h2. repeat split.
    + unfold insertBefore. rewrite Hne.
      rewrite (insertBeforeLoop_Seg h y t a (ret y) l1' y x _ fuel H1 Htl)
        by (rewrite length_app in Hf; simpl in Hf; lia).
      rewrite (bind_Return _ _ _ _ _ (setNext_at _ _ _ _ Ha)).
      fold h1.
      now rewrite (bind_Return _ _ _ _ _ (setNext_at _ _ _ _ Hnx)).
    + apply (Seg_app h2 _ (Some a)); [exact Hseg|].
      apply (seg_cons _ a (mkNode (block na) (Some t)) (t :: l2) _ None).
      * unfold h2. rewrite nth_error_replaceAt_other by congruence. exact Ha1.
      * apply (Seg_same h); [exact H2|]. intros b Hb. unfold h2.
        rewrite nth_error_replaceAt_other.
        -- apply Hframe1. apply Hnotin. apply in_or_app. now right.
        -- intros ->. exact (Hdisj b Hx Hb).
    + unfold h2, h1. rewrite !length_replaceAt. lia.
    + intros b _ Hb. unfold h2.
      rewrite nth_error_replaceAt_other.
      * apply Hframe1. intros ->. apply Hb. now left.
      * intros ->. apply Hb. right. apply in_or_app. now left.
    + unfold h2, h1. now rewrite !length_replaceAt.
Qed.

Lemma lastOf_snoc (l : list nat) (x : nat) : lastOf (l ++ [x]) = Some x.
Proof. unfold lastOf. now rewrite rev_unit. Qed.

Lemma lastOf_cons (x : nat) (l : list nat) :
  lastOf (x :: l) = match lastOf l with Some y => Some y | None => Some x end.
Proof.
  unfold lastOf. simpl. destruct (rev l); reflexivity.
Qed.

Lemma Seg_snoc_inv (h : Store) (l : list nat) (x : nat) :
  forall (p q : option nat) (d : Document),
  Seg h p (l ++ [x]) d q ->
  exists d' nx, d = d' ++ [block nx] /\ nth_error h x = Some nx
                /\ next nx = q /\ Seg h p l d' (Some x).
Proof.
  induction l as [|a l IH]; intros p q d H;
    inversion H as [|p0 n0 ps0 d0 q0 Hn0 Hr0]; subst.
  - apply Seg_nil_inv in Hr0 as [E ->].
    exists [], n0. repeat split; try assumption. constructor.
  - destruct (IH _ _ _ Hr0) as (d' & nx & -> & Hx & Hq & Hseg).
    exists (block n0 :: d'), nx. repeat split; try assumption.
    econstructor; eassumption.
Qed.

Lemma Seg_app_inv (h : Store) (l1 l2 : list nat) :
  forall (p q : option nat) (d : Document),
  Seg h p (l1 ++ l2) d q ->
  exists d1 d2 m, d = d1 ++ d2 /\ List.length d1 = List.length l1
                  /\ Seg h p l1 d1 m /\ Seg h m l2 d2 q.
Proof.
  induction l1 as [|a l1 IH]; intros p q d H.
  - exists [], d, p. repeat split; [constructor | exact H].
  - inversion H as [|p0 n0 ps0 d0 q0 Hn0 Hr0]; subst.
    destruct (IH _ _ _ Hr0) as (d1 & d2 & m & -> & Hl & H1 & H2).
    exists (block n0 :: d1), d2, m. repeat split; simpl; try congruence.
    econstructor; eassumption.
Qed.

Lemma blockAt_at (h : Store) (c : nat) (nc : Node) :
  nth_error h c = Some nc -> blockAt (Some c) h = Return (Some (block nc)) h.
Proof.
  intros Hc. cbn [blockAt]. now rewrite (bind_Return _ _ _ _ _ (load_at _ _ _ Hc)).
Qed.

(** The innermost loop of [hasCommentBlockBefore] returns the node before
    the one it looks for. *)
Lemma nodeBefore_Seg (h : Store) (c : nat) (lc : list nat) :
  forall (temp be q : option nat) (dc : Document) (fuel : nat),
  Seg h temp (lc ++ [c]) dc q -> ~ In c lc -> List.length lc < fuel ->
  nodeBefore fuel temp be c h
  = Return (match lastOf lc with Some y => Some y | None => be end) h.
Proof.
  induction lc as [|x lc IH]; intros temp be q dc fuel H Hc Hf;
    inversion H as [|p0 n0 ps0 d0 q0 Hn0 Hr0]; subst;
    (destruct fuel as [|f]; [simpl in Hf; lia|]); cbn [nodeBefore].
  - now rewrite Nat.eqb_refl.
  - assert (Hne : Nat.eqb x c = false).
    { apply Nat.eqb_neq. intros ->. apply Hc. now left. }
    rewrite Hne, (bind_Return _ _ _ _ _ (load_at _ _ _ Hn0)).
    rewrite (IH _ (Some x) _ _ f Hr0);
      [| intros Hin; apply Hc; now right | simpl in Hf; lia].
    rewrite lastOf_cons. now destruct (lastOf lc).
Qed.

(** The walk backward over the empty blocks stops at the nearest block
    that is not empty. *)
Lemma skipEmptyBack_Seg (h : Store) (hd : nat) (l1 : list nat) :
  forall (m : option nat) (d1 : Document) (fuel : nat),
  Seg h (Some hd) l1 d1 m -> NoDup l1 -> List.length l1 < fuel ->
  exists r, skipEmptyBack fuel hd (lastOf l1) h = Return r h
            /\ blockAt r h = Return (skipEmptyBlocks (rev d1)) h.
Proof.
  induction l1 as [|x l1 IH] using rev_ind; intros m d1 fuel H Hnd Hf;
    (destruct fuel as [|f]; [simpl in Hf; lia|]).
  - inversion H; subst. exists None. split; reflexivity.
  - rewrite lastOf_snoc. cbn [skipEmptyBack].
    destruct (Seg_snoc_inv _ _ _ _ _ _ H) as (d' & nx & -> & Hx & _ & Hseg).
    rewrite (bind_Return _ _ _ _ _ (load_at _ _ _ Hx)).
    rewrite rev_unit.
    assert (Hxl : ~ In x l1).
    { intros Hin. apply (NoDup_app_disjoint _ _ Hnd x Hin). now left. }
    rewrite length_app in Hf. simpl in Hf.
    destruct (block nx) as [ls| |k v r c] eqn:Eb; cbn [isEmptyBlock skipEmptyBlocks].
    + exists (Some x). split; [reflexivity|].
      rewrite (blockAt_at _ _ _ Hx). now rewrite Eb.
    + rewrite (bind_Return _ _ _ _ _
                 (nodeBefore_Seg h x l1 (Some hd) None m _ f H Hxl ltac:(lia))).
      replace (match lastOf l1 with Some y => Some y | None => None end)
        with (lastOf l1) by now destruct (lastOf l1).
      apply (IH (Some x) d' f Hseg); [|lia].
      now apply NoDup_app_remove_r in Hnd.
    + exists (Some x). split; [reflexivity|].
      rewrite (blockAt_at _ _ _ Hx). now rewrite Eb.
Qed.

(** [hasCommentBlockBefore], from the node after the prefix [l1] on. *)
Lemma hasCommentBlockBefore_Seg (h : Store) (hd pt c : nat) (nc : Node)
    (l2 : list nat) (lm : list nat) :
  forall (l1 : list nat) (cur : option nat) (d1 d2 : Document) (fuel : nat),
  Seg h (Some hd) l1 d1 cur -> Seg h cur (lm ++ pt :: l2) d2 None ->
  NoDup (l1 ++ lm ++ pt :: l2) -> nth_error h c = Some nc ->
  List.length l1 + 2 * List.length lm + 1 < fuel ->
  hasCommentBlockBefore fuel hd cur (lastOf l1) pt c h
  = Return (areBlocksEqual
              (skipEmptyBlocks (rev (d1 ++ firstn (List.length lm) d2)))
              (Some (block nc))) h.
Proof.
  induction lm as [|x lm IH]; intros l1 cur d1 d2 fuel H1 H2 Hnd Hc Hf;
    (destruct fuel as [|f]; [lia|]); cbn [hasCommentBlockBefore].
  - simpl in H2. pose proof (Seg_head _ _ _ _ _ _ H2) as ->.
    rewrite Nat.eqb_refl.
    destruct (skipEmptyBack_Seg h hd l1 _ d1 f H1) as (r & Hr & Hb);
      [now apply NoDup_app_remove_r in Hnd | lia |].
    rewrite (bind_Return _ _ _ _ _ Hr), (bind_Return _ _ _ _ _ Hb).
    rewrite (bind_Return _ _ _ _ _ (blockAt_at _ _ _ Hc)).
    simpl. now rewrite app_nil_r.
  - simpl in H2. inversion H2 as [|p0 n0 ps0 d0 q0 Hn0 Hr0]; subst.
    assert (Hne : Nat.eqb x pt = false).
    { apply Nat.eqb_neq. intros ->.
      apply NoDup_app_remove_l in Hnd. simpl in Hnd.
      inversion_clear Hnd as [|? ? Hx _]. apply Hx.
      apply in_or_app. right. now left. }
    rewrite Hne, (bind_Return _ _ _ _ _ (load_at _ _ _ Hn0)).
    rewrite <- (lastOf_snoc l1 x).
    rewrite (IH (l1 ++ [x]) (next n0) (d1 ++ [block n0]) d0 f).
    + simpl. now rewrite <- app_assoc.
    + apply (Seg_app h _ (Some x)); [exact H1|].
      econstructor; [exact Hn0 | constructor].
    + exact Hr0.
    + now rewrite <- app_assoc.
    + exact Hc.
    + rewrite length_app. simpl in *. lia.
Qed.

Lemma hasCommentBlockBefore_Rep (h : Store) (hd pt c : nat) (nc : Node)
    (l1 l2 : list nat) (d : Document) (fuel : nat) :
  Rep h (Some hd) (l1 ++ pt :: l2) d -> nth_error h c = Some nc ->
  2 * List.length l1 + 1 < fuel ->
  hasCommentBlockBefore fuel hd (Some hd) None pt c h
  = Return (OnLists.hasCommentBlockBefore d (List.length l1) (block nc)) h.
Proof.
  intros H Hc Hf.
  change None with (lastOf []) at 1.
  rewrite (hasCommentBlockBefore_Seg h hd pt c nc l2 l1 [] (Some hd) [] d fuel
             (seg_nil _ _) H (Rep_NoDup _ _ _ _ H) Hc ltac:(simpl; lia)).
  unfold OnLists.hasCommentBlockBefore. simpl.
  apply Seg_length in H. rewrite length_app in H. simpl in H.
  replace (Nat.ltb (List.length l1) (List.length d)) with true; [reflexivity|].
  symmetry. apply Nat.ltb_lt. lia.
Qed.


(** ** Allocation and the growth of a chain *)

Lemma alloc_at (h : Store) (b : Block) :
  alloc b h = Return (List.length h) (h ++ [mkNode b None]).
Proof. reflexivity. Qed.

Lemma nth_error_alloc (h : Store) (n : Node) :
  nth_error (h ++ [n]) (List.length h) = Some n.
Proof. rewrite nth_error_app2 by lia. now rewrite Nat.sub_diag. Qed.

Lemma nth_error_alloc_old (h : Store) (n n' : Node) (a : nat) :
  nth_error h a = Some n -> nth_error (h ++ [n']) a = Some n.
Proof.
  intros H. rewrite nth_error_app1; [exact H|].
  apply nth_error_Some. congruence.
Qed.

Lemma Seg_alloc (h : Store) (n : Node) (p q : option nat) (ps : list nat)
    (d : Document) :
  Seg h p ps d q -> Seg (h ++ [n]) p ps d q.
Proof.
  intros H. apply (Seg_same h); [exact H|]. intros a Ha.
  apply nth_error_app1. eapply Seg_valid; eassumption.
Qed.

Lemma Seg_fresh (h : Store) (p q : option nat) (ps : list nat) (d : Document) :
  Seg h p ps d q -> ~ In (List.length h) ps.
Proof.
  intros H Hin. pose proof (Seg_valid _ _ _ _ _ H _ Hin). lia.
Qed.

Lemma Grows_refl (h : Store) (ps : list nat) : Grows h ps h ps.
Proof. split; [apply Frame_refl | auto]. Qed.

Lemma Grows_trans (h1 h2 h3 : Store) (ps1 ps2 ps3 : list nat) :
  Grows h1 ps1 h2 ps2 -> Grows h2 ps2 h3 ps3 -> Grows h1 ps1 h3 ps3.
Proof.
  intros [F1 I1] [F2 I2]. pose proof F1 as [L1 _]. split.
  - apply (Frame_trans h1 h2 h3 ps1 ps2 F1 F2). exact I1.
  - intros a Ha. destruct (I2 a Ha) as [H|H]; [auto | right; lia].
Qed.

(** A step that allocates a node and splices it in the chain. *)
Lemma Grows_alloc (h h2 : Store) (n : Node) (ps ps' : list nat) :
  Frame (h ++ [n]) h2 (List.length h :: ps) ->
  (forall a, In a ps' -> a = List.length h \/ In a ps) ->
  Grows h ps h2 ps'.
Proof.
  intros [L F] I. rewrite length_app in L. simpl in L. split; [split|].
  - lia.
  - intros a Ha Hn. rewrite F.
    + now apply nth_error_app1.
    + rewrite length_app. simpl. lia.
    + simpl. intros [E|E]; [lia | tauto].
  - intros a Ha. destruct (I a Ha) as [->|H]; [right; lia | now left].
Qed.

(** A chain apart from the one that grows is not affected. *)
Lemma Seg_Grows (h h' : Store) (p q : option nat) (S B B' : list nat)
    (d : Document) :
  Seg h p S d q -> Grows h B h' B' -> apart S B ->
  Seg h' p S d q /\ apart S B'.
Proof.
  intros H [F I] Hap. split.
  - exact (Seg_Frame h h' p q S B d H F Hap).
  - intros a Ha Hb. destruct (I a Hb) as [Hin|Hge]; [exact (Hap a Ha Hin)|].
    pose proof (Seg_valid _ _ _ _ _ H a Ha). lia.
Qed.

Lemma nth_error_Grows (h h' : Store) (B B' : list nat) (a : nat) (n : Node) :
  nth_error h a = Some n -> Grows h B h' B' -> ~ In a B ->
  nth_error h' a = Some n.
Proof.
  intros H [[_ F] _] Ha. rewrite F; [exact H | | exact Ha].
  apply nth_error_Some. congruence.
Qed.

(** ** Placing a comment block *)

Lemma atTail_Rep (h : Store) (hd c node : nat) (nc nn : Node) (B : list nat)
    (d : Document) (fuel : nat) :
  Rep h (Some hd) B d -> nth_error h c = Some nc ->
  nth_error h node = Some nn -> ~ In node B -> List.length B + 1 < fuel ->
  exists h' B',
    (present <- hasCommentBlockBefore fuel hd (Some hd) None hd c ;;
     if present then ret hd
     else appendToTail fuel hd node ;;; ret hd) h = Return hd h'
    /\ Rep h' (Some hd) B'
         (if OnLists.hasCommentBlockBefore d 0 (block nc) then d
          else OnLists.appendToTail d (block nn))
    /\ Frame h h' (node :: B)
    /\ (forall a, In a B' -> a = node \/ In a B).
Proof.
  intros H Hc Hn Hin Hf.
  destruct (Rep_Some_cons _ _ _ _ H) as (n0 & ps' & d' & -> & -> & Hhd & Hr).
  rewrite (bind_Return _ _ _ _ _
             (hasCommentBlockBefore_Rep h hd hd c nc [] ps' _ fuel H Hc
                ltac:(simpl; lia))).
  cbn [List.length].
  destruct (OnLists.hasCommentBlockBefore (block n0 :: d') 0 (block nc)).
  - exists h, (hd :: ps'). repeat split; auto using Frame_refl.
  - destruct (appendToTail_Rep h hd node nn (hd :: ps') _ fuel H Hn Hin
                ltac:(simpl in *; lia)) as (h' & Hrun & Hrep & Hfr & _).
    exists h', ((hd :: ps') ++ [node]). repeat split.
    + now rewrite (bind_Return _ _ _ _ _ Hrun).
    + exact Hrep.
    + apply Hfr.
    + apply Hfr.
    + intros a Ha. apply in_app_or in Ha as [Ha|[<-|[]]]; auto.
Qed.

Lemma findVariableBlock_pick (h : Store) (hd : nat) (B : list nat)
    (d : Document) (key : string) :
  Rep h (Some hd) B d ->
  match OnLists.findVariableBlock d key with
  | Some i => exists l1 pt l2, B = l1 ++ pt :: l2 /\ List.length l1 = i
                               /\ pick B (Some i) = Some pt
  | None => True
  end.
Proof.
  intros H. destruct (OnLists.findVariableBlock d key) as [i|] eqn:E; [|exact I].
  destruct (findVariableBlock_split _ _ _ E) as (pre & x & post & -> & <- & _).
  apply Seg_length in H. rewrite length_app in H. simpl in H.
  destruct (nth_error B (List.length pre)) as [pt|] eqn:Ept.
  - destruct (nth_error_split _ _ Ept) as (l1 & l2 & -> & Hl).
    exists l1, pt, l2. repeat split; [exact Hl|]. exact Ept.
  - apply nth_error_None in Ept. lia.
Qed.


Lemma findNextVariable_Rep (h : Store) (c : nat) (nc : Node) (S' : list nat)
    (dS' : Document) (fuel : nat) :
  nth_error h c = Some nc -> Rep h (next nc) S' dS' ->
  List.length S' < fuel ->
  exists r, findNextVariable fuel c h = Return r h
            /\ match r with
               | Some a => exists n, nth_error h a = Some n
                                     /\ OnLists.findNextVariable dS' = Some (block n)
                                     /\ isVariableBlock (block n) = true
               | None => OnLists.findNextVariable dS' = None
               end.
Proof.
  intros Hc HS Hf. unfold findNextVariable.
  rewrite (bind_Return _ _ _ _ _ (load_at _ _ _ Hc)).
  exact (firstVariable_Rep h (next nc) S' dS' fuel HS Hf).
Qed.

(** [insertCommentBlock] places the comment where the merger on lists
    does; the node it adds is new. *)
Lemma insertCommentBlock_Rep (h : Store) (hd c : nat) (nc : Node)
    (B S' : list nat) (d dS' : Document) (fuel : nat) :
  Rep h (Some hd) B d -> nth_error h c = Some nc ->
  Rep h (next nc) S' dS' ->
  2 * List.length B + List.length S' + 2 < fuel ->
  exists hd' h' B',
    insertCommentBlock fuel hd c h = Return hd' h'
    /\ Rep h' (Some hd') B' (OnLists.insertCommentBlock d (block nc) dS')
    /\ Grows h B h' B'.
Proof.
  intros H Hc HS Hf.
  unfold insertCommentBlock, OnLists.insertCommentBlock.
  rewrite (bind_Return _ _ _ _ _ (load_at _ _ _ Hc)).
  rewrite (bind_Return _ _ _ _ _ (alloc_at _ _)).
  set (nn := mkNode (block nc) None).
  set (h1 := h ++ [nn]).
  set (node := List.length h).
  assert (H1 : Rep h1 (Some hd) B d) by now apply Seg_alloc.
  assert (Hc1 : nth_error h1 c = Some nc) by now apply nth_error_alloc_old.
  assert (HS1 : Rep h1 (next nc) S' dS') by now apply Seg_alloc.
  assert (Hn1 : nth_error h1 node = Some nn) by apply nth_error_alloc.
  assert (Hfresh : ~ In node B) by exact (Seg_fresh _ _ _ _ _ H).
  destruct (atTail_Rep h1 hd c node nc nn B d fuel H1 Hc1 Hn1 Hfresh
              ltac:(lia)) as (ht & Bt & Htrun & Htrep & Htfr & Htin).
  assert (Htg : Grows h B ht Bt) by exact (Grows_alloc _ _ _ _ _ Htfr Htin).
  cbv zeta.
  destruct (findNextVariable_Rep h1 c nc S' dS' fuel Hc1 HS1 ltac:(lia))
    as (r & Hr & Hspec).
  rewrite (bind_Return _ _ _ _ _ Hr).
  destruct r as [v|].
  - destruct Hspec as (n & Hv & Hfn & Hisv).
    rewrite (bind_Return _ _ _ _ _ (load_at _ _ _ Hv)), Hfn.
    destruct (block n) as [ls| |k v0 r0 c0]; try discriminate. cbn [keyOf].
    rewrite (bind_Return _ _ _ _ _
               (findVariableBlock_Rep h1 (Some hd) B d k fuel H1 ltac:(lia))).
    pose proof (findVariableBlock_pick h1 hd B d k H1) as Hp.
    destruct (OnLists.findVariableBlock d k) as [i|].
    + destruct Hp as (l1 & pt & l2 & -> & <- & Hpick). rewrite Hpick.
      rewrite length_app in Hf. simpl in Hf.
      rewrite (bind_Return _ _ _ _ _
                 (hasCommentBlockBefore_Rep h1 hd pt c nc l1 l2 d fuel H1 Hc1
                    ltac:(lia))).
      destruct (OnLists.hasCommentBlockBefore d (List.length l1) (block nc));
        cbn [negb].
      * exists hd, h1, (l1 ++ pt :: l2). split; [reflexivity|].
        split; [exact H1|].
        apply (Grows_alloc _ _ nn); [apply Frame_refl | auto].
      * destruct (insertBefore_Rep h1 hd pt node nn l1 l2 d fuel H1 Hn1 Hfresh
                    ltac:(lia)) as (hd' & h' & Hrun & Hrep & Hfr & _).
        exists hd', h', (l1 ++ node :: pt :: l2).
        split; [exact Hrun|]. split; [exact Hrep|].
        apply (Grows_alloc _ _ nn); [exact Hfr|].
        intros a Ha. apply in_app_or in Ha as [Ha|[<-|Ha]];
          [right; apply in_or_app; now left | now left
          | right; apply in_or_app; now right].
    + exists hd, ht, Bt. split; [|split]; assumption.
  - rewrite Hspec. exists hd, ht, Bt. split; [|split]; assumption.
Qed.


(** ** The loops of [mergeTwo] *)

Lemma setBlock_at (h : Store) (p : nat) (n : Node) (b : Block) :
  nth_error h p = Some n ->
  setBlock p b h = Return tt (replaceAt p (mkNode b (next n)) h).
Proof.
  intros Hp. unfold setBlock.
  rewrite (bind_Return _ _ _ _ _ (load_at _ _ _ Hp)).
  unfold store. replace (Nat.ltb p (List.length h)) with true; [reflexivity|].
  symmetry. apply Nat.ltb_lt. apply nth_error_Some. congruence.
Qed.

(** Overwriting the block of a node of a chain. *)
Lemma setBlock_Rep (h : Store) (p0 : option nat) (l1 l2 : list nat) (b : nat)
    (d : Document) (f : Block -> Block) :
  Rep h p0 (l1 ++ b :: l2) d ->
  exists bn,
    nth_error h b = Some bn
    /\ Rep (replaceAt b (mkNode (f (block bn)) (next bn)) h) p0
         (l1 ++ b :: l2) (updateAt (List.length l1) f d).
Proof.
  intros H. pose proof (Rep_NoDup _ _ _ _ H) as Hnd.
  destruct (Seg_app_inv _ _ _ _ _ _ H) as (d1 & d2 & m & -> & Hl & H1 & H2).
  inversion H2 as [|p n ps d0 q Hn Hr]; subst.
  exists n. split; [exact Hn|].
  rewrite <- Hl, updateAt_split.
  apply (Seg_app _ _ (Some b)).
  - apply (Seg_same h); [exact H1|]. intros a Ha.
    apply nth_error_replaceAt_other. intros ->.
    apply (NoDup_app_disjoint _ _ Hnd a Ha). now left.
  - apply (seg_cons _ b (mkNode (f (block n)) (next n)) l2 d0 None).
    + apply nth_error_replaceAt_same. apply nth_error_Some. congruence.
    + apply (Seg_same h); [exact Hr|]. intros a Ha.
      apply nth_error_replaceAt_other. intros ->.
      apply NoDup_app_remove_l in Hnd. inversion_clear Hnd as [|? ? Hb _].
      exact (Hb Ha).
Qed.

Lemma findIntersectionPoint_pick (h : Store) (hd : nat) (B : list nat)
    (d next : Document) :
  Rep h (Some hd) B d ->
  match OnLists.findIntersectionPoint next d with
  | Some i => exists l1 pt l2, B = l1 ++ pt :: l2 /\ List.length l1 = i
                               /\ pick B (Some i) = Some pt
  | None => True
  end.
Proof.
  intros H. destruct (OnLists.findIntersectionPoint next d) as [i|] eqn:E;
    [|exact I].
  apply findIntersectionPoint_bound in E.
  apply Seg_length in H.
  destruct (nth_error B i) as [pt|] eqn:Ept.
  - destruct (nth_error_split _ _ Ept) as (l1 & l2 & -> & Hl).
    exists l1, pt, l2. repeat split; [exact Hl|]. exact Ept.
  - apply nth_error_None in Ept. lia.
Qed.

Lemma apart_tail (a : nat) (S B : list nat) : apart (a :: S) B -> apart S B.
Proof. intros H x Hx. apply H. now right. Qed.

(** The first loop of [mergeTwo]. *)
Lemma mergeVariables_Rep (S : list nat) :
  forall (h : Store) (hd : nat) (cur : option nat) (B : list nat)
         (d dS : Document) (fuel : nat),
  Rep h (Some hd) B d -> Rep h cur S dS -> apart S B ->
  2 * List.length B + 3 * List.length S + 3 < fuel ->
  exists hd' h' B',
    mergeVariables fuel hd cur h = Return hd' h'
    /\ Rep h' (Some hd') B' (OnLists.mergeVariables d dS)
    /\ Grows h B h' B'.
Proof.
  induction S as [|p S IH]; intros h hd cur B d dS fuel HB HS Hap Hf;
    (destruct fuel as [|f]; [lia|]).
  - apply Seg_nil_inv in HS as [-> ->].
    exists hd, h, B. split; [reflexivity|]. split; [exact HB|].
    apply Grows_refl.
  - inversion HS as [|p' n ps dS' q Hn Hr]; subst.
    cbn [mergeVariables].
    rewrite (bind_Return _ _ _ _ _ (load_at _ _ _ Hn)).
    assert (HpB : ~ In p B) by (apply Hap; now left).
    pose proof (apart_tail _ _ _ Hap) as Hap'.
    pose proof (Seg_length _ _ _ _ _ HB) as HlB.
    cbn [List.length] in Hf.
    destruct (block n) as [ls| |key value raw comments] eqn:Eb;
      cbn [OnLists.mergeVariables];
      try (apply (IH h hd (next n) B d dS' f HB Hr Hap'); lia).
    rewrite (bind_Return _ _ _ _ _
               (findVariableBlock_Rep h (Some hd) B d key f HB ltac:(lia))).
    pose proof (findVariableBlock_pick h hd B d key HB) as Hp.
    destruct (OnLists.findVariableBlock d key) as [i|] eqn:Efind.
    + (* the base defines the key *)
      destruct Hp as (l1 & b & l2 & EB & <- & Hpick). rewrite Hpick.
      subst B.
      destruct (setBlock_Rep h (Some hd) l1 l2 b d
                  (fun x => updateVariable x value comments) HB)
        as (bn & Hbn & HB1).
      set (h1 := replaceAt b
                   (mkNode (updateVariable (block bn) value comments) (next bn))
                   h) in *.
      assert (Hupd : (bn0 <- load b ;;
                      setBlock b (updateVariable (block bn0) value comments) ;;;
                      ret hd) h = Return hd h1).
      { rewrite (bind_Return _ _ _ _ _ (load_at _ _ _ Hbn)).
        now rewrite (bind_Return _ _ _ _ _ (setBlock_at _ _ _ _ Hbn)). }
      rewrite (bind_Return _ _ _ _ _ Hupd).
      assert (Hg : Grows h (l1 ++ b :: l2) h1 (l1 ++ b :: l2)).
      { split; [|auto].
        apply (Frame_weaken _ _ [b]); [apply Frame_replaceAt|].
        intros a [<-|[]]. apply in_or_app. right. now left. }
      rewrite (bind_Return _ _ _ _ _
                 (load_at _ _ _ (nth_error_Grows _ _ _ _ _ _ Hn Hg HpB))).
      destruct (Seg_Grows _ _ _ _ _ _ _ _ Hr Hg Hap') as [Hr1 Hap1].
      destruct (IH h1 hd (next n) _ _ dS' f HB1 Hr1 Hap1 ltac:(lia))
        as (hd' & h' & B' & Hrun & Hrep & Hg').
      exists hd', h', B'. split; [exact Hrun|]. split; [exact Hrep|].
      exact (Grows_trans _ _ _ _ _ _ Hg Hg').
    + (* a new key *)
      set (nn := mkNode (BVariable key value raw comments) None).
      set (h1 := h ++ [nn]).
      set (node := List.length h).
      assert (H1 : Rep h1 (Some hd) B d) by now apply Seg_alloc.
      assert (Hr1 : Rep h1 (next n) S dS') by now apply Seg_alloc.
      assert (Hn1 : nth_error h1 node = Some nn) by apply nth_error_alloc.
      assert (Hfresh : ~ In node B) by exact (Seg_fresh _ _ _ _ _ HB).
      pose proof (findIntersectionPoint_pick h1 hd B d dS' H1) as Hq.
      assert (Hstep : exists hd1 h2 B1 d1,
                 (newNode <- alloc (BVariable key value raw comments) ;;
                  point <- findIntersectionPoint f (next n) (Some hd) ;;
                  match point with
                  | Some pt => insertBefore f (Some hd) pt newNode
                  | None => appendToTail f hd newNode ;;; ret hd
                  end) h = Return hd1 h2
                 /\ Rep h2 (Some hd1) B1 d1
                 /\ Grows h B h2 B1
                 /\ List.length B1 = 1 + List.length B
                 /\ OnLists.mergeVariables d
                      (BVariable key value raw comments :: dS')
                    = OnLists.mergeVariables d1 dS').
      { rewrite (bind_Return _ _ _ _ _ (alloc_at _ _)).
        fold nn h1 node.
        rewrite (bind_Return _ _ _ _ _
                   (findIntersectionPoint_Rep h1 (next n) (Some hd) S B dS' d f
                      Hr1 H1 ltac:(lia))).
        cbn [OnLists.mergeVariables].
        rewrite Efind.
        destruct (OnLists.findIntersectionPoint dS' d) as [i|].
        - destruct Hq as (l1 & pt & l2 & -> & <- & Hpick). rewrite Hpick.
          destruct (insertBefore_Rep h1 hd pt node nn l1 l2 d f H1 Hn1 Hfresh)
            as (hd1 & h2 & Hrun & Hrep & Hfr & _).
          { rewrite length_app in Hf. lia. }
          exists hd1, h2, (l1 ++ node :: pt :: l2). eexists.
          split; [exact Hrun|]. split; [exact Hrep|]. split; [|split].
          + apply (Grows_alloc _ _ nn); [exact Hfr|].
            intros a Ha. apply in_app_or in Ha as [Ha|[<-|Ha]];
              [right; apply in_or_app; now left | now left
              | right; apply in_or_app; now right].
          + rewrite !length_app. simpl. lia.
          + reflexivity.
        - cbn [pick].
          destruct (appendToTail_Rep h1 hd node nn B d f H1 Hn1 Hfresh
                      ltac:(lia)) as (h2 & Hrun & Hrep & Hfr & _).
          exists hd, h2, (B ++ [node]). eexists.
          split; [now rewrite (bind_Return _ _ _ _ _ Hrun)|].
          split; [exact Hrep|]. split; [|split].
          + apply (Grows_alloc _ _ nn); [exact Hfr|].
            intros a Ha. apply in_app_or in Ha as [Ha|[<-|[]]]; auto.
          + rewrite length_app. simpl. lia.
          + reflexivity. }
      destruct Hstep as (hd1 & h2 & B1 & d1 & Hrun & Hrep & Hg & Hlen & Hd).
      rewrite (bind_Return _ _ _ _ _ Hrun).
      rewrite (bind_Return _ _ _ _ _
                 (load_at _ _ _ (nth_error_Grows _ _ _ _ _ _ Hn Hg HpB))).
      destruct (Seg_Grows _ _ _ _ _ _ _ _ Hr Hg Hap') as [Hr2 Hap2].
      destruct (IH h2 hd1 (next n) B1 d1 dS' f Hrep Hr2 Hap2 ltac:(lia))
        as (hd' & h' & B' & Hrun' & Hrep' & Hg').
      exists hd', h', B'. split; [exact Hrun'|]. split.
      * rewrite <- Hd in Hrep'. cbn [OnLists.mergeVariables] in Hrep'.
        rewrite Efind in Hrep'. exact Hrep'.
      * exact (Grows_trans _ _ _ _ _ _ Hg Hg').
Qed.


(** The second loop of [mergeTwo]. *)
Lemma mergeComments_Rep (S : list nat) :
  forall (h : Store) (hd : nat) (cur : option nat) (B : list nat)
         (d dS : Document) (fuel : nat),
  Rep h (Some hd) B d -> Rep h cur S dS -> apart S B ->
  2 * List.length B + 3 * List.length S + 3 < fuel ->
  exists hd' h' B',
    mergeComments fuel hd cur h = Return hd' h'
    /\ Rep h' (Some hd') B' (OnLists.mergeComments d dS)
    /\ Grows h B h' B'.
Proof.
  induction S as [|p S IH]; intros h hd cur B d dS fuel HB HS Hap Hf;
    (destruct fuel as [|f]; [lia|]).
  - apply Seg_nil_inv in HS as [-> ->].
    exists hd, h, B. split; [reflexivity|]. split; [exact HB|].
    apply Grows_refl.
  - inversion HS as [|p' n ps dS' q Hn Hr]; subst.
    cbn [mergeComments].
    rewrite (bind_Return _ _ _ _ _ (load_at _ _ _ Hn)).
    assert (HpB : ~ In p B) by (apply Hap; now left).
    pose proof (apart_tail _ _ _ Hap) as Hap'.
    pose proof (Seg_length _ _ _ _ _ HB) as HlB.
    cbn [List.length] in Hf.
    destruct (insertCommentBlock_Rep h hd p n B S d dS' f HB Hn Hr ltac:(lia))
      as (hd1 & h1 & B1 & Hrun & Hrep & Hg).
    destruct (block n) as [ls| |key value raw comments] eqn:Eb;
      cbn [isCommentBlock OnLists.mergeComments];
      try (apply (IH h hd (next n) B d dS' f HB Hr Hap'); lia).
    rewrite (bind_Return _ _ _ _ _ Hrun).
    rewrite (bind_Return _ _ _ _ _
               (load_at _ _ _ (nth_error_Grows _ _ _ _ _ _ Hn Hg HpB))).
    destruct (Seg_Grows _ _ _ _ _ _ _ _ Hr Hg Hap') as [Hr1 Hap1].
    pose proof (Seg_length _ _ _ _ _ Hrep) as Hl1.
    pose proof (length_insertCommentBlock d (BComment ls) dS') as Hl2.
    destruct (IH h1 hd1 (next n) B1 _ dS' f Hrep Hr1 Hap1 ltac:(lia))
      as (hd' & h' & B' & Hrun' & Hrep' & Hg').
    exists hd', h', B'. split; [exact Hrun'|]. split; [exact Hrep'|].
    exact (Grows_trans _ _ _ _ _ _ Hg Hg').
Qed.

(** [mergeTwo] on a base and a source that share no node. *)
Lemma mergeTwo_Rep (h : Store) (base source : nat) (B S : list nat)
    (d dS : Document) (fuel : nat) :
  Rep h (Some base) B d -> Rep h (Some source) S dS -> apart S B ->
  2 * List.length B + 5 * List.length S + 3 < fuel ->
  exists hd' h' B',
    mergeTwo fuel base source h = Return hd' h'
    /\ Rep h' (Some hd') B' (OnLists.mergeTwo d dS)
    /\ Grows h B h' B'.
Proof.
  intros HB HS Hap Hf. unfold mergeTwo, OnLists.mergeTwo.
  destruct (mergeVariables_Rep S h base (Some source) B d dS fuel HB HS Hap
              ltac:(lia)) as (hd1 & h1 & B1 & Hrun & Hrep & Hg).
  rewrite (bind_Return _ _ _ _ _ Hrun).
  destruct (Seg_Grows _ _ _ _ _ _ _ _ HS Hg Hap) as [HS1 Hap1].
  pose proof (Seg_length _ _ _ _ _ Hrep) as Hl1.
  pose proof (Seg_length _ _ _ _ _ HB) as Hl0.
  pose proof (Seg_length _ _ _ _ _ HS) as Hl2.
  pose proof (length_mergeVariables dS d) as Hl3.
  destruct (mergeComments_Rep S h1 hd1 (Some source) B1 _ dS fuel Hrep HS1 Hap1
              ltac:(lia)) as (hd' & h' & B' & Hrun' & Hrep' & Hg').
  exists hd', h', B'. split; [exact Hrun'|]. split; [exact Hrep'|].
  exact (Grows_trans _ _ _ _ _ _ Hg Hg').
Qed.


(** ** Merging a list of sources *)

Lemma mergeAll_Rep (rest : list nat) :
  forall (ds : list Document) (h : Store) (base : nat) (B : list nat)
         (d : Document) (fuel : nat),
  Rep h (Some base) B d ->
  Forall2 (fun s dS => exists S, Rep h (Some s) S dS /\ apart S B) rest ds ->
  2 * List.length B + 5 * sizeOf ds + 3 < fuel ->
  exists r h' B',
    mergeAll fuel base rest h = Return r h'
    /\ Rep h' (Some r) B' (fold_left OnLists.mergeTwo ds d).
Proof.
  induction rest as [|s rest IH]; intros ds h base B d fuel HB Hall Hf;
    inversion Hall as [|s0 dS rest0 ds0 (S & HS & Hap) Hall']; subst.
  - exists base, h, B. split; [reflexivity | exact HB].
  - rewrite sizeOf_cons in Hf.
    pose proof (Seg_length _ _ _ _ _ HS) as HlS.
    destruct (mergeTwo_Rep h base s B S d dS fuel HB HS Hap ltac:(lia))
      as (hd1 & h1 & B1 & Hrun & Hrep & Hg).
    cbn [mergeAll fold_left]. rewrite (bind_Return _ _ _ _ _ Hrun).
    pose proof (Seg_length _ _ _ _ _ Hrep) as Hl1.
    pose proof (Seg_length _ _ _ _ _ HB) as Hl0.
    pose proof (length_mergeTwo d dS) as Hl2.
    apply (IH ds0 h1 hd1 B1 _ fuel Hrep); [|lia].
    eapply Forall2_impl; [|exact Hall'].
    intros a b (S' & HS' & Hap'). exists S'.
    exact (Seg_Grows _ _ _ _ _ _ _ _ HS' Hg Hap').
Qed.

(** ** Building and reading a chain *)

Lemma build_Rep (d : Document) :
  forall h : Store,
  exists r h',
    build d h = Return r h'
    /\ Rep h' r (seq (List.length h) (List.length d)) d
    /\ List.length h' = List.length h + List.length d
    /\ forall a, a < List.length h -> nth_error h' a = nth_error h a.
Proof.
  induction d as [|b rest IH]; intros h.
  - exists None, h. repeat split; [constructor | simpl; lia].
  - cbn [build]. rewrite (bind_Return _ _ _ _ _ (alloc_at _ _)).
    set (p := List.length h).
    destruct (IH (h ++ [mkNode b None])) as (r & h2 & Hrun & Hrep & Hlen & Hold).
    rewrite (bind_Return _ _ _ _ _ Hrun).
    rewrite length_app in Hlen, Hold, Hrep. simpl in Hlen, Hold, Hrep.
    assert (Hp : nth_error h2 p = Some (mkNode b None)).
    { rewrite Hold by (unfold p; lia). apply nth_error_alloc. }
    rewrite (bind_Return _ _ _ _ _ (setNext_at _ _ _ r Hp)).
    exists (Some p), (replaceAt p (mkNode b r) h2). repeat split.
    + cbn [List.length seq].
      apply (seg_cons _ p (mkNode b r) _ rest None).
      * apply nth_error_replaceAt_same. apply nth_error_Some. congruence.
      * apply (Seg_same h2).
        -- replace (S p) with (List.length h + 1) by (unfold p; lia).
           exact Hrep.
        -- intros a Ha. apply nth_error_replaceAt_other.
           apply in_seq in Ha. lia.
    + rewrite length_replaceAt. simpl. lia.
    + intros a Ha. rewrite nth_error_replaceAt_other by (unfold p; lia).
      rewrite Hold by lia. now apply nth_error_app1.
Qed.

Lemma read_Rep (h : Store) (p : option nat) (S : list nat) (d : Document) :
  Rep h p S d -> forall fuel, List.length S < fuel ->
  read fuel p h = Return d h.
Proof.
  unfold Rep. remember None as q eqn:Eq.
  induction 1 as [q|p n ps d q Hn _ IH]; intros fuel Hf; subst q;
    (destruct fuel as [|f]; [simpl in Hf; lia|]); [reflexivity|].
  cbn [read]. rewrite (bind_Return _ _ _ _ _ (load_at _ _ _ Hn)).
  rewrite (bind_Return _ _ _ _ _ (IH eq_refl f ltac:(simpl in Hf; lia))).
  reflexivity.
Qed.

Lemma Chains_same (ps : list (option nat)) :
  forall (ds : list Document) (h h' : Store) (lo : nat),
  Chains h lo ps ds ->
  (forall a, lo <= a < List.length h -> nth_error h' a = nth_error h a) ->
  Chains h' lo ps ds.
Proof.
  induction ps as [|p ps IH]; intros [|d ds] h h' lo H Hsame; try exact H.
  destruct H as (S & mid & HS & Hin & Hle & Hrest).
  exists S, mid. repeat split; try assumption; try (apply Hin; assumption).
  - apply (Seg_same h); [exact HS|]. intros a Ha. apply Hsame.
    pose proof (Seg_valid _ _ _ _ _ HS a Ha). specialize (Hin a Ha). lia.
  - apply (IH ds h); [exact Hrest|]. intros a Ha. apply Hsame. lia.
Qed.

Lemma buildAll_Chains (ds : list Document) :
  forall h : Store,
  exists ps h',
    buildAll ds h = Return ps h'
    /\ Chains h' (List.length h) ps ds
    /\ List.length h <= List.length h'
    /\ forall a, a < List.length h -> nth_error h' a = nth_error h a.
Proof.
  induction ds as [|d ds IH]; intros h.
  - exists [], h. repeat split; auto.
  - cbn [buildAll].
    destruct (build_Rep d h) as (r & h1 & Hrun & Hrep & Hlen & Hold).
    rewrite (bind_Return _ _ _ _ _ Hrun).
    destruct (IH h1) as (ps & h2 & Hrun2 & Hch & Hlen2 & Hold2).
    rewrite (bind_Return _ _ _ _ _ Hrun2).
    exists (r :: ps), h2. split; [reflexivity|]. split; [|split].
    + exists (seq (List.length h) (List.length d)), (List.length h1).
      split; [|split; [|split]].
      * apply (Seg_same h1); [exact Hrep|]. intros a Ha. apply Hold2.
        apply in_seq in Ha. lia.
      * intros a Ha. apply in_seq in Ha. lia.
      * lia.
      * exact Hch.
    + lia.
    + intros a Ha. rewrite Hold2 by lia. now apply Hold.
Qed.

Lemma Chains_valid (ps : list (option nat)) :
  forall (ds : list Document) (h : Store) (lo : nat) (B : list nat),
  Chains h lo ps ds -> (forall a, In a B -> a < lo) ->
  Forall2 (fun s dS => exists S, Rep h (Some s) S dS /\ apart S B)
          (validSources ps) (nonNull ds).
Proof.
  induction ps as [|p ps IH]; intros [|d ds] h lo B H HB; try contradiction;
    [constructor|].
  destruct H as (S & mid & HS & Hin & Hle & Hrest).
  assert (Hnext : Forall2 (fun s dS => exists S, Rep h (Some s) S dS /\ apart S B)
                    (validSources ps) (nonNull ds)).
  { apply (IH ds h mid B Hrest). intros a Ha. specialize (HB a Ha). lia. }
  destruct p as [s|].
  - destruct (Rep_Some_cons _ _ _ _ HS) as (n & ps' & d' & -> & -> & _).
    cbn [validSources]. unfold nonNull. cbn [filter isNull negb]. fold (nonNull ds).
    constructor; [|exact Hnext].
    exists (s :: ps'). split; [exact HS|].
    intros a Ha Hb. specialize (Hin a Ha). specialize (HB a Hb). lia.
  - apply Seg_None in HS as (_ & -> & _).
    cbn [validSources]. exact Hnext.
Qed.

Lemma mergeSources_Chains (ps : list (option nat)) :
  forall (ds : list Document) (h : Store) (lo : nat) (fuel : nat),
  Chains h lo ps ds -> 5 * sizeOf ds + 3 < fuel ->
  exists r h' B',
    mergeSources fuel ps h = Return r h'
    /\ Rep h' r B' (OnLists.mergeSources ds).
Proof.
  induction ps as [|p ps IH]; intros [|d ds] h lo fuel H Hf;
    try contradiction.
  - exists None, h, []. split; [reflexivity | constructor].
  - destruct H as (S & mid & HS & Hin & Hle & Hrest).
    rewrite sizeOf_cons in Hf.
    destruct p as [s|].
    + pose proof (Seg_length _ _ _ _ _ HS) as Hl.
      pose proof (Chains_valid ps ds h mid S Hrest
                    ltac:(intros a Ha; apply Hin; exact Ha)) as Hall.
      destruct (Rep_Some_cons _ _ _ _ HS) as (n & ps' & d' & ES & Ed & _).
      pose proof (sizeOf_nonNull ds) as Hsz.
      destruct (mergeAll_Rep (validSources ps) (nonNull ds) h s S d fuel HS Hall
                  ltac:(lia)) as (r & h' & B' & Hrun & Hrep).
      exists (Some r), h', B'. split.
      * unfold mergeSources. cbn [validSources].
        now rewrite (bind_Return _ _ _ _ _ Hrun).
      * unfold OnLists.mergeSources. rewrite Ed in *.
        cbn [filter isNull negb]. exact Hrep.
    + apply Seg_None in HS as (_ & -> & _).
      destruct (IH ds h mid fuel Hrest ltac:(simpl in Hf; lia))
        as (r & h' & B' & Hrun & Hrep).
      exists r, h', B'. split; [exact Hrun | exact Hrep].
Qed.

(** On chains that share no node the merger on linked nodes returns, given
    enough fuel, the document the merger on lists computes. *)
Theorem mergeFresh_refines (sources : list Document) (fuel : nat) :
  5 * sizeOf sources + 3 < fuel ->
  result (mergeFresh fuel sources []) = Some (OnLists.mergeSources sources).
Proof.
  intros Hf. unfold mergeFresh.
  destruct (buildAll_Chains sources []) as (ps & h1 & Hrun & Hch & _).
  rewrite (bind_Return _ _ _ _ _ Hrun).
  destruct (mergeSources_Chains ps sources h1 _ fuel Hch Hf)
    as (r & h2 & B' & Hrun2 & Hrep).
  rewrite (bind_Return _ _ _ _ _ Hrun2).
  pose proof (Seg_length _ _ _ _ _ Hrep) as Hl.
  pose proof (length_mergeSources sources) as Hl2.
  now rewrite (read_Rep h2 r B' _ Hrep fuel ltac:(lia)).
Qed.


End LinkedRefinement.

(** Two scenarios of the tests of the repository, run on linked nodes. *)
Example linked_merge_scenario :
  let a := parseEnvFile ("KEY1=value1" ++ Str.nl ++ "KEY2=value2") in
  let b := parseEnvFile ("KEY2=overridden" ++ Str.nl ++ "KEY3=value3") in
  Linked.result (Linked.mergeFresh 10 [a; b] []) = Some (mergeSources [a; b]).
Proof. vm_compute. reflexivity. Qed.

Example linked_merge_reordering :
  let a := parseEnvFile ("X=1" ++ Str.nl ++ "Y=2") in
  let b := parseEnvFile ("# c" ++ Str.nl ++ Str.nl ++ "A=1" ++ Str.nl ++ "Y=2"
                         ++ Str.nl ++ "B=3" ++ Str.nl ++ "X=4" ++ Str.nl
                         ++ Str.nl ++ "# end") in
  Linked.result (Linked.mergeFresh 20 [a; b; a] [])
  = Some (mergeSources [a; b; a]).
Proof. vm_compute. reflexivity. Qed.

(** C1, at an input where the code leaves it.  The source ends with a
    comment block that no variable follows.  Merging appends a copy of it
    to the base.  Merging the result again with documents equal to the
    first ones appends one more copy, so that the text changes; and the
    call of the design document on the very nodes of the first merge,
    [mergeSources(mergeSources(a, b), a, b)], never returns. *)
Theorem C1_remerge_is_not_idempotent :
  let a := parseEnvFile "K=1" in
  let b := parseEnvFile ("K=2" ++ Str.nl ++ Str.nl ++ "# c") in
  serializeToString (mergeSources [a; b]) = ("K=2" ++ Str.nl ++ "# c")%string
  /\ serializeToString (mergeSources [mergeSources [a; b]; a; b])
     = ("K=2" ++ Str.nl ++ "# c" ++ Str.nl ++ "# c")%string
  /\ serializeToString (mergeSources [mergeSources [a; b]; b])
     = ("K=2" ++ Str.nl ++ "# c" ++ Str.nl ++ "# c")%string
  /\ forall fuel, Linked.mergeTwice fuel a b [] = Linked.OutOfFuel.
Proof.
  intros a b. repeat split; try (vm_compute; reflexivity).
  apply LinkedFacts.mergeTwice_never_returns.
Qed.

(** * Further properties of the parser and the merger *)

(** ** What the parser makes of the variable lines *)

Lemma variablesOf_app (d1 d2 : Document) :
  variablesOf (d1 ++ d2) = variablesOf d1 ++ variablesOf d2.
Proof.
  induction d1 as [|b d1 IH]; [reflexivity|].
  destruct b; simpl; now rewrite IH.
Qed.

Lemma scanStep_variablesOf (line : Line) (rest : list Line) (st : ScanState) :
  variablesOf (emitted (scanStep line rest st))
  = variablesOf (emitted st) ++ variableLines [line].
Proof.
  destruct line as [content| |k v r]; cbn [scanStep variableLines];
    repeat match goal with
           | |- context [if ?c then _ else _] => destruct c
           end;
    cbn [emitted]; rewrite ?variablesOf_app; simpl; now rewrite ?app_nil_r.
Qed.

Lemma variableLines_cons (line : Line) (rest : list Line) :
  variableLines (line :: rest) = variableLines [line] ++ variableLines rest.
Proof. destruct line; reflexivity. Qed.

Lemma scan_variablesOf (lines : list Line) (st : ScanState) :
  variablesOf (finishScan (scan lines st))
  = variablesOf (emitted st) ++ variableLines lines.
Proof.
  revert st. induction lines as [|line rest IH]; intros st.
  - unfold finishScan. cbn [scan variableLines].
    destruct (negb _); rewrite ?variablesOf_app; simpl; now rewrite ?app_nil_r.
  - cbn [scan]. rewrite IH, scanStep_variablesOf, <- app_assoc.
    now rewrite <- variableLines_cons.
Qed.

(** X1. The parser loses no variable line and makes none up: the variables
    of a parsed document are the variable lines of the file, in the order
    of the file, each with the key, the decoded value and the raw text of
    its line. *)
Theorem X1_parser_keeps_the_variable_lines (content : string) :
  variablesOf (parseEnvFile content)
  = variableLines (map parseLine (Str.splitLines content)).
Proof.
  unfold parseEnvFile, parseBlocks. now rewrite scan_variablesOf.
Qed.

Lemma varKeys_In (d : Document) (k : string) :
  In k (varKeys d) <-> exists v r c, In (BVariable k v r c) d.
Proof.
  induction d as [|b d IH]; [simpl; split; [tauto | now intros (? & ? & ? & ?)]|].
  destruct b as [l| |k0 v0 r0 c0]; simpl; rewrite IH; split.
  - intros (v & r & c & H). eauto 6.
  - intros (v & r & c & [H|H]); [discriminate | eauto].
  - intros (v & r & c & H). eauto 6.
  - intros (v & r & c & [H|H]); [discriminate | eauto].
  - intros [<-|(v & r & c & H)]; eauto 7.
  - intros (v & r & c & [H|H]); [inversion H; auto | eauto 6].
Qed.

Lemma parsed_keys_are_identifiers (content k : string) :
  In k (varKeys (parseEnvFile content)) -> isIdentifier k = true.
Proof.
  intros H. apply varKeys_In in H as (v & r & c & H).
  unfold parseEnvFile, parseBlocks in H.
  apply scan_variables in H as [[]|H].
  destruct (parsed_variable_line _ _ _ _ H) as (c0 & k0 & -> & Hc & Hk).
  simpl. now rewrite Hc, Hk.
Qed.

(** ** The keys of a merge *)

Lemma mergeVariables_keeps_keys (source head : Document) (k : string) :
  In k (varKeys head) -> In k (varKeys (mergeVariables head source)).
Proof.
  revert head. induction source as [|x next IH]; intros head H; [exact H|].
  destruct x as [l| |k0 v r c]; cbn [mergeVariables]; try now apply IH.
  destruct (findVariableBlock head k0) as [i|].
  - apply IH. now rewrite varKeys_updateAt.
  - destruct (findIntersectionPoint next head) as [p|]; apply IH.
    + rewrite varKeys_insertBefore, in_app_iff. simpl.
      rewrite (varKeys_firstn_skipn head p), in_app_iff in H. tauto.
    + unfold appendToTail. rewrite varKeys_app, in_app_iff. now left.
Qed.

Lemma mergeVariables_adds_keys (source head : Document) (k : string) :
  In k (varKeys source) -> In k (varKeys (mergeVariables head source)).
Proof.
  revert head. induction source as [|x next IH]; intros head H; [destruct H|].
  destruct x as [l| |k0 v r c]; cbn [mergeVariables]; try now apply IH.
  simpl in H.
  destruct (findVariableBlock head k0) as [i|] eqn:E.
  - destruct H as [<-|H]; [|now apply IH].
    apply mergeVariables_keeps_keys. rewrite varKeys_updateAt.
    exact (findVariableBlock_Some_In _ _ _ E).
  - destruct (findIntersectionPoint next head) as [p|].
    + destruct H as [<-|H]; [|now apply IH].
      apply mergeVariables_keeps_keys.
      rewrite varKeys_insertBefore, in_app_iff. simpl. tauto.
    + destruct H as [<-|H]; [|now apply IH].
      apply mergeVariables_keeps_keys. unfold appendToTail.
      rewrite varKeys_app, in_app_iff. simpl. tauto.
Qed.

Lemma mergeTwo_keys (base source : Document) (k : string) :
  In k (varKeys (mergeTwo base source))
  <-> In k (varKeys base) \/ In k (varKeys source).
Proof.
  unfold mergeTwo. rewrite varKeys_mergeComments. split.
  - apply mergeVariables_keys.
  - intros [H|H];
      [now apply mergeVariables_keeps_keys | now apply mergeVariables_adds_keys].
Qed.

Lemma fold_mergeTwo_keys (rest : list Document) (first : Document) (k : string) :
  In k (varKeys (fold_left mergeTwo rest first))
  <-> In k (varKeys first) \/ exists d, In d rest /\ In k (varKeys d).
Proof.
  revert first. induction rest as [|d rest IH]; intros first.
  - simpl. split; [tauto | now intros [H|(d & [] & _)]].
  - cbn [fold_left]. rewrite IH, mergeTwo_keys. split.
    + intros [[H|H]|(d' & Hd & H)]; [tauto | right; exists d; simpl; tauto|].
      right. exists d'. simpl. tauto.
    + intros [H|(d' & [<-|Hd] & H)]; [tauto | tauto|]. right. eauto.
Qed.

Lemma mergeSources_keys (docs : list Document) (k : string) :
  In k (varKeys (mergeSources docs))
  <-> exists d, In d docs /\ In k (varKeys d).
Proof.
  unfold mergeSources.
  assert (Hf : (exists d, In d docs /\ In k (varKeys d))
               <-> exists d, In d (filter (fun s => negb (isNull s)) docs)
                             /\ In k (varKeys d)).
  { split; intros (d & Hd & Hk); exists d; (split; [|exact Hk]).
    - apply filter_In. split; [exact Hd|]. now destruct d.
    - now apply filter_In in Hd. }
  rewrite Hf. destruct (filter _ docs) as [|first rest].
  - simpl. split; [tauto | now intros (d & [] & _)].
  - rewrite fold_mergeTwo_keys. split.
    + intros [H|(d & Hd & H)]; [exists first | exists d]; simpl; tauto.
    + intros (d & [<-|Hd] & H); [tauto | eauto].
Qed.

(** X2. A merge defines the keys its sources define and no other: a key is
    among the variables of [mergeSources(...sources)] exactly when one of
    the sources has a variable with that key. *)
Theorem X2_merged_keys_are_the_keys_of_the_sources (docs : list Document)
    (k : string) :
  In k (varKeys (mergeSources docs))
  <-> exists d, In d docs /\ In k (varKeys d).
Proof. apply mergeSources_keys. Qed.

(** X3. Every key of a document made by parsing files and merging the
    results is a name of the variable pattern: a letter or an underscore
    followed by letters, digits and underscores. *)
Theorem X3_keys_are_identifiers (contents : list string) (k : string) :
  In k (varKeys (mergeSources (map parseEnvFile contents))) ->
  isIdentifier k = true.
Proof.
  intros H. apply mergeSources_keys in H as (d & Hd & Hk).
  apply in_map_iff in Hd as (content & <- & _).
  exact (parsed_keys_are_identifiers _ _ Hk).
Qed.

Lemma X3_witness :
  let contents := [("A=1" ++ Str.nl ++ "# c")%string; "_b2 = x"; "3D=no"] in
  In "_b2" (varKeys (mergeSources (map parseEnvFile contents)))
  /\ isIdentifier "_b2" = true.
Proof.
  intros contents.
  assert (H : In "_b2" (varKeys (mergeSources (map parseEnvFile contents))))
    by (vm_compute; tauto).
  split; [exact H | exact (X3_keys_are_identifiers contents "_b2" H)].
Defined.

Lemma mergeVariables_NoDup (source head : Document) :
  NoDup (varKeys head) -> NoDup (varKeys (mergeVariables head source)).
Proof.
  revert head. induction source as [|x next IH]; intros head H; [exact H|].
  destruct x as [l| |k0 v r c]; cbn [mergeVariables]; try now apply IH.
  destruct (findVariableBlock head k0) as [i|] eqn:E.
  - apply IH. now rewrite varKeys_updateAt.
  - apply findVariableBlock_None_iff in E.
    destruct (findIntersectionPoint next head) as [p|]; apply IH.
    + rewrite varKeys_insertBefore.
      apply (NoDup_Add (Add_app k0 _ _)).
      rewrite <- varKeys_app, firstn_skipn. auto.
    + unfold appendToTail. rewrite varKeys_app. simpl.
      apply (NoDup_Add (Add_app k0 _ _)). rewrite app_nil_r. auto.
Qed.

Lemma fold_mergeTwo_NoDup (rest : list Document) (first : Document) :
  NoDup (varKeys first) -> NoDup (varKeys (fold_left mergeTwo rest first)).
Proof.
  revert first. induction rest as [|d rest IH]; intros first H; [exact H|].
  cbn [fold_left]. apply IH. unfold mergeTwo.
  rewrite varKeys_mergeComments. now apply mergeVariables_NoDup.
Qed.

(** X4. A merge introduces no duplicate key: when the first source defines
    no key twice, the merge of the sources defines no key twice, whatever
    the later sources repeat. *)
Theorem X4_merge_adds_no_duplicate_key (first : Document)
    (rest : list Document) :
  first <> [] -> NoDup (varKeys first) ->
  NoDup (varKeys (mergeSources (first :: rest))).
Proof.
  intros Hne H. unfold mergeSources. cbn [filter].
  destruct first as [|b first']; [congruence|]. cbn [isNull negb].
  now apply fold_mergeTwo_NoDup.
Qed.

Lemma X4_witness :
  let first := parseEnvFile ("A=1" ++ Str.nl ++ "B=2") in
  let later := parseEnvFile ("C=3" ++ Str.nl ++ "A=4" ++ Str.nl ++ "C=5") in
  NoDup (varKeys (mergeSources [first; later; later])).
Proof.
  intros first later.
  apply (X4_merge_adds_no_duplicate_key first [later; later]).
  - vm_compute. discriminate.
  - vm_compute. repeat constructor; simpl; intuition discriminate.
Defined.

(** ** The blocks of a merge *)

Lemma countEmptyBlocks_app (d1 d2 : Document) :
  countEmptyBlocks (d1 ++ d2) = countEmptyBlocks d1 + countEmptyBlocks d2.
Proof. unfold countEmptyBlocks. now rewrite filter_app, length_app. Qed.

Lemma countEmptyBlocks_updateAt (head : Document) (i : nat) (v : string)
    (c : list string) :
  countEmptyBlocks (updateAt i (fun b => updateVariable b v c) head)
  = countEmptyBlocks head.
Proof.
  revert i. induction head as [|b next IH]; intros i; [now destruct i|].
  destruct i; cbn [updateAt].
  - now destruct b.
  - change (b :: updateAt i (fun b0 => updateVariable b0 v c) next)
      with ([b] ++ updateAt i (fun b0 => updateVariable b0 v c) next).
    change (b :: next) with ([b] ++ next).
    now rewrite !countEmptyBlocks_app, IH.
Qed.

Lemma countEmptyBlocks_insertBefore (head : Document) (p : nat) (b : Block) :
  isEmptyBlock b = false ->
  countEmptyBlocks (insertBefore head p b) = countEmptyBlocks head.
Proof.
  intros Hb. rewrite insertBefore_eq.
  change (b :: skipn p head) with ([b] ++ skipn p head).
  rewrite !countEmptyBlocks_app.
  rewrite <- (firstn_skipn p head) at 3. rewrite countEmptyBlocks_app.
  unfold countEmptyBlocks at 2. simpl. rewrite Hb. simpl. lia.
Qed.

Lemma countEmptyBlocks_appendToTail (head : Document) (b : Block) :
  isEmptyBlock b = false ->
  countEmptyBlocks (appendToTail head b) = countEmptyBlocks head.
Proof.
  intros Hb. unfold appendToTail. rewrite countEmptyBlocks_app.
  unfold countEmptyBlocks at 2. simpl. rewrite Hb. simpl. lia.
Qed.

Lemma countEmptyBlocks_mergeVariables (source head : Document) :
  countEmptyBlocks (mergeVariables head source) = countEmptyBlocks head.
Proof.
  revert head. induction source as [|x next IH]; intros head; [reflexivity|].
  destruct x as [l| |k v r c]; cbn [mergeVariables]; try apply IH.
  destruct (findVariableBlock head k) as [i|].
  - now rewrite IH, countEmptyBlocks_updateAt.
  - destruct (findIntersectionPoint next head) as [p|]; rewrite IH.
    + now apply countEmptyBlocks_insertBefore.
    + now apply countEmptyBlocks_appendToTail.
Qed.

Lemma countEmptyBlocks_insertCommentBlock (head : Document)
    (lines : list string) (next : Document) :
  countEmptyBlocks (insertCommentBlock head (BComment lines) next)
  = countEmptyBlocks head.
Proof.
  assert (Ht : countEmptyBlocks
                 (if hasCommentBlockBefore head 0 (BComment lines) then head
                  else appendToTail head (BComment lines))
               = countEmptyBlocks head).
  { destruct (hasCommentBlockBefore head 0 (BComment lines)); [reflexivity|].
    now apply countEmptyBlocks_appendToTail. }
  unfold insertCommentBlock.
  destruct (findNextVariable next) as [[l| |k v r c]|]; try exact Ht.
  destruct (findVariableBlock head k) as [i|]; [|exact Ht].
  destruct (negb (hasCommentBlockBefore head i (BComment lines)));
    [|reflexivity].
  now apply countEmptyBlocks_insertBefore.
Qed.

Lemma countEmptyBlocks_mergeComments (source head : Document) :
  countEmptyBlocks (mergeComments head source) = countEmptyBlocks head.
Proof.
  revert head. induction source as [|x next IH]; intros head; [reflexivity|].
  destruct x as [l| |k v r c]; cbn [mergeComments]; try apply IH.
  now rewrite IH, countEmptyBlocks_insertCommentBlock.
Qed.

Lemma mergeVariables_size (source head : Document) :
  List.length head <= List.length (mergeVariables head source)
  /\ List.length (mergeVariables head source)
     <= List.length head + List.length (filter isVariableBlock source).
Proof.
  revert head. induction source as [|x next IH]; intros head; [simpl; lia|].
  destruct x as [l| |k v r c]; cbn [mergeVariables filter isVariableBlock];
    try apply IH.
  cbn [List.length].
  destruct (findVariableBlock head k) as [i|];
    [|destruct (findIntersectionPoint next head) as [p|]];
    match goal with
    | |- context [mergeVariables ?h next] => specialize (IH h)
    end.
  - rewrite length_updateAt in IH. lia.
  - rewrite length_insertBefore in IH. lia.
  - unfold appendToTail in *. rewrite length_app in IH.
    cbn [List.length] in IH. lia.
Qed.

Lemma insertCommentBlock_size (head : Document) (comment : Block)
    (next : Document) :
  List.length head <= List.length (insertCommentBlock head comment next).
Proof.
  assert (Ht : List.length head
               <= List.length (if hasCommentBlockBefore head 0 comment
                               then head else appendToTail head comment)).
  { destruct (hasCommentBlockBefore head 0 comment); [lia|].
    unfold appendToTail. rewrite length_app. lia. }
  unfold insertCommentBlock.
  destruct (findNextVariable next) as [[l| |k v r c]|]; try exact Ht.
  destruct (findVariableBlock head k) as [i|]; [|exact Ht].
  destruct (negb (hasCommentBlockBefore head i comment)); [|lia].
  rewrite length_insertBefore. lia.
Qed.

Lemma mergeComments_size (source head : Document) :
  List.length head <= List.length (mergeComments head source)
  /\ List.length (mergeComments head source)
     <= List.length head + List.length (filter isCommentBlock source).
Proof.
  revert head. induction source as [|x next IH]; intros head; [simpl; lia|].
  destruct x as [l| |k v r c]; cbn [mergeComments filter isCommentBlock];
    try apply IH.
  cbn [List.length].
  match goal with
  | |- context [mergeComments ?h next] => specialize (IH h)
  end.
  pose proof (insertCommentBlock_size head (BComment l) next).
  pose proof (length_insertCommentBlock head (BComment l) next). lia.
Qed.

Lemma solidBlocks_length (d : Document) :
  List.length (solidBlocks d)
  = List.length (filter isVariableBlock d)
    + List.length (filter isCommentBlock d).
Proof.
  unfold solidBlocks. induction d as [|b d IH]; [reflexivity|].
  destruct b; simpl; lia.
Qed.

(** X5. [mergeTwo] removes no block of the base and copies no empty block
    of the source: the merge has as many empty blocks as the base, at
    least as many blocks as the base, and at most one more block for each
    variable and each comment block of the source. *)
Theorem X5_merge_copies_no_empty_block (base source : Document) :
  countEmptyBlocks (mergeTwo base source) = countEmptyBlocks base
  /\ List.length base <= List.length (mergeTwo base source)
  /\ List.length (mergeTwo base source)
     <= List.length base + List.length (solidBlocks source).
Proof.
  unfold mergeTwo.
  rewrite countEmptyBlocks_mergeComments, countEmptyBlocks_mergeVariables.
  pose proof (mergeVariables_size source base).
  pose proof (mergeComments_size source (mergeVariables base source)).
  rewrite solidBlocks_length. lia.
Qed.

Lemma In_updateAt (head : Document) (i : nat) (f : Block -> Block) (b : Block) :
  In b head -> f b = b -> In b (updateAt i f head).
Proof.
  revert i. induction head as [|x next IH]; intros i H Hf; [destruct H|].
  destruct i; cbn [updateAt].
  - destruct H as [->|H]; [left; exact Hf | now right].
  - destruct H as [->|H]; [now left | right; now apply IH].
Qed.

Lemma In_insertBefore (head : Document) (p : nat) (x b : Block) :
  In b head -> In b (insertBefore head p x).
Proof.
  intros H. rewrite insertBefore_eq.
  rewrite <- (firstn_skipn p head), in_app_iff in H.
  rewrite in_app_iff. simpl. tauto.
Qed.

Lemma In_insertBefore_new (head : Document) (p : nat) (x : Block) :
  In x (insertBefore head p x).
Proof. rewrite insertBefore_eq, in_app_iff. simpl. tauto. Qed.

Lemma mergeVariables_keeps_comment_blocks (source head : Document)
    (lines : list string) :
  In (BComment lines) head -> In (BComment lines) (mergeVariables head source).
Proof.
  revert head. induction source as [|x next IH]; intros head H; [exact H|].
  destruct x as [l| |k v r c]; cbn [mergeVariables]; try now apply IH.
  destruct (findVariableBlock head k) as [i|].
  - apply IH. now apply In_updateAt.
  - destruct (findIntersectionPoint next head) as [p|]; apply IH.
    + now apply In_insertBefore.
    + unfold appendToTail. apply in_or_app. now left.
Qed.

Lemma insertCommentBlock_keeps (head : Document) (comment : Block)
    (next : Document) (b : Block) :
  In b head -> In b (insertCommentBlock head comment next).
Proof.
  intros H.
  assert (Ht : In b (if hasCommentBlockBefore head 0 comment then head
                     else appendToTail head comment)).
  { destruct (hasCommentBlockBefore head 0 comment); [exact H|].
    unfold appendToTail. apply in_or_app. now left. }
  unfold insertCommentBlock.
  destruct (findNextVariable next) as [[l| |k v r c]|]; try exact Ht.
  destruct (findVariableBlock head k) as [i|]; [|exact Ht].
  destruct (negb (hasCommentBlockBefore head i comment)); [|exact H].
  now apply In_insertBefore.
Qed.

Lemma mergeComments_keeps (source head : Document) (b : Block) :
  In b head -> In b (mergeComments head source).
Proof.
  revert head. induction source as [|x next IH]; intros head H; [exact H|].
  destruct x as [l| |k v r c]; cbn [mergeComments]; try now apply IH.
  apply IH. now apply insertCommentBlock_keeps.
Qed.

Lemma skipEmptyBlocks_In (before : list Block) (b : Block) :
  skipEmptyBlocks before = Some b -> In b before.
Proof.
  induction before as [|x before IH]; [discriminate|].
  destruct x; simpl; intros H; try (injection H as <-; now left).
  right. now apply IH.
Qed.

Lemma eqbLines_refl (lines : list string) : eqbLines lines lines = true.
Proof. unfold eqbLines. apply String.eqb_refl. Qed.

(** When [hasCommentBlockBefore] holds, an equal comment block is in the
    chain. *)
Lemma hasCommentBlockBefore_found (head : Document) (point : nat)
    (lines : list string) :
  hasCommentBlockBefore head point (BComment lines) = true ->
  exists lines', In (BComment lines') head
                 /\ eqbLines lines' lines = true.
Proof.
  unfold hasCommentBlockBefore.
  destruct (Nat.ltb point (List.length head)); [|discriminate].
  destruct (skipEmptyBlocks (rev (firstn point head))) as [b|] eqn:E;
    [|discriminate].
  apply skipEmptyBlocks_In, in_rev in E.
  assert (Hin : In b head).
  { rewrite <- (firstn_skipn point head). apply in_or_app. now left. }
  destruct b as [l| |k v r c]; try discriminate.
  intros H. exists l. split; [exact Hin | exact H].
Qed.

Lemma insertCommentBlock_places (head : Document) (lines : list string)
    (next : Document) :
  exists lines',
    In (BComment lines') (insertCommentBlock head (BComment lines) next)
    /\ eqbLines lines' lines = true.
Proof.
  assert (Ht : exists lines',
             In (BComment lines')
                (if hasCommentBlockBefore head 0 (BComment lines) then head
                 else appendToTail head (BComment lines))
             /\ eqbLines lines' lines = true).
  { destruct (hasCommentBlockBefore head 0 (BComment lines)) eqn:E.
    - now apply (hasCommentBlockBefore_found head 0).
    - exists lines. split; [|apply eqbLines_refl].
      unfold appendToTail. apply in_or_app. right. now left. }
  unfold insertCommentBlock.
  destruct (findNextVariable next) as [[l| |k v r c]|]; try exact Ht.
  destruct (findVariableBlock head k) as [i|]; [|exact Ht].
  destruct (hasCommentBlockBefore head i (BComment lines)) eqn:E; cbn [negb].
  - now apply (hasCommentBlockBefore_found head i).
  - exists lines. split; [apply In_insertBefore_new | apply eqbLines_refl].
Qed.

Lemma mergeComments_places (source head : Document) (lines : list string) :
  In (BComment lines) source ->
  exists lines', In (BComment lines') (mergeComments head source)
                 /\ eqbLines lines' lines = true.
Proof.
  revert head. induction source as [|x next IH]; intros head H; [destruct H|].
  destruct H as [->|H].
  - cbn [mergeComments].
    destruct (insertCommentBlock_places head lines next) as (l' & Hin & He).
    exists l'. split; [now apply mergeComments_keeps | exact He].
  - destruct x as [l| |k v r c]; cbn [mergeComments]; now apply IH.
Qed.

(** X6. [mergeTwo] drops no comment block.  A comment block of the base is
    in the merge as it is.  For a comment block of the source the merge
    holds a comment block that [areBlocksEqual] takes for the same: the
    lines, joined and trimmed, are the same text. *)
Theorem X6_merge_keeps_comment_blocks (base source : Document)
    (lines : list string) :
  (In (BComment lines) base -> In (BComment lines) (mergeTwo base source))
  /\ (In (BComment lines) source ->
      exists lines',
        In (BComment lines') (mergeTwo base source)
        /\ areBlocksEqual (Some (BComment lines')) (Some (BComment lines))
           = true).
Proof.
  unfold mergeTwo. split; intros H.
  - now apply mergeComments_keeps, mergeVariables_keeps_comment_blocks.
  - now apply mergeComments_places.
Qed.

Lemma X6_witness :
  let base := parseEnvFile ("# top" ++ Str.nl ++ Str.nl ++ "A=1") in
  let source := parseEnvFile ("A=2" ++ Str.nl ++ Str.nl ++ "# end") in
  In (BComment ["# top"]) (mergeTwo base source)
  /\ exists lines',
       In (BComment lines') (mergeTwo base source)
       /\ areBlocksEqual (Some (BComment lines')) (Some (BComment ["# end"]))
          = true.
Proof.
  intros base source.
  destruct (X6_merge_keeps_comment_blocks base source ["# top"]) as [H1 _].
  destruct (X6_merge_keeps_comment_blocks base source ["# end"]) as [_ H2].
  split.
  - apply H1. vm_compute. tauto.
  - apply H2. vm_compute. tauto.
Defined.

(** X7. A merge leaves alone what the later sources do not define: a
    variable of the first source whose key no later source has is in the
    merge with the value, the raw text and the comments it has in the
    first source. *)
Theorem X7_merge_leaves_other_variables (first : Document)
    (rest : list Document) (key : string) :
  first <> [] ->
  (forall d, In d rest -> findVariable d key = None) ->
  findVariable (mergeSources (first :: rest)) key = findVariable first key.
Proof.
  intros Hne H. unfold mergeSources. cbn [filter].
  destruct first as [|b first']; [congruence|]. cbn [isNull negb].
  apply fold_mergeTwo_untouched. intros p Hp.
  apply filter_In in Hp as [Hp _]. now apply H.
Qed.

Lemma X7_witness :
  let first := parseEnvFile ("# about A" ++ Str.nl ++ "A = 1" ++ Str.nl ++ "B=2") in
  let later := parseEnvFile ("B=3" ++ Str.nl ++ "C=4") in
  findVariable (mergeSources [first; later]) "A"
  = Some (BVariable "A" "1" "A = 1" ["# about A"]).
Proof.
  intros first later.
  rewrite (X7_merge_leaves_other_variables first [later] "A").
  - vm_compute. reflexivity.
  - vm_compute. discriminate.
  - intros d [<-|[]]. vm_compute. reflexivity.
Defined.

(** ** The grouping pass at a variable line *)

Lemma isNextNonEmptyComment_cut (l : list Line) (k v r : string)
    (post : list Line) :
  isNextNonEmptyComment (l ++ LVariable k v r :: post)
  = isNextNonEmptyComment (l ++ [LVariable k v r]).
Proof.
  induction l as [|x l IH]; [reflexivity|]. destruct x; simpl; auto.
Qed.

Lemma scanUpTo_cut (pre : list Line) (k v r : string) (post : list Line)
    (st : ScanState) :
  scanUpTo pre (LVariable k v r :: post) st
  = scanUpTo pre [LVariable k v r] st.
Proof.
  revert st. induction pre as [|l pre IH]; intros st; [reflexivity|].
  cbn [scanUpTo]. rewrite IH. f_equal.
  apply scanStep_lookahead, isNextNonEmptyComment_cut.
Qed.

Lemma scanStep_withPrefix (blocks : list Block) (line : Line)
    (rest : list Line) (st : ScanState) :
  scanStep line rest (withPrefix blocks st)
  = withPrefix blocks (scanStep line rest st).
Proof.
  unfold withPrefix. destruct line as [content| |k v r];
    cbn [scanStep pendingComments hasEmptyLineAfterComment emitted
         consecutiveEmptyLines];
    repeat match goal with
           | |- context [if ?c then _ else _] => destruct c
           end;
    cbn [pendingComments hasEmptyLineAfterComment emitted
         consecutiveEmptyLines];
    now rewrite ?app_assoc.
Qed.

Lemma scan_withPrefix (blocks : list Block) (lines : list Line)
    (st : ScanState) :
  scan lines (withPrefix blocks st) = withPrefix blocks (scan lines st).
Proof.
  revert st. induction lines as [|l lines IH]; intros st; [reflexivity|].
  cbn [scan]. now rewrite scanStep_withPrefix, IH.
Qed.

Lemma finishScan_withPrefix (blocks : list Block) (st : ScanState) :
  finishScan (withPrefix blocks st) = blocks ++ finishScan st.
Proof.
  unfold finishScan, withPrefix. cbn [pendingComments emitted].
  destruct (negb _); now rewrite ?app_assoc.
Qed.

Lemma withPrefix_init (blocks : list Block) :
  withPrefix blocks initScan = mkScan blocks [] 0 false.
Proof. unfold withPrefix, initScan. cbn. now rewrite app_nil_r. Qed.

Lemma scan_comment_lines (cs : list string) (rest : list Line) :
  forall (blocks : list Block) (pending : list string),
  scanUpTo (map LComment cs) rest (mkScan blocks pending 0 false)
  = mkScan blocks (pending ++ cs) 0 false.
Proof.
  induction cs as [|c cs IH]; intros blocks pending;
    [simpl; now rewrite app_nil_r|].
  cbn [map scanUpTo scanStep pendingComments hasEmptyLineAfterComment emitted].
  rewrite andb_false_r, IH, <- app_assoc. reflexivity.
Qed.

Lemma variableComments_app (d1 d2 : Document) :
  variableComments (d1 ++ d2) = variableComments d1 ++ variableComments d2.
Proof.
  induction d1 as [|b d IH]; [reflexivity|].
  destruct b; simpl; now rewrite IH.
Qed.

Lemma length_eqb_nil {A} (l : list A) :
  Nat.eqb (List.length l) 0 = match l with [] => true | _ => false end.
Proof. now destruct l. Qed.

(** One step of the scan keeps what it knows of the comment lines above,
    and a variable line takes them as its comments. *)
Lemma scanStep_groupInv (line : Line) (rest : list Line) (st : ScanState)
    (run : list string) :
  groupInv st run (line :: rest) ->
  match line with
  | LComment content =>
      variableComments (emitted (scanStep line rest st))
      = variableComments (emitted st)
      /\ groupInv (scanStep line rest st) (run ++ [content]) rest
  | LEmpty =>
      variableComments (emitted (scanStep line rest st))
      = variableComments (emitted st)
      /\ groupInv (scanStep line rest st) [] rest
  | LVariable _ _ _ =>
      variableComments (emitted (scanStep line rest st))
      = variableComments (emitted st) ++ [run]
      /\ groupInv (scanStep line rest st) [] rest
  end.
Proof.
  unfold groupInv. destruct st as [blocks pending count flag].
  cbn [consecutiveEmptyLines pendingComments hasEmptyLineAfterComment].
  intros [(-> & <- & ->)|(Hc & -> & [(-> & ->)|(Hp & -> & Hl)])].
  - destruct line as [content| |k v r];
      cbn [scanStep emitted consecutiveEmptyLines pendingComments
           hasEmptyLineAfterComment].
    + rewrite andb_false_r.
      cbn [emitted consecutiveEmptyLines pendingComments
           hasEmptyLineAfterComment]. auto.
    + rewrite length_eqb_nil. destruct pending as [|p ps]; cbn [negb Nat.eqb].
      * cbn [emitted consecutiveEmptyLines pendingComments
             hasEmptyLineAfterComment].
        rewrite variableComments_app. cbn [variableComments].
        rewrite app_nil_r. split; [reflexivity|]. right. auto.
      * destruct (isNextNonEmptyComment rest) eqn:El;
          cbn [emitted consecutiveEmptyLines pendingComments
               hasEmptyLineAfterComment];
          rewrite ?variableComments_app; cbn [variableComments];
          rewrite ?app_nil_r; (split; [reflexivity|]); right;
          (split; [discriminate|]); (split; [reflexivity|]).
        -- right. repeat split. now destruct ps.
        -- left. auto.
    + cbn [emitted consecutiveEmptyLines pendingComments
           hasEmptyLineAfterComment].
      rewrite variableComments_app. cbn [variableComments]. auto.
  - destruct line as [content| |k v r];
      cbn [scanStep emitted consecutiveEmptyLines pendingComments
           hasEmptyLineAfterComment List.length Nat.eqb negb andb].
    + cbn [app]. auto.
    + destruct count as [|count]; [congruence|]. cbn [Nat.eqb].
      cbn [emitted consecutiveEmptyLines pendingComments
           hasEmptyLineAfterComment].
      split; [reflexivity|]. right. auto.
    + rewrite variableComments_app. cbn [variableComments]. auto.
  - destruct line as [content| |k v r]; [| |discriminate];
      cbn [scanStep emitted consecutiveEmptyLines pendingComments
           hasEmptyLineAfterComment].
    + rewrite length_eqb_nil. destruct pending as [|p ps]; [congruence|].
      cbn [negb andb emitted consecutiveEmptyLines pendingComments
           hasEmptyLineAfterComment].
      rewrite variableComments_app. cbn [variableComments app].
      rewrite app_nil_r. auto.
    + rewrite length_eqb_nil. destruct pending as [|p ps]; [congruence|].
      cbn [negb]. cbn [isNextNonEmptyComment] in Hl. rewrite Hl.
      destruct count as [|count]; [congruence|]. cbn [Nat.eqb].
      cbn [emitted consecutiveEmptyLines pendingComments
           hasEmptyLineAfterComment].
      split; [reflexivity|]. right.
      split; [discriminate|]. split; [reflexivity|]. right. auto.
Qed.

Lemma scan_variableComments (lines : list Line) :
  forall (st : ScanState) (run : list string),
  groupInv st run lines ->
  variableComments (emitted (scan lines st))
  = variableComments (emitted st) ++ commentsAbove lines run.
Proof.
  induction lines as [|line rest IH]; intros st run H.
  - simpl. now rewrite app_nil_r.
  - pose proof (scanStep_groupInv line rest st run H) as Hs.
    cbn [scan]. destruct line as [content| |k v r]; destruct Hs as [He Hi];
      rewrite (IH _ _ Hi), He; cbn [commentsAbove];
      rewrite <- ?app_assoc; reflexivity.
Qed.

Lemma variableComments_finishScan (st : ScanState) :
  variableComments (finishScan st) = variableComments (emitted st).
Proof.
  unfold finishScan. destruct (negb _); [|reflexivity].
  rewrite variableComments_app. simpl. now rewrite app_nil_r.
Qed.

Lemma withoutMarkers_app (s t : list string) :
  withoutMarkers (s ++ t) = withoutMarkers s ++ withoutMarkers t.
Proof. apply filter_app. Qed.

Lemma scanStep_solid_texts (line : Line) (rest : list Line) (st : ScanState) :
  withoutMarkers (heldTexts (scanStep line rest st))
  = withoutMarkers (heldTexts st)
    ++ withoutMarkers (commentLines [line]).
Proof.
  unfold heldTexts, scanStep.
  destruct line as [content| |key value raw]; cbn [commentLines].
  - destruct (negb _ && _);
      cbn [emitted pendingComments];
      rewrite ?commentTexts_app; cbn [commentTexts];
      rewrite ?app_nil_r, !withoutMarkers_app, <- ?app_assoc; reflexivity.
  - destruct (negb _);
      [destruct (isNextNonEmptyComment rest)|];
      destruct (Nat.eqb (consecutiveEmptyLines st) 0);
      cbn [emitted pendingComments];
      rewrite ?commentTexts_app; cbn [commentTexts];
      rewrite ?app_nil_r, ?withoutMarkers_app; cbn [withoutMarkers filter];
      rewrite ?app_nil_r; reflexivity.
  - cbn [emitted pendingComments]. rewrite commentTexts_app.
    cbn [commentTexts]. now rewrite !app_nil_r.
Qed.

Lemma scan_solid_texts (lines : list Line) (st : ScanState) :
  withoutMarkers (heldTexts (scan lines st))
  = withoutMarkers (heldTexts st) ++ withoutMarkers (commentLines lines).
Proof.
  revert st. induction lines as [|line rest IH]; intros st.
  - simpl. now rewrite app_nil_r.
  - cbn [scan]. rewrite IH, scanStep_solid_texts, <- app_assoc.
    f_equal. rewrite <- withoutMarkers_app. f_equal.
    destruct line; reflexivity.
Qed.

(** X8. A variable line closes what comes before it, and owns the
    comment lines right above it.  The lines of a file up to a variable
    line are grouped the same whatever follows, and the lines after it as
    if the file began there.  In every file the comments of each variable
    are the comment lines that stand right above its line, with no blank
    line between, whatever comes before them; and every comment line of
    the file is held once, in the order of the file, by a comment block
    or by a variable, so that the comment lines right above a variable
    line make no block of their own. *)
Theorem X8_variable_line_closes_a_group (pre post lines : list Line)
    (k v r : string) (cs : list string) :
  parseBlocks (pre ++ LVariable k v r :: post)
  = parseBlocks (pre ++ [LVariable k v r]) ++ parseBlocks post
  /\ parseBlocks (map LComment cs ++ [LVariable k v r])
     = [BVariable k v r cs]
  /\ variableComments (parseBlocks lines) = commentsAbove lines []
  /\ withoutMarkers (commentTexts (parseBlocks lines))
     = withoutMarkers (commentLines lines).
Proof.
  unfold parseBlocks. split; [|split; [|split]].
  - rewrite !scan_app, scanUpTo_cut.
    set (st := scanUpTo pre [LVariable k v r] initScan).
    cbn [scan scanStep].
    rewrite <- (withPrefix_init
                  (emitted st ++ [BVariable k v r (pendingComments st)])).
    rewrite scan_withPrefix, !finishScan_withPrefix.
    now rewrite app_nil_r.
  - rewrite scan_app. unfold initScan. rewrite scan_comment_lines.
    reflexivity.
  - rewrite variableComments_finishScan, scan_variableComments with (run := []).
    + reflexivity.
    + left. repeat split.
  - rewrite finishScan_texts, scan_solid_texts. reflexivity.
Qed.

Example comment_after_blank_line_belongs_to_the_variable :
  parseBlocks [LVariable "A" "1" "A=1"; LEmpty; LComment "# c";
               LVariable "K" "1" "K=1"]
  = [BVariable "A" "1" "A=1" []; BEmpty; BVariable "K" "1" "K=1" ["# c"]].
Proof. reflexivity. Qed.

(** ** The written form of a value *)

Lemma all_of_includes (p : ascii -> bool) (s : string) :
  (forall a, p a = false -> Str.includes a s = false) -> Str.all p s = true.
Proof.
  induction s as [|a t IH]; intros H; [reflexivity|].
  simpl. apply andb_true_iff. split.
  - destruct (p a) eqn:E; [reflexivity|].
    specialize (H a E). simpl in H. now rewrite ascii_eqb_refl in H.
  - apply IH. intros b Hb. specialize (H b Hb). simpl in H.
    now apply orb_false_iff in H.
Qed.

Lemma isControl_cases (a : ascii) :
  isControl a = true -> a = Char.lf \/ a = Char.cr \/ a = Char.tab.
Proof.
  unfold isControl. intros H.
  apply orb_true_iff in H as [H|H]; [apply orb_true_iff in H as [H|H]|];
    apply Ascii.eqb_eq in H; auto.
Qed.

(** X9. The written form of a value is one line of plain text: whatever
    the value, [quoteValue] gives a text with no line feed, no carriage
    return and no tab (where the value has one, the text is quoted and
    has the escape sequence). *)
Theorem X9_quoted_value_has_no_control_character (value : string) (c : ascii) :
  isControl c = true -> Str.includes c (quoteValue value) = false.
Proof.
  intros Hc.
  apply (all_includes c (fun a => negb (isControl a)));
    [now rewrite Hc|].
  unfold quoteValue. destruct (needsQuotes value) eqn:E.
  - rewrite escapeValue_tokens, !all_app. cbn [Str.dq Str.singleton Str.all].
    rewrite all_flatMap; [reflexivity|].
    intros a. each_ascii a; reflexivity.
  - unfold needsQuotes in E. repeat (apply orb_false_iff in E as [E ?]).
    apply all_of_includes. intros a Ha. apply negb_false_iff in Ha.
    destruct (isControl_cases a Ha) as [->|[->| ->]]; assumption.
Qed.

Lemma X9_witness :
  Str.includes Char.lf
    (quoteValue (String "a" (String Char.lf (String Char.tab "b")))) = false.
Proof.
  apply X9_quoted_value_has_no_control_character. reflexivity.
Defined.

(** ** The merger in place *)

(** X10. On chains that share no node the merger of the source, which
    splices and overwrites the nodes of the base in place, returns the
    document the merger on lists computes: with fuel for its loops above
    five times the number of blocks of the sources plus three, it ends,
    follows no reference outside the store, and the chain it returns
    reads as [mergeSources] of the documents. *)
Theorem X10_in_place_merge_agrees_with_lists (sources : list Document)
    (fuel : nat) :
  5 * sizeOf sources + 3 < fuel ->
  Linked.result (Linked.mergeFresh fuel sources []) = Some (mergeSources sources).
Proof. apply LinkedRefinement.mergeFresh_refines. Qed.

Lemma X10_witness :
  let a := parseEnvFile ("# top" ++ Str.nl ++ "X=1" ++ Str.nl ++ "Y=2") in
  let b := parseEnvFile ("Z=0" ++ Str.nl ++ "Y=3" ++ Str.nl ++ Str.nl ++ "# end") in
  Linked.result (Linked.mergeFresh 40 [a; b] []) = Some (mergeSources [a; b]).
Proof.
  intros a b. apply (X10_in_place_merge_agrees_with_lists [a; b] 40).
  vm_compute. lia.
Defined.

(** ** Equal blocks *)

Lemma eqbLines_sym (a b : list string) : eqbLines a b = eqbLines b a.
Proof. unfold eqbLines. apply String.eqb_sym. Qed.

Lemma eqbLines_trans (a b c : list string) :
  eqbLines a b = true -> eqbLines b c = true -> eqbLines a c = true.
Proof.
  unfold eqbLines. rewrite !String.eqb_eq. congruence.
Qed.

(** X11. [areBlocksEqual] is an equivalence on blocks that never holds of
    [null]: it is symmetric and transitive, it holds of every block and
    itself, and it is false as soon as one side is [null] (also when both
    are).  Two variables are equal when their keys and values are,
    whatever their raw texts and comments. *)
Theorem X11_areBlocksEqual_is_an_equivalence :
  (forall a b, areBlocksEqual a b = areBlocksEqual b a)
  /\ (forall a b c, areBlocksEqual a b = true -> areBlocksEqual b c = true ->
                    areBlocksEqual a c = true)
  /\ (forall b, areBlocksEqual (Some b) (Some b) = true)
  /\ (forall a, areBlocksEqual None a = false)
  /\ (forall k v r r' c c',
        areBlocksEqual (Some (BVariable k v r c)) (Some (BVariable k v r' c'))
        = true).
Proof.
  split; [|split; [|split; [|split]]].
  - intros [[la| |ka va ra ca]|] [[lb| |kb vb rb cb]|]; try reflexivity.
    + apply eqbLines_sym.
    + cbn [areBlocksEqual]. now rewrite (String.eqb_sym ka), (String.eqb_sym va).
  - intros [[la| |ka va ra ca]|] [[lb| |kb vb rb cb]|] [[lc| |kc vc rc cc]|];
      cbn [areBlocksEqual]; try discriminate; try reflexivity.
    + apply eqbLines_trans.
    + rewrite !andb_true_iff, !String.eqb_eq. intuition congruence.
  - intros [l| |k v r c]; cbn [areBlocksEqual];
      [apply eqbLines_refl | reflexivity |].
    now rewrite !String.eqb_refl.
  - reflexivity.
  - intros. cbn [areBlocksEqual]. now rewrite !String.eqb_refl.
Qed.

Lemma X11_witness :
  areBlocksEqual (Some (BComment ["# a"; ""])) (Some (BComment ["# a"])) = true.
Proof.
  destruct X11_areBlocksEqual_is_an_equivalence as (_ & Htrans & _).
  apply (Htrans _ (Some (BComment [" # a"]))); reflexivity.
Defined.

(** ** Reading a line *)

(** X12. A value between single quotes is taken as it is written: the
    decoding gives the text between the quotes, with no escape sequence
    read and no blank trimmed; and a line that assigns such a value to a
    name is a variable with that text for value. *)
Theorem X12_single_quoted_value_is_literal :
  (forall e : string,
      unquoteValue (String Char.squote (e ++ Str.singleton Char.squote)) = e)
  /\ (forall (c : ascii) (k w1 w2 e : string),
        Char.isIdentStart c = true ->
        Str.all Char.isIdentChar k = true ->
        Str.all Char.isSpace w1 = true ->
        Str.all Char.isSpace w2 = true ->
        Str.all (fun a => negb (Char.isLineTerminator a)) e = true ->
        let line := (String c k ++ w1 ++ "=" ++ w2
                     ++ String Char.squote (e ++ Str.singleton Char.squote))%string in
        parseLine line = LVariable (String c k) e line).
Proof.
  assert (Hq : forall e : string,
             unquoteValue (String Char.squote (e ++ Str.singleton Char.squote))
             = e).
  { intros e. unfold unquoteValue.
    change (String Char.squote (e ++ Str.singleton Char.squote))
      with (String Char.squote e ++ Str.singleton Char.squote)%string.
    rewrite trim_wrapped by reflexivity.
    rewrite endsWith_snoc. cbn [append Str.startsWith andb].
    rewrite ascii_eqb_refl. cbn [Str.slice1]. apply dropLast_snoc. }
  split; [exact Hq|].
  intros c k w1 w2 e Hc Hk Hw1 Hw2 He line.
  assert (Hv : Str.all (fun a => negb (Char.isLineTerminator a))
                 (String Char.squote (e ++ Str.singleton Char.squote)) = true).
  { cbn [Str.all]. rewrite all_app, He. reflexivity. }
  pose proof (matchVariable_complete c k w1 w2 _ Hc Hk Hw1 Hw2 Hv) as Hm.
  cbn [Str.dropWhile] in Hm.
  change (Char.isSpace Char.squote) with false in Hm. cbv iota in Hm.
  fold line in Hm. rewrite (parseLine_variable _ _ _ Hm). now rewrite Hq.
Qed.

Lemma X12_witness :
  parseLine "PATTERN = 'a\nb # c '"
  = LVariable "PATTERN" "a\nb # c " "PATTERN = 'a\nb # c '".
Proof.
  destruct X12_single_quoted_value_is_literal as [_ H].
  exact (H "P"%char "ATTERN" " " " " "a\nb # c " eq_refl eq_refl eq_refl
           eq_refl eq_refl).
Defined.

Lemma space_not_identStart (c : ascii) :
  Char.isSpace c = true -> Char.isIdentStart c = false.
Proof.
  intros H. pose proof (space_not_identChar c H) as Hc.
  destruct (Char.isIdentStart c) eqn:E; [|reflexivity].
  now rewrite (identStart_identChar c E) in Hc.
Qed.

(** X13. An assignment that is indented is no variable.  The variable
    pattern is matched against the line as it is, not against the
    trimmed line: a line that begins with a blank and is not blank is a
    comment line, kept with its text, whatever follows the blank. *)
Theorem X13_indented_line_is_a_comment (c : ascii) (t : string) :
  Char.isSpace c = true ->
  Str.isEmpty (Str.trim (String c t)) = false ->
  parseLine (String c t) = LComment (String c t).
Proof.
  intros Hc Hne. unfold parseLine. rewrite Hne.
  destruct (Str.startsWith Char.hash (Str.trim (String c t))); [reflexivity|].
  unfold matchVariable. now rewrite (space_not_identStart c Hc).
Qed.

Lemma X13_witness :
  parseLine "  KEY=value" = LComment "  KEY=value".
Proof.
  apply (X13_indented_line_is_a_comment " "%char " KEY=value"); reflexivity.
Defined.

(** ** A source with keys of its own *)

Lemma findIntersectionPoint_disjoint (next head : Document) :
  (forall k, In k (varKeys next) -> ~ In k (varKeys head)) ->
  findIntersectionPoint next head = None.
Proof.
  induction next as [|x next IH]; intros H; [reflexivity|].
  destruct x as [l| |k v r c]; cbn [findIntersectionPoint]; try now apply IH.
  rewrite (proj2 (findVariableBlock_None_iff head k))
    by (apply H; now left).
  apply IH. intros k' Hk'. apply H. now right.
Qed.

Lemma mergeVariables_disjoint (source head : Document) :
  NoDup (varKeys source) ->
  (forall k, In k (varKeys source) -> ~ In k (varKeys head)) ->
  varKeys (mergeVariables head source) = varKeys head ++ varKeys source.
Proof.
  revert head. induction source as [|x next IH]; intros head Hnd Hdis;
    [simpl; now rewrite app_nil_r|].
  destruct x as [l| |k v r c]; cbn [mergeVariables varKeys];
    try (now apply IH).
  cbn [varKeys] in Hnd, Hdis. inversion_clear Hnd as [|? ? Hk Hnd'].
  rewrite (proj2 (findVariableBlock_None_iff head k))
    by (apply Hdis; now left).
  rewrite findIntersectionPoint_disjoint
    by (intros k' Hk'; apply Hdis; now right).
  rewrite IH; [|exact Hnd'|].
  - unfold appendToTail. rewrite varKeys_app. simpl.
    now rewrite <- app_assoc.
  - intros k' Hk'. unfold appendToTail. rewrite varKeys_app, in_app_iff.
    simpl. intros [H|[<-|[]]]; [|exact (Hk Hk')].
    exact (Hdis k' (or_intror Hk') H).
Qed.

(** X14. A source that shares no key with the base is added at the end:
    when the source defines no key twice and none that the base defines,
    the variables of the merge are those of the base followed by those
    of the source, in the order of the source. *)
Theorem X14_disjoint_source_is_appended (base source : Document) :
  NoDup (varKeys source) ->
  (forall k, In k (varKeys source) -> ~ In k (varKeys base)) ->
  varKeys (mergeTwo base source) = varKeys base ++ varKeys source.
Proof.
  intros Hnd Hdis. unfold mergeTwo. rewrite varKeys_mergeComments.
  now apply mergeVariables_disjoint.
Qed.

Lemma X14_witness :
  let base := parseEnvFile ("A=1" ++ Str.nl ++ "B=2") in
  let source := parseEnvFile ("# more" ++ Str.nl ++ "D=4" ++ Str.nl ++ "C=3") in
  varKeys (mergeTwo base source) = ["A"; "B"; "D"; "C"].
Proof.
  intros base source.
  rewrite (X14_disjoint_source_is_appended base source).
  - reflexivity.
  - vm_compute. repeat constructor; simpl; intuition discriminate.
  - vm_compute. intros k [<-|[<-|[]]] [H|[H|[]]]; discriminate.
Defined.

(** * Backups and the command *)

Module CliFacts.
Import Fs Backup Cli.

Lemma bind_Ok {A B} (m : M A) (k : A -> M B) (fs fs' : Files) (a : A) :
  m fs = Ok a fs' -> bind m k fs = k a fs'.
Proof. unfold bind. now intros ->. Qed.

Lemma bind_Throw {A B} (m : M A) (k : A -> M B) (fs fs' : Files) (e : Error) :
  m fs = Throw e fs' -> bind m k fs = Throw e fs'.
Proof. unfold bind. now intros ->. Qed.

Lemma put_same (path : string) (content : option string) (fs : Files) :
  put path content fs path = content.
Proof. unfold put. now rewrite String.eqb_refl. Qed.

Lemma put_other (path p : string) (content : option string) (fs : Files) :
  p <> path -> put path content fs p = fs p.
Proof. unfold put. intros H. apply String.eqb_neq in H. now rewrite H. Qed.

(** ** The name of a backup *)

Lemma digit_not (c a : ascii) :
  isDigit c = false -> isDigit a = true -> Ascii.eqb a c = false.
Proof.
  intros Hc Ha. destruct (Ascii.eqb_spec a c) as [->|]; congruence.
Qed.

Lemma dropDashesAndColons_app (s t : string) :
  dropDashesAndColons (s ++ t)
  = (dropDashesAndColons s ++ dropDashesAndColons t)%string.
Proof.
  induction s as [|a s IH]; [reflexivity|]. simpl.
  destruct (Ascii.eqb a "-" || Ascii.eqb a ":"); simpl; now rewrite IH.
Qed.

Lemma dropDashesAndColons_digits (s : string) :
  Str.all isDigit s = true -> dropDashesAndColons s = s.
Proof.
  induction s as [|a s IH]; [reflexivity|]. simpl. intros H.
  apply andb_true_iff in H as [Ha Hs].
  rewrite (digit_not "-" a), (digit_not ":" a) by (reflexivity || assumption).
  simpl. now rewrite IH.
Qed.

Lemma isMillisTail_length (s : string) :
  isMillisTail s = true -> String.length s = 5.
Proof.
  destruct s as [|a [|b [|c [|d [|e [|f s]]]]]]; try discriminate.
  reflexivity.
Qed.

Lemma length_append (s t : string) :
  String.length (s ++ t) = String.length s + String.length t.
Proof. induction s as [|a s IH]; simpl; [reflexivity | now rewrite IH]. Qed.

Lemma dropMillisTail_app (x tail : string) :
  isMillisTail tail = true -> dropMillisTail (x ++ tail) = x.
Proof.
  intros Ht. induction x as [|a x IH].
  - destruct tail as [|a t]; [discriminate|]. cbn [append dropMillisTail].
    now rewrite Ht.
  - cbn [append dropMillisTail].
    destruct (isMillisTail (String a (x ++ tail))) eqn:E; [|now rewrite IH].
    apply isMillisTail_length in E. apply isMillisTail_length in Ht.
    simpl in E. rewrite length_append in E. lia.
Qed.

Lemma dropFirst_app (c : ascii) (x y : string) :
  Str.includes c x = false -> dropFirst c (x ++ String c y) = (x ++ y)%string.
Proof.
  induction x as [|a x IH]; simpl.
  - intros _. now rewrite ascii_eqb_refl.
  - intros H. apply orb_false_iff in H as [Ha Hx]. rewrite Ha.
    now rewrite IH.
Qed.

Lemma digits_app (s t : string) :
  Str.all isDigit s = true -> Str.all isDigit t = true ->
  Str.all isDigit (s ++ t) = true.
Proof. intros Hs Ht. now rewrite all_app, Hs, Ht. Qed.

(** X15. The name of a backup ends with the fourteen digits of the time.
    For a time that [toISOString] writes with a year of four digits, as
    [YYYY-MM-DDTHH:mm:ss.sssZ], the timestamp of [generateBackupPath] is
    the digits of the year, month, day, hour, minute and second, and the
    backup is the file [.env-backup-envmerge-] followed by those digits
    in the directory of the original. *)
Theorem X15_backup_name_has_the_digits_of_the_time (host : Host)
    (originalPath Y Mo D h mi s ms : string) :
  Str.all isDigit (Y ++ Mo ++ D ++ h ++ mi ++ s)%string = true ->
  isMillisTail ("." ++ ms ++ "Z")%string = true ->
  String.length Y = 4 -> String.length Mo = 2 -> String.length D = 2 ->
  String.length h = 2 -> String.length mi = 2 -> String.length s = 2 ->
  let iso := (Y ++ "-" ++ Mo ++ "-" ++ D ++ "T" ++ h ++ ":" ++ mi ++ ":" ++ s
              ++ "." ++ ms ++ "Z")%string in
  timestamp iso = (Y ++ Mo ++ D ++ h ++ mi ++ s)%string
  /\ String.length (timestamp iso) = 14
  /\ Str.all isDigit (timestamp iso) = true
  /\ generateBackupPath host iso originalPath
     = join host (dirname host originalPath)
         (".env-backup-envmerge-" ++ Y ++ Mo ++ D ++ h ++ mi ++ s)%string.
Proof.
  intros Hd Hms LY LMo LD Lh Lmi Ls iso.
  pose proof Hd as Hall.
  rewrite !all_app in Hd.
  repeat (apply andb_true_iff in Hd as [? Hd]).
  assert (Ht : timestamp iso = (Y ++ Mo ++ D ++ h ++ mi ++ s)%string).
  { unfold timestamp, iso.
    cbn [append].
    rewrite dropDashesAndColons_app.
    change (dropDashesAndColons (String "-" ?x)) with (dropDashesAndColons x).
    rewrite dropDashesAndColons_app.
    change (dropDashesAndColons (String "-" ?x)) with (dropDashesAndColons x).
    rewrite dropDashesAndColons_app.
    change (dropDashesAndColons (String "T" ?x))
      with (String "T" (dropDashesAndColons x)).
    rewrite dropDashesAndColons_app.
    change (dropDashesAndColons (String ":" ?x)) with (dropDashesAndColons x).
    rewrite dropDashesAndColons_app.
    change (dropDashesAndColons (String ":" ?x)) with (dropDashesAndColons x).
    rewrite dropDashesAndColons_app.
    rewrite (dropDashesAndColons_digits Y), (dropDashesAndColons_digits Mo),
      (dropDashesAndColons_digits D), (dropDashesAndColons_digits h),
      (dropDashesAndColons_digits mi), (dropDashesAndColons_digits s)
      by assumption.
    assert (Hkeep : dropDashesAndColons (String "." (ms ++ "Z"))
                    = String "." (ms ++ "Z")).
    { destruct ms as [|a [|b [|c [|x ms']]]];
        cbn [append isMillisTail] in Hms; try discriminate;
        [|destruct ms'; discriminate].
      repeat (apply andb_true_iff in Hms as [Hms ?]).
      cbn [append dropDashesAndColons Ascii.eqb Bool.eqb orb].
      now rewrite !(digit_not "-"), !(digit_not ":")
        by (reflexivity || assumption). }
    rewrite Hkeep.
    assert (Hshape : (Y ++ Mo ++ D ++ String "T"
                        (h ++ mi ++ s ++ String "." (ms ++ "Z")))%string
                     = ((Y ++ Mo ++ D ++ String "T" (h ++ mi ++ s))
                        ++ String "." (ms ++ "Z"))%string).
    { repeat first [rewrite append_assoc | progress cbn [append]]. reflexivity. }
    rewrite Hshape, dropMillisTail_app by exact Hms.
    assert (Hshape' : (Y ++ Mo ++ D ++ String "T" (h ++ mi ++ s))%string
                      = ((Y ++ Mo ++ D) ++ String "T" (h ++ mi ++ s))%string).
    { now rewrite !append_assoc. }
    rewrite Hshape', dropFirst_app; [now rewrite !append_assoc|].
    apply (all_includes "T" isDigit); [reflexivity|].
    auto using digits_app. }
  rewrite Ht. repeat split.
  - rewrite !length_append. lia.
  - exact Hall.
  - unfold generateBackupPath. now rewrite Ht.
Qed.

Lemma X15_witness :
  let host := mkHost (fun _ => "/srv/app") (fun a b => a ++ "/" ++ b)%string
                     (fun _ => true) in
  generateBackupPath host "2026-11-03T08:51:07.123Z" "/srv/app/.env"
  = "/srv/app/.env-backup-envmerge-20261103085107".
Proof.
  intros host.
  destruct (X15_backup_name_has_the_digits_of_the_time host "/srv/app/.env"
              "2026" "11" "03" "08" "51" "07" "123"
              eq_refl eq_refl eq_refl eq_refl eq_refl eq_refl eq_refl eq_refl)
    as (_ & _ & _ & H).
  exact H.
Defined.

(** ** Making and removing a backup *)

Lemma createBackup_run (host : Host) (iso filePath : string) (fs : Files) :
  createBackup host iso filePath fs
  = match fs filePath with
    | Some content =>
        Ok (Some (generateBackupPath host iso filePath))
           (put (generateBackupPath host iso filePath) (Some content) fs)
    | None => Ok None fs
    end.
Proof.
  unfold createBackup, bind, existsSync, copyFileSync, ret.
  destruct (fs filePath) as [content|] eqn:E; cbn [negb]; [|reflexivity].
  now rewrite E.
Qed.

Lemma areFilesIdentical_run (filePath1 filePath2 : string) (fs : Files) :
  areFilesIdentical filePath1 filePath2 fs
  = Ok match fs filePath1, fs filePath2 with
       | Some content1, Some content2 => String.eqb content1 content2
       | _, _ => false
       end fs.
Proof.
  unfold areFilesIdentical, bind, existsSync, readFileSync, ret.
  destruct (fs filePath1) as [c1|] eqn:E1, (fs filePath2) as [c2|] eqn:E2;
    cbn [negb orb]; try reflexivity.
  now rewrite E1, E2.
Qed.

Lemma cleanupRedundantBackup_run (originalPath backupPath : string)
    (fs : Files) :
  cleanupRedundantBackup originalPath backupPath fs
  = match fs backupPath, fs originalPath with
    | Some saved, Some content =>
        if String.eqb content saved then Ok true (put backupPath None fs)
        else Ok false fs
    | _, _ => Ok false fs
    end.
Proof.
  unfold cleanupRedundantBackup.
  unfold bind at 1. unfold existsSync at 1.
  destruct (fs backupPath) as [saved|] eqn:Eb; cbn [negb]; [|reflexivity].
  rewrite (bind_Ok _ _ _ _ _ (areFilesIdentical_run _ _ _)), Eb.
  destruct (fs originalPath) as [content|]; [|reflexivity].
  destruct (String.eqb content saved); [|reflexivity].
  unfold bind, unlinkSync, ret. now rewrite Eb.
Qed.




(** ** A run of [mergeEnvFiles] *)

Lemma checkSources_present (sourcePaths : list string) (fs : Files) :
  (forall p, In p sourcePaths -> fs p <> None) ->
  checkSources sourcePaths fs = Ok tt fs.
Proof.
  induction sourcePaths as [|p rest IH]; intros H; [reflexivity|].
  cbn [checkSources]. unfold bind at 1. unfold existsSync.
  destruct (fs p) eqn:E; [|now elim (H p (or_introl eq_refl))].
  cbn [negb]. apply IH. intros q Hq. apply H. now right.
Qed.

Lemma checkSources_missing (sourcePaths : list string) (fs : Files) :
  (exists p, In p sourcePaths /\ fs p = None) ->
  exists p, In p sourcePaths /\ fs p = None
            /\ checkSources sourcePaths fs = Throw (SourceNotFound p) fs.
Proof.
  induction sourcePaths as [|p rest IH]; intros (q & Hq & Hn); [destruct Hq|].
  cbn [checkSources]. unfold bind at 1. unfold existsSync.
  destruct (fs p) eqn:E; cbn [negb].
  - destruct IH as (p' & Hp' & Hn' & Hrun).
    + destruct Hq as [->|Hq]; [congruence | eauto].
    + exists p'. repeat split; [now right | exact Hn' | exact Hrun].
  - exists p. repeat split; [now left | exact E].
Qed.

Lemma readSources_run (sourcePaths : list string) (contents : list string)
    (fs : Files) :
  Forall2 (fun p content => fs p = Some content) sourcePaths contents ->
  readSources sourcePaths fs = Ok (map parseEnvFile contents) fs.
Proof.
  induction 1 as [|p content ps cs Hp _ IH]; [reflexivity|].
  cbn [readSources map]. unfold bind at 1. unfold readFileSync. rewrite Hp.
  now rewrite (bind_Ok _ _ _ _ _ IH).
Qed.

Lemma Forall2_present (sourcePaths : list string) (contents : list string)
    (fs : Files) :
  Forall2 (fun p content => fs p = Some content) sourcePaths contents ->
  forall p, In p sourcePaths -> fs p <> None.
Proof.
  induction 1 as [|p content ps cs Hp _ IH]; intros q Hq; [destruct Hq|].
  destruct Hq as [<-|Hq]; [congruence | now apply IH].
Qed.

(** The run, once the sources are read. *)
Lemma mergeEnvFiles_run (host : Host) (iso : string) (answers : Answers)
    (sourcePaths contents : list string) (destinationPath : string)
    (options : MergeOptions) (fs : Files) :
  Forall2 (fun p content => fs p = Some content) sourcePaths contents ->
  let merged := mergeSources (map parseEnvFile contents) in
  let destination :=
    match fs destinationPath with
    | Some content => parseEnvFile content
    | None => []
    end in
  let backupPath := generateBackupPath host iso destinationPath in
  let fs1 :=
    match fs destinationPath with
    | Some content =>
        if backup options then put backupPath (Some content) fs else fs
    | None => fs
    end in
  mergeEnvFiles host iso answers sourcePaths destinationPath options fs
  = match resolveConflicts options answers merged destination 0 with
    | None => Throw Cancelled fs1
    | Some (resolved, conflictCount) =>
        let fs2 :=
          put destinationPath
              (Some (serializeToString (mergeSources [merged; resolved])))
              fs1 in
        match fs destinationPath with
        | Some _ =>
            if backup options && truthy backupPath
            then (cleanupRedundantBackup destinationPath backupPath ;;;
                  ret conflictCount) fs2
            else Ok conflictCount fs2
        | None =>
            if inDirectory host destinationPath then Ok conflictCount fs2
            else Throw (NoSuchDirectory destinationPath) fs
        end
    end.
Proof.
  intros Hsrc merged destination backupPath fs1.
  unfold mergeEnvFiles.
  rewrite (bind_Ok _ _ _ _ _
             (checkSources_present _ _ (Forall2_present _ _ _ Hsrc))).
  rewrite (bind_Ok _ _ _ _ _ (readSources_run _ _ _ Hsrc)).
  fold merged.
  unfold bind at 1. unfold existsSync at 1.
  destruct (fs destinationPath) as [content|] eqn:Ed.
  - unfold bind at 1. unfold bind at 1. unfold readFileSync at 1.
    rewrite Ed. unfold ret at 1. rewrite andb_true_r.
    destruct (backup options) eqn:Eb.
    + assert (Hb : createBackup host iso destinationPath fs
                   = Ok (Some backupPath) fs1)
        by now rewrite createBackup_run, Ed.
      rewrite (bind_Ok _ _ _ _ _ Hb).
      subst destination fs1. cbn [andb].
      destruct (resolveConflicts options answers merged (parseEnvFile content) 0)
        as [[resolved n]|]; [|reflexivity].
      assert (Hd1 : put backupPath (Some content) fs destinationPath
                    = Some content).
      { unfold put. now destruct (String.eqb destinationPath backupPath). }
      unfold writeEnvFile. unfold bind at 1. unfold writeFileSync at 1.
      rewrite Hd1. destruct (truthy backupPath); reflexivity.
    + unfold bind at 1. unfold ret at 1. subst destination fs1. cbn [andb].
      destruct (resolveConflicts options answers merged (parseEnvFile content) 0)
        as [[resolved n]|]; [|reflexivity].
      unfold writeEnvFile. unfold bind at 1. unfold writeFileSync at 1.
      now rewrite Ed.
  - unfold bind at 1. unfold ret at 1. rewrite andb_false_r.
    unfold bind at 1. unfold ret at 1. subst destination fs1.
    cbn [resolveConflicts]. cbv zeta.
    unfold writeEnvFile. unfold bind at 1. unfold writeFileSync at 1.
    rewrite Ed. now destruct (inDirectory host destinationPath).
Qed.



Lemma sources_present_or_missing (sourcePaths : list string) (fs : Files) :
  (exists contents,
      Forall2 (fun p content => fs p = Some content) sourcePaths contents)
  \/ (exists p, In p sourcePaths /\ fs p = None).
Proof.
  induction sourcePaths as [|p rest IH]; [left; exists []; constructor|].
  destruct (fs p) as [content|] eqn:E.
  - destruct IH as [(contents & H)|(q & Hq & Hn)].
    + left. exists (content :: contents). now constructor.
    + right. exists q. split; [now right | exact Hn].
  - right. exists p. split; [now left | exact E].
Qed.

Lemma cleanupRedundantBackup_frame (originalPath backupPath : string)
    (fs : Files) :
  exists removed fs',
    cleanupRedundantBackup originalPath backupPath fs = Ok removed fs'
    /\ (forall p, p <> backupPath -> fs' p = fs p)
    /\ (fs' backupPath = fs backupPath
        \/ exists content, fs backupPath = Some content
                           /\ fs originalPath = Some content).
Proof.
  rewrite cleanupRedundantBackup_run.
  destruct (fs backupPath) as [saved|] eqn:Eb; [|exists false, fs; auto].
  destruct (fs originalPath) as [content|] eqn:Eo; [|exists false, fs; auto].
  destruct (String.eqb_spec content saved) as [->|Hne];
    [|exists false, fs; auto].
  exists true, (put backupPath None fs). repeat split.
  - intros p Hp. now apply put_other.
  - right. eauto.
Qed.

Lemma mergeEnvFiles_frame (host : Host) (iso : string) (answers : Answers)
    (sourcePaths : list string) (destinationPath : string)
    (options : MergeOptions) (fs : Files) :
  let backupPath := generateBackupPath host iso destinationPath in
  let r := mergeEnvFiles host iso answers sourcePaths destinationPath
                         options fs in
  (forall p, p <> destinationPath -> p <> backupPath -> filesOf r p = fs p)
  /\ (forall e fs', r = Throw e fs' -> backupPath <> destinationPath ->
                    fs' destinationPath = fs destinationPath).
Proof.
  intros backupPath r. subst r.
  destruct (sources_present_or_missing sourcePaths fs)
    as [(contents & Hsrc)|Hmiss].
  2:{ destruct (checkSources_missing _ _ Hmiss) as (q & _ & _ & Hrun).
      unfold mergeEnvFiles. rewrite (bind_Throw _ _ _ _ _ Hrun).
      split; [reflexivity|]. now intros e fs' [= _ <-]. }
  rewrite (mergeEnvFiles_run host iso answers sourcePaths contents
             destinationPath options fs Hsrc).
  fold backupPath.
  set (fs1 := match fs destinationPath with
              | Some content =>
                  if backup options then put backupPath (Some content) fs
                  else fs
              | None => fs
              end).
  assert (H1 : forall p, p <> backupPath -> fs1 p = fs p).
  { intros p Hp. unfold fs1.
    destruct (fs destinationPath); [|reflexivity].
    destruct (backup options); [now apply put_other | reflexivity]. }
  destruct (resolveConflicts options answers _ _ 0) as [[resolved n]|].
  2:{ split; [intros p _ Hp; now apply H1|].
      intros e fs' [= _ <-] Hne. apply H1. congruence. }
  cbv zeta.
  set (fs2 := put destinationPath _ fs1).
  assert (H2 : forall p, p <> destinationPath -> p <> backupPath ->
                         fs2 p = fs p).
  { intros p Hd Hb. unfold fs2. rewrite put_other by exact Hd. now apply H1. }
  destruct (cleanupRedundantBackup_frame destinationPath backupPath fs2)
    as (removed & fs3 & Hrun & H3 & _).
  destruct (fs destinationPath) eqn:Ed;
    [destruct (backup options && truthy backupPath)
    |destruct (inDirectory host destinationPath)];
    rewrite ?(bind_Ok _ _ _ _ _ Hrun); unfold ret;
    try (split; [|discriminate]; cbn [filesOf]; intros p Hd Hb;
         rewrite ?H3 by exact Hb; now apply H2).
  split; [reflexivity|]. intros e fs' [= _ <-] _. exact Ed.
Qed.

(** X19. The command changes no file but the destination, which is its
    last file argument, and the backup of it; and when it ends on an
    error (too few arguments, an unknown strategy, a source that is not
    there, a prompt that is cancelled, a new destination in a directory
    that is not there) the destination is as it was,
    provided the backup has another name than the destination. *)
Theorem X19_command_writes_only_destination_and_backup (host : Host)
    (iso : string) (answers : Answers) (files : list string)
    (backupOption : bool) (strategyOption : string) (fs : Files) :
  let destination := last files EmptyString in
  let backupPath := generateBackupPath host iso destination in
  let r := action host iso answers files backupOption strategyOption fs in
  (forall p, p <> destination -> p <> backupPath -> filesOf r p = fs p)
  /\ (forall e fs', r = Throw e fs' -> backupPath <> destination ->
                    fs' destination = fs destination).
Proof.
  intros destination backupPath r. subst r. unfold action.
  destruct (Nat.ltb (List.length files) 2).
  { split; [reflexivity|]. now intros e fs' [= _ <-]. }
  destruct (validStrategy strategyOption) as [strategy|].
  2:{ split; [reflexivity|]. now intros e fs' [= _ <-]. }
  apply mergeEnvFiles_frame.
Qed.

Lemma X19_witness :
  let host := mkHost (fun _ => "d") (fun a b => a ++ "/" ++ b)%string
                     (fun _ => true) in
  let fs : Files :=
    fun p => if String.eqb p "a.env" then Some "A=1"
             else if String.eqb p ".env" then Some "A=2" else None in
  let r := action host "2026-11-03T08:51:07.123Z" (fun _ => None)
                  ["a.env"; ".env"] true "interactive" fs in
  filesOf r ".env" = Some "A=2" /\ filesOf r "a.env" = Some "A=1".
Proof.
  intros host fs r.
  destruct (X19_command_writes_only_destination_and_backup host
              "2026-11-03T08:51:07.123Z" (fun _ => None) ["a.env"; ".env"]
              true "interactive" fs) as [H1 H2].
  split.
  - apply (H2 Cancelled); [vm_compute; reflexivity | vm_compute; discriminate].
  - apply H1; vm_compute; discriminate.
Defined.

(** ** What a run writes *)

Lemma parseEnvFile_not_null (content : string) : parseEnvFile content <> [].
Proof.
  unfold parseEnvFile. apply parseBlocks_not_null.
  pose proof (splitLines_not_nil content).
  destruct (Str.splitLines content); simpl; congruence.
Qed.

Lemma mergeTwo_not_null (base source : Document) :
  base <> [] -> mergeTwo base source <> [].
Proof.
  intros H E. unfold mergeTwo in E.
  pose proof (mergeVariables_size source base) as [H1 _].
  pose proof (mergeComments_size source (mergeVariables base source)) as [H2 _].
  rewrite E in H2. destruct base; [congruence | simpl in *; lia].
Qed.

Lemma fold_mergeTwo_not_null (rest : list Document) (first : Document) :
  first <> [] -> fold_left mergeTwo rest first <> [].
Proof.
  revert first. induction rest as [|d rest IH]; intros first H; [exact H|].
  cbn [fold_left]. apply IH. now apply mergeTwo_not_null.
Qed.

Lemma mergeSources_parsed_not_null (contents : list string) :
  contents <> [] -> mergeSources (map parseEnvFile contents) <> [].
Proof.
  destruct contents as [|c cs]; [congruence|]. intros _.
  unfold mergeSources. cbn [map filter].
  pose proof (parseEnvFile_not_null c) as Hc.
  destruct (parseEnvFile c) as [|b d] eqn:E; [congruence|].
  cbn [isNull negb]. apply fold_mergeTwo_not_null. discriminate.
Qed.

Lemma mergeSources_pair (merged destination : Document) :
  merged <> [] -> destination <> [] ->
  mergeSources [merged; destination] = mergeTwo merged destination.
Proof.
  intros Hm Hd. unfold mergeSources. cbn [filter].
  destruct merged; [congruence|]. destruct destination; [congruence|].
  reflexivity.
Qed.


Lemma lastVariable_In (d : Document) (key : string) (b : Block) :
  lastVariable d key = Some b -> In b d.
Proof.
  induction d as [|x next IH]; [discriminate|]. cbn [lastVariable].
  destruct (lastVariable next key) as [b'|].
  - intros [= <-]. right. now apply IH.
  - destruct (hasKey key x); [|discriminate]. intros [= <-]. now left.
Qed.

Lemma resolveConflicts_keep (options : MergeOptions) (answers : Answers)
    (merged : Document) :
  strategy options = Keep ->
  forall (current : Document) (n : nat),
  exists m, resolveConflicts options answers merged current n
            = Some (current, m).
Proof.
  intros Hk. induction current as [|b next IH]; intros n; [now exists n|].
  destruct b as [l| |k v r c]; cbn [resolveConflicts].
  - destruct (IH n) as (m & ->). now exists m.
  - destruct (IH n) as (m & ->). now exists m.
  - unfold resolution. rewrite Hk.
    destruct (findVariable merged k) as [[l'| |k' v' r' c']|];
      try (destruct (IH n) as (m & ->); now exists m).
    destruct (String.eqb v' v).
    + destruct (IH n) as (m & ->). now exists m.
    + destruct (IH (S n)) as (m & ->). now exists m.
Qed.

Lemma andThen_Some (b : Block) (r : option (Document * nat))
    (resolved : Document) (m : nat) :
  andThen b r = Some (resolved, m) ->
  exists rest, resolved = b :: rest /\ r = Some (rest, m).
Proof.
  destruct r as [[d n]|]; [|discriminate]. intros [= <- <-]. eauto.
Qed.

Lemma resolveConflicts_keys (options : MergeOptions) (answers : Answers)
    (merged : Document) :
  forall (current : Document) (n : nat) (resolved : Document) (m : nat),
  resolveConflicts options answers merged current n = Some (resolved, m) ->
  varKeys resolved = varKeys current.
Proof.
  induction current as [|b next IH]; intros n resolved m H.
  - now injection H as <- <-.
  - destruct b as [l| |k v r c]; cbn [resolveConflicts] in H.
    + apply andThen_Some in H as (rest & -> & H). simpl. eauto.
    + apply andThen_Some in H as (rest & -> & H). simpl. eauto.
    + destruct (findVariable merged k) as [[l'| |k' v' r' c']|];
        try (apply andThen_Some in H as (rest & -> & H); simpl; f_equal; eauto).
      destruct (String.eqb v' v);
        [apply andThen_Some in H as (rest & -> & H); simpl; f_equal; eauto|].
      destruct (resolution options answers n) as [[|]|]; [| |discriminate];
        apply andThen_Some in H as (rest & -> & H); simpl; f_equal; eauto.
Qed.

Lemma resolveConflicts_overwrite (options : MergeOptions) (answers : Answers)
    (merged : Document) :
  strategy options = Overwrite ->
  forall (current : Document) (n : nat),
  exists resolved m,
    resolveConflicts options answers merged current n = Some (resolved, m)
    /\ forall K v r c,
         In (BVariable K v r c) resolved ->
         forall k0 mv r0 c0,
           findVariable merged K = Some (BVariable k0 mv r0 c0) -> v = mv.
Proof.
  intros Ho. induction current as [|b next IH]; intros n.
  - exists [], n. split; [reflexivity | intros ? ? ? ? []].
  - destruct b as [l| |k v r c]; cbn [resolveConflicts].
    + destruct (IH n) as (rest & m & -> & Hrest).
      exists (BComment l :: rest), m. split; [reflexivity|].
      intros K v r c [H|H]; [discriminate | eauto].
    + destruct (IH n) as (rest & m & -> & Hrest).
      exists (BEmpty :: rest), m. split; [reflexivity|].
      intros K v r c [H|H]; [discriminate | eauto].
    + unfold resolution. rewrite Ho.
      destruct (findVariable merged k) as [[l'| |k' v' r' c']|] eqn:E.
      * destruct (IH n) as (rest & m & -> & Hrest).
        exists (BVariable k v r c :: rest), m. split; [reflexivity|].
        intros K v0 r0 c0 [[= <- <- <- <-]|H]; [congruence | eauto].
      * destruct (IH n) as (rest & m & -> & Hrest).
        exists (BVariable k v r c :: rest), m. split; [reflexivity|].
        intros K v0 r0 c0 [[= <- <- <- <-]|H]; [congruence | eauto].
      * destruct (String.eqb_spec v' v) as [->|Hne].
        -- destruct (IH n) as (rest & m & -> & Hrest).
           exists (BVariable k v r c :: rest), m. split; [reflexivity|].
           intros K v0 r0 c0 [[= <- <- <- <-]|H]; [congruence | eauto].
        -- destruct (IH (S n)) as (rest & m & -> & Hrest).
           eexists (_ :: rest), m. split; [reflexivity|].
           intros K v0 r0 c0 [[= <- <- <- <-]|H]; [congruence | eauto].
      * destruct (IH n) as (rest & m & -> & Hrest).
        exists (BVariable k v r c :: rest), m. split; [reflexivity|].
        intros K v0 r0 c0 [[= <- <- <- <-]|H]; [congruence | eauto].
Qed.

Lemma resolveConflicts_not_null (options : MergeOptions) (answers : Answers)
    (merged current : Document) (n : nat) (resolved : Document) (m : nat) :
  resolveConflicts options answers merged current n = Some (resolved, m) ->
  current <> [] -> resolved <> [].
Proof.
  destruct current as [|b next]; [congruence|]. intros H _.
  destruct b as [l| |k v r c]; cbn [resolveConflicts] in H;
    repeat match type of H with
           | context [match ?x with _ => _ end] => destruct x
           end;
    try discriminate;
    apply andThen_Some in H as (rest & -> & _); discriminate.
Qed.

(** A run that completes, on a destination that is there. *)
Lemma mergeEnvFiles_completes (host : Host) (iso : string) (answers : Answers)
    (sourcePaths contents : list string) (destinationPath : string)
    (options : MergeOptions) (fs : Files) (content : string)
    (resolved : Document) (n : nat) :
  Forall2 (fun p c => fs p = Some c) sourcePaths contents ->
  fs destinationPath = Some content ->
  generateBackupPath host iso destinationPath <> destinationPath ->
  resolveConflicts options answers (mergeSources (map parseEnvFile contents))
                   (parseEnvFile content) 0 = Some (resolved, n) ->
  exists fs',
    mergeEnvFiles host iso answers sourcePaths destinationPath options fs
    = Ok n fs'
    /\ fs' destinationPath
       = Some (serializeToString
                 (mergeSources [mergeSources (map parseEnvFile contents);
                                resolved])).
Proof.
  intros Hsrc Hd Hne Hres.
  rewrite (mergeEnvFiles_run host iso answers sourcePaths contents
             destinationPath options fs Hsrc), Hd, Hres.
  cbv zeta.
  set (fs2 := put destinationPath _ _).
  assert (H2 : fs2 destinationPath = Some (serializeToString
                 (mergeSources [mergeSources (map parseEnvFile contents);
                                resolved]))) by apply put_same.
  destruct (cleanupRedundantBackup_frame destinationPath
              (generateBackupPath host iso destinationPath) fs2)
    as (removed & fs3 & Hrun & H3 & _).
  destruct (backup options && truthy _).
  - rewrite (bind_Ok _ _ _ _ _ Hrun). exists fs3. split; [reflexivity|].
    rewrite H3 by congruence. exact H2.
  - exists fs2. split; [reflexivity | exact H2].
Qed.

(** X22. With the backup on, the old text of the destination is never
    lost: however the run of [mergeEnvFiles] ends, when it ends the text
    the destination had is in the destination or in the backup, provided
    the backup has another name than the destination. *)
Theorem X22_old_text_survives (host : Host) (iso : string)
    (answers : Answers) (sourcePaths : list string) (destinationPath : string)
    (options : MergeOptions) (fs : Files) (content : string) :
  backup options = true ->
  fs destinationPath = Some content ->
  generateBackupPath host iso destinationPath <> destinationPath ->
  let r := mergeEnvFiles host iso answers sourcePaths destinationPath
                         options fs in
  filesOf r destinationPath = Some content
  \/ filesOf r (generateBackupPath host iso destinationPath) = Some content.
Proof.
  intros Hbk Hd Hne r. subst r.
  set (backupPath := generateBackupPath host iso destinationPath) in *.
  destruct (sources_present_or_missing sourcePaths fs)
    as [(contents & Hsrc)|Hmiss].
  2:{ destruct (checkSources_missing _ _ Hmiss) as (q & _ & _ & Hrun).
      unfold mergeEnvFiles. rewrite (bind_Throw _ _ _ _ _ Hrun).
      now left. }
  rewrite (mergeEnvFiles_run host iso answers sourcePaths contents
             destinationPath options fs Hsrc), Hd, Hbk.
  fold backupPath.
  destruct (resolveConflicts options answers _ _ 0) as [[resolved n]|].
  2:{ right. apply put_same. }
  cbv zeta. cbn [andb].
  set (fs2 := put destinationPath _ _).
  assert (H2 : fs2 backupPath = Some content).
  { unfold fs2. rewrite put_other by exact Hne. apply put_same. }
  destruct (truthy backupPath); [|now right].
  destruct (cleanupRedundantBackup_frame destinationPath backupPath fs2)
    as (removed & fs3 & Hrun & H3 & [H4|(c & Hc1 & Hc2)]);
    rewrite (bind_Ok _ _ _ _ _ Hrun); unfold ret; cbn [filesOf].
  - right. now rewrite H4.
  - left. rewrite H3 by congruence. congruence.
Qed.

Lemma X22_witness :
  let host := mkHost (fun _ => "d") (fun a b => a ++ "/" ++ b)%string
                     (fun _ => true) in
  let fs : Files :=
    fun p => if String.eqb p "a.env" then Some "A=1"
             else if String.eqb p ".env" then Some "A=mine" else None in
  let r := mergeEnvFiles host "2026-11-03T08:51:07.123Z" (fun _ => None)
                         ["a.env"] ".env" (mkOptions true Overwrite) fs in
  filesOf r ".env" = Some "A=mine"
  \/ filesOf r "d/.env-backup-envmerge-20261103085107" = Some "A=mine".
Proof.
  intros host fs.
  apply (X22_old_text_survives host "2026-11-03T08:51:07.123Z" (fun _ => None)
           ["a.env"] ".env" (mkOptions true Overwrite) fs "A=mine").
  - reflexivity.
  - reflexivity.
  - vm_compute. discriminate.
Defined.



(** ** Conflicts *)

Lemma andThen_None (b : Block) (r : option (Document * nat)) :
  andThen b r = None <-> r = None.
Proof. destruct r as [[d n]|]; simpl; split; congruence. Qed.

Lemma resolveConflicts_step (options : MergeOptions) (answers : Answers)
    (merged : Document) (b : Block) (next : Document) (n : nat) :
  resolveConflicts options answers merged (b :: next) n
  = if inConflict merged b then
      match resolution options answers n with
      | Some ResolveOverwrite =>
          match b with
          | BVariable key value raw comments =>
              match findVariable merged key with
              | Some (BVariable _ mergedValue _ _) =>
                  andThen
                    (BVariable key mergedValue
                               (key ++ "=" ++ quoteValue mergedValue) comments)
                    (resolveConflicts options answers merged next (S n))
              | _ => None
              end
          | _ => None
          end
      | Some ResolveKeep =>
          andThen b (resolveConflicts options answers merged next (S n))
      | None => None
      end
    else andThen b (resolveConflicts options answers merged next n).
Proof.
  destruct b as [l| |k v r c]; cbn [resolveConflicts inConflict];
    try reflexivity.
  destruct (findVariable merged k) as [[l'| |k' v' r' c']|]; try reflexivity.
  destruct (String.eqb v' v); cbn [negb]; [reflexivity|].
  destruct (resolution options answers n) as [[|]|]; reflexivity.
Qed.

Lemma resolveConflicts_count (options : MergeOptions) (answers : Answers)
    (merged : Document) :
  forall (current : Document) (n : nat) (resolved : Document) (m : nat),
  resolveConflicts options answers merged current n = Some (resolved, m) ->
  m = n + List.length (conflictsOf merged current).
Proof.
  unfold conflictsOf.
  induction current as [|b next IH]; intros n resolved m H.
  - injection H as <- <-. simpl. lia.
  - rewrite resolveConflicts_step in H. cbn [filter].
    destruct (inConflict merged b) eqn:Eb.
    + cbn [List.length].
      destruct (resolution options answers n) as [[|]|]; [| |discriminate].
      * destruct b as [l| |k v r c]; try discriminate.
        destruct (findVariable merged k) as [[l'| |k' v' r' c']|];
          try discriminate.
        apply andThen_Some in H as (rest & _ & H).
        specialize (IH _ _ _ H). lia.
      * apply andThen_Some in H as (rest & _ & H).
        specialize (IH _ _ _ H). lia.
    + apply andThen_Some in H as (rest & _ & H). eauto.
Qed.

Lemma inConflict_variable (merged : Document) (b : Block) :
  inConflict merged b = true ->
  exists key value raw comments k0 mergedValue r0 c0,
    b = BVariable key value raw comments
    /\ findVariable merged key = Some (BVariable k0 mergedValue r0 c0).
Proof.
  destruct b as [l| |k v r c]; try discriminate. cbn [inConflict].
  destruct (findVariable merged k) as [[l'| |k' v' r' c']|] eqn:E;
    try discriminate.
  intros _. exists k, v, r, c, k', v', r', c'. split; [reflexivity | exact E].
Qed.

Lemma resolveConflicts_cancelled (options : MergeOptions) (answers : Answers)
    (merged : Document) :
  forall (current : Document) (n : nat),
  resolveConflicts options answers merged current n = None
  <-> exists i, n <= i < n + List.length (conflictsOf merged current)
                /\ resolution options answers i = None.
Proof.
  unfold conflictsOf.
  induction current as [|b next IH]; intros n.
  - simpl. split; [discriminate | intros (i & Hi & _); lia].
  - rewrite resolveConflicts_step. cbn [filter].
    destruct (inConflict merged b) eqn:Eb.
    + cbn [List.length].
      destruct (inConflict_variable _ _ Eb)
        as (k & v & r & c & k0 & mv & r0 & c0 & -> & Em).
      rewrite Em.
      assert (Hrec : forall x,
                 andThen x (resolveConflicts options answers merged next (S n))
                 = None
                 <-> exists i, S n <= i < S n + List.length
                                                  (filter (inConflict merged) next)
                               /\ resolution options answers i = None)
        by (intros x; now rewrite andThen_None, IH).
      destruct (resolution options answers n) as [[|]|] eqn:Er.
      * rewrite Hrec. split; intros (i & Hi & Hn).
        -- exists i. split; [lia | exact Hn].
        -- exists i. split; [|exact Hn].
           assert (i <> n) by (intros ->; congruence). lia.
      * rewrite Hrec. split; intros (i & Hi & Hn).
        -- exists i. split; [lia | exact Hn].
        -- exists i. split; [|exact Hn].
           assert (i <> n) by (intros ->; congruence). lia.
      * split; [|reflexivity]. intros _. exists n. split; [lia | exact Er].
    + now rewrite andThen_None, IH.
Qed.

(** X25. The conflicts of a run are the variables of the destination
    whose key the merged sources define with another value.  When
    [mergeEnvFiles] completes, the number of conflicts it reports is the
    number of those variables, whatever the strategy; it ends on the
    error [Operation cancelled by user] exactly when the strategy is
    [interactive] and the user cancels one of the prompts, of which there
    is one for each conflict. *)
Theorem X25_conflicts_and_cancellation (host : Host) (iso : string)
    (answers : Answers) (sourcePaths contents : list string)
    (destinationPath : string) (options : MergeOptions) (fs : Files) :
  Forall2 (fun p c => fs p = Some c) sourcePaths contents ->
  let conflicts :=
    conflictsOf (mergeSources (map parseEnvFile contents))
                (destinationOf fs destinationPath) in
  let r := mergeEnvFiles host iso answers sourcePaths destinationPath
                         options fs in
  (forall n fs', r = Ok n fs' -> n = List.length conflicts)
  /\ ((exists fs', r = Throw Cancelled fs')
      <-> strategy options = Interactive
          /\ exists i, i < List.length conflicts /\ answers i = None).
Proof.
  intros Hsrc conflicts r. subst r conflicts. unfold destinationOf.
  rewrite (mergeEnvFiles_run host iso answers sourcePaths contents
             destinationPath options fs Hsrc).
  set (merged := mergeSources (map parseEnvFile contents)).
  set (destination := match fs destinationPath with
                      | Some content => parseEnvFile content
                      | None => []
                      end).
  set (fs1 := match fs destinationPath with
              | Some content => if backup options then _ else fs
              | None => fs
              end).
  pose proof (resolveConflicts_cancelled options answers merged destination 0)
    as Hc.
  assert (Hint : (exists i, 0 <= i < 0 + List.length (conflictsOf merged destination)
                            /\ resolution options answers i = None)
                 <-> strategy options = Interactive
                     /\ exists i, i < List.length (conflictsOf merged destination)
                                  /\ answers i = None).
  { unfold resolution. destruct (strategy options); split.
    - intros (i & Hi & Hn). split; [reflexivity|]. exists i. split; [lia|auto].
    - intros (_ & i & Hi & Hn). exists i. split; [lia | auto].
    - intros (i & _ & [=]).
    - intros ([=] & _).
    - intros (i & _ & [=]).
    - intros ([=] & _). }
  destruct (resolveConflicts options answers merged destination 0)
    as [[resolved n]|] eqn:Hres.
  - cbv zeta. split.
    + set (fs2 := put destinationPath _ fs1).
      destruct (cleanupRedundantBackup_frame destinationPath
                  (generateBackupPath host iso destinationPath) fs2)
        as (removed & fs3 & Hrun & _).
      intros m fs'.
      destruct (fs destinationPath);
        [destruct (backup options && truthy _)
        |destruct (inDirectory host destinationPath)];
        rewrite ?(bind_Ok _ _ _ _ _ Hrun); unfold ret; intros H;
        try discriminate; injection H as <- _;
        apply (resolveConflicts_count _ _ _ _ _ _ _ Hres).
    + rewrite <- Hint, <- Hc. split; [|discriminate].
      set (fs2 := put destinationPath _ fs1).
      destruct (cleanupRedundantBackup_frame destinationPath
                  (generateBackupPath host iso destinationPath) fs2)
        as (removed & fs3 & Hrun & _).
      destruct (fs destinationPath);
        [destruct (backup options && truthy _)
        |destruct (inDirectory host destinationPath)];
        rewrite ?(bind_Ok _ _ _ _ _ Hrun); unfold ret;
        intros (fs' & [=]).
  - split; [discriminate|]. rewrite <- Hint, <- Hc.
    split; [reflexivity | eauto].
Qed.

Lemma X25_witness :
  let host := mkHost (fun _ => "d") (fun a b => a ++ "/" ++ b)%string
                     (fun _ => true) in
  let fs : Files :=
    fun p => if String.eqb p "a.env" then Some ("A=1" ++ Str.nl ++ "B=2")%string
             else if String.eqb p ".env"
                  then Some ("B=2" ++ Str.nl ++ "A=mine")%string else None in
  exists fs',
    mergeEnvFiles host "2026-11-03T08:51:07.123Z" (fun _ => None)
                  ["a.env"] ".env" (mkOptions false Interactive) fs
    = Throw Cancelled fs'.
Proof.
  intros host fs.
  destruct (X25_conflicts_and_cancellation host "2026-11-03T08:51:07.123Z"
              (fun _ => None) ["a.env"] [("A=1" ++ Str.nl ++ "B=2")%string]
              ".env" (mkOptions false Interactive) fs) as [_ [_ H]].
  - repeat constructor.
  - apply H. split; [reflexivity|]. exists 0. split; [|reflexivity].
    vm_compute. lia.
Defined.

(** X26. A run that does not change the destination leaves nothing
    behind.  With the backup on and no file yet under the name of the
    backup, when [mergeEnvFiles] completes and the destination has the
    text it had before, the backup is removed again and every file is as
    it was before the run. *)
Theorem X26_unchanged_destination_leaves_no_backup (host : Host)
    (iso : string) (answers : Answers) (sourcePaths : list string)
    (destinationPath : string) (options : MergeOptions) (fs : Files)
    (content : string) (n : nat) (fs' : Files) :
  backup options = true ->
  fs destinationPath = Some content ->
  let backupPath := generateBackupPath host iso destinationPath in
  fs backupPath = None -> truthy backupPath = true ->
  mergeEnvFiles host iso answers sourcePaths destinationPath options fs
  = Ok n fs' ->
  fs' destinationPath = Some content ->
  forall p, fs' p = fs p.
Proof.
  intros Hbk Hd backupPath Hfree Htr Hrun Hsame.
  assert (Hne : backupPath <> destinationPath) by (intros E; congruence).
  destruct (sources_present_or_missing sourcePaths fs)
    as [(contents & Hsrc)|Hmiss].
  2:{ destruct (checkSources_missing _ _ Hmiss) as (q & _ & _ & Hthrow).
      unfold mergeEnvFiles in Hrun.
      rewrite (bind_Throw _ _ _ _ _ Hthrow) in Hrun. discriminate. }
  rewrite (mergeEnvFiles_run host iso answers sourcePaths contents
             destinationPath options fs Hsrc), Hd, Hbk in Hrun.
  fold backupPath in Hrun. rewrite Htr in Hrun.
  destruct (resolveConflicts options answers _ _ 0) as [[resolved m]|];
    [|discriminate].
  cbv zeta in Hrun. cbn [andb] in Hrun.
  unfold bind in Hrun. rewrite cleanupRedundantBackup_run in Hrun.
  rewrite (put_other destinationPath backupPath) in Hrun by exact Hne.
  rewrite !put_same in Hrun.
  destruct (String.eqb_spec
              (serializeToString
                 (mergeSources [mergeSources (map parseEnvFile contents);
                                resolved])) content) as [E|E].
  - unfold ret in Hrun. injection Hrun as _ <-. intros p.
    destruct (String.eqb_spec p backupPath) as [->|Hp];
      [now rewrite put_same|].
    rewrite put_other by exact Hp.
    destruct (String.eqb_spec p destinationPath) as [->|Hp'].
    + rewrite put_same, E. now rewrite Hd.
    + now rewrite !put_other by assumption.
  - unfold ret in Hrun. injection Hrun as _ <-.
    rewrite put_same in Hsame. congruence.
Qed.

Lemma X26_witness :
  let host := mkHost (fun _ => "d") (fun a b => a ++ "/" ++ b)%string
                     (fun _ => true) in
  let fs : Files :=
    fun p => if String.eqb p "a.env" then Some "A=1"
             else if String.eqb p ".env" then Some "A=1" else None in
  filesOf (mergeEnvFiles host "2026-11-03T08:51:07.123Z" (fun _ => None)
             ["a.env"] ".env" (mkOptions true Overwrite) fs)
          "d/.env-backup-envmerge-20261103085107" = None.
Proof.
  intros host fs.
  rewrite (X26_unchanged_destination_leaves_no_backup host
             "2026-11-03T08:51:07.123Z" (fun _ => None) ["a.env"] ".env"
             (mkOptions true Overwrite) fs "A=1" 0
             (filesOf (mergeEnvFiles host "2026-11-03T08:51:07.123Z"
                         (fun _ => None) ["a.env"] ".env"
                         (mkOptions true Overwrite) fs)));
    reflexivity.
Defined.

End CliFacts.

(** * Reading back what was written *)

Lemma variableLines_serializeBlocks (d : Document) :
  variableLines (serializeBlocks d) = variablesOf d.
Proof.
  assert (Hc : forall cs rest,
             variableLines (map LComment cs ++ rest) = variableLines rest).
  { induction cs as [|c cs IH]; intros rest; [reflexivity | apply IH]. }
  induction d as [|b d IH]; [reflexivity|].
  destruct b as [l| |k v r c]; cbn [serializeBlocks variablesOf].
  - now rewrite Hc.
  - exact IH.
  - rewrite Hc. cbn [variableLines]. now rewrite IH.
Qed.

Lemma variableLines_reparsed (L : list Line) :
  (forall l, In l L ->
     match l with
     | LEmpty => True
     | LComment t => isVariableLine t = false
     | LVariable k v r => parseLine (renderLine l) = LVariable k v (renderLine l)
     end) ->
  map withoutRaw (variableLines (map (fun l => parseLine (renderLine l)) L))
  = map withoutRaw (variableLines L).
Proof.
  induction L as [|l L IH]; intros H; [reflexivity|].
  assert (HL : map withoutRaw
                 (variableLines (map (fun l => parseLine (renderLine l)) L))
               = map withoutRaw (variableLines L))
    by (apply IH; intros l' Hl'; apply H; now right).
  pose proof (H l (or_introl eq_refl)) as Hl.
  cbn [map]. destruct l as [t| |k v r].
  - cbn [renderLine variableLines]. unfold isVariableLine in Hl.
    destruct (parseLine t); [exact HL | exact HL | discriminate].
  - exact HL.
  - rewrite Hl. cbn [variableLines map withoutRaw]. now rewrite HL.
Qed.

Lemma commentTexts_updateAt (head : Document) (i : nat) (v : string)
    (c : list string) (t : string) :
  In t (commentTexts (updateAt i (fun b => updateVariable b v c) head)) ->
  In t (commentTexts head) \/ In t c.
Proof.
  revert i. induction head as [|b next IH]; intros i; [destruct i; intros []|].
  destruct i; cbn [updateAt].
  - destruct b as [l| |k0 v0 r0 c0]; cbn [updateVariable commentTexts];
      rewrite ?in_app_iff; tauto.
  - destruct b as [l| |k0 v0 r0 c0]; cbn [commentTexts];
      rewrite ?in_app_iff; intros H;
      try (destruct H as [H|H]; [tauto|]);
      destruct (IH _ H); tauto.
Qed.

Lemma commentTexts_insertBefore (head : Document) (p : nat) (b : Block)
    (t : string) :
  In t (commentTexts (insertBefore head p b)) ->
  In t (commentTexts head) \/ In t (commentTexts [b]).
Proof.
  rewrite insertBefore_eq.
  change (b :: skipn p head) with ([b] ++ skipn p head).
  rewrite !commentTexts_app, !in_app_iff.
  rewrite <- (firstn_skipn p head) at 3.
  rewrite commentTexts_app, in_app_iff. tauto.
Qed.

Lemma mergeVariables_texts (source head : Document) (t : string) :
  In t (commentTexts (mergeVariables head source)) ->
  In t (commentTexts head) \/ In t (commentTexts source).
Proof.
  revert head. induction source as [|x next IH]; intros head H; [now left|].
  destruct x as [l| |k v r c]; cbn [mergeVariables commentTexts] in *;
    rewrite ?in_app_iff; try (destruct (IH _ H); tauto).
  destruct (findVariableBlock head k) as [i|].
  - destruct (IH _ H) as [H'|H']; [|tauto].
    destruct (commentTexts_updateAt _ _ _ _ _ H'); tauto.
  - destruct (findIntersectionPoint next head) as [p|];
      destruct (IH _ H) as [H'|H']; try tauto.
    + destruct (commentTexts_insertBefore _ _ _ _ H') as [H''|H''];
        [tauto|]. cbn [commentTexts] in H''. rewrite app_nil_r in H''. tauto.
    + unfold appendToTail in H'. rewrite commentTexts_app, in_app_iff in H'.
      cbn [commentTexts] in H'. rewrite app_nil_r in H'. tauto.
Qed.

Lemma insertCommentBlock_texts (head : Document) (lines : list string)
    (next : Document) (t : string) :
  In t (commentTexts (insertCommentBlock head (BComment lines) next)) ->
  In t (commentTexts head) \/ In t lines.
Proof.
  assert (Ht : In t (commentTexts
                       (if hasCommentBlockBefore head 0 (BComment lines)
                        then head else appendToTail head (BComment lines))) ->
               In t (commentTexts head) \/ In t lines).
  { destruct (hasCommentBlockBefore head 0 (BComment lines)); [tauto|].
    unfold appendToTail. rewrite commentTexts_app, in_app_iff.
    cbn [commentTexts]. rewrite app_nil_r. tauto. }
  unfold insertCommentBlock.
  destruct (findNextVariable next) as [[l| |k v r c]|]; try exact Ht.
  destruct (findVariableBlock head k) as [i|]; [|exact Ht].
  destruct (negb (hasCommentBlockBefore head i (BComment lines))); [|tauto].
  intros H. destruct (commentTexts_insertBefore _ _ _ _ H) as [H'|H'];
    [tauto|]. cbn [commentTexts] in H'. rewrite app_nil_r in H'. tauto.
Qed.

Lemma mergeComments_texts (source head : Document) (t : string) :
  In t (commentTexts (mergeComments head source)) ->
  In t (commentTexts head) \/ In t (commentTexts source).
Proof.
  revert head. induction source as [|x next IH]; intros head H; [now left|].
  destruct x as [l| |k v r c]; cbn [mergeComments commentTexts] in *;
    rewrite ?in_app_iff; try (destruct (IH _ H); tauto).
  destruct (IH _ H) as [H'|H']; [|tauto].
  destruct (insertCommentBlock_texts _ _ _ _ H'); tauto.
Qed.

Lemma mergeSources_texts (docs : list Document) (t : string) :
  In t (commentTexts (mergeSources docs)) ->
  exists d, In d docs /\ In t (commentTexts d).
Proof.
  unfold mergeSources.
  assert (Hf : forall d, In d (filter (fun s => negb (isNull s)) docs) ->
                         In d docs)
    by (intros d Hd; now apply filter_In in Hd).
  destruct (filter _ docs) as [|first rest]; [intros []|].
  assert (Hfold : forall rest first,
             In t (commentTexts (fold_left mergeTwo rest first)) ->
             In t (commentTexts first)
             \/ exists d, In d rest /\ In t (commentTexts d)).
  { clear. induction rest as [|d rest IH]; intros first H; [now left|].
    cbn [fold_left] in H. destruct (IH _ H) as [H'|(d' & Hd' & H')].
    - unfold mergeTwo in H'.
      destruct (mergeComments_texts _ _ _ H') as [H''|H''].
      + destruct (mergeVariables_texts _ _ _ H''); [tauto|].
        right. exists d. split; [now left | assumption].
      + right. exists d. split; [now left | assumption].
    - right. exists d'. split; [now right | assumption]. }
  intros H. destruct (Hfold _ _ H) as [H'|(d & Hd & H')].
  - exists first. split; [apply Hf; now left | exact H'].
  - exists d. split; [apply Hf; now right | exact H'].
Qed.

Lemma parseLine_empty : parseLine EmptyString = LEmpty.
Proof. reflexivity. Qed.

(** X27. What is written reads back.  For the merge of parsed files in
    which every value is one that survives quoting and decoding and no
    comment line ends with a carriage return, parsing the serialized
    merge gives the variables of the merge again: the same keys with the
    same values, in the same order. *)
Theorem X27_written_variables_read_back (contents : list string) :
  let d := mergeSources (map parseEnvFile contents) in
  (forall k v r c, In (BVariable k v r c) d -> roundTrips v) ->
  (forall t, In t (commentTexts d) -> Str.endsWith Char.cr t = false) ->
  map withoutRaw (variablesOf (parseEnvFile (serializeToString d)))
  = map withoutRaw (variablesOf d).
Proof.
  intros d Hvalues Hcr.
  assert (Htext : forall t, In t (commentTexts d) ->
                            isVariableLine t = false
                            /\ Str.includes Char.lf t = false).
  { intros t Ht. apply mergeSources_texts in Ht as (d0 & Hd0 & Ht).
    apply in_map_iff in Hd0 as (content & <- & _).
    unfold parseEnvFile in Ht.
    destruct (parseBlocks_texts_origin _ _ Ht) as [->|Hin];
      [split; reflexivity|].
    destruct (parsed_comment_line content t Hin) as (_ & Hp & Hlf).
    split; [|exact Hlf]. unfold isVariableLine. now rewrite Hp. }
  assert (Hkeys : forall k v r c, In (BVariable k v r c) d ->
                  exists c0 k0, k = String c0 k0
                                /\ Char.isIdentStart c0 = true
                                /\ Str.all Char.isIdentChar k0 = true).
  { intros k v r c Hb.
    assert (Hk : In k (varKeys d)) by (apply varKeys_In; eauto).
    apply mergeSources_keys in Hk as (d0 & Hd0 & Hk).
    apply in_map_iff in Hd0 as (content & <- & _).
    pose proof (parsed_keys_are_identifiers _ _ Hk) as Hid.
    destruct k as [|c0 k0]; [discriminate|]. simpl in Hid.
    apply andb_true_iff in Hid as [H1 H2]. eauto. }
  unfold parseEnvFile at 1, parseBlocks. rewrite scan_variablesOf.
  cbn [emitted initScan variablesOf app].
  rewrite <- variableLines_serializeBlocks.
  unfold serializeToString.
  destruct (serializeBlocks d) as [|l0 L0] eqn:EL; [reflexivity|].
  rewrite <- EL.
  assert (Hlines : forall l, In l (serializeBlocks d) ->
            (Str.includes Char.lf (renderLine l) = false
             /\ Str.endsWith Char.cr (renderLine l) = false)
            /\ match l with
               | LEmpty => True
               | LComment t => isVariableLine t = false
               | LVariable k v r =>
                   parseLine (renderLine l) = LVariable k v (renderLine l)
               end).
  { intros l Hl.
    destruct (serializeBlocks_In _ _ Hl)
      as [->|[(t & -> & Ht)|(k & v & r & c & -> & Hb)]].
    - repeat split.
    - destruct (Htext t Ht) as [H1 H2]. cbn [renderLine].
      repeat split; auto.
    - destruct (Hkeys k v r c Hb) as (c0 & k0 & -> & Hc0 & Hk0).
      pose proof (Hvalues _ _ _ _ Hb) as Hv. cbn [renderLine]. split.
      + now apply rendered_variable_one_line.
      + now apply parseLine_rendered. }
  rewrite splitLines_join.
  - rewrite map_map. apply variableLines_reparsed.
    intros l Hl. now apply Hlines.
  - rewrite EL. discriminate.
  - apply Forall_forall. intros s Hs.
    apply in_map_iff in Hs as (l & <- & Hl). now apply Hlines.
Qed.

Lemma X27_witness :
  let contents :=
    [("# first" ++ Str.nl ++ "A=1" ++ Str.nl ++ "B=two words")%string;
     ("B=3" ++ Str.nl ++ Str.nl ++ "C='x # y'")%string] in
  let d := mergeSources (map parseEnvFile contents) in
  map withoutRaw (variablesOf (parseEnvFile (serializeToString d)))
  = [("A", "1"); ("B", "3"); ("C", "x # y")].
Proof.
  intros contents d.
  pose proof (X27_written_variables_read_back contents) as Hback.
  cbv zeta in Hback. fold d in Hback. rewrite Hback.
  - vm_compute. reflexivity.
  - intros k v r c H. vm_compute in H.
    destruct H as [H|[H|[H|[]]]]; try discriminate;
      injection H as <- <- <- <-;
      (split; [reflexivity | first [left; reflexivity | right; reflexivity]]).
  - intros t H. vm_compute in H. destruct H as [<-|[]]. reflexivity.
Defined.

(** * Merging in steps *)

(** X28. Merging in steps is merging at once: the merge of a list of
    sources followed by further sources is the merge of the merge of the
    first ones and the further ones, null sources among them or not. *)
Theorem X28_merge_in_steps (first later : list Document) :
  mergeSources (first ++ later) = mergeSources (mergeSources first :: later).
Proof.
  unfold mergeSources at 1 3. cbn [filter]. rewrite filter_app.
  unfold mergeSources.
  destruct (filter (fun s => negb (isNull s)) first) as [|a rest] eqn:E;
    [reflexivity|].
  assert (Ha : a <> []).
  { assert (Hin : In a (filter (fun s => negb (isNull s)) first))
      by (rewrite E; now left).
    apply filter_In in Hin as [_ Hin]. now destruct a. }
  pose proof (CliFacts.fold_mergeTwo_not_null rest a Ha) as Hne.
  destruct (fold_left mergeTwo rest a) as [|b d] eqn:Ef; [congruence|].
  cbn [isNull negb app]. now rewrite fold_left_app, Ef.
Qed.

(** * What a run leaves in the destination *)

Module WrittenFacts.
Import Fs Backup Cli CliFacts.

Lemma parseLine_written (c : ascii) (k v : string) :
  Char.isIdentStart c = true -> Str.all Char.isIdentChar k = true ->
  parseLine (String c k ++ "=" ++ quoteValue v)
  = LVariable (String c k) (unquoteValue (quoteValue v))
              (String c k ++ "=" ++ quoteValue v).
Proof.
  intros Hc Hk.
  pose proof (matchVariable_complete c k "" "" (quoteValue v) Hc Hk
                eq_refl eq_refl (quoteValue_one_line v)) as Hm.
  change (String c k ++ "" ++ "=" ++ "" ++ quoteValue v)%string
    with (String c k ++ "=" ++ quoteValue v)%string in Hm.
  rewrite (parseLine_variable _ _ _ Hm).
  now rewrite unquoteValue_trimStart.
Qed.

Lemma variableLines_reread (L : list Line) :
  (forall l, In l L ->
     match l with
     | LEmpty => True
     | LComment t => isVariableLine t = false
     | LVariable k v r =>
         parseLine (renderLine l)
         = LVariable k (unquoteValue (quoteValue v)) (renderLine l)
     end) ->
  map withoutRaw (variableLines (map (fun l => parseLine (renderLine l)) L))
  = map reread (map withoutRaw (variableLines L)).
Proof.
  induction L as [|l L IH]; intros H; [reflexivity|].
  assert (HL : map withoutRaw
                 (variableLines (map (fun l => parseLine (renderLine l)) L))
               = map reread (map withoutRaw (variableLines L)))
    by (apply IH; intros l' Hl'; apply H; now right).
  pose proof (H l (or_introl eq_refl)) as Hl.
  cbn [map]. destruct l as [t| |k v r].
  - cbn [renderLine variableLines]. unfold isVariableLine in Hl.
    destruct (parseLine t); [exact HL | exact HL | discriminate].
  - exact HL.
  - rewrite Hl. cbn [variableLines map withoutRaw]. now rewrite HL.
Qed.

(** The definitions of a serialized document, for a document whose keys
    are names and whose comment texts are one line each, no variable line
    and without a carriage return at the end. *)
Lemma definitionsOf_serialized (d : Document) :
  (forall k, In k (varKeys d) -> isIdentifier k = true) ->
  (forall t, In t (commentTexts d) ->
             isVariableLine t = false /\ Str.includes Char.lf t = false
             /\ Str.endsWith Char.cr t = false) ->
  definitionsOf (serializeToString d)
  = map reread (map withoutRaw (variablesOf d)).
Proof.
  intros Hkeys Htext. unfold definitionsOf.
  unfold parseEnvFile, parseBlocks. rewrite scan_variablesOf.
  cbn [emitted initScan variablesOf app].
  rewrite <- variableLines_serializeBlocks.
  unfold serializeToString.
  destruct (serializeBlocks d) as [|l0 L0] eqn:EL; [reflexivity|].
  rewrite <- EL.
  assert (Hlines : forall l, In l (serializeBlocks d) ->
            (Str.includes Char.lf (renderLine l) = false
             /\ Str.endsWith Char.cr (renderLine l) = false)
            /\ match l with
               | LEmpty => True
               | LComment t => isVariableLine t = false
               | LVariable k v r =>
                   parseLine (renderLine l)
                   = LVariable k (unquoteValue (quoteValue v)) (renderLine l)
               end).
  { intros l Hl.
    destruct (serializeBlocks_In _ _ Hl)
      as [->|[(t & -> & Ht)|(k & v & r & c & -> & Hb)]].
    - repeat split.
    - destruct (Htext t Ht) as (H1 & H2 & H3). cbn [renderLine].
      repeat split; auto.
    - assert (Hk : isIdentifier k = true)
        by (apply Hkeys, varKeys_In; eauto).
      destruct k as [|c0 k0]; [discriminate|]. simpl in Hk.
      apply andb_true_iff in Hk as [Hc0 Hk0]. cbn [renderLine]. split.
      + now apply rendered_variable_one_line.
      + now apply parseLine_written. }
  rewrite splitLines_join.
  - rewrite map_map. apply variableLines_reread.
    intros l Hl. now apply Hlines.
  - rewrite EL. discriminate.
  - apply Forall_forall. intros s Hs.
    apply in_map_iff in Hs as (l & <- & Hl). now apply Hlines.
Qed.

Lemma resolveConflicts_texts (options : MergeOptions) (answers : Answers)
    (merged : Document) :
  forall (current : Document) (n : nat) (resolved : Document) (m : nat),
  resolveConflicts options answers merged current n = Some (resolved, m) ->
  commentTexts resolved = commentTexts current.
Proof.
  induction current as [|b next IH]; intros n resolved m H.
  - now injection H as <- <-.
  - destruct b as [l| |k v r c]; cbn [resolveConflicts] in H.
    + apply andThen_Some in H as (rest & -> & H). simpl. f_equal. eauto.
    + apply andThen_Some in H as (rest & -> & H). simpl. eauto.
    + destruct (findVariable merged k) as [[l'| |k' v' r' c']|];
        try (apply andThen_Some in H as (rest & -> & H); simpl; f_equal; eauto).
      destruct (String.eqb v' v);
        [apply andThen_Some in H as (rest & -> & H); simpl; f_equal; eauto|].
      destruct (resolution options answers n) as [[|]|]; [| |discriminate];
        apply andThen_Some in H as (rest & -> & H); simpl; f_equal; eauto.
Qed.

Lemma parsed_text_clean (content t : string) :
  noStrayReturn content ->
  In t (commentTexts (parseEnvFile content)) ->
  isVariableLine t = false /\ Str.includes Char.lf t = false
  /\ Str.endsWith Char.cr t = false.
Proof.
  intros Hcr Ht. pose proof (Hcr t Ht) as H3.
  unfold parseEnvFile in Ht.
  destruct (parseBlocks_texts_origin _ _ Ht) as [->|Hin];
    [repeat split|].
  destruct (parsed_comment_line content t Hin) as (_ & Hp & Hlf).
  repeat split; [|exact Hlf | exact H3].
  unfold isVariableLine. now rewrite Hp.
Qed.

(** The document a run writes: its comment texts and its keys are those
    of the files read. *)
Lemma run_document_clean (contents : list string) (content : string)
    (resolved : Document) (t : string) :
  (forall c, In c (content :: contents) -> noStrayReturn c) ->
  commentTexts resolved = commentTexts (parseEnvFile content) ->
  In t (commentTexts
          (mergeSources [mergeSources (map parseEnvFile contents); resolved])) ->
  isVariableLine t = false /\ Str.includes Char.lf t = false
  /\ Str.endsWith Char.cr t = false.
Proof.
  intros Hcr Hres Ht.
  apply mergeSources_texts in Ht as (d & [<-|[<-|[]]] & Ht).
  - apply mergeSources_texts in Ht as (d0 & Hd0 & Ht).
    apply in_map_iff in Hd0 as (c & <- & Hc).
    apply (parsed_text_clean c); [apply Hcr; now right | exact Ht].
  - rewrite Hres in Ht.
    apply (parsed_text_clean content); [apply Hcr; now left | exact Ht].
Qed.

Lemma run_document_keys (contents : list string) (content : string)
    (resolved : Document) (K : string) :
  varKeys resolved = varKeys (parseEnvFile content) ->
  In K (varKeys
          (mergeSources [mergeSources (map parseEnvFile contents); resolved]))
  <-> In K (varKeys (parseEnvFile content))
      \/ exists c, In c contents /\ In K (varKeys (parseEnvFile c)).
Proof.
  intros Hkeys. rewrite mergeSources_keys. split.
  - intros (d & [<-|[<-|[]]] & HK).
    + right. apply mergeSources_keys in HK as (d & Hd' & HK).
      apply in_map_iff in Hd' as (c & <- & Hc). eauto.
    + left. now rewrite <- Hkeys.
  - intros [HK|(c & Hc & HK)].
    + exists resolved. split; [right; now left | now rewrite Hkeys].
    + exists (mergeSources (map parseEnvFile contents)). split; [now left|].
      apply mergeSources_keys.
      exists (parseEnvFile c). split; [now apply in_map | exact HK].
Qed.

Lemma run_document_names (contents : list string) (content : string)
    (resolved : Document) (K : string) :
  varKeys resolved = varKeys (parseEnvFile content) ->
  In K (varKeys
          (mergeSources [mergeSources (map parseEnvFile contents); resolved])) ->
  isIdentifier K = true.
Proof.
  intros Hkeys HK. apply (run_document_keys _ _ _ _ Hkeys) in HK.
  destruct HK as [HK|(c & _ & HK)]; exact (parsed_keys_are_identifiers _ _ HK).
Qed.

(** The file a run writes defines what the document written defines, each
    value as it reads back. *)
Lemma run_definitions (options : MergeOptions) (answers : Answers)
    (contents : list string) (content : string) (resolved : Document)
    (n : nat) :
  (forall c, In c (content :: contents) -> noStrayReturn c) ->
  resolveConflicts options answers (mergeSources (map parseEnvFile contents))
                   (parseEnvFile content) 0 = Some (resolved, n) ->
  let final :=
    mergeSources [mergeSources (map parseEnvFile contents); resolved] in
  definitionsOf (serializeToString final)
  = map reread (map withoutRaw (variablesOf final)).
Proof.
  intros Hcr Hres final. apply definitionsOf_serialized.
  - intros k. apply (run_document_names contents content).
    exact (resolveConflicts_keys _ _ _ _ _ _ _ Hres).
  - intros t. apply (run_document_clean contents content); [exact Hcr|].
    exact (resolveConflicts_texts _ _ _ _ _ _ _ Hres).
Qed.

Lemma fst_withoutRaw (d : Document) :
  map fst (map withoutRaw (variablesOf d)) = varKeys d.
Proof.
  induction d as [|b d IH]; [reflexivity|].
  destruct b as [l| |k v r c]; simpl; now rewrite ?IH.
Qed.

Lemma fst_reread (definitions : list (string * string)) :
  map fst (map reread definitions) = map fst definitions.
Proof. rewrite map_map. reflexivity. Qed.

Lemma firstValue_document (d : Document) (K : string) :
  firstValue (map withoutRaw (variablesOf d)) K
  = match findVariable d K with
    | Some b => valueOf b
    | None => None
    end.
Proof.
  unfold firstValue. induction d as [|b d IH]; [reflexivity|].
  rewrite findVariable_cons.
  destruct b as [l| |k v r c]; cbn [variablesOf map hasKey]; try exact IH.
  cbn [find withoutRaw fst]. destruct (String.eqb k K); [reflexivity | exact IH].
Qed.

Lemma firstValue_reread (definitions : list (string * string)) (K : string) :
  firstValue (map reread definitions) K
  = option_map (fun v => unquoteValue (quoteValue v))
               (firstValue definitions K).
Proof.
  unfold firstValue. induction definitions as [|[k v] rest IH]; [reflexivity|].
  cbn [map find reread fst snd]. destruct (String.eqb k K); [reflexivity|].
  exact IH.
Qed.

Lemma unique_definition (d : Document) (K v : string) (b : Block) :
  NoDup (varKeys d) -> findVariable d K = Some b -> valueOf b = Some v ->
  forall v', In (K, v') (map withoutRaw (variablesOf d)) -> v' = v.
Proof.
  induction d as [|x d IH]; intros Hnd Hf Hv v' Hin; [destruct Hin|].
  rewrite findVariable_cons in Hf.
  destruct x as [l| |k0 v0 r0 c0]; cbn [variablesOf map hasKey varKeys] in *;
    eauto.
  inversion_clear Hnd as [|? ? Hk0 Hrest].
  destruct (String.eqb_spec k0 K) as [->|Hne].
  - injection Hf as <-. injection Hv as <-.
    destruct Hin as [[= <-]|Hin]; [reflexivity|].
    elim Hk0. rewrite <- fst_withoutRaw.
    change K with (fst (K, v')). now apply in_map.
  - destruct Hin as [[= E _]|Hin]; [congruence | eauto].
Qed.

(** What a run with the strategy [keep] or [overwrite] writes for a key
    whose first definition in the document written has the value [v]. *)
Lemma written_value (options : MergeOptions) (answers : Answers)
    (first : string) (others : list string) (content : string)
    (resolved : Document) (n : nat) (K v : string) (b : Block) :
  (forall c, In c (content :: first :: others) -> noStrayReturn c) ->
  resolveConflicts options answers
                   (mergeSources (map parseEnvFile (first :: others)))
                   (parseEnvFile content) 0 = Some (resolved, n) ->
  let final :=
    mergeSources [mergeSources (map parseEnvFile (first :: others));
                  resolved] in
  findVariable final K = Some b -> valueOf b = Some v -> roundTrips v ->
  firstValue (definitionsOf (serializeToString final)) K = Some v
  /\ (NoDup (map fst (definitionsOf first)) ->
      forall v', In (K, v') (definitionsOf (serializeToString final)) ->
                 v' = v).
Proof.
  intros Hcr Hres final Hf Hv Hrt.
  pose proof (run_definitions options answers (first :: others) content
                resolved n Hcr Hres) as Hdefs.
  cbv zeta in Hdefs. fold final in Hdefs. rewrite Hdefs. split.
  - rewrite firstValue_reread, firstValue_document, Hf, Hv.
    cbn [option_map]. now rewrite unquote_quote.
  - intros Hnd v' Hin.
    assert (Hfinal : NoDup (varKeys final)).
    { unfold definitionsOf in Hnd. rewrite fst_withoutRaw in Hnd.
      unfold final.
      set (merged := mergeSources (map parseEnvFile (first :: others))).
      assert (Hm : NoDup (varKeys merged)).
      { unfold merged, mergeSources. cbn [map filter].
        pose proof (parseEnvFile_not_null first) as Hne.
        destruct (parseEnvFile first) as [|b0 d0] eqn:E; [congruence|].
        cbn [isNull negb]. now apply fold_mergeTwo_NoDup. }
      unfold mergeSources. cbn [filter].
      assert (Hmn : merged <> [])
        by (apply mergeSources_parsed_not_null; discriminate).
      destruct merged as [|b1 m1] eqn:Em; [congruence|]. cbn [isNull negb].
      destruct resolved as [|b2 r2]; cbn [isNull negb fold_left];
        [exact Hm|].
      unfold mergeTwo. rewrite varKeys_mergeComments.
      now apply mergeVariables_NoDup. }
    apply in_map_iff in Hin as ([k0 v0] & [= -> <-] & Hin).
    now rewrite (unique_definition final K v b Hfinal Hf Hv v0 Hin),
      unquote_quote.
Qed.

(** X20. With the strategy [keep] the destination wins.  When the sources
    and the destination are there and no comment text of them ends with a
    carriage return, [mergeEnvFiles] completes and writes the merge of the
    merged sources and the destination; and in the file it leaves, read
    again with [parseEnvFile], the first definition of every key of the
    destination has the value of the last definition of the key in the
    destination, whatever the sources give that key, provided that value
    survives quoting and decoding.  When the first source defines no key
    twice, that definition is the only one of the key in the file. *)
Theorem X20_keep_strategy_keeps_the_destination (host : Host) (iso : string)
    (answers : Answers) (sourcePaths : list string) (first : string)
    (others : list string) (destinationPath : string) (options : MergeOptions)
    (fs : Files) (content : string) :
  Forall2 (fun p c => fs p = Some c) sourcePaths (first :: others) ->
  fs destinationPath = Some content ->
  strategy options = Keep ->
  generateBackupPath host iso destinationPath <> destinationPath ->
  (forall c, In c (content :: first :: others) -> noStrayReturn c) ->
  exists n fs' written,
    mergeEnvFiles host iso answers sourcePaths destinationPath options fs
    = Ok n fs'
    /\ fs' destinationPath = Some written
    /\ written
       = serializeToString
           (mergeSources [mergeSources (map parseEnvFile (first :: others));
                          parseEnvFile content])
    /\ forall K v r c,
         lastVariable (parseEnvFile content) K = Some (BVariable K v r c) ->
         roundTrips v ->
         firstValue (definitionsOf written) K = Some v
         /\ (NoDup (map fst (definitionsOf first)) ->
             forall v', In (K, v') (definitionsOf written) -> v' = v).
Proof.
  intros Hsrc Hd Hk Hb Hcr.
  set (merged := mergeSources (map parseEnvFile (first :: others))).
  destruct (resolveConflicts_keep options answers merged Hk
              (parseEnvFile content) 0) as (n & Hres).
  destruct (mergeEnvFiles_completes host iso answers sourcePaths
              (first :: others) destinationPath options fs content _ n
              Hsrc Hd Hb Hres) as (fs' & Hrun & Hw).
  exists n, fs', (serializeToString (mergeSources [merged; parseEnvFile content])).
  split; [exact Hrun|]. split; [exact Hw|]. split; [reflexivity|].
  intros K v r c Hlast Hrt.
  assert (Hf : exists r', findVariable
                            (mergeSources [merged; parseEnvFile content]) K
                          = Some (BVariable K v r' c)).
  { rewrite mergeSources_pair
      by (apply mergeSources_parsed_not_null || apply parseEnvFile_not_null;
          discriminate).
    unfold mergeTwo. rewrite findVariable_mergeComments.
    exact (mergeVariables_last_wins _ merged K v r c Hlast). }
  destruct Hf as (r' & Hf).
  exact (written_value options answers first others content _ n K v _
           Hcr Hres Hf eq_refl Hrt).
Qed.

Lemma X20_witness :
  let host := mkHost (fun _ => "d") (fun a b => a ++ "/" ++ b)%string
                     (fun _ => true) in
  let fs : Files :=
    fun p => if String.eqb p "a.env"
             then Some ("# sources" ++ Str.nl ++ "A=1" ++ Str.nl ++ "B=2")%string
             else if String.eqb p ".env" then Some "A=mine" else None in
  exists n fs' written,
    mergeEnvFiles host "2026-11-03T08:51:07.123Z" (fun _ => None)
                  ["a.env"] ".env" (mkOptions true Keep) fs = Ok n fs'
    /\ fs' ".env" = Some written
    /\ firstValue (definitionsOf written) "A" = Some "mine"
    /\ forall v', In ("A", v') (definitionsOf written) -> v' = "mine".
Proof.
  intros host fs.
  destruct (X20_keep_strategy_keeps_the_destination host
              "2026-11-03T08:51:07.123Z" (fun _ => None) ["a.env"]
              ("# sources" ++ Str.nl ++ "A=1" ++ Str.nl ++ "B=2")%string []
              ".env" (mkOptions true Keep) fs "A=mine")
    as (n & fs' & written & Hrun & Hw & _ & Hv).
  - repeat constructor.
  - reflexivity.
  - reflexivity.
  - vm_compute. discriminate.
  - intros c [<-|[<-|[]]] t Ht; vm_compute in Ht;
      repeat (destruct Ht as [<-|Ht]; [reflexivity|]); destruct Ht.
  - exists n, fs', written. split; [exact Hrun|]. split; [exact Hw|].
    destruct (Hv "A" "mine" "A=mine" []) as [H1 H2].
    + vm_compute. reflexivity.
    + split; [reflexivity | right; reflexivity].
    + split; [exact H1|]. apply H2. vm_compute.
      repeat constructor; simpl; intuition discriminate.
Defined.

(** X21. With the strategy [overwrite] the sources win.  When the sources
    and the destination are there and no comment text of them ends with a
    carriage return, [mergeEnvFiles] completes; and in the file it leaves,
    read again with [parseEnvFile], the first definition of every key the
    merged sources define has the value the merged sources give the key,
    whatever the destination had, provided that value survives quoting
    and decoding.  When the first source defines no key twice, that
    definition is the only one of the key in the file. *)
Theorem X21_overwrite_strategy_takes_the_sources (host : Host) (iso : string)
    (answers : Answers) (sourcePaths : list string) (first : string)
    (others : list string) (destinationPath : string) (options : MergeOptions)
    (fs : Files) (content : string) :
  Forall2 (fun p c => fs p = Some c) sourcePaths (first :: others) ->
  fs destinationPath = Some content ->
  strategy options = Overwrite ->
  generateBackupPath host iso destinationPath <> destinationPath ->
  (forall c, In c (content :: first :: others) -> noStrayReturn c) ->
  exists n fs' written,
    mergeEnvFiles host iso answers sourcePaths destinationPath options fs
    = Ok n fs'
    /\ fs' destinationPath = Some written
    /\ forall K k0 v r c,
         findVariable (mergeSources (map parseEnvFile (first :: others))) K
         = Some (BVariable k0 v r c) ->
         roundTrips v ->
         firstValue (definitionsOf written) K = Some v
         /\ (NoDup (map fst (definitionsOf first)) ->
             forall v', In (K, v') (definitionsOf written) -> v' = v).
Proof.
  intros Hsrc Hd Ho Hb Hcr.
  set (merged := mergeSources (map parseEnvFile (first :: others))).
  destruct (resolveConflicts_overwrite options answers merged Ho
              (parseEnvFile content) 0) as (resolved & n & Hres & Hvals).
  destruct (mergeEnvFiles_completes host iso answers sourcePaths
              (first :: others) destinationPath options fs content resolved n
              Hsrc Hd Hb Hres) as (fs' & Hrun & Hw).
  exists n, fs', (serializeToString (mergeSources [merged; resolved])).
  split; [exact Hrun|]. split; [exact Hw|].
  intros K k0 v r c Hm Hrt.
  assert (Hf : exists b, findVariable (mergeSources [merged; resolved]) K
                         = Some b /\ valueOf b = Some v).
  { rewrite mergeSources_pair.
    2:{ apply mergeSources_parsed_not_null. discriminate. }
    2:{ apply (resolveConflicts_not_null _ _ _ _ _ _ _ Hres).
        apply parseEnvFile_not_null. }
    destruct (lastVariable resolved K) as [b|] eqn:El.
    - pose proof (lastVariable_hasKey _ _ _ El) as Hb'.
      apply hasKey_true in Hb' as (v' & r' & c' & ->).
      pose proof (Hvals K v' r' c' (lastVariable_In _ _ _ El) _ _ _ _ Hm)
        as ->.
      unfold mergeTwo. rewrite findVariable_mergeComments.
      destruct (mergeVariables_last_wins _ merged K v r' c' El) as (r'' & ->).
      eauto.
    - apply lastVariable_None_iff in El.
      rewrite (mergeTwo_untouched _ _ _ El). rewrite Hm. eauto. }
  destruct Hf as (b & Hf & Hv).
  exact (written_value options answers first others content resolved n K v b
           Hcr Hres Hf Hv Hrt).
Qed.

Lemma X21_witness :
  let host := mkHost (fun _ => "d") (fun a b => a ++ "/" ++ b)%string
                     (fun _ => true) in
  let fs : Files :=
    fun p => if String.eqb p "a.env"
             then Some ("# sources" ++ Str.nl ++ "A=1" ++ Str.nl ++ "B=2")%string
             else if String.eqb p ".env" then Some "A=mine" else None in
  exists n fs' written,
    mergeEnvFiles host "2026-11-03T08:51:07.123Z" (fun _ => None)
                  ["a.env"] ".env" (mkOptions true Overwrite) fs = Ok n fs'
    /\ fs' ".env" = Some written
    /\ firstValue (definitionsOf written) "A" = Some "1"
    /\ forall v', In ("A", v') (definitionsOf written) -> v' = "1".
Proof.
  intros host fs.
  destruct (X21_overwrite_strategy_takes_the_sources host
              "2026-11-03T08:51:07.123Z" (fun _ => None) ["a.env"]
              ("# sources" ++ Str.nl ++ "A=1" ++ Str.nl ++ "B=2")%string []
              ".env" (mkOptions true Overwrite) fs "A=mine")
    as (n & fs' & written & Hrun & Hw & Hv).
  - repeat constructor.
  - reflexivity.
  - reflexivity.
  - vm_compute. discriminate.
  - intros c [<-|[<-|[]]] t Ht; vm_compute in Ht;
      repeat (destruct Ht as [<-|Ht]; [reflexivity|]); destruct Ht.
  - exists n, fs', written. split; [exact Hrun|]. split; [exact Hw|].
    destruct (Hv "A" "A" "1" "A=1" ["# sources"]) as [H1 H2].
    + vm_compute. reflexivity.
    + split; [reflexivity | right; reflexivity].
    + split; [exact H1|]. apply H2. vm_compute.
      repeat constructor; simpl; intuition discriminate.
Defined.

(** X24. A run loses no key and makes none up.  When [mergeEnvFiles]
    completes on a destination that is there, whatever the strategy and
    the answers, and no comment text of the files read ends with a
    carriage return, the file it leaves in the destination, read again with
    [parseEnvFile], defines the keys the destination defined and the keys
    the sources define, and no other. *)
Theorem X24_written_keys (host : Host) (iso : string)
    (answers : Answers) (sourcePaths contents : list string)
    (destinationPath : string) (options : MergeOptions) (fs : Files)
    (content : string) (n : nat) (fs' : Files) :
  Forall2 (fun p c => fs p = Some c) sourcePaths contents ->
  fs destinationPath = Some content ->
  generateBackupPath host iso destinationPath <> destinationPath ->
  (forall c, In c (content :: contents) -> noStrayReturn c) ->
  mergeEnvFiles host iso answers sourcePaths destinationPath options fs
  = Ok n fs' ->
  exists written,
    fs' destinationPath = Some written
    /\ forall K,
         In K (map fst (definitionsOf written))
         <-> In K (map fst (definitionsOf content))
             \/ exists c, In c contents /\ In K (map fst (definitionsOf c)).
Proof.
  intros Hsrc Hd Hb Hcr Hrun.
  set (merged := mergeSources (map parseEnvFile contents)).
  destruct (resolveConflicts options answers merged (parseEnvFile content) 0)
    as [[resolved m]|] eqn:Hres.
  2:{ rewrite (mergeEnvFiles_run host iso answers sourcePaths contents
                 destinationPath options fs Hsrc) in Hrun.
      fold merged in Hrun. rewrite Hd, Hres in Hrun. discriminate. }
  destruct (mergeEnvFiles_completes host iso answers sourcePaths contents
              destinationPath options fs content resolved m Hsrc Hd Hb Hres)
    as (fs'' & Hrun' & Hw).
  rewrite Hrun in Hrun'. injection Hrun' as <- <-.
  exists (serializeToString (mergeSources [merged; resolved])).
  split; [exact Hw|].
  intros K.
  pose proof (run_definitions options answers contents content resolved n
                Hcr Hres) as Hdefs.
  cbv zeta in Hdefs. fold merged in Hdefs.
  rewrite Hdefs, fst_reread, fst_withoutRaw.
  unfold definitionsOf, merged.
  rewrite (run_document_keys contents content resolved K
             (resolveConflicts_keys _ _ _ _ _ _ _ Hres)).
  rewrite fst_withoutRaw.
  split; intros [H|(c & Hc & H)]; [now left | right | now left | right];
    exists c; (split; [exact Hc|]);
    [now rewrite fst_withoutRaw | now rewrite fst_withoutRaw in H].
Qed.

Lemma X24_witness :
  let host := mkHost (fun _ => "d") (fun a b => a ++ "/" ++ b)%string
                     (fun _ => true) in
  let fs : Files :=
    fun p => if String.eqb p "a.env" then Some ("A=1" ++ Str.nl ++ "B=2")%string
             else if String.eqb p ".env"
                  then Some ("# mine" ++ Str.nl ++ "C=3")%string else None in
  exists written,
    filesOf (mergeEnvFiles host "2026-11-03T08:51:07.123Z" (fun _ => None)
               ["a.env"] ".env" (mkOptions false Keep) fs) ".env"
    = Some written
    /\ In "B" (map fst (definitionsOf written))
    /\ In "C" (map fst (definitionsOf written))
    /\ ~ In "D" (map fst (definitionsOf written)).
Proof.
  intros host fs.
  destruct (X24_written_keys host "2026-11-03T08:51:07.123Z" (fun _ => None)
              ["a.env"] [("A=1" ++ Str.nl ++ "B=2")%string] ".env"
              (mkOptions false Keep) fs ("# mine" ++ Str.nl ++ "C=3")%string 0
              (filesOf (mergeEnvFiles host "2026-11-03T08:51:07.123Z"
                          (fun _ => None) ["a.env"] ".env"
                          (mkOptions false Keep) fs)))
    as (written & Hw & Hk).
  - repeat constructor.
  - reflexivity.
  - vm_compute. discriminate.
  - intros c [<-|[<-|[]]] t Ht; vm_compute in Ht;
      repeat (destruct Ht as [<-|Ht]; [reflexivity|]); destruct Ht.
  - reflexivity.
  - exists written. split; [exact Hw|]. repeat split.
    + apply Hk. right. eexists. split; [now left|]. vm_compute. tauto.
    + apply Hk. left. vm_compute. tauto.
    + intros H. apply Hk in H as [H|(c & [<-|[]] & H)]; vm_compute in H;
        intuition discriminate.
Defined.

End WrittenFacts.
